(** * imtjson20: the Value model, the incremental parser and the serializer

    A shallow embedding of [src/imtjson/value.h], [parser.h], [serializer.h]
    and [common.h].  Bytes are [ascii] characters, a [std::string_view] is a
    list of them, fixed-width integers are [Z] with the wrap-around written
    out, and a double is its 64-bit IEEE-754 pattern. *)

From Stdlib Require Import Ascii String.
From Stdlib Require Import List Bool Arith ZArith Lia.
From Stdlib Require Import Sorting.Sorted Sorting.Permutation.
Import ListNotations.

#[local] Set Warnings "-register-all".

Local Open Scope Z_scope.
Local Open Scope list_scope.

(** ** Characters and string views *)

Definition char := ascii.

Definition string_view := list char.

(** The unsigned value of a byte, and the byte of an integer ([static_cast<char>]). *)
Definition code (c : char) : Z := Z.of_N (N_of_ascii c).

Definition chr (z : Z) : char := ascii_of_N (Z.to_N (z mod 256)).

Definition str (s : string) : string_view := list_ascii_of_string s.

Definition DQUOTE : char := "034"%char.

Definition BACKSLASH : char := "092"%char.

Definition NUL : char := "000"%char.

Definition char_eqb (a b : char) : bool := Ascii.eqb a b.

Fixpoint sv_eqb (a b : string_view) : bool :=
  match a, b with
  | [], [] => true
  | x :: a', y :: b' => char_eqb x y && sv_eqb a' b'
  | _, _ => false
  end.

(** [std::string_view::compare]: lexicographic on the unsigned byte values,
    a proper prefix is smaller. *)
Fixpoint sv_compare (a b : string_view) : comparison :=
  match a, b with
  | [], [] => Eq
  | [], _ :: _ => Lt
  | _ :: _, [] => Gt
  | x :: a', y :: b' =>
      match Z.compare (code x) (code y) with
      | Eq => sv_compare a' b'
      | c => c
      end
  end.

Definition sv_ltb (a b : string_view) : bool :=
  match sv_compare a b with Lt => true | _ => false end.

(** ** Logical types and physical storage (value.h 15-23, 186-237) *)

Inductive Type_ : Set :=
| T_undefined | T_null | T_boolean | T_number | T_string | T_array | T_object.

Definition Type_eqb (a b : Type_) : bool :=
  match a, b with
  | T_undefined, T_undefined | T_null, T_null | T_boolean, T_boolean
  | T_number, T_number | T_string, T_string | T_array, T_array
  | T_object, T_object => true
  | _, _ => false
  end.

(** [class Key] (value.h 727-747) wraps a [Value]; sorting, lookup, merging
    and the serializers read it through [get_string()] only.  The model
    keeps these bytes: it represents the keys that hold a string, which are
    the keys the constructors from text build
    ([KeyValue(std::string_view, const Value &)], the initializer list,
    [set_keys]) and the keys both parsers build (they accept a key of type
    string only).  [Key::operator==] compares the wrapped values; for two
    keys that hold strings this is the comparison of their bytes
    ([Key_eqb_string]).  A key made from a value of another type, or
    default-constructed (it holds undefined), differs from the string key
    of the same text for [operator==] alone ([Key_eqb_not_string]) and is
    not represented: what is stated of [operator==] is stated of objects
    whose keys hold strings. *)
Definition Key := string_view.

(** The tagged union.  [V_short] is the inline variant: [storage] is the
    numeric tag ([short_string_0 = 0], [short_number_0 = 16], or-ed with the
    length) and [short_str] the 15-byte buffer.  [V_string_ref] and
    [V_number_ref] keep the borrowed bytes and the 32-bit [sz].
    [custom_type] is an extension point and is not modelled. *)
Inductive Value : Type :=
| V_short (storage : Z) (short_str : list char)
| V_undefined
| V_null
| V_bool_false
| V_bool_true
| V_int32 (v : Z)
| V_uint32 (v : Z)
| V_int64 (v : Z)
| V_uint64 (v : Z)
| V_dnum (bits : Z)
| V_empty_array
| V_empty_object
| V_long_string (long_str : string_view)
| V_long_number (long_str : string_view)
| V_array (items : list Value)
| V_object (items : list (Key * Value))
| V_string_ref (ptr : string_view) (sz : Z)
| V_number_ref (ptr : string_view) (sz : Z).

Definition KeyValue := (Key * Value)%type.

Definition kv_key (kv : KeyValue) : Key := fst kv.

Definition kv_value (kv : KeyValue) : Value := snd kv.

(** [constexpr Value undefined = {}] (value.h 851). *)
Definition undefined : Value := V_undefined.

(** What [Value::visit] hands to the visitor (value.h 779-803): every string
    flavour collapses to a [string_view], both array storages to a
    [Container<Value>], both object storages to a [Container<KeyValue>]. *)
Inductive Alternative : Type :=
| A_string_view (s : string_view)
| A_Undefined
| A_nullptr
| A_bool (b : bool)
| A_int32 (v : Z)
| A_uint32 (v : Z)
| A_int64 (v : Z)
| A_uint64 (v : Z)
| A_double (bits : Z)
| A_Values (c : list Value)
| A_KeyValues (c : list KeyValue).

Definition visit (v : Value) : Alternative :=
  match v with
  | V_short storage short_str =>
      A_string_view (firstn (Z.to_nat (Z.land storage 15)) short_str)
  | V_undefined => A_Undefined
  | V_null => A_nullptr
  | V_bool_false => A_bool false
  | V_bool_true => A_bool true
  | V_int32 x => A_int32 x
  | V_uint32 x => A_uint32 x
  | V_int64 x => A_int64 x
  | V_uint64 x => A_uint64 x
  | V_dnum d => A_double d
  | V_empty_array => A_Values []
  | V_empty_object => A_KeyValues []
  | V_array c => A_Values c
  | V_object c => A_KeyValues c
  | V_long_number s | V_long_string s => A_string_view s
  | V_number_ref p sz | V_string_ref p sz =>
      A_string_view (firstn (Z.to_nat sz) p)
  end.

(** [Value::type] (value.h 901-924). *)
Definition type (v : Value) : Type_ :=
  match v with
  | V_short storage _ =>
      if Z.land storage 240 =? 16 then T_number else T_string
  | V_undefined => T_undefined
  | V_null => T_null
  | V_bool_false | V_bool_true => T_boolean
  | V_int32 _ | V_uint32 _ | V_int64 _ | V_uint64 _ | V_dnum _ => T_number
  | V_empty_array | V_array _ => T_array
  | V_empty_object | V_object _ => T_object
  | V_long_number _ | V_number_ref _ _ => T_number
  | V_long_string _ | V_string_ref _ _ => T_string
  end.

Definition defined (v : Value) : bool :=
  match v with V_undefined => false | _ => true end.

(** [Value::Value(std::string_view, bool)] (value.h 881-898).  The flag
    [constant_evaluated] stands for [std::is_constant_evaluated()]. *)
Definition Value_of_string (constant_evaluated : bool)
           (s : string_view) (is_number : bool) : Value :=
  if (Z.of_nat (length s) <? 15) then
    V_short (Z.lor (if is_number then 16 else 0) (Z.of_nat (length s)))
            (s ++ repeat NUL (15 - length s))
  else if constant_evaluated then
    (if is_number then V_number_ref else V_string_ref)
      s (Z.of_nat (length s) mod 2 ^ 32)
  else
    (if is_number then V_long_number s else V_long_string s).

(** The run-time constructor, as the parser and the tests call it. *)
Definition Value_string (s : string_view) : Value := Value_of_string false s false.

Definition Value_number_string (s : string_view) : Value := Value_of_string false s true.

Definition true_value : string_view := str "true".

Definition false_value : string_view := str "false".

Definition null_value : string_view := str "null".

Definition undefined_value : string_view := str "(undefined)".

(** [Value::get_string] (value.h 1151-1161). *)
Definition get_string (v : Value) : string_view :=
  match visit v with
  | A_string_view a => a
  | A_bool a => if a then true_value else false_value
  | A_nullptr => null_value
  | A_Undefined => undefined_value
  | _ => []
  end.

(** [Value::size] (value.h 1175-1187). *)
Definition size (v : Value) : nat :=
  match visit v with
  | A_Values a => length a
  | A_KeyValues a => length a
  | _ => 0%nat
  end.

(** ** Storage classes *)

(** Which storage the run-time constructor picks. *)
Definition is_inline (v : Value) : bool :=
  match v with V_short _ _ => true | _ => false end.

Definition is_heap_string (v : Value) : bool :=
  match v with V_long_string _ | V_long_number _ => true | _ => false end.

(** ** The order on string views *)

(** Not smaller: the order is total, so [b <= a]. *)
Definition sv_le (a b : string_view) : Prop := sv_compare a b <> Gt.

(** ** Indexed and keyed access (value.h 1022-1069) *)

Definition default_KeyValue : KeyValue := (undefined_value, V_undefined).

Definition key_at (item : list KeyValue) (i : nat) : Key :=
  kv_key (nth i item default_KeyValue).

(** [std::lower_bound(first, last, key, comp)] with [comp(a, b)] comparing the
    entry's key with the searched key: the textbook halving loop over the
    index range [first, first + count).  [count] shrinks at every turn, so
    [length item] turns are enough. *)
Fixpoint lower_bound_loop (fuel : nat) (item : list KeyValue) (key : string_view)
         (first count : nat) : nat :=
  match fuel with
  | O => first
  | S fuel' =>
      if (count =? 0)%nat then first
      else
        let step := (count / 2)%nat in
        let it := (first + step)%nat in
        if sv_ltb (key_at item it) key
        then lower_bound_loop fuel' item key (it + 1)%nat (count - (step + 1))%nat
        else lower_bound_loop fuel' item key first step
  end.

Definition lower_bound (item : list KeyValue) (key : string_view) : nat :=
  lower_bound_loop (length item) item key 0%nat (length item).

(** [Value::operator[](const std::string_view &)]. *)
Definition index_key (v : Value) (key : string_view) : Value :=
  match visit v with
  | A_KeyValues item =>
      let iter := lower_bound item key in
      match nth_error item iter with
      | None => undefined
      | Some kv => if negb (sv_eqb (kv_key kv) key) then undefined else kv_value kv
      end
  | _ => undefined
  end.

(** [Value::operator[](unsigned int)]. *)
Definition index (v : Value) (i : nat) : Value :=
  match visit v with
  | A_KeyValues item =>
      match nth_error item i with None => undefined | Some kv => kv_value kv end
  | A_Values item =>
      match nth_error item i with None => undefined | Some x => x end
  | _ => undefined
  end.

(** The entries an object holds, as the visitor sees them. *)
Definition entries (v : Value) : list KeyValue :=
  match visit v with A_KeyValues c => c | _ => [] end.

Definition has_key (v : Value) (key : string_view) : bool :=
  existsb (fun kv => sv_eqb (kv_key kv) key) (entries v).

(** ** Sorted containers and the binary search *)

Definition key_lt (a b : KeyValue) : Prop := sv_compare (kv_key a) (kv_key b) = Lt.

Definition key_le (a b : KeyValue) : Prop := sv_le (kv_key a) (kv_key b).

(** Ascending by key, duplicates allowed / not allowed. *)
Definition sorted_by_key (l : list KeyValue) : Prop := StronglySorted key_le l.

Definition strictly_sorted (l : list KeyValue) : Prop := StronglySorted key_lt l.

(** The same as decidable checks on the sequence of keys ([keys()] order). *)
Fixpoint nondecreasing (ks : list Key) : bool :=
  match ks with
  | a :: ((b :: _) as r) => negb (sv_ltb b a) && nondecreasing r
  | _ => true
  end.

Fixpoint strictly_increasing (ks : list Key) : bool :=
  match ks with
  | a :: ((b :: _) as r) => sv_ltb a b && strictly_increasing r
  | _ => true
  end.

(** ** Building containers (value.h 926-992, 1237-1254) *)

Fixpoint insert_sorted (x : KeyValue) (l : list KeyValue) : list KeyValue :=
  match l with
  | [] => [x]
  | y :: r => if sv_ltb (kv_key y) (kv_key x) then y :: insert_sorted x r else x :: l
  end.

(** [Value::sort_object] (value.h 979-984): [std::sort] with the comparator
    [a.key.get_string() < b.key.get_string()].  [std::sort] promises a
    permutation ordered by the comparator and says nothing on the relative
    order of entries with equal keys.  The model is the insertion sort: one
    of the results [std::sort] may give, and the only one when no key is
    repeated ([sort_object_unique]).  A statement that names the value a
    sorting constructor builds assumes that no key is repeated; the others
    use only that the result is an ordered permutation. *)
Definition sort_object (c : list KeyValue) : list KeyValue :=
  fold_right insert_sorted [] c.

(** [Value::init_array] / [init_object]: the constructors from a vector or a span. *)
Definition Value_of_Values (arr : list Value) : Value :=
  match arr with [] => V_empty_array | _ => V_array arr end.

Definition Value_of_KeyValues (obj : list KeyValue) : Value :=
  match obj with [] => V_empty_object | _ => V_object (sort_object obj) end.

(** [Value::Value(std::initializer_list<Value>)]: an object iff every element
    is a two-element array whose first element is a string. *)
Definition is_key_value_pair (v : Value) : bool :=
  Type_eqb (type v) T_array && (size v =? 2)%nat && Type_eqb (type (index v 0)) T_string.

Definition Value_of_list (list : list Value) : Value :=
  if forallb is_key_value_pair list then
    V_object (sort_object (map (fun v => (get_string (index v 0), index v 1)) list))
  else
    V_array list.

(** [Value::keys()] through [KeyAccess] (value.h 1307-1353). *)
Definition keys (v : Value) : list KeyValue :=
  match v with V_object c => c | _ => [] end.

(** ** merge_keys (value.h 1355-1398) *)

(** The three loops of [merge_keys] over the two key-ordered sequences:
    on equal keys the entry of [changes] wins, and an undefined value of
    [changes] deletes; what is left of the receiver is copied, what is left
    of [changes] is copied where defined. *)
Fixpoint merge_loop (l1 : list KeyValue) : list KeyValue -> list KeyValue :=
  fix merge_right (l2 : list KeyValue) : list KeyValue :=
    match l1, l2 with
    | [], _ => filter (fun kv => defined (kv_value kv)) l2
    | _, [] => l1
    | itm1 :: r1, itm2 :: r2 =>
        match sv_compare (kv_key itm1) (kv_key itm2) with
        | Lt => itm1 :: merge_loop r1 l2
        | Gt => if defined (kv_value itm2) then itm2 :: merge_right r2
                else merge_right r2
        | Eq => if defined (kv_value itm2) then itm2 :: merge_loop r1 r2
                else merge_loop r1 r2
        end
    end.

Definition merge_keys (this changes : Value) : Value :=
  V_object (merge_loop (keys this) (keys changes)).

(** The claim as the specification words it, on two given objects. *)
Definition merge_keys_claim (a b : Value) : Prop :=
  let r := merge_keys a b in
  (forall k, In k (map kv_key (keys r)) ->
             In k (map kv_key (keys a)) \/ In k (map kv_key (keys b))) /\
  (forall k x, In (k, x) (keys b) -> defined x = true ->
               index_key r k = index_key b k) /\
  (forall k x, In (k, x) (keys b) -> defined x = false ->
               ~ In k (map kv_key (keys r))) /\
  (forall k x, In (k, x) (keys a) -> ~ In k (map kv_key (keys b)) ->
               In (k, x) (keys r)) /\
  (forall k x, In (k, x) (keys b) -> defined x = true ->
               ~ In k (map kv_key (keys a)) -> In (k, x) (keys r)).

(** ** Concrete values used in examples *)

Definition sv_a : string_view := str "a".

Definition sv_b : string_view := str "b".

Definition sv_c : string_view := str "c".

Definition sv_k : string_view := str "k".

(** [{{"k",0},{"k",5}}] and [{{"k",undefined}}], built with the
    initializer-list constructor. *)
Definition dup_k_object : Value :=
  Value_of_list [ V_array [Value_string sv_k; V_int32 0];
                  V_array [Value_string sv_k; V_int32 5] ].

Definition delete_k_object : Value :=
  Value_of_list [ V_array [Value_string sv_k; V_undefined] ].

Definition object_a1_c3 : Value :=
  Value_of_list [ V_array [Value_string sv_a; V_int32 1];
                  V_array [Value_string sv_c; V_int32 3] ].

Definition object_b2_c_undefined : Value :=
  Value_of_list [ V_array [Value_string sv_b; V_int32 2];
                  V_array [Value_string sv_c; V_undefined] ].

(** The claim as the specification words it, on a given object. *)
Definition keys_strictly_increasing_claim (o : Value) : Prop :=
  type o = T_object -> strictly_increasing (map kv_key (keys o)) = true.

(** ** Doubles as bit patterns *)

Definition double_exponent (bits : Z) : Z := Z.land (Z.shiftr bits 52) 2047.

Definition double_mantissa (bits : Z) : Z := Z.land bits (2 ^ 52 - 1).

Definition double_sign (bits : Z) : bool := Z.testbit bits 63.

Definition isnan (bits : Z) : bool :=
  (double_exponent bits =? 2047) && negb (double_mantissa bits =? 0).

Definition isfinite (bits : Z) : bool := negb (double_exponent bits =? 2047).

Definition double_is_zero (bits : Z) : bool :=
  (double_exponent bits =? 0) && (double_mantissa bits =? 0).

(** [v < 0] on a double: sign set, not a NaN, not a zero. *)
Definition double_negative (bits : Z) : bool :=
  double_sign bits && negb (isnan bits) && negb (double_is_zero bits).

(** [-v] on a negative double clears the sign bit. *)
Definition double_abs (bits : Z) : Z := Z.land bits (2 ^ 63 - 1).

(** [v < std::numeric_limits<double>::min()] on a non-negative finite double:
    zero or subnormal. *)
Definition double_below_min (bits : Z) : bool := double_exponent bits =? 0.

(** IEEE equality: false on a NaN, true on the two zeros, else the same bits. *)
Definition double_eqb (a b : Z) : bool :=
  negb (isnan a) && negb (isnan b) &&
  ((a =? b) || (double_is_zero a && double_is_zero b)).

(** ** Value equality (value.h 110-117, 763-765, 1647-1666) *)

(** [Container<T>::operator==]: the sizes, then element by element.  The
    shortcut [_ptr == other._ptr] fires only when both handles share one
    block; the values compared below never share one (a parser result is
    freshly allocated), and an empty container compares equal either way. *)
Definition Container_eqb {T : Type} (eq : T -> T -> bool) : list T -> list T -> bool :=
  fix go (a b : list T) : bool :=
    match a, b with
    | [], [] => true
    | x :: a', y :: b' => eq x y && go a' b'
    | _, _ => false
    end.

Definition leaf_eqb (a b : Alternative) : bool :=
  match a, b with
  | A_string_view x, A_string_view y => sv_eqb x y
  | A_nullptr, A_nullptr => true
  | A_bool x, A_bool y => Bool.eqb x y
  | A_int32 x, A_int32 y => x =? y
  | A_uint32 x, A_uint32 y => x =? y
  | A_int64 x, A_int64 y => x =? y
  | A_uint64 x, A_uint64 y => x =? y
  | A_double x, A_double y => double_eqb x y
  | _, _ => false
  end.

(** [Value::operator==]: false when either side is undefined or the visited
    alternatives differ, else the comparison of the payloads.  Two entries
    are equal when their keys and their values are; the keys hold strings
    (see [Key]) and are compared as such. *)
Fixpoint Value_eqb (a b : Value) {struct a} : bool :=
  match a with
  | V_array c =>
      match visit b with A_Values c' => Container_eqb Value_eqb c c' | _ => false end
  | V_empty_array =>
      match visit b with A_Values c' => Container_eqb (fun _ _ => false) [] c' | _ => false end
  | V_object c =>
      match visit b with
      | A_KeyValues c' =>
          Container_eqb (fun x y => let '(k1, v1) := x in let '(k2, v2) := y in
                                    sv_eqb k1 k2 && Value_eqb v1 v2) c c'
      | _ => false
      end
  | V_empty_object =>
      match visit b with
      | A_KeyValues c' => Container_eqb (fun _ _ => false) [] c'
      | _ => false
      end
  | _ => leaf_eqb (visit a) (visit b)
  end.

(** [Key::operator==] is defaulted (value.h 743): two keys are equal when
    the values they wrap are. *)
Definition Key_eqb (a b : Value) : bool := Value_eqb a b.

(** ** The binary format's tags (common.h) *)

Inductive Format : Set := text | binary.

Definition is_binary (f : Format) : bool :=
  match f with binary => true | text => false end.

Module BinaryType.
Definition mask : Z := 248.
Definition size_mask : Z := 7.
Definition simple : Z := 0.
Definition null : Z := 0.
Definition bool_true : Z := 1.
Definition bool_false : Z := 2.
Definition double_number : Z := 3.
Definition undefined : Z := 7.
Definition p_number : Z := 16.
Definition n_number : Z := 24.
Definition string : Z := 32.
Definition string_number : Z := 40.
Definition array : Z := 48.
Definition object : Z := 56.
End BinaryType.

(** ** The serializer (serializer.h) *)

Definition infinity : string_view := ["226"; "136"; "158"]%char.

Definition neg_infinity : string_view := "-"%char :: infinity.

(** [render_binary_type_size] (serializer.h 426-440): the number of
    non-zero-prefixed bytes of [size] (at least one), the header byte, then
    the bytes, most significant first. *)
Fixpoint count_bytes_loop (i : nat) (tmp count_bytes : Z) : Z :=
  match i with
  | O => count_bytes
  | S i' => count_bytes_loop i' (Z.shiftr tmp 8)
                             (count_bytes + (if 0 <? tmp then 1 else 0))
  end.

Fixpoint emit_bytes (count_bytes : nat) (size : Z) : string_view :=
  match count_bytes with
  | O => []
  | S c => chr (Z.land (Z.shiftr size (Z.of_nat c * 8)) 255) :: emit_bytes c size
  end.

Definition render_binary_type_size (type : Z) (size : Z) : string_view :=
  let count_bytes := Z.max 1 (count_bytes_loop 8 size 0) in
  chr (Z.lor type (count_bytes - 1)) :: emit_bytes (Z.to_nat count_bytes) size.

(** [Serializer::encode] (serializer.h 375-398), one byte at a time.  The
    entries for ['\b'] and ['\r'] are spelled as the source spells them. *)
Definition hex_digit_upper (d : Z) : char :=
  if d <? 10 then chr (48 + d) else chr (55 + d).

Definition encode_char (c : char) : string_view :=
  if char_eqb c DQUOTE then [BACKSLASH; DQUOTE]
  else if char_eqb c BACKSLASH then [BACKSLASH; BACKSLASH]
  else if char_eqb c "008"%char then ["b"%char; BACKSLASH]
  else if char_eqb c "012"%char then [BACKSLASH; "f"%char]
  else if char_eqb c "010"%char then [BACKSLASH; "n"%char]
  else if char_eqb c "013"%char then [BACKSLASH; "f"%char]
  else if char_eqb c "009"%char then [BACKSLASH; "t"%char]
  else if code c <? 32 then
    [BACKSLASH; "u"%char; "0"%char; "0"%char;
     hex_digit_upper (code c / 16); hex_digit_upper (code c mod 16)]
  else [c].

Definition encode (text : string_view) : string_view := flat_map encode_char text.

(** [render_unsigned_number] (serializer.h 258-275): the decimal digits,
    produced last digit first into a buffer of [sizeof(T) * 3] bytes. *)
Fixpoint unsigned_digits (buff : nat) (val : Z) (acc : string_view) : string_view :=
  match buff with
  | O => acc
  | S buff' =>
      if val =? 0 then acc
      else unsigned_digits buff' (val / 10) (chr (val mod 10 + 48) :: acc)
  end.

Definition render_unsigned_number (bytes : nat) (val : Z) : string_view :=
  if val =? 0 then ["0"%char] else unsigned_digits (bytes * 3) val [].

Definition render_item_nullptr (fmt : Format) : string_view :=
  match fmt with
  | text => null_value
  | binary => [chr BinaryType.null]
  end.

Definition render_item_Undefined (fmt : Format) : string_view :=
  match fmt with
  | text => render_item_nullptr text
  | binary => [chr BinaryType.undefined]
  end.

Definition render_item_bool (fmt : Format) (v : bool) : string_view :=
  match fmt with
  | text => if v then true_value else false_value
  | binary => [chr (if v then BinaryType.bool_true else BinaryType.bool_false)]
  end.

Definition render_item_string (fmt : Format) (v : string_view) (type : Type_) : string_view :=
  match fmt with
  | text =>
      if Type_eqb type T_number then v
      else DQUOTE :: encode v ++ [DQUOTE]
  | binary =>
      render_binary_type_size
        (if Type_eqb type T_number then BinaryType.string_number else BinaryType.string)
        (Z.of_nat (length v)) ++ v
  end.

Definition render_key (fmt : Format) (k : Key) : string_view :=
  render_item_string fmt k T_string.

(** Two's complement wrap-around of a [w]-bit signed integer; negating the
    smallest value is undefined in C++ and wraps here. *)
Definition wrap_signed (w : Z) (x : Z) : Z :=
  (x + 2 ^ (w - 1)) mod 2 ^ w - 2 ^ (w - 1).

(** [render_item(const T &, Type)] for an integral [T] of [bytes] bytes
    (serializer.h 278-308). *)
Definition render_item_integral (fmt : Format) (bytes : nat) (is_signed : bool)
           (v : Z) : string_view :=
  let w := Z.of_nat bytes * 8 in
  match fmt with
  | text =>
      if is_signed && (v <? 0)
      then "-"%char :: render_unsigned_number bytes ((- v) mod 2 ^ w)
      else render_unsigned_number bytes v
  | binary =>
      if is_signed && (v <? 0)
      then render_binary_type_size BinaryType.n_number (wrap_signed w (- v) mod 2 ^ 64)
      else render_binary_type_size BinaryType.p_number (v mod 2 ^ 64)
  end.

(** The eight bytes of a double, as the host stores them (least significant
    first on the usual hosts); [bytes_to_double] reads them back. *)
Fixpoint le_bytes (n : nat) (x : Z) : string_view :=
  match n with
  | O => []
  | S n' => chr x :: le_bytes n' (Z.shiftr x 8)
  end.

Fixpoint le_value (l : string_view) : Z :=
  match l with
  | [] => 0
  | c :: l' => code c + 256 * le_value l'
  end.

Section Serializer.

(** The digits the hand-rolled printer gives for a positive normal double
    (serializer.h 342-366) go through [log10], [pow] and [modf]; they are
    taken as given. *)
Variable print_normal_double : Z -> string_view.

(** [render_item(double, Type)] (serializer.h 319-373). *)
Definition render_item_double (fmt : Format) (v : Z) : string_view :=
  match fmt with
  | text =>
      if isnan v then render_item_nullptr text
      else if negb (isfinite v) then
        DQUOTE :: (if double_negative v then neg_infinity else infinity) ++ [DQUOTE]
      else
        let sign := if double_negative v then ["-"%char] else [] in
        let v := if double_negative v then double_abs v else v in
        if double_below_min v then sign ++ ["0"%char]
        else sign ++ print_normal_double v
  | binary => chr BinaryType.double_number :: le_bytes 8 v
  end.

(** What [render_value] appends for a value that is not a container. *)
Definition render_leaf (fmt : Format) (v : Value) : string_view :=
  match visit v with
  | A_string_view s => render_item_string fmt s (type v)
  | A_Undefined => render_item_Undefined fmt
  | A_nullptr => render_item_nullptr fmt
  | A_bool b => render_item_bool fmt b
  | A_int32 x => render_item_integral fmt 4 true x
  | A_uint32 x => render_item_integral fmt 4 false x
  | A_int64 x => render_item_integral fmt 8 true x
  | A_uint64 x => render_item_integral fmt 8 false x
  | A_double d => render_item_double fmt d
  | A_Values _ | A_KeyValues _ => []
  end.

(** A frame of the serializer's stack; a cursor [pos .. end] is the list of
    entries still to render. *)
Inductive SerState : Type :=
| S_Value (v : Value)
| S_StateObject (pos : list KeyValue)
| S_StateArray (pos : list Value).

Definition Render := list SerState -> string_view * list SerState.

Definition emit (s : string_view) (r : string_view * list SerState) :
  string_view * list SerState := (s ++ fst r, snd r).

Definition open_Values (fmt : Format) (size : nat) : string_view :=
  match fmt with
  | text => ["["%char]
  | binary => render_binary_type_size BinaryType.array (Z.of_nat size)
  end.

Definition open_KeyValues (fmt : Format) (size : nat) : string_view :=
  match fmt with
  | text => ["{"%char]
  | binary => render_binary_type_size BinaryType.object (Z.of_nat size)
  end.

(** The loop of [render_item(const Container<Value> &, Type)]
    (serializer.h 159-172): the first element to render, with the cursor
    pushed behind it, or the closing bracket when there is none. *)
Definition scan_Values (fmt : Format) (render_value : Value -> Render)
           (stack : list SerState) : list Value -> string_view * list SerState :=
  fix scan (pos : list Value) : string_view * list SerState :=
    match pos with
    | [] => (match fmt with text => ["]"%char] | binary => [] end, stack)
    | v :: pos' =>
        if is_binary fmt || defined v
        then render_value v (S_StateArray pos' :: stack)
        else scan pos'
    end.

Definition render_item_Values (fmt : Format) (render_value : Value -> Render)
           (v : list Value) (stack : list SerState) : string_view * list SerState :=
  emit (open_Values fmt (length v)) (scan_Values fmt render_value stack v).

(** The loop of [render_item(const Container<KeyValue> &, Type)]
    (serializer.h 182-199). *)
Definition scan_KeyValues (fmt : Format) (render_value : Value -> Render)
           (stack : list SerState) : list KeyValue -> string_view * list SerState :=
  fix scan (pos : list KeyValue) : string_view * list SerState :=
    match pos with
    | [] => (match fmt with text => ["}"%char] | binary => [] end, stack)
    | kv :: pos' =>
        let '(k, v) := kv in
        if is_binary fmt || defined v
        then emit (render_key fmt k ++ match fmt with text => [":"%char] | binary => [] end)
                  (render_value v (S_StateObject pos' :: stack))
        else scan pos'
    end.

Definition render_item_KeyValues (fmt : Format) (render_value : Value -> Render)
           (v : list KeyValue) (stack : list SerState) : string_view * list SerState :=
  emit (open_KeyValues fmt (length v)) (scan_KeyValues fmt render_value stack v).

(** [Serializer::render_value] (serializer.h 140-145): the bytes appended to
    [_out_buff] and the stack afterwards. *)
Fixpoint render_value (fmt : Format) (v : Value) (stack : list SerState) {struct v}
  : string_view * list SerState :=
  match v with
  | V_array c => render_item_Values fmt (render_value fmt) c stack
  | V_empty_array => render_item_Values fmt (fun _ s => ([], s)) [] stack
  | V_object c => render_item_KeyValues fmt (render_value fmt) c stack
  | V_empty_object => render_item_KeyValues fmt (fun _ s => ([], s)) [] stack
  | _ => (render_leaf fmt v, stack)
  end.

(** [Serializer::next] (serializer.h 85-138). *)
Fixpoint next (fmt : Format) (stack : list SerState) : string_view * list SerState :=
  match stack with
  | [] => ([], [])
  | S_Value v :: rest => render_value fmt v rest
  | S_StateObject pos :: rest =>
      (fix scan (pos : list KeyValue) : string_view * list SerState :=
         match pos with
         | [] => emit (match fmt with text => ["}"%char] | binary => [] end)
                      (next fmt rest)
         | kv :: pos' =>
             let '(k, v) := kv in
             match fmt with
             | text =>
                 if negb (defined v) then scan pos'
                 else emit (","%char :: render_key text k ++ [":"%char])
                           (render_value text v (S_StateObject pos' :: rest))
             | binary =>
                 emit (render_key binary k)
                      (render_value binary v (S_StateObject pos' :: rest))
             end
         end) pos
  | S_StateArray pos :: rest =>
      (fix scan (pos : list Value) : string_view * list SerState :=
         match pos with
         | [] => emit (match fmt with text => ["]"%char] | binary => [] end)
                      (next fmt rest)
         | v :: pos' =>
             match fmt with
             | text =>
                 if negb (defined v) then scan pos'
                 else emit [","%char] (render_value text v (S_StateArray pos' :: rest))
             | binary => render_value binary v (S_StateArray pos' :: rest)
             end
         end) pos
  end.

(** [Serializer::read]: the buffer is cleared, [next] fills it. *)
Definition read (fmt : Format) (stack : list SerState) : string_view * list SerState :=
  next fmt stack.

(** The loop of [stringify] / [binarize] (serializer.h 401-423): parts are
    appended until an empty one comes.  [fuel] bounds the number of reads;
    [None] means the loop was still running. *)
Fixpoint read_loop (fmt : Format) (fuel : nat) (stack : list SerState)
         (retval : string_view) : option string_view :=
  match fuel with
  | O => None
  | S fuel' =>
      let '(part, stack') := read fmt stack in
      match part with
      | [] => Some retval
      | _ => read_loop fmt fuel' stack' (retval ++ part)
      end
  end.

Definition serialize (fmt : Format) (fuel : nat) (v : Value) : option string_view :=
  read_loop fmt fuel [S_Value v] [].

Definition stringify (fuel : nat) (v : Value) : option string_view := serialize text fuel v.

Definition binarize (fuel : nat) (v : Value) : option string_view := serialize binary fuel v.

End Serializer.

(** ** Leaves *)

Definition is_leaf (v : Value) : Prop :=
  match v with V_array _ | V_object _ => False | _ => True end.

(** ** What the serializer writes, as one function of the value *)

Section Output.

Variable print_normal_double : Z -> string_view.

Definition close_Values (fmt : Format) : string_view :=
  match fmt with text => ["]"%char] | binary => [] end.

Definition close_KeyValues (fmt : Format) : string_view :=
  match fmt with text => ["}"%char] | binary => [] end.

(** The bytes owed by an array cursor: every remaining element that is
    rendered, each after its separator, then the closing bracket. *)
Definition rest_Values (fmt : Format) (out : Value -> string_view)
  : list Value -> string_view :=
  fix go (pos : list Value) : string_view :=
    match pos with
    | [] => close_Values fmt
    | v :: pos' =>
        match fmt with
        | text => if defined v then ","%char :: out v ++ go pos' else go pos'
        | binary => out v ++ go pos'
        end
    end.

Definition first_Values (fmt : Format) (out : Value -> string_view)
  : list Value -> string_view :=
  fix go (pos : list Value) : string_view :=
    match pos with
    | [] => close_Values fmt
    | v :: pos' =>
        if is_binary fmt || defined v then out v ++ rest_Values fmt out pos' else go pos'
    end.

Definition entry_sep (fmt : Format) : string_view :=
  match fmt with text => [":"%char] | binary => [] end.

Definition rest_KeyValues (fmt : Format) (out : Value -> string_view)
  : list KeyValue -> string_view :=
  fix go (pos : list KeyValue) : string_view :=
    match pos with
    | [] => close_KeyValues fmt
    | kv :: pos' =>
        let '(k, v) := kv in
        match fmt with
        | text =>
            if defined v
            then ","%char :: render_key text k ++ [":"%char] ++ out v ++ go pos'
            else go pos'
        | binary => render_key binary k ++ out v ++ go pos'
        end
    end.

Definition first_KeyValues (fmt : Format) (out : Value -> string_view)
  : list KeyValue -> string_view :=
  fix go (pos : list KeyValue) : string_view :=
    match pos with
    | [] => close_KeyValues fmt
    | kv :: pos' =>
        let '(k, v) := kv in
        if is_binary fmt || defined v
        then render_key fmt k ++ entry_sep fmt ++ out v ++ rest_KeyValues fmt out pos'
        else go pos'
    end.

Fixpoint output (fmt : Format) (v : Value) : string_view :=
  match v with
  | V_array c => open_Values fmt (length c) ++ first_Values fmt (output fmt) c
  | V_empty_array => open_Values fmt 0 ++ close_Values fmt
  | V_object c => open_KeyValues fmt (length c) ++ first_KeyValues fmt (output fmt) c
  | V_empty_object => open_KeyValues fmt 0 ++ close_KeyValues fmt
  | _ => render_leaf print_normal_double fmt v
  end.

(** The bytes a stack still owes. *)
Fixpoint flush (fmt : Format) (stack : list SerState) : string_view :=
  match stack with
  | [] => []
  | S_Value v :: rest => output fmt v ++ flush fmt rest
  | S_StateObject pos :: rest => rest_KeyValues fmt (output fmt) pos ++ flush fmt rest
  | S_StateArray pos :: rest => rest_Values fmt (output fmt) pos ++ flush fmt rest
  end.

End Output.

(** ** A measure for the read loop *)

Fixpoint vsize (v : Value) : nat :=
  match v with
  | V_array c => S (fold_right (fun x n => (vsize x + n)%nat) 0%nat c)
  | V_object c => S (fold_right (fun kv n => (vsize (snd kv) + n)%nat) 0%nat c)
  | _ => 1%nat
  end.

Definition weight_frame (f : SerState) : nat :=
  match f with
  | S_Value v => vsize v
  | S_StateObject pos => S (fold_right (fun kv n => (vsize (snd kv) + n)%nat) 0%nat pos)
  | S_StateArray pos => S (fold_right (fun x n => (vsize x + n)%nat) 0%nat pos)
  end.

Definition weight (stack : list SerState) : nat :=
  fold_right (fun f n => (weight_frame f + n)%nat) 0%nat stack.

Definition is_cursor (f : SerState) : bool :=
  match f with S_Value _ => false | _ => true end.

(** ** Undefined entries in the textual form *)

Definition defined_entries (c : list KeyValue) : list KeyValue :=
  filter (fun kv => defined (kv_value kv)) c.

Fixpoint join_comma (parts : list string_view) : string_view :=
  match parts with
  | [] => []
  | x :: r =>
      match r with
      | [] => x
      | _ => x ++ ","%char :: join_comma r
      end
  end.

(** ["key":value] of one entry. *)
Definition entry_text (print_normal_double : Z -> string_view) (kv : KeyValue)
  : string_view :=
  DQUOTE :: encode (kv_key kv) ++ [DQUOTE] ++
  ":"%char :: output print_normal_double text (kv_value kv).

(** [{"a":1,"b":undefined,"c":3}], as the initializer list builds it. *)
Definition object_a1_b_undefined_c3 : Value :=
  Value_of_list [ V_array [Value_string sv_a; V_int32 1];
                  V_array [Value_string sv_b; V_undefined];
                  V_array [Value_string sv_c; V_int32 3] ].

Definition text_a1_c3 : string_view :=
  str "{" ++ [DQUOTE] ++ str "a" ++ [DQUOTE] ++ str ":1," ++
  [DQUOTE] ++ str "c" ++ [DQUOTE] ++ str ":3}".

(** ** The parser (parser.h) *)

(** [std::isspace] and [std::isdigit] in the "C" locale. *)
Definition isspace (c : char) : bool :=
  (code c =? 32) || ((9 <=? code c) && (code c <=? 13)).

Definition isdigit (c : char) : bool := (48 <=? code c) && (code c <=? 57).

(** [std::equal(beg, end, infinity.begin())]: the run against as many
    bytes of the infinity sign.  A run longer than the three bytes would
    read past them; the comparison is taken to fail there. *)
Fixpoint equal_prefix (s inf : string_view) : bool :=
  match s, inf with
  | [], _ => true
  | c :: s', i :: inf' => char_eqb c i && equal_prefix s' inf'
  | _ :: _, [] => false
  end.

Fixpoint skip_digits (s : string_view) : string_view :=
  match s with
  | c :: s' => if isdigit c then skip_digits s' else s
  | [] => []
  end.

(** [is_valid_json_number] (parser.h 198-254), on the run after each
    advance of [beg]. *)
Definition valid_exponent (s : string_view) : bool :=
  match s with
  | c :: s1 =>
      if char_eqb c "e"%char || char_eqb c "E"%char then
        let s2 := match s1 with
                  | d :: s2' =>
                      if char_eqb d "+"%char || char_eqb d "-"%char then s2' else s1
                  | [] => s1
                  end in
        match s2 with
        | d :: _ =>
            if isdigit d
            then match skip_digits s2 with [] => true | _ => false end
            else false
        | [] => false
        end
      else false
  | [] => true
  end.

Definition valid_fraction (s : string_view) : bool :=
  match s with
  | c :: s1 =>
      if char_eqb c "."%char then
        match s1 with
        | d :: _ => if isdigit d then valid_exponent (skip_digits s1) else false
        | [] => false
        end
      else valid_exponent s
  | [] => true
  end.

Definition is_valid_json_number (s : string_view) : bool :=
  match s with
  | [] => false
  | c :: s' =>
      let s1 := if char_eqb c "-"%char then s' else s in
      match s1 with
      | [] => false
      | d :: s2 =>
          if equal_prefix s1 infinity then true
          else if char_eqb d "0"%char then valid_fraction s2
          else if negb (isdigit d) then false
          else valid_fraction (skip_digits s1)
      end
  end.

(** [_details::hex_to_int] (parser.h 406-415). *)
Definition hex_to_int (hex : char) : Z :=
  let h := code hex in
  if (48 <=? h) && (h <=? 57) then h - 48
  else if (65 <=? h) && (h <=? 70) then h - 65 + 10
  else if (97 <=? h) && (h <=? 102) then h - 97 + 10
  else 0.

(** The string buffer with its two iterators: [rd buf it] is [*it],
    [wr buf out c] is [*out = c]. *)
Definition rd (buf : list char) (i : nat) : char := nth i buf NUL.

Fixpoint wr (buf : list char) (i : nat) (c : char) : list char :=
  match buf, i with
  | [], _ => []
  | _ :: r, O => c :: r
  | x :: r, S i' => x :: wr r i' c
  end.

(** Up to four hex digits, stopping at [end]. *)
Fixpoint read_hex (n : nat) (buf : list char) (it e : nat) (codepoint : Z) : Z * nat :=
  match n with
  | O => (codepoint, it)
  | S n' =>
      if (it =? e)%nat then (codepoint, it)
      else read_hex n' buf (S it) e
                    (Z.lor (Z.shiftl codepoint 4) (hex_to_int (rd buf it)))
  end.

(** The UTF-8 bytes of a code point; the position returned is that of the
    last byte written (the loop's common [++output] follows). *)
Definition write_utf8 (buf : list char) (out : nat) (codepoint : Z) : list char * nat :=
  if codepoint <=? 127 then
    (wr buf out (chr codepoint), out)
  else if codepoint <=? 2047 then
    let buf := wr buf out (chr (Z.lor 192 (Z.land (Z.shiftr codepoint 6) 31))) in
    (wr buf (S out) (chr (Z.lor 128 (Z.land codepoint 63))), S out)
  else if codepoint <=? 65535 then
    let buf := wr buf out (chr (Z.lor 224 (Z.land (Z.shiftr codepoint 12) 15))) in
    let buf := wr buf (S out) (chr (Z.lor 128 (Z.land (Z.shiftr codepoint 6) 63))) in
    (wr buf (S (S out)) (chr (Z.lor 128 (Z.land codepoint 63))), S (S out))
  else if codepoint <=? 1114111 then
    let buf := wr buf out (chr (Z.lor 240 (Z.land (Z.shiftr codepoint 18) 7))) in
    let buf := wr buf (S out) (chr (Z.lor 128 (Z.land (Z.shiftr codepoint 12) 63))) in
    let buf := wr buf (S (S out)) (chr (Z.lor 128 (Z.land (Z.shiftr codepoint 6) 63))) in
    (wr buf (S (S (S out))) (chr (Z.lor 128 (Z.land codepoint 63))), S (S (S out)))
  else (buf, out).

Definition simple_escape (c : char) : option char :=
  if char_eqb c DQUOTE || char_eqb c BACKSLASH || char_eqb c "/"%char then Some c
  else if char_eqb c "b"%char then Some "008"%char
  else if char_eqb c "f"%char then Some "012"%char
  else if char_eqb c "n"%char then Some "010"%char
  else if char_eqb c "r"%char then Some "013"%char
  else if char_eqb c "t"%char then Some "009"%char
  else None.

(** The loop of [decode_json_string] (parser.h 418-492) as the parser
    instantiates it: input and output iterate over the same buffer.  Every
    turn advances [it], so [fuel = end - beg] turns are enough. *)
Fixpoint decode_loop (fuel : nat) (buf : list char) (it out e : nat) : list char * nat :=
  match fuel with
  | O => (buf, out)
  | S fuel' =>
      if (it =? e)%nat then (buf, out)
      else if char_eqb (rd buf it) BACKSLASH then
        let it := S it in
        if (it =? e)%nat then (buf, out)
        else
          let c := rd buf it in
          match simple_escape c with
          | Some x => decode_loop fuel' (wr buf out x) (S it) (S out) e
          | None =>
              if char_eqb c "u"%char then
                let '(codepoint, it1) := read_hex 4 buf (S it) e 0 in
                if (55296 <=? codepoint) && (codepoint <=? 56319) then
                  if (it1 =? e)%nat || negb (char_eqb (rd buf it1) BACKSLASH)
                  then (buf, out)
                  else if (S it1 =? e)%nat || negb (char_eqb (rd buf (S it1)) "u"%char)
                  then (buf, out)
                  else
                    let '(second_codepoint, it2) := read_hex 4 buf (S (S it1)) e 0 in
                    let codepoint :=
                      65536 + Z.shiftl (codepoint - 55296) 10 + (second_codepoint - 56320) in
                    let '(buf', out') := write_utf8 buf out codepoint in
                    decode_loop fuel' buf' it2 (S out') e
                else
                  let '(buf', out') := write_utf8 buf out codepoint in
                  decode_loop fuel' buf' it1 (S out') e
              else
                (* default: nothing is written, the common ++output runs *)
                decode_loop fuel' buf (S it) (S out) e
          end
      else decode_loop fuel' (wr buf out (rd buf it)) (S it) (S out) e
  end.

(** [decode_json_string(data.begin(), data.end(), data.begin())] followed
    by [data.resize(end - data.begin())]. *)
Definition decode_json_string (data : string_view) : string_view :=
  let '(buf, out) := decode_loop (length data) data 0 0 (length data) in
  firstn out buf.

(** The frames of the parser's stack, for both formats. *)
Inductive State : Type :=
| DetectType
| StateString (_escape : bool) (_data : string_view)
| StateNumber (_data : string_view)
| StateDoubleNumber (_data : string_view)
| StateBinNumber (size : Z) (negative : bool) (accum : Z)
| StateArray (_data : list Value)
| StateObject (_reading_key : bool) (key : Key) (_data : list KeyValue)
| StateCheck (what : string_view) (result : Value) (pos : nat)
| StateBinString (is_number : bool) (sz : Z) (data : string_view)
| StateBinArray (sz : Z) (data : list Value)
| StateBinObject (_reading_key : bool) (key : Key) (data : list KeyValue) (sz : Z).

(** The parser: the stack ([_state.back()] is the head), the unread rest of
    the chunk ([_pos .. _end]), the last result and the error flag.  The
    preprocessor is the default one, the identity. *)
Record Parser : Type := mkParser {
  _state : list State;
  _pos : string_view;
  _result : Value;
  _is_error : bool
}.

Definition new_Parser : Parser := mkParser [DetectType] [] V_undefined false.

(** The default [Key] holds an undefined value. *)
Definition default_Key : Key := undefined_value.

(** [v.get()] converted to [std::size_t] ([get_unsigned_long], value.h
    1101-1108).  The parser converts only the length that [StateBinNumber]
    has just read, a [V_uint64]; the conversions of a double and of a
    string go through the C library and are left at zero here. *)
Definition get_unsigned_long (v : Value) : Z :=
  match visit v with
  | A_int32 a | A_uint32 a | A_int64 a | A_uint64 a => a mod 2 ^ 64
  | A_bool false => 0
  | A_bool true => 1
  | _ => 0
  end.

Fixpoint skip_space (pos : string_view) : string_view :=
  match pos with
  | c :: pos' => if isspace c then skip_space pos' else pos
  | [] => []
  end.

Definition is_number_char (c : char) : bool :=
  isdigit c || char_eqb c "+"%char || char_eqb c "-"%char ||
  char_eqb c "e"%char || char_eqb c "E"%char || char_eqb c "."%char.

(** What a [parse_state] leaves.  [More]: it returned [true]; the frames
    given replace the top frame (the frame itself, below what it pushed).
    [Done]: it returned [false]; the frame as it was left, the value it
    assigned to [_result] if any, and whether it set [_is_error].  No path
    of the source pushes a frame or moves [_pos] and then returns [false]
    other than as recorded here. *)
Inductive Step : Type :=
| More (frames : list State) (pos : string_view)
| Done (frame : State) (pos : string_view) (result : option Value) (error : bool).

Section ParseState.

Variable format : Format.

(** [parse_state(DetectType &)], text (parser.h 314-355). *)
Definition parse_DetectType_text (pos : string_view) : Step :=
  match skip_space pos with
  | [] => More [DetectType] []
  | c :: rest =>
      if char_eqb c "["%char then More [StateArray []; DetectType] rest
      else if char_eqb c "{"%char then
        More [StateObject true default_Key []; DetectType] rest
      else if char_eqb c DQUOTE then More [StateString false []; DetectType] rest
      else if char_eqb c "t"%char then
        More [StateCheck true_value V_bool_true 0; DetectType] (c :: rest)
      else if char_eqb c "f"%char then
        More [StateCheck false_value V_bool_false 0; DetectType] (c :: rest)
      else if char_eqb c "n"%char then
        More [StateCheck null_value V_null 0; DetectType] (c :: rest)
      else if isdigit c || char_eqb c "-"%char || char_eqb c "+"%char then
        More [StateNumber []; DetectType] (c :: rest)
      else Done DetectType (c :: rest) None true
  end.

(** [parse_state(DetectType &)], binary (parser.h 356-400). *)
Definition parse_DetectType_binary (pos : string_view) : Step :=
  match pos with
  | [] => More [DetectType] []
  | c :: rest =>
      let type := code c in
      let maj := Z.land type BinaryType.mask in
      let sz := Z.land type BinaryType.size_mask + 1 in
      if maj =? BinaryType.simple then
        if type =? BinaryType.null then Done DetectType rest (Some V_null) false
        else if type =? BinaryType.bool_true then
          Done DetectType rest (Some V_bool_true) false
        else if type =? BinaryType.bool_false then
          Done DetectType rest (Some V_bool_false) false
        else if type =? BinaryType.double_number then
          More [StateDoubleNumber []; DetectType] rest
        else Done DetectType rest (Some V_undefined) false
      else if maj =? BinaryType.p_number then
        More [StateBinNumber sz false 0; DetectType] rest
      else if maj =? BinaryType.n_number then
        More [StateBinNumber sz true 0; DetectType] rest
      else if maj =? BinaryType.string then
        More [StateBinNumber sz false 0; StateBinString false 0 []; DetectType] rest
      else if maj =? BinaryType.string_number then
        More [StateBinNumber sz false 0; StateBinString true 0 []; DetectType] rest
      else if maj =? BinaryType.array then
        More [StateBinNumber sz false 0; StateBinArray 0 []; DetectType] rest
      else if maj =? BinaryType.object then
        More [StateBinNumber sz false 0; StateBinObject false default_Key [] 0;
              DetectType] rest
      else Done DetectType rest None true
  end.

(** [parse_state(StateString &)] (parser.h 495-515). *)
Fixpoint parse_StateString (_escape : bool) (_data : string_view)
         (pos : string_view) : Step :=
  match pos with
  | [] => More [StateString _escape _data] []
  | c :: rest =>
      if negb _escape then
        if char_eqb c DQUOTE then
          let data := decode_json_string _data in
          Done (StateString _escape data) rest (Some (Value_string data)) false
        else
          parse_StateString (char_eqb c BACKSLASH) (_data ++ [c]) rest
      else parse_StateString false (_data ++ [c]) rest
  end.

(** [parse_state(StateArray &)] (parser.h 517-544). *)
Fixpoint parse_StateArray (_data : list Value) (pos : string_view) : Step :=
  match pos with
  | [] => More [StateArray _data] []
  | c :: rest =>
      if negb (isspace c) then
        if char_eqb c ","%char then
          match _data with
          | _ :: _ => More [DetectType; StateArray _data] rest
          | [] => Done (StateArray _data) pos None true
          end
        else if char_eqb c "]"%char then
          Done (StateArray []) rest (Some (Value_of_Values _data)) false
        else
          match _data with
          | [] => More [DetectType; StateArray _data] pos
          | _ :: _ => Done (StateArray _data) pos None true
          end
      else parse_StateArray _data rest
  end.

(** [parse_state(StateObject &)] (parser.h 546-586). *)
Fixpoint parse_StateObject (_reading_key : bool) (key : Key) (_data : list KeyValue)
         (pos : string_view) : Step :=
  let st := StateObject _reading_key key _data in
  match pos with
  | [] => More [st] []
  | c :: rest =>
      if negb (isspace c) then
        if char_eqb c ","%char then
          if _reading_key && negb (match _data with [] => true | _ => false end)
          then More [DetectType; st] rest
          else Done st pos None true
        else if char_eqb c ":"%char then
          if negb _reading_key
          then More [DetectType; st] rest
          else Done st pos None true
        else if char_eqb c "}"%char then
          if _reading_key
          then Done (StateObject _reading_key key []) rest
                    (Some (Value_of_KeyValues _data)) false
          else Done st pos None true
        else
          if _reading_key && (match _data with [] => true | _ => false end)
          then More [DetectType; st] pos
          else Done st pos None true
      else parse_StateObject _reading_key key _data rest
  end.

(** [parse_state(StateCheck &)] (parser.h 588-604). *)
Fixpoint parse_StateCheck (what : string_view) (result : Value) (n : nat)
         (pos : string_view) : Step :=
  match pos with
  | [] => More [StateCheck what result n] []
  | c :: rest =>
      if char_eqb (nth n what NUL) c then
        if (S n =? length what)%nat
        then Done (StateCheck what result (S n)) rest (Some result) false
        else parse_StateCheck what result (S n) rest
      else Done (StateCheck what result n) pos None true
  end.

(** [parse_state(StateNumber &)] (parser.h 606-621).  A byte outside the
    accepted set ends the number when the run is valid; when it is not, the
    loop goes round again with nothing changed.  [fuel] bounds the number of
    turns; [None] means the loop was still running. *)
Fixpoint parse_StateNumber (fuel : nat) (_data : string_view) (pos : string_view)
  : option Step :=
  match fuel with
  | O => None
  | S fuel' =>
      match pos with
      | [] => Some (More [StateNumber _data] [])
      | c :: rest =>
          if is_number_char c then parse_StateNumber fuel' (_data ++ [c]) rest
          else if is_valid_json_number _data
          then Some (Done (StateNumber _data) pos
                          (Some (Value_number_string _data)) false)
          else parse_StateNumber fuel' _data pos
      end
  end.

(** [parse_state(StateDoubleNumber &)] (parser.h 677-689). *)
Fixpoint parse_StateDoubleNumber (_data : string_view) (pos : string_view) : Step :=
  match pos with
  | [] => More [StateDoubleNumber _data] []
  | c :: rest =>
      let data := _data ++ [c] in
      if (8 <=? length data)%nat
      then Done (StateDoubleNumber data) rest (Some (V_dnum (le_value data))) false
      else parse_StateDoubleNumber data rest
  end.

(** The loop of [parse_state(StateBinNumber &)] (parser.h 691-704):
    big-endian accumulation in a 64-bit word. *)
Fixpoint read_BinNumber (size accum : Z) (pos : string_view) : Z * Z * string_view :=
  match pos with
  | [] => (size, accum, [])
  | c :: rest =>
      if size =? 0 then (size, accum, pos)
      else read_BinNumber (size - 1)
                          (Z.lor (Z.shiftl accum 8 mod 2 ^ 64) (code c)) rest
  end.

Definition parse_StateBinNumber (size : Z) (negative : bool) (accum : Z)
           (pos : string_view) : Step :=
  let '(size', accum', pos') := read_BinNumber size accum pos in
  let st := StateBinNumber size' negative accum' in
  if negb (size' =? 0) then More [st] pos'
  else if negative
  then Done st pos' (Some (V_int64 (wrap_signed 64 (- wrap_signed 64 accum')))) false
  else Done st pos' (Some (V_uint64 accum')) false.

(** [parse_state(StateBinString &)] (parser.h 706-716). *)
Fixpoint parse_StateBinString (is_number : bool) (sz : Z) (data : string_view)
         (pos : string_view) : Step :=
  match pos with
  | [] => More [StateBinString is_number sz data] []
  | c :: rest =>
      let data := data ++ [c] in
      if sz <=? Z.of_nat (length data)
      then Done (StateBinString is_number sz data) rest
                (Some (Value_of_string false data is_number)) false
      else parse_StateBinString is_number sz data rest
  end.

(** [parse_state] on the top frame [st]; [None]: the number loop ran out
    of [fuel]. *)
Definition parse_state (fuel : nat) (st : State) (pos : string_view) : option Step :=
  match st with
  | DetectType =>
      Some (match format with
            | text => parse_DetectType_text pos
            | binary => parse_DetectType_binary pos
            end)
  | StateString e d => Some (parse_StateString e d pos)
  | StateNumber d => parse_StateNumber fuel d pos
  | StateDoubleNumber d => Some (parse_StateDoubleNumber d pos)
  | StateBinNumber s n a => Some (parse_StateBinNumber s n a pos)
  | StateArray d => Some (parse_StateArray d pos)
  | StateObject r k d => Some (parse_StateObject r k d pos)
  | StateCheck w r n => Some (parse_StateCheck w r n pos)
  | StateBinString n s d => Some (parse_StateBinString n s d pos)
  | StateBinArray s d => Some (Done st pos (Some (Value_of_Values d)) false)
  | StateBinObject r k d s => Some (Done st pos (Some (Value_of_KeyValues d)) false)
  end.

(** What a [finish_state] leaves ([_pos] is not touched). *)
Inductive Finish : Type :=
| FMore (frames : list State)
| FDone (frame : State) (result : option Value) (error : bool).

(** [finish_state(st, v)] (parser.h 623-654, 672-675, 731-814).  The
    calls [st.data.reserve(st.sz)] of the three sized binary frames change
    the capacity only and are not shown here; where they throw is
    [finish_state_throws] below. *)
Definition finish_state (st : State) (v : Value) : Finish :=
  match st with
  | DetectType => FDone st (Some v) false
  | StateString _ _ | StateCheck _ _ _ | StateNumber _
  | StateDoubleNumber _ | StateBinNumber _ _ _ => FDone st None false
  | StateArray d => FMore [StateArray (d ++ [v])]
  | StateObject reading_key key d =>
      if reading_key then
        if negb (Type_eqb (type v) T_string) then FDone st None true
        else FMore [StateObject false (get_string v) d]
      else FMore [StateObject true key (d ++ [(key, v)])]
  | StateBinString is_number _ data =>
      let sz := get_unsigned_long v in
      if sz =? 0 then FDone (StateBinString is_number sz data) (Some (Value_string [])) false
      else FMore [StateBinString is_number sz data]
  | StateBinArray sz data =>
      if sz =? 0 then
        let sz := get_unsigned_long v in
        if sz =? 0 then FDone (StateBinArray sz data) (Some V_empty_array) false
        else FMore [DetectType; StateBinArray sz data]
      else
        let data := data ++ [v] in
        if Z.of_nat (length data) <? sz then FMore [DetectType; StateBinArray sz data]
        else FDone (StateBinArray sz []) (Some (Value_of_Values data)) false
  | StateBinObject reading_key key data sz =>
      if sz =? 0 then
        let sz := get_unsigned_long v in
        if sz =? 0 then FDone (StateBinObject reading_key key data sz)
                              (Some V_empty_object) false
        else FMore [DetectType; StateBinObject true key data sz]
      else if reading_key then
        if negb (Type_eqb (type v) T_string) then FDone st None true
        else FMore [DetectType; StateBinObject false (get_string v) data sz]
      else
        let data := data ++ [(key, v)] in
        if Z.of_nat (length data) <? sz
        then FMore [DetectType; StateBinObject true key data sz]
        else FDone (StateBinObject false key [] sz) (Some (Value_of_KeyValues data)) false
  end.

Definition assign (r : option Value) (old : Value) : Value :=
  match r with Some v => v | None => old end.

(** The loop [while (!need_more)] of [do_parse_cycle] (parser.h 302-310),
    entered after a call returned [false] with [frame] on top of [rest]. *)
Fixpoint unwind (frame : State) (rest : list State) (pos : string_view)
         (result : Value) (is_error : bool) : bool * Parser :=
  if is_error then (false, mkParser (frame :: rest) pos result true)
  else
    match rest with
    | [] => (false, mkParser [] pos result false)
    | st :: rest' =>
        match finish_state st result with
        | FMore frames => (true, mkParser (frames ++ rest') pos result false)
        | FDone frame' r e => unwind frame' rest' pos (assign r result) e
        end
    end.

(** [Parser::do_parse_cycle] (parser.h 296-311). *)
Definition do_parse_cycle (fuel : nat) (p : Parser) : option (bool * Parser) :=
  match _state p with
  | [] => Some (false, p)
  | st :: rest =>
      match parse_state fuel st (_pos p) with
      | None => None
      | Some (More frames pos) =>
          Some (true, mkParser (frames ++ rest) pos (_result p) (_is_error p))
      | Some (Done frame pos r e) =>
          Some (unwind frame rest pos (assign r (_result p)) (e || _is_error p))
      end
  end.

(** The loop of [Parser::write] (parser.h 274-277).  [fuel] bounds the
    number of turns of this loop and of the number loop inside; [None] means
    the call had not returned. *)
Fixpoint write_loop (fuel : nat) (p : Parser) : option (bool * Parser) :=
  match _pos p with
  | [] => Some (negb (match _state p with [] => true | _ => false end), p)
  | _ :: _ =>
      match fuel with
      | O => None
      | S fuel' =>
          match do_parse_cycle fuel' p with
          | None => None
          | Some (false, p') => Some (false, p')
          | Some (true, p') => write_loop fuel' p'
          end
      end
  end.

(** [Parser::write] (parser.h 270-278). *)
Definition write (fuel : nat) (p : Parser) (text : string_view) : option (bool * Parser) :=
  write_loop fuel (mkParser (_state p) text (_result p) (_is_error p)).

End ParseState.

Definition is_error (p : Parser) : bool := _is_error p.

Definition get_result (p : Parser) : Value :=
  if _is_error p then V_undefined else _result p.

Definition get_unprocessed_data (p : Parser) : string_view := _pos p.

(** [parse] and [unbinarize] (parser.h 816-845): the value, or the
    [ParseError] with its offset. *)
Inductive Parsed : Type :=
| Ok (v : Value)
| ParseError (at_ : nat).

Definition parse_with (format : Format) (fuel : nat) (text : string_view) : option Parsed :=
  match write format fuel new_Parser text with
  | None => None
  | Some (false, p) =>
      if is_error p
      then Some (ParseError (length text - length (get_unprocessed_data p)))
      else Some (Ok (get_result p))
  | Some (true, p) => Some (ParseError (length text))
  end.

Definition parse (fuel : nat) (s : string_view) : option Parsed := parse_with text fuel s.

Definition unbinarize (fuel : nat) (bin : string_view) : option Parsed :=
  parse_with binary fuel bin.

(** ** Returning, stated without fuel *)

(** [parse_state] returns [s]. *)
Definition ParseState (fmt : Format) (st : State) (pos : string_view) (s : Step) : Prop :=
  exists fuel, parse_state fmt fuel st pos = Some s.

(** One turn of [do_parse_cycle] returns [r]. *)
Definition Cycle (fmt : Format) (p : Parser) (r : bool * Parser) : Prop :=
  exists fuel, do_parse_cycle fmt fuel p = Some r.

(** The loop of [write] returns [r]. *)
Definition Writes (fmt : Format) (p : Parser) (r : bool * Parser) : Prop :=
  exists fuel, write_loop fmt fuel p = Some r.

Definition no_frames (p : Parser) : bool :=
  match _state p with [] => true | _ => false end.

(** ** Splitting the input of one call *)

Definition step_app (b : string_view) (s : Step) : Step :=
  match s with
  | More frames pos => More frames (pos ++ b)
  | Done frame pos r e => Done frame (pos ++ b) r e
  end.

(** [s] is what [parse_state] answers on the chunk [a].  On [a ++ b] it
    either answers the same with [b] left unread, or it had run out of
    input in the frame [st'] and goes on there with [b]. *)
Definition Resumes (fmt : Format) (st : State) (a b : string_view) (s : Step) : Prop :=
  ParseState fmt st (a ++ b) (step_app b s) \/
  exists st', s = More [st'] [] /\
              forall s', ParseState fmt st (a ++ b) s' <-> ParseState fmt st' b s'.

(** ** Splitting the input of two calls *)

(** What [write] does first: the chunk becomes the unread rest. *)
Definition set_pos (p : Parser) (chunk : string_view) : Parser :=
  mkParser (_state p) chunk (_result p) (_is_error p).

(** [write] on [chunk] returns [r]. *)
Definition Returns (fmt : Format) (p : Parser) (chunk : string_view)
           (r : bool * Parser) : Prop :=
  exists fuel, write fmt fuel p chunk = Some r.

Definition app_pos (b : string_view) (r : bool * Parser) : bool * Parser :=
  (fst r, set_pos (snd r) (_pos (snd r) ++ b)).

(** What a turn of [do_parse_cycle] makes of the answer of [parse_state]. *)
Definition after_step (rest : list State) (result : Value) (err : bool) (s : Step)
  : bool * Parser :=
  match s with
  | More frames pos => (true, mkParser (frames ++ rest) pos result err)
  | Done frame pos r e => unwind frame rest pos (assign r result) (e || err)
  end.

(** ** Two calls and one: the examples and the claim as worded *)

(** The parser after [write] was given the first three bytes of [[true]]. *)
Definition parser_after_tr : Parser :=
  mkParser [StateCheck true_value V_bool_true 2; DetectType; StateArray []; DetectType]
           [] V_undefined false.

Definition parser_after_true : Parser :=
  mkParser [] [] (V_array [V_bool_true]) false.

(** The parser after [write] was given the byte [x]: the error is set. *)
Definition parser_after_x : Parser :=
  mkParser [DetectType] (str "x") V_undefined true.

(** The property as the specification words it, for a fresh text parser:
    whenever the call on the whole input returns, the two calls on the two
    parts return as well, with its error flag and its result. *)
Definition split_write_claim : Prop :=
  forall (s : string_view) (i : nat) (whole : bool * Parser),
    (i <= length s)%nat ->
    Returns text new_Parser s whole ->
    exists first second,
      Returns text new_Parser (firstn i s) first /\
      Returns text (snd first) (skipn i s) second /\
      is_error (snd second) = is_error (snd whole) /\
      get_result (snd second) = get_result (snd whole).

(** ** The binary format: the bytes of a size *)

Definition count_bytes (size : Z) : Z := Z.max 1 (count_bytes_loop 8 size 0).

(** ** The binary parser, frame by frame *)

(** What the loop of [write] does after a turn that answered [r1]. *)
Definition After (fmt : Format) (r1 r : bool * Parser) : Prop :=
  if fst r1 then Writes fmt (snd r1) r else r = r1.

Definition header_types : list Z :=
  [BinaryType.p_number; BinaryType.n_number; BinaryType.string;
   BinaryType.string_number; BinaryType.array; BinaryType.object].

(** The value [StateBinNumber] leaves for the size it has read. *)
Definition BinNumber_value (negative : bool) (accum : Z) : Value :=
  if negative then V_int64 (wrap_signed 64 (- wrap_signed 64 accum)) else V_uint64 accum.

(** ** The value a parser builds for what a serializer wrote *)

(** A string of [sz] bytes in the binary format: [StateBinString] answers
    the empty string at once when [sz] is zero, whatever the flag. *)
Definition reparsed_string (s : string_view) (is_number : bool) : Value :=
  if Z.of_nat (length s) =? 0 then Value_string [] else Value_of_string false s is_number.

Definition reparsed_integral (bytes : nat) (is_signed : bool) (v : Z) : Value :=
  let w := Z.of_nat bytes * 8 in
  if is_signed && (v <? 0)
  then BinNumber_value true (wrap_signed w (- v) mod 2 ^ 64)
  else BinNumber_value false (v mod 2 ^ 64).

(** The value the binary parser builds from [binarize v]: strings are
    stored afresh, every integer comes back as an unsigned or a negative
    signed 64-bit one, containers are built again (an object is sorted
    again).  The text parser builds the same value from [stringify v] for
    the values it keeps (see [text_exact]). *)
Fixpoint reparsed (v : Value) : Value :=
  match v with
  | V_array c => Value_of_Values (map reparsed c)
  | V_object c => Value_of_KeyValues (map (fun kv => (fst kv, reparsed (snd kv))) c)
  | _ =>
      match visit v with
      | A_string_view s => reparsed_string s (Type_eqb (type v) T_number)
      | A_Undefined => V_undefined
      | A_nullptr => V_null
      | A_bool b => if b then V_bool_true else V_bool_false
      | A_int32 x => reparsed_integral 4 true x
      | A_uint32 x => reparsed_integral 4 false x
      | A_int64 x => reparsed_integral 8 true x
      | A_uint64 x => reparsed_integral 8 false x
      | A_double d => V_dnum (d mod 2 ^ 64)
      | A_Values _ => V_empty_array
      | A_KeyValues _ => V_empty_object
      end
  end.

(** Every length and count fits the 64-bit size of the header. *)
Fixpoint sized (v : Value) : bool :=
  match v with
  | V_array c => (Z.of_nat (length c) <? 2 ^ 64) && forallb sized c
  | V_object c =>
      (Z.of_nat (length c) <? 2 ^ 64) &&
      forallb (fun kv => (Z.of_nat (length (fst kv)) <? 2 ^ 64) && sized (snd kv)) c
  | _ =>
      match visit v with
      | A_string_view s => Z.of_nat (length s) <? 2 ^ 64
      | _ => true
      end
  end.

(** The bytes of [v], in front of any rest and below any frames, are
    read as [reparsed v]. *)
Definition parses (print_normal_double : Z -> string_view) (v : Value) : Prop :=
  forall K rest res r,
    Writes binary (mkParser (DetectType :: K)
                            (output print_normal_double binary v ++ rest) res false) r <->
    After binary (unwind DetectType K rest (reparsed v) false) r.

(** ** Values that the binary format gives back equal *)

(** No undefined and no NaN at any depth, every integer an unsigned or a
    negative signed 64-bit one, and the keys of every object strictly
    increasing. *)
Fixpoint binary_exact (v : Value) : bool :=
  match v with
  | V_array c => forallb binary_exact c
  | V_object c =>
      strictly_increasing (map kv_key c) && forallb (fun kv => binary_exact (snd kv)) c
  | _ =>
      match visit v with
      | A_string_view _ | A_nullptr | A_bool _ => true
      | A_uint64 x => (0 <=? x) && (x <? 2 ^ 64)
      | A_int64 x => (- 2 ^ 63 <=? x) && (x <? 0)
      | A_double d => (0 <=? d) && (d <? 2 ^ 64) && negb (isnan d)
      | A_Values _ | A_KeyValues _ => true
      | A_Undefined | A_int32 _ | A_uint32 _ => false
      end
  end.

(** ** The binary round trip: the claim as worded and an example *)

(** The property as the specification words it, for one value: the bytes
    [binarize] gives are read back by [unbinarize] as a value that compares
    equal. *)
Definition binary_roundtrip_claim (v : Value) : Prop :=
  forall (pd : Z -> string_view) (fuel : nat) (bytes : string_view),
    binarize pd fuel v = Some bytes ->
    exists fuel' v', unbinarize fuel' bytes = Some (Ok v') /\ Value_eqb v' v = true.

(** An object with a string, the largest unsigned and a negative signed
    64-bit integer, a double (1.5) and an empty array. *)
Definition exact_example : Value :=
  V_object [(sv_a, V_array [V_null; Value_string (str "x");
                            V_uint64 18446744073709551615; V_int64 (-5)]);
            (sv_b, V_dnum 4609434218613702656);
            (sv_c, V_empty_array)].

(** ** The text format read back: strings *)

(** The bytes [encode] writes so that the decoder gives them back: all but
    the backspace and the carriage return. *)
Definition encodable_char (c : char) : bool :=
  negb (char_eqb c "008"%char) && negb (char_eqb c "013"%char).

Definition encodable (s : string_view) : bool := forallb encodable_char s.

(** Neither the quote nor the backslash: [StateString] just appends it. *)
Definition is_plain (x : char) : bool :=
  negb (char_eqb x DQUOTE) && negb (char_eqb x BACKSLASH).

Definition hex4 (a b c d : char) : Z :=
  Z.lor (Z.shiftl
           (Z.lor (Z.shiftl
                     (Z.lor (Z.shiftl (Z.lor (Z.shiftl 0 4) (hex_to_int a)) 4)
                            (hex_to_int b)) 4)
                  (hex_to_int c)) 4)
        (hex_to_int d).

(** The three shapes of [encode_char c]: the byte itself, a two-byte
    escape that [simple_escape] maps back, or [\u00XX] with the code of
    the byte. *)
Definition encoding_shape (c : char) : bool :=
  match encode_char c with
  | [x] => char_eqb x c && is_plain x
  | [b; x] =>
      char_eqb b BACKSLASH &&
      match simple_escape x with Some y => char_eqb y c | None => false end
  | [b; u; z1; z2; h1; h2] =>
      char_eqb b BACKSLASH && char_eqb u "u"%char &&
      is_plain z1 && is_plain z2 && is_plain h1 && is_plain h2 &&
      (hex4 z1 z2 h1 h2 =? code c) && (code c <=? 127)
  | _ => false
  end.

(** ** The text format read back: the first byte of a value *)

Definition value_start (c : char) : bool :=
  char_eqb c DQUOTE || char_eqb c "["%char || char_eqb c "{"%char ||
  char_eqb c "t"%char || char_eqb c "f"%char || char_eqb c "n"%char ||
  isdigit c || char_eqb c "-"%char.

(** The values that the text format gives back equal: no undefined, no
    integer and no double (a number comes back as the string of its
    digits); numbers kept as strings hold a valid JSON number; strings and
    keys are free of the two bytes [encode] misspells; the keys of every
    object are strictly increasing. *)
Fixpoint text_exact (v : Value) : bool :=
  match v with
  | V_array c => forallb text_exact c
  | V_object c =>
      strictly_increasing (map kv_key c) &&
      forallb (fun kv => encodable (fst kv) && text_exact (snd kv)) c
  | _ =>
      match visit v with
      | A_string_view s =>
          if Type_eqb (type v) T_number
          then is_valid_json_number s && forallb is_number_char s
          else encodable s
      | A_nullptr | A_bool _ | A_Values _ | A_KeyValues _ => true
      | _ => false
      end
  end.

(** ** The text parser, value by value *)

(** A rest that ends a number: it begins with a byte the number state
    does not take. *)
Definition ends_number (rest : string_view) : Prop :=
  exists c rest', rest = c :: rest' /\ is_number_char c = false.

(** The text of [v], in front of a rest that ends it and below any
    frames, is read as [reparsed v]. *)
Definition parses_text (print_normal_double : Z -> string_view) (v : Value) : Prop :=
  forall K rest res r,
    (Type_eqb (type v) T_number = true -> ends_number rest) ->
    (Writes text (mkParser (DetectType :: K)
                           (output print_normal_double text v ++ rest) res false) r <->
     After text (unwind DetectType K rest (reparsed v) false) r).

(** ** The text round trip: the claim as worded and an example *)

(** The property as the specification words it, for one value: the text
    [stringify] gives is read back by [parse] as a value that compares
    equal. *)
Definition text_roundtrip_claim (v : Value) : Prop :=
  forall (pd : Z -> string_view) (fuel : nat) (txt : string_view),
    stringify pd fuel v = Some txt ->
    exists fuel' v', parse fuel' txt = Some (Ok v') /\ Value_eqb v' v = true.

(** An object with a string that needs every kind of escape, a number
    kept as a string, the three literals and nested containers. *)
Definition text_example : Value :=
  V_object [(sv_a, V_array [V_null; V_bool_true; V_bool_false;
                            Value_number_string (str "-12.5e+3")]);
            (sv_b, Value_string (DQUOTE :: BACKSLASH :: "010"%char :: "001"%char
                                        :: str "x/"));
            (sv_c, V_object [(sv_k, V_empty_array)])].

(** ** Further operations on containers (value.h 1400-1407, 1523-1576, 1237-1254) *)

(** [Value::set_keys] (value.h 1400-1407): the pairs become entries, the
    entries are sorted, and the object they make is merged into the
    receiver. *)
Definition set_keys (this : Value) (items : list (string_view * Value)) : Value :=
  let kv := map (fun kv => (fst kv, snd kv)) items in
  let tmp := V_object (sort_object kv) in
  merge_keys this tmp.

(** [Value::get_array] and [Value::get_object] (value.h 1523-1533): the
    container of the [array] or [object] storage, else the empty one. *)
Definition get_array (v : Value) : list Value :=
  match v with V_array c => c | _ => [] end.

Definition get_object (v : Value) : list KeyValue :=
  match v with V_object c => c | _ => [] end.

(** [Value::append(Value)] (value.h 1555-1565): both contents copied into a
    new block, which the receiver then holds with the [array] storage. *)
Definition append (this array : Value) : Value :=
  V_array (get_array this ++ get_array array).

(** The element [{key, value}] of an initializer list. *)
Definition pair_item (kv : string_view * Value) : Value :=
  V_array [Value_string (fst kv); snd kv].

(** ** Integers in the textual form *)

(** The number that a run of decimal digits denotes. *)
Definition decimal_value (s : string_view) : Z :=
  fold_left (fun acc c => 10 * acc + (code c - 48)) s 0.

(** The values an integral alternative of [bytes] bytes holds. *)
Definition in_range (bytes : nat) (is_signed : bool) (v : Z) : Prop :=
  let w := Z.of_nat bytes * 8 in
  if is_signed then - 2 ^ (w - 1) <= v < 2 ^ (w - 1) else 0 <= v < 2 ^ w.

(** ** The grammar of a JSON number *)

(** One or more decimal digits. *)
Definition digits (s : string_view) : Prop := s <> [] /\ forallb isdigit s = true.

(** Nothing, or a byte that is not a digit in front. *)
Definition stops_digits (s : string_view) : Prop :=
  s = [] \/ exists c r, s = c :: r /\ isdigit c = false.

(** [int = zero / ( digit1-9 *DIGIT )], [frac = decimal-point 1*DIGIT] and
    [exp = e [ minus / plus ] 1*DIGIT] of RFC 8259, each possibly absent
    where the grammar makes it optional. *)
Definition json_int (s : string_view) : Prop :=
  s = ["0"%char] \/
  exists d r, s = d :: r /\ isdigit d = true /\ d <> "0"%char /\ forallb isdigit r = true.

Definition json_frac (s : string_view) : Prop :=
  s = [] \/ exists f, s = "."%char :: f /\ digits f.

Definition json_exp (s : string_view) : Prop :=
  s = [] \/
  exists e sg ds,
    s = e :: sg ++ ds /\ (e = "e"%char \/ e = "E"%char) /\
    (sg = [] \/ sg = ["+"%char] \/ sg = ["-"%char]) /\ digits ds.

(** [number = [ minus ] int [ frac ] [ exp ]]. *)
Definition json_number (s : string_view) : Prop :=
  exists sg i f e,
    s = sg ++ i ++ f ++ e /\ (sg = [] \/ sg = ["-"%char]) /\
    json_int i /\ json_frac f /\ json_exp e.

(** ** filter and map (value.h 1444-1510) *)

(** What a range-based [for] over a value visits ([begin()], [end()] and
    the iterator, value.h 1256-1300): the elements of the [array] storage,
    the values of the entries of the [object] storage, nothing otherwise. *)
Definition elements (v : Value) : list Value :=
  match v with
  | V_array c => c
  | V_object c => map kv_value c
  | _ => []
  end.

(** [*iter = x] on the block [cont]; the loops below never store past the
    [size()] slots the block was created with. *)
Fixpoint store {T : Type} (cont : list T) (iter : nat) (x : T) : list T :=
  match cont, iter with
  | [], _ => []
  | _ :: r, O => x :: r
  | y :: r, S i => y :: store r i x
  end.

(** The loop that [filter] and [map] share: what [select] keeps of an item
    of [src] is stored at [iter], which then advances. *)
Fixpoint copy_selected {A B : Type} (select : A -> option B) (src : list A)
         (cont : list B) (iter : nat) : list B * nat :=
  match src with
  | [] => (cont, iter)
  | v :: src' =>
      match select v with
      | Some w => copy_selected select src' (store cont iter w) (S iter)
      | None => copy_selected select src' cont iter
      end
  end.

(** [filter] with a predicate on values (value.h 1444-1453): a block of
    [size()] default values, the loop, [set_size(iter)]. *)
Definition filter_Values (fn : Value -> bool) (this : Value) : Value :=
  let cont := repeat V_undefined (size this) in
  let '(cont, iter) :=
    copy_selected (fun v => if fn v then Some v else None) (elements this) cont 0 in
  V_array (firstn iter cont).

(** [filter] with a predicate on entries (value.h 1454-1463): the block
    keeps the size it was created with. *)
Definition filter_KeyValues (fn : KeyValue -> bool) (this : Value) : Value :=
  let cont := repeat default_KeyValue (size this) in
  let '(cont, _) :=
    copy_selected (fun v => if fn v then Some v else None) (keys this) cont 0 in
  V_object cont.

(** [map] from values to values (value.h 1465-1475). *)
Definition map_Values (fn : Value -> Value) (this : Value) : Value :=
  let cont := repeat V_undefined (size this) in
  let '(cont, iter) :=
    copy_selected (fun v => let w := fn v in if defined w then Some w else None)
                  (elements this) cont 0 in
  V_array (firstn iter cont).

(** [map] from entries to values (value.h 1476-1486). *)
Definition map_KeyValues_to_Values (fn : KeyValue -> Value) (this : Value) : Value :=
  let cont := repeat V_undefined (size this) in
  let '(cont, iter) :=
    copy_selected (fun v => let w := fn v in if defined w then Some w else None)
                  (keys this) cont 0 in
  V_array (firstn iter cont).

(** [map] from entries to entries (value.h 1487-1497). *)
Definition map_KeyValues (fn : KeyValue -> KeyValue) (this : Value) : Value :=
  let cont := repeat default_KeyValue (size this) in
  let '(cont, _) :=
    copy_selected (fun v => let w := fn v in
                            if defined (kv_value w) then Some w else None)
                  (keys this) cont 0 in
  V_object cont.

(** [map] from values to entries (value.h 1498-1508). *)
Definition map_Values_to_KeyValues (fn : Value -> KeyValue) (this : Value) : Value :=
  let cont := repeat default_KeyValue (size this) in
  let '(cont, _) :=
    copy_selected (fun v => let w := fn v in
                            if defined (kv_value w) then Some w else None)
                  (elements this) cont 0 in
  V_object cont.

(** The items that [select] keeps, in order. *)
Definition selected {A B : Type} (select : A -> option B) (src : list A) : list B :=
  flat_map (fun v => match select v with Some w => [w] | None => [] end) src.

(** ** The unread rest *)

(** Where a [parse_state] left [_pos]. *)
Definition step_pos (s : Step) : string_view :=
  match s with
  | More _ pos => pos
  | Done _ pos _ _ => pos
  end.

(** [b] is what is left of [a] after some bytes were read. *)
Definition rest_of (a b : string_view) : Prop := exists read, a = read ++ b.

(** ** The binary parser always returns *)

(** The frames that a binary parser pushes. *)
Definition is_binary_frame (st : State) : bool :=
  match st with
  | DetectType | StateDoubleNumber _ | StateBinNumber _ _ _ | StateBinString _ _ _
  | StateBinArray _ _ | StateBinObject _ _ _ _ => true
  | _ => false
  end.

Definition binary_frames (p : Parser) : bool := forallb is_binary_frame (_state p).

(** The top frame reads at least one byte when there is one. *)
Definition reads_a_byte (p : Parser) : bool :=
  match _state p with
  | DetectType :: _ | StateDoubleNumber _ :: _ | StateBinString _ _ _ :: _ => true
  | StateBinNumber size _ _ :: _ => negb (size =? 0)
  | _ => false
  end.

(** What a binary frame on top answers on a chunk that is not empty: it
    has read a byte unless it is a container frame or a number frame with
    nothing left to read, and when it wants more the chunk is used up or
    a frame that reads is on top. *)
Definition binary_step (st : State) (c : char) (rest : string_view) (s : Step) : Prop :=
  match s with
  | More frames pos =>
      forallb is_binary_frame frames = true /\
      (length pos < S (length rest))%nat /\
      (pos = [] \/ reads_a_byte (mkParser frames [] V_undefined false) = true)
  | Done frame pos _ _ =>
      is_binary_frame frame = true /\
      (length pos <= S (length rest))%nat /\
      (reads_a_byte (mkParser [st] [] V_undefined false) = true ->
       (length pos < S (length rest))%nat)
  end.

(** What bounds the turns that the loop of [write] still makes. *)
Definition turns_left (p : Parser) : nat :=
  2 * length (_pos p) + (if reads_a_byte p then 0 else 1).

(** ** What the text parser builds from the text of any value *)

(** [in_range] as a check. *)
Definition in_rangeb (bytes : nat) (is_signed : bool) (v : Z) : bool :=
  let w := Z.of_nat bytes * 8 in
  if is_signed then (- 2 ^ (w - 1) <=? v) && (v <? 2 ^ (w - 1))
  else (0 <=? v) && (v <? 2 ^ w).

(** A text that the number state reads to its end and accepts. *)
Definition number_text (s : string_view) : bool :=
  is_valid_json_number s && forallb is_number_char s.

(** The values whose text the parser reads to the end: strings and keys
    free of the two bytes [encode] misspells, numbers kept as strings that
    hold a valid JSON number, integers within the range of their type,
    doubles that are written as [null], as an infinity or as a valid JSON
    number, and containers of such values; undefined values are allowed
    everywhere. *)
Fixpoint text_readable (print_normal_double : Z -> string_view) (v : Value) : bool :=
  match v with
  | V_array c => forallb (text_readable print_normal_double) c
  | V_object c =>
      forallb (fun kv => (if defined (snd kv) then encodable (fst kv) else true) &&
                         text_readable print_normal_double (snd kv)) c
  | _ =>
      match visit v with
      | A_string_view s =>
          if Type_eqb (type v) T_number then number_text s else encodable s
      | A_int32 x => in_rangeb 4 true x
      | A_uint32 x => in_rangeb 4 false x
      | A_int64 x => in_rangeb 8 true x
      | A_uint64 x => in_rangeb 8 false x
      | A_double d =>
          isnan d || negb (isfinite d) ||
          number_text (render_item_double print_normal_double text d)
      | _ => true
      end
  end.

(** The value the text parser builds from [stringify v]: a number comes
    back as the string of its text, a NaN and an undefined value as
    [null], an infinity as a string, and a container without its undefined
    members (an object is sorted again). *)
Fixpoint text_reparsed (print_normal_double : Z -> string_view) (v : Value) : Value :=
  match v with
  | V_array c =>
      Value_of_Values
        ((fix go (l : list Value) : list Value :=
            match l with
            | [] => []
            | x :: l' =>
                if defined x then text_reparsed print_normal_double x :: go l' else go l'
            end) c)
  | V_object c =>
      Value_of_KeyValues
        ((fix go (l : list KeyValue) : list KeyValue :=
            match l with
            | [] => []
            | kv :: l' =>
                if defined (snd kv)
                then (fst kv, text_reparsed print_normal_double (snd kv)) :: go l'
                else go l'
            end) c)
  | _ =>
      match visit v with
      | A_string_view s =>
          if Type_eqb (type v) T_number then Value_number_string s else Value_string s
      | A_Undefined | A_nullptr => V_null
      | A_bool b => if b then V_bool_true else V_bool_false
      | A_int32 x => Value_number_string (render_item_integral text 4 true x)
      | A_uint32 x => Value_number_string (render_item_integral text 4 false x)
      | A_int64 x => Value_number_string (render_item_integral text 8 true x)
      | A_uint64 x => Value_number_string (render_item_integral text 8 false x)
      | A_double d =>
          if isnan d then V_null
          else if negb (isfinite d)
               then Value_string (if double_negative d then neg_infinity else infinity)
               else Value_number_string (render_item_double print_normal_double text d)
      | A_Values _ => V_empty_array
      | A_KeyValues _ => V_empty_object
      end
  end.

(** [[1,undefined,-2,"x"]] with a NaN and an infinity in an object. *)
Definition readable_example : Value :=
  V_array [V_int32 1; V_undefined; V_int64 (-2); Value_string (str "x");
           V_object [(sv_a, V_dnum 9221120237041090560); (sv_b, V_undefined);
                     (sv_c, V_dnum 9218868437227405312)]].

(** ** Escape sequences in strings *)

(** What stands between the quotes of a JSON string: a byte as it is, a
    two-byte escape, [\uXXXX], or a pair of them for a code point above
    [U+FFFF]. *)
Inductive Escape : Type :=
| Plain (c : char)
| Simple (x : char)
| Unicode (a b c d : char)
| Surrogates (a b c d e f g h : char).

Definition escape_text (i : Escape) : string_view :=
  match i with
  | Plain c => [c]
  | Simple x => [BACKSLASH; x]
  | Unicode a b c d => [BACKSLASH; "u"%char; a; b; c; d]
  | Surrogates a b c d e f g h =>
      [BACKSLASH; "u"%char; a; b; c; d; BACKSLASH; "u"%char; e; f; g; h]
  end.

Definition is_hex_digit (c : char) : bool :=
  isdigit c || ((65 <=? code c) && (code c <=? 70)) ||
  ((97 <=? code c) && (code c <=? 102)).

Definition high_surrogate (cp : Z) : bool := (55296 <=? cp) && (cp <=? 56319).

Definition low_surrogate (cp : Z) : bool := (56320 <=? cp) && (cp <=? 57343).

(** The code point that a pair of surrogates stands for. *)
Definition surrogate_pair (hi lo : Z) : Z := 65536 + (hi - 55296) * 1024 + (lo - 56320).

(** The UTF-8 form of a code point up to [U+10FFFF] (RFC 3629, section 3),
    by division. *)
Definition utf8 (cp : Z) : string_view :=
  if cp <? 128 then [chr cp]
  else if cp <? 2048 then [chr (192 + cp / 64); chr (128 + cp mod 64)]
  else if cp <? 65536 then
    [chr (224 + cp / 4096); chr (128 + (cp / 64) mod 64); chr (128 + cp mod 64)]
  else
    [chr (240 + cp / 262144); chr (128 + (cp / 4096) mod 64);
     chr (128 + (cp / 64) mod 64); chr (128 + cp mod 64)].

(** Several bytes written in a row from [out] on. *)
Fixpoint wr_all (buf : list char) (out : nat) (val : list char) : list char :=
  match val with
  | [] => buf
  | x :: val' => wr_all (wr buf out x) (S out) val'
  end.

(** The bytes an escape sequence stands for. *)
Definition escape_value (i : Escape) : string_view :=
  match i with
  | Plain c => [c]
  | Simple x => match simple_escape x with Some y => [y] | None => [] end
  | Unicode a b c d => utf8 (hex4 a b c d)
  | Surrogates a b c d e f g h => utf8 (surrogate_pair (hex4 a b c d) (hex4 e f g h))
  end.

(** The sequences the grammar allows, and a lone low surrogate, which is
    written like any other code point of three bytes. *)
Definition well_formed (i : Escape) : bool :=
  match i with
  | Plain c => is_plain c
  | Simple x => match simple_escape x with Some _ => true | None => false end
  | Unicode a b c d =>
      is_hex_digit a && is_hex_digit b && is_hex_digit c && is_hex_digit d &&
      negb (high_surrogate (hex4 a b c d))
  | Surrogates a b c d e f g h =>
      is_hex_digit a && is_hex_digit b && is_hex_digit c && is_hex_digit d &&
      is_hex_digit e && is_hex_digit f && is_hex_digit g && is_hex_digit h &&
      high_surrogate (hex4 a b c d) && low_surrogate (hex4 e f g h)
  end.

(** The text of an escape sequence never holds a bare quote. *)
Definition string_body (items : list Escape) : string_view := flat_map escape_text items.

Definition string_bytes (items : list Escape) : string_view := flat_map escape_value items.

(** [a "A" U+00E9 U+20AC U+1F600 newline]. *)
Definition escapes_example : list Escape :=
  [Plain "a"%char; Unicode "0"%char "0"%char "4"%char "1"%char;
   Unicode "0"%char "0"%char "e"%char "9"%char;
   Unicode "2"%char "0"%char "A"%char "C"%char;
   Surrogates "D"%char "8"%char "3"%char "D"%char "D"%char "E"%char "0"%char "0"%char;
   Simple "n"%char].

(** ** White space between the tokens *)

(** The text of a value with the white space [ws] in front of every token
    inside it: as [rest_Values], [first_Values], [rest_KeyValues],
    [first_KeyValues] and [output] write it, [ws] added. *)
Definition rest_Values_spaced (ws : string_view) (out : Value -> string_view)
  : list Value -> string_view :=
  fix go (pos : list Value) : string_view :=
    match pos with
    | [] => ws ++ ["]"%char]
    | v :: pos' =>
        if defined v then ws ++ ","%char :: ws ++ out v ++ go pos' else go pos'
    end.

Definition first_Values_spaced (ws : string_view) (out : Value -> string_view)
  : list Value -> string_view :=
  fix go (pos : list Value) : string_view :=
    match pos with
    | [] => ws ++ ["]"%char]
    | v :: pos' =>
        if defined v then ws ++ out v ++ rest_Values_spaced ws out pos' else go pos'
    end.

Definition entry_spaced (ws : string_view) (out : Value -> string_view)
           (k : Key) (v : Value) : string_view :=
  ws ++ render_key text k ++ ws ++ ":"%char :: ws ++ out v.

Definition rest_KeyValues_spaced (ws : string_view) (out : Value -> string_view)
  : list KeyValue -> string_view :=
  fix go (pos : list KeyValue) : string_view :=
    match pos with
    | [] => ws ++ ["}"%char]
    | (k, v) :: pos' =>
        if defined v then ws ++ ","%char :: entry_spaced ws out k v ++ go pos'
        else go pos'
    end.

Definition first_KeyValues_spaced (ws : string_view) (out : Value -> string_view)
  : list KeyValue -> string_view :=
  fix go (pos : list KeyValue) : string_view :=
    match pos with
    | [] => ws ++ ["}"%char]
    | (k, v) :: pos' =>
        if defined v then entry_spaced ws out k v ++ rest_KeyValues_spaced ws out pos'
        else go pos'
    end.

Fixpoint spaced_body (print_normal_double : Z -> string_view) (ws : string_view)
         (v : Value) : string_view :=
  match v with
  | V_empty_array => "["%char :: ws ++ ["]"%char]
  | V_empty_object => "{"%char :: ws ++ ["}"%char]
  | V_array c =>
      "["%char :: first_Values_spaced ws (spaced_body print_normal_double ws) c
  | V_object c =>
      "{"%char :: first_KeyValues_spaced ws (spaced_body print_normal_double ws) c
  | _ => render_leaf print_normal_double text v
  end.

Definition spaced (print_normal_double : Z -> string_view) (ws : string_view)
           (v : Value) : string_view :=
  ws ++ spaced_body print_normal_double ws v.

(** The text of [v] with [ws] between its tokens, in front of a rest that
    ends it and below any frames, is read as [text_reparsed v]. *)
Definition reads_spaced (print_normal_double : Z -> string_view) (ws : string_view)
           (v : Value) : Prop :=
  forall K rest res r,
    (Type_eqb (type v) T_number = true -> ends_number rest) ->
    (Writes text (mkParser (DetectType :: K)
                           (spaced_body print_normal_double ws v ++ rest) res false) r <->
     After text (unwind DetectType K rest (text_reparsed print_normal_double v) false) r).

(** ** The layout of the binary format *)

(** The number that bytes denote, most significant byte first. *)
Definition be_value (l : string_view) : Z :=
  fold_left (fun acc c => 256 * acc + code c) l 0.

(** [Value::Value(Type)] (value.h 1009-1020): the union is zeroed, the
    storage picked by the type. *)
Definition Value_of_Type (t : Type_) : Value :=
  match t with
  | T_undefined => V_undefined
  | T_string => V_short 0 (repeat NUL 15)
  | T_number => V_int32 0
  | T_null => V_null
  | T_boolean => V_bool_false
  | T_array => V_empty_array
  | T_object => V_empty_object
  end.

(** [has_value], [get_bool], [is_container] (value.h 434-446) and [empty]
    (value.h 1163-1174). *)
Definition has_value (v : Value) : bool :=
  match v with V_undefined | V_null => false | _ => true end.

Definition get_bool (v : Value) : bool :=
  match v with V_bool_true => true | _ => false end.

Definition is_container (v : Value) : bool :=
  match v with V_array _ | V_object _ => true | _ => false end.

Definition empty (v : Value) : bool :=
  match visit v with
  | A_Values a => (length a =? 0)%nat
  | A_KeyValues a => (length a =? 0)%nat
  | _ => true
  end.

(** ** Bytes that start no value *)

(** The bytes the switch of [parse_state(DetectType &)] has a case for in
    the text format (parser.h 320-349). *)
Definition starts_value (c : char) : bool :=
  existsb (char_eqb c) ["["; "{"; DQUOTE; "t"; "f"; "n"; "-"; "+"]%char || isdigit c.

(** The tags the switch on the major type sends to [default] with the
    error flag: a major type other than the seven of [BinaryType]. *)
Definition unknown_tag (c : char) : bool :=
  negb (existsb (Z.eqb (Z.land (code c) BinaryType.mask))
          [BinaryType.simple; BinaryType.p_number; BinaryType.n_number;
           BinaryType.string; BinaryType.string_number; BinaryType.array;
           BinaryType.object]).

(** ** Objects without a repeated key *)

Fixpoint distinct (ks : list Key) : bool :=
  match ks with
  | [] => true
  | k :: r => negb (existsb (sv_eqb k) r) && distinct r
  end.

(** The keys of every object, at any depth, are pairwise distinct.  The
    sorting constructor then has one possible result, whatever [std::sort]
    does with entries of equal keys. *)
Fixpoint distinct_keys (v : Value) : bool :=
  match v with
  | V_array c => forallb distinct_keys c
  | V_object c =>
      distinct (map kv_key c) && forallb (fun kv => distinct_keys (snd kv)) c
  | _ => true
  end.

(** The keys of every object, at any depth, are strictly increasing. *)
Fixpoint strict_keys (v : Value) : bool :=
  match v with
  | V_array c => forallb strict_keys c
  | V_object c =>
      strictly_increasing (map kv_key c) && forallb (fun kv => strict_keys (snd kv)) c
  | _ => true
  end.

(** ** Values that compare equal to themselves *)


(** ** Room for a size read from the wire *)

(** [st.data.reserve(st.sz)] in [finish_state] of the three sized binary
    frames (parser.h 755, 767, 790) asks for room for as many bytes, values
    or entries as the header says, before any of them is read.  [reserve]
    throws [std::length_error] above the container's [max_size()] and
    [std::bad_alloc] where the allocator refuses; when it returns only the
    capacity has changed, which is why [finish_state] shows no trace of it.
    [reserve_throws st sz] stands for the answer of the host to the request
    of the frame [st] for [sz] elements. *)
Section Reserve.

Variable reserve_throws : State -> Z -> bool.

Variable format : Format.

(** Whether the call [finish_state(st, v)] is left by the exception. *)
Definition finish_state_throws (st : State) (v : Value) : bool :=
  match st with
  | StateBinString _ _ _ =>
      let sz := get_unsigned_long v in
      negb (sz =? 0) && reserve_throws st sz
  | StateBinArray sz _ | StateBinObject _ _ _ sz =>
      (sz =? 0) &&
      (let sz := get_unsigned_long v in negb (sz =? 0) && reserve_throws st sz)
  | _ => false
  end.

(** The loop [while (!need_more)] of [do_parse_cycle], followed as
    [unwind] follows it. *)
Fixpoint unwind_throws (rest : list State) (result : Value) (is_error : bool) : bool :=
  if is_error then false
  else
    match rest with
    | [] => false
    | st :: rest' =>
        finish_state_throws st result ||
        match finish_state st result with
        | FMore _ => false
        | FDone _ r e => unwind_throws rest' (assign r result) e
        end
    end.

Definition do_parse_cycle_throws (fuel : nat) (p : Parser) : bool :=
  match _state p with
  | [] => false
  | st :: rest =>
      match parse_state format fuel st (_pos p) with
      | Some (Done _ _ r e) =>
          unwind_throws rest (assign r (_result p)) (e || _is_error p)
      | _ => false
      end
  end.

(** How a call ends: it returns, or the exception of [reserve] leaves it. *)
Inductive Outcome : Type :=
| Returned (r : bool * Parser)
| Thrown.

Fixpoint write_loop_reserving (fuel : nat) (p : Parser) : option Outcome :=
  match _pos p with
  | [] => Some (Returned (negb (match _state p with [] => true | _ => false end), p))
  | _ :: _ =>
      match fuel with
      | O => None
      | S fuel' =>
          if do_parse_cycle_throws fuel' p then Some Thrown
          else
            match do_parse_cycle format fuel' p with
            | None => None
            | Some (false, p') => Some (Returned (false, p'))
            | Some (true, p') => write_loop_reserving fuel' p'
            end
      end
  end.

Definition write_reserving (fuel : nat) (p : Parser) (text : string_view) : option Outcome :=
  write_loop_reserving fuel (mkParser (_state p) text (_result p) (_is_error p)).

(** [parse] and [unbinarize] with the third way out. *)
Inductive Ended : Type :=
| Gave (x : Parsed)
| Reserve_threw.

Definition parse_with_reserving (fuel : nat) (text : string_view) : option Ended :=
  match write_reserving fuel new_Parser text with
  | None => None
  | Some Thrown => Some Reserve_threw
  | Some (Returned (false, p)) =>
      if is_error p
      then Some (Gave (ParseError (length text - length (get_unprocessed_data p))))
      else Some (Gave (Ok (get_result p)))
  | Some (Returned (true, p)) => Some (Gave (ParseError (length text)))
  end.

End Reserve.

(** A host on which no container takes more than [2 ^ 62] elements. *)
Definition reserve_above_limit (st : State) (sz : Z) : bool := 2 ^ 62 <? sz.

(** The header of a string whose length is given as [2 ^ 64 - 1]. *)
Definition huge_string_header : string_view :=
  ["039"; "255"; "255"; "255"; "255"; "255"; "255"; "255"; "255"]%char.

(** * Lemmas and theorems *)

(** ** Physical storage is not observable through [get_string] *)

Lemma land_15_small (n : Z) : 0 <= n < 16 -> Z.land n 15 = n.
Proof.
  intros H. change 15 with (Z.ones 4).
  rewrite Z.land_ones by lia. apply Z.mod_small. lia.
Qed.

(** A property of the sixteen tag lengths is checked by running it on each. *)
Lemma below_16_cases (P : Z -> bool) :
  forallb P (map Z.of_nat (seq 0 16)) = true ->
  forall n, 0 <= n < 16 -> P n = true.
Proof.
  intros H n Hn. rewrite forallb_forall in H. apply H.
  apply in_map_iff. exists (Z.to_nat n). split; [lia|].
  apply in_seq. lia.
Qed.

Lemma lor_flag_small (n : Z) : 0 <= n < 16 -> Z.lor 16 n = 16 + n.
Proof.
  intros H. apply Z.eqb_eq.
  apply (below_16_cases (fun n => Z.lor 16 n =? 16 + n)); [reflexivity|exact H].
Qed.

Lemma land_flag_15 (n : Z) : 0 <= n < 16 -> Z.land (16 + n) 15 = n.
Proof.
  intros H. apply Z.eqb_eq.
  apply (below_16_cases (fun n => Z.land (16 + n) 15 =? n)); [reflexivity|exact H].
Qed.

Lemma land_240_small (n : Z) : 0 <= n < 16 -> Z.land n 240 = 0.
Proof.
  intros H. apply Z.eqb_eq.
  apply (below_16_cases (fun n => Z.land n 240 =? 0)); [reflexivity|exact H].
Qed.

Lemma land_240_flag (n : Z) : 0 <= n < 16 -> Z.land (16 + n) 240 = 16.
Proof.
  intros H. apply Z.eqb_eq.
  apply (below_16_cases (fun n => Z.land (16 + n) 240 =? 16)); [reflexivity|exact H].
Qed.

Lemma firstn_app_exact {A} (l r : list A) : firstn (length l) (l ++ r) = l.
Proof. induction l; simpl; congruence. Qed.

(** The visited payload of a freshly built string is the source bytes,
    whichever flavour the constructor picked. *)
Lemma visit_Value_of_string (ce : bool) (s : string_view) (is_number : bool) :
  Z.of_nat (length s) < 2 ^ 32 ->
  visit (Value_of_string ce s is_number) = A_string_view s.
Proof.
  intros Hlen. unfold Value_of_string.
  destruct (Z.of_nat (length s) <? 15) eqn:Hs.
  - apply Z.ltb_lt in Hs. simpl. f_equal.
    assert (Hn : 0 <= Z.of_nat (length s) < 16) by lia.
    destruct is_number.
    + rewrite lor_flag_small, land_flag_15 by exact Hn.
      rewrite Nat2Z.id. apply firstn_app_exact.
    + rewrite Z.lor_0_l, land_15_small by exact Hn.
      rewrite Nat2Z.id. apply firstn_app_exact.
  - destruct ce; destruct is_number; simpl; try reflexivity;
      rewrite Z.mod_small by lia; rewrite Nat2Z.id; f_equal; apply firstn_all.
Qed.

Lemma visit_runtime_string (s : string_view) (is_number : bool) :
  visit (Value_of_string false s is_number) = A_string_view s.
Proof.
  unfold Value_of_string.
  destruct (Z.of_nat (length s) <? 15) eqn:Hs.
  - apply Z.ltb_lt in Hs. simpl. f_equal.
    assert (Hn : 0 <= Z.of_nat (length s) < 16) by lia.
    destruct is_number.
    + rewrite lor_flag_small, land_flag_15 by exact Hn.
      rewrite Nat2Z.id. apply firstn_app_exact.
    + rewrite Z.lor_0_l, land_15_small by exact Hn.
      rewrite Nat2Z.id. apply firstn_app_exact.
  - destruct is_number; reflexivity.
Qed.

Lemma type_Value_of_string (ce : bool) (s : string_view) (is_number : bool) :
  type (Value_of_string ce s is_number) = if is_number then T_number else T_string.
Proof.
  unfold Value_of_string.
  destruct (Z.of_nat (length s) <? 15) eqn:Hs.
  - apply Z.ltb_lt in Hs. simpl.
    assert (Hn : 0 <= Z.of_nat (length s) < 16) by lia.
    destruct is_number.
    + rewrite lor_flag_small, land_240_flag by exact Hn. reflexivity.
    + rewrite Z.lor_0_l, land_240_small by exact Hn. reflexivity.
  - destruct ce; destruct is_number; reflexivity.
Qed.

Lemma Value_string_storage (s : string_view) :
  (if Nat.leb (length s) 14 then is_inline (Value_string s)
   else is_heap_string (Value_string s)) = true.
Proof.
  unfold Value_string, Value_of_string.
  destruct (Nat.leb (length s) 14) eqn:Hl.
  - apply Nat.leb_le in Hl.
    destruct (Z.of_nat (length s) <? 15) eqn:Hs; [reflexivity|].
    apply Z.ltb_ge in Hs. lia.
  - apply Nat.leb_gt in Hl.
    destruct (Z.of_nat (length s) <? 15) eqn:Hs; [|reflexivity].
    apply Z.ltb_lt in Hs. lia.
Qed.

(** C10: a string Value has logical type string and gives back exactly the
    bytes it was built from, both for the inline variant (length up to 14)
    and for the heap variant (longer strings). *)
Theorem C10_string_storage_transparent (s : string_view) :
  type (Value_string s) = T_string /\
  get_string (Value_string s) = s /\
  is_inline (Value_string s) = Nat.leb (length s) 14 /\
  is_heap_string (Value_string s) = negb (Nat.leb (length s) 14).
Proof.
  split; [apply (type_Value_of_string false s false)|].
  split; [unfold get_string, Value_string; now rewrite visit_runtime_string|].
  pose proof (Value_string_storage s) as H.
  unfold Value_string, Value_of_string in *.
  destruct (Z.of_nat (length s) <? 15); destruct (Nat.leb (length s) 14);
    simpl in *; auto; discriminate.
Qed.

(** ** Byte and string comparison facts *)

Lemma code_inj (a b : char) : code a = code b -> a = b.
Proof.
  unfold code. intros H. apply N2Z.inj in H.
  rewrite <- (ascii_N_embedding a), <- (ascii_N_embedding b). now rewrite H.
Qed.

Lemma code_range (c : char) : 0 <= code c < 256.
Proof.
  unfold code. pose proof (N_ascii_bounded c) as H. lia.
Qed.

Lemma code_chr (z : Z) : code (chr z) = z mod 256.
Proof.
  unfold code, chr. rewrite N_ascii_embedding.
  - apply Z2N.id. apply Z.mod_pos_bound. lia.
  - pose proof (Z.mod_pos_bound z 256 ltac:(lia)). lia.
Qed.

Lemma chr_code (c : char) : chr (code c) = c.
Proof.
  apply code_inj. rewrite code_chr. apply Z.mod_small. apply code_range.
Qed.

Lemma char_eqb_eq (a b : char) : char_eqb a b = true <-> a = b.
Proof. apply Ascii.eqb_eq. Qed.

Lemma char_eqb_refl (a : char) : char_eqb a a = true.
Proof. apply Ascii.eqb_refl. Qed.

Lemma char_eqb_neq (a b : char) : char_eqb a b = false <-> a <> b.
Proof. apply Ascii.eqb_neq. Qed.

Lemma sv_eqb_eq (a b : string_view) : sv_eqb a b = true <-> a = b.
Proof.
  revert b. induction a as [|x a IH]; destruct b as [|y b]; simpl;
    try (split; [discriminate|discriminate]); try tauto.
  rewrite andb_true_iff, char_eqb_eq, IH. split.
  - intros [-> ->]; reflexivity.
  - intros H; inversion H; auto.
Qed.

Lemma sv_eqb_refl (a : string_view) : sv_eqb a a = true.
Proof. now apply sv_eqb_eq. Qed.

Lemma sv_compare_eq (a b : string_view) : sv_compare a b = Eq <-> a = b.
Proof.
  revert b. induction a as [|x a IH]; destruct b as [|y b]; simpl;
    try (split; [discriminate|discriminate]); try tauto.
  destruct (Z.compare_spec (code x) (code y)) as [H|H|H].
  - apply code_inj in H. subst y. rewrite IH. split; [intros ->; auto|].
    intros E; inversion E; auto.
  - split; [discriminate|]. intros E; inversion E; subst; lia.
  - split; [discriminate|]. intros E; inversion E; subst; lia.
Qed.

Lemma sv_compare_refl (a : string_view) : sv_compare a a = Eq.
Proof. now apply sv_compare_eq. Qed.

Lemma sv_compare_antisym (a b : string_view) :
  sv_compare b a = CompOpp (sv_compare a b).
Proof.
  revert b. induction a as [|x a IH]; destruct b as [|y b]; simpl; auto.
  rewrite (Z.compare_antisym (code x) (code y)).
  destruct (code x ?= code y); simpl; auto.
Qed.

Lemma sv_compare_lt_trans (a b c : string_view) :
  sv_compare a b = Lt -> sv_compare b c = Lt -> sv_compare a c = Lt.
Proof.
  revert b c. induction a as [|x a IH]; intros [|y b] [|z c]; simpl;
    try discriminate; auto.
  destruct (Z.compare_spec (code x) (code y)) as [H1|H1|H1]; try discriminate;
    destruct (Z.compare_spec (code y) (code z)) as [H2|H2|H2]; try discriminate;
    intros E1 E2.
  - rewrite H1, H2, Z.compare_refl. eauto.
  - rewrite H1. apply Z.compare_lt_iff in H2. now rewrite H2.
  - rewrite <- H2. apply Z.compare_lt_iff in H1. now rewrite H1.
  - assert (H : code x < code z) by lia. apply Z.compare_lt_iff in H. now rewrite H.
Qed.

Lemma sv_compare_gt_lt (a b : string_view) :
  sv_compare a b = Gt <-> sv_compare b a = Lt.
Proof.
  rewrite (sv_compare_antisym a b). destruct (sv_compare a b); simpl;
    split; congruence.
Qed.

Lemma sv_ltb_lt (a b : string_view) : sv_ltb a b = true <-> sv_compare a b = Lt.
Proof. unfold sv_ltb. destruct (sv_compare a b); split; congruence. Qed.

Lemma sv_ltb_irrefl (a : string_view) : sv_ltb a a = false.
Proof. unfold sv_ltb. now rewrite sv_compare_refl. Qed.

Lemma sv_ltb_false_le (a b : string_view) : sv_ltb a b = false <-> sv_le b a.
Proof.
  unfold sv_ltb, sv_le. rewrite (sv_compare_antisym a b).
  destruct (sv_compare a b); simpl; split; congruence.
Qed.

Lemma sv_le_lt_trans (a b c : string_view) :
  sv_le a b -> sv_compare b c = Lt -> sv_compare a c = Lt.
Proof.
  unfold sv_le. intros H1 H2. destruct (sv_compare a b) eqn:E.
  - apply sv_compare_eq in E. now subst.
  - eapply sv_compare_lt_trans; eauto.
  - congruence.
Qed.

Lemma sv_lt_le_trans (a b c : string_view) :
  sv_compare a b = Lt -> sv_le b c -> sv_compare a c = Lt.
Proof.
  unfold sv_le. intros H1 H2. destruct (sv_compare b c) eqn:E.
  - apply sv_compare_eq in E. now subst.
  - eapply sv_compare_lt_trans; eauto.
  - congruence.
Qed.

Lemma sv_le_trans (a b c : string_view) : sv_le a b -> sv_le b c -> sv_le a c.
Proof.
  intros H1 H2. unfold sv_le. intros E. apply sv_compare_gt_lt in E.
  pose proof (sv_lt_le_trans _ _ _ E H1) as H3.
  apply sv_compare_gt_lt in H3. apply H2. exact H3.
Qed.

Lemma sv_le_refl (a : string_view) : sv_le a a.
Proof. unfold sv_le. now rewrite sv_compare_refl. Qed.

Lemma sv_lt_le (a b : string_view) : sv_compare a b = Lt -> sv_le a b.
Proof. unfold sv_le. congruence. Qed.

Lemma sv_le_antisym (a b : string_view) : sv_le a b -> sv_le b a -> a = b.
Proof.
  unfold sv_le. intros H1 H2. rewrite (sv_compare_antisym a b) in H2.
  apply sv_compare_eq. destruct (sv_compare a b); simpl in *; congruence.
Qed.

(** ** Indexed and keyed access (value.h 1022-1069) *)

Lemma type_object_visit (v : Value) :
  type v = T_object <-> exists c, visit v = A_KeyValues c.
Proof.
  destruct v; simpl; split; try discriminate; try (intros [c H]; discriminate);
    eauto; try (destruct (Z.land storage 240 =? 16); discriminate).
Qed.

Lemma type_array_visit (v : Value) :
  type v = T_array <-> exists c, visit v = A_Values c.
Proof.
  destruct v; simpl; split; try discriminate; try (intros [c H]; discriminate);
    eauto; try (destruct (Z.land storage 240 =? 16); discriminate).
Qed.

Lemma index_key_not_object (v : Value) (key : string_view) :
  type v <> T_object -> index_key v key = undefined.
Proof.
  intros H. unfold index_key. destruct (visit v) eqn:E; auto.
  exfalso. apply H. apply type_object_visit. eauto.
Qed.

Lemma index_key_missing (v : Value) (key : string_view) :
  has_key v key = false -> index_key v key = undefined.
Proof.
  unfold has_key, entries, index_key. destruct (visit v) eqn:E; auto.
  intros H. destruct (nth_error c (lower_bound c key)) as [kv|] eqn:En; auto.
  destruct (sv_eqb (kv_key kv) key) eqn:Ek; auto. exfalso.
  apply nth_error_In in En.
  assert (existsb (fun kv => sv_eqb (kv_key kv) key) c = true) as Hex
    by (apply existsb_exists; eauto).
  congruence.
Qed.

Lemma index_out_of_range (v : Value) (i : nat) :
  (size v <= i)%nat -> index v i = undefined.
Proof.
  unfold size, index. destruct (visit v); auto; intros H;
    apply nth_error_None in H; now rewrite H.
Qed.

Lemma index_not_container (v : Value) (i : nat) :
  type v <> T_array -> type v <> T_object -> index v i = undefined.
Proof.
  intros Ha Ho. unfold index. destruct (visit v) eqn:E; auto; exfalso.
  - apply Ha. apply type_array_visit. eauto.
  - apply Ho. apply type_object_visit. eauto.
Qed.

(** C8: keyed access gives the shared undefined value on a receiver that is
    not an object and on an object that has no entry with that key; indexed
    access gives it when the index is out of range or the receiver is not a
    container. *)
Theorem C8_access_miss_is_undefined (v : Value) (key : string_view) (i : nat) :
  (type v <> T_object \/ has_key v key = false -> index_key v key = undefined) /\
  ((type v <> T_array /\ type v <> T_object) \/ (size v <= i)%nat ->
   index v i = undefined).
Proof.
  split.
  - intros [H|H]; [now apply index_key_not_object | now apply index_key_missing].
  - intros [[Ha Ho]|H]; [now apply index_not_container | now apply index_out_of_range].
Qed.

(** ** Sorted containers and the binary search *)

Lemma strictly_sorted_weaken (l : list KeyValue) :
  strictly_sorted l -> sorted_by_key l.
Proof.
  unfold strictly_sorted, sorted_by_key. induction 1; constructor; auto.
  eapply Forall_impl; [|eassumption]. intros b Hb. now apply sv_lt_le.
Qed.

Lemma strictly_increasing_sorted (l : list KeyValue) :
  strictly_increasing (map kv_key l) = true <-> strictly_sorted l.
Proof.
  unfold strictly_sorted. split.
  - intros H. apply Sorted_StronglySorted.
    + intros a b c. unfold key_lt. apply sv_compare_lt_trans.
    + induction l as [|a l IH]; [constructor|].
      destruct l as [|b r]; [repeat constructor|].
      simpl in H. apply andb_true_iff in H. destruct H as [H1 H2].
      constructor; [now apply IH|]. constructor. now apply sv_ltb_lt.
  - intros H. apply StronglySorted_Sorted in H.
    induction l as [|a l IH]; auto. destruct l as [|b r]; auto.
    inversion H as [|? ? Hs Hh]; subst. inversion Hh; subst.
    change (sv_ltb (kv_key a) (kv_key b) &&
            strictly_increasing (map kv_key (b :: r)) = true).
    apply andb_true_iff. split; [now apply sv_ltb_lt|]. now apply IH.
Qed.

Lemma nondecreasing_sorted (l : list KeyValue) :
  nondecreasing (map kv_key l) = true <-> sorted_by_key l.
Proof.
  unfold sorted_by_key. split.
  - intros H. apply Sorted_StronglySorted.
    + intros a b c. unfold key_le. apply sv_le_trans.
    + induction l as [|a l IH]; [constructor|].
      destruct l as [|b r]; [repeat constructor|].
      simpl in H. apply andb_true_iff in H. destruct H as [H1 H2].
      constructor; [now apply IH|]. constructor.
      apply negb_true_iff in H1. now apply sv_ltb_false_le in H1.
  - intros H. apply StronglySorted_Sorted in H.
    induction l as [|a l IH]; auto. destruct l as [|b r]; auto.
    inversion H as [|? ? Hs Hh]; subst. inversion Hh; subst.
    change (negb (sv_ltb (kv_key b) (kv_key a)) &&
            nondecreasing (map kv_key (b :: r)) = true).
    apply andb_true_iff. split; [|now apply IH].
    apply negb_true_iff. now apply sv_ltb_false_le.
Qed.

Lemma StronglySorted_nth {A} (R : A -> A -> Prop) (l : list A) (d : A) :
  StronglySorted R l ->
  forall i j, (i < j)%nat -> (j < length l)%nat -> R (nth i l d) (nth j l d).
Proof.
  induction 1 as [|a l Hs IH Hf]; intros i j Hij Hj; simpl in Hj; [lia|].
  destruct j as [|j]; [lia|]. destruct i as [|i]; simpl.
  - rewrite Forall_forall in Hf. apply Hf. apply nth_In. lia.
  - apply IH; lia.
Qed.

Lemma sorted_by_key_nth (l : list KeyValue) :
  sorted_by_key l ->
  forall i j, (i <= j)%nat -> (j < length l)%nat -> sv_le (key_at l i) (key_at l j).
Proof.
  intros Hs i j Hij Hj. destruct (Nat.eq_dec i j) as [->|Hne].
  - apply sv_le_refl.
  - apply (StronglySorted_nth key_le l default_KeyValue Hs i j); lia.
Qed.

(** The loop invariant of the halving search: everything before [first] is
    smaller than the key, nothing from [first + count] on is. *)
Lemma lower_bound_loop_spec (item : list KeyValue) (key : string_view) :
  sorted_by_key item ->
  forall fuel first count,
    (count <= fuel)%nat -> (first + count <= length item)%nat ->
    (forall i, (i < first)%nat -> sv_ltb (key_at item i) key = true) ->
    (forall i, (first + count <= i)%nat -> (i < length item)%nat ->
               sv_ltb (key_at item i) key = false) ->
    (lower_bound_loop fuel item key first count <= length item)%nat /\
    (forall i, (i < lower_bound_loop fuel item key first count)%nat ->
               sv_ltb (key_at item i) key = true) /\
    (forall i, (lower_bound_loop fuel item key first count <= i)%nat ->
               (i < length item)%nat -> sv_ltb (key_at item i) key = false).
Proof.
  intros Hs. induction fuel as [|fuel IH]; intros first count Hc Hlen Hlo Hhi;
    cbn [lower_bound_loop].
  - assert (count = 0%nat) by lia. subst. rewrite Nat.add_0_r in *. auto.
  - destruct (count =? 0)%nat eqn:E0.
    + apply Nat.eqb_eq in E0. subst. rewrite Nat.add_0_r in *. auto.
    + apply Nat.eqb_neq in E0.
      assert (Hstep : (count / 2 < count)%nat) by (apply Nat.div_lt; lia).
      destruct (sv_ltb (key_at item (first + count / 2)) key) eqn:Ecmp.
      * apply IH; try lia.
        -- intros i Hi.
           destruct (Nat.eq_dec i (first + count / 2)) as [->|Hne]; [exact Ecmp|].
           destruct (Nat.lt_ge_cases i first) as [Hlt|Hge]; [now apply Hlo|].
           apply sv_ltb_lt. apply sv_ltb_lt in Ecmp.
           eapply sv_le_lt_trans; [|exact Ecmp].
           apply sorted_by_key_nth; auto; lia.
        -- intros i Hi Hil. apply Hhi; lia.
      * apply IH; try lia; auto.
        intros i Hi Hil. apply sv_ltb_false_le. apply sv_ltb_false_le in Ecmp.
        eapply sv_le_trans; [exact Ecmp|].
        apply sorted_by_key_nth; auto; lia.
Qed.

Lemma lower_bound_spec (item : list KeyValue) (key : string_view) :
  sorted_by_key item ->
  (lower_bound item key <= length item)%nat /\
  (forall i, (i < lower_bound item key)%nat -> sv_ltb (key_at item i) key = true) /\
  (forall i, (lower_bound item key <= i)%nat -> (i < length item)%nat ->
             sv_ltb (key_at item i) key = false).
Proof.
  intros Hs. unfold lower_bound. apply lower_bound_loop_spec; auto; intros; lia.
Qed.

(** On an ascending object the subscript returns the first entry with the key. *)
Lemma index_key_found (c : list KeyValue) (key : string_view) (j : nat) :
  sorted_by_key c ->
  (j < length c)%nat -> key_at c j = key ->
  (forall i, (i < j)%nat -> key_at c i <> key) ->
  index_key (V_object c) key = kv_value (nth j c default_KeyValue).
Proof.
  intros Hs Hj Hk Hfirst. unfold index_key. simpl.
  destruct (lower_bound_spec c key Hs) as (Hr & Hlo & Hhi).
  set (r := lower_bound c key) in *.
  assert (Hrj : (r <= j)%nat).
  { destruct (Nat.le_gt_cases r j) as [H|H]; auto.
    specialize (Hlo j H). rewrite Hk, sv_ltb_irrefl in Hlo. discriminate. }
  assert (Hkr : key_at c r = key).
  { apply sv_le_antisym.
    - rewrite <- Hk. apply sorted_by_key_nth; auto.
    - apply sv_ltb_false_le. apply Hhi; lia. }
  assert (r = j).
  { destruct (Nat.eq_dec r j) as [|Hne]; auto. exfalso.
    apply (Hfirst r); auto. lia. }
  subst r. rewrite H.
  rewrite (nth_error_nth' c default_KeyValue Hj).
  unfold key_at in Hk. rewrite Hk, sv_eqb_refl. reflexivity.
Qed.

Lemma In_nth_index {A} (l : list A) (x d : A) :
  In x l -> exists j, (j < length l)%nat /\ nth j l d = x.
Proof. intros H. destruct (In_nth l x d H) as (j & Hj & E). eauto. Qed.

Lemma strictly_sorted_key_inj (c : list KeyValue) (i j : nat) :
  strictly_sorted c -> (i < length c)%nat -> (j < length c)%nat ->
  key_at c i = key_at c j -> i = j.
Proof.
  intros Hs Hi Hj E.
  destruct (Nat.lt_trichotomy i j) as [H|[H|H]]; auto; exfalso.
  - pose proof (StronglySorted_nth key_lt c default_KeyValue Hs i j H Hj) as R.
    unfold key_lt in R. unfold key_at in E. rewrite E, sv_compare_refl in R.
    discriminate.
  - pose proof (StronglySorted_nth key_lt c default_KeyValue Hs j i H Hi) as R.
    unfold key_lt in R. unfold key_at in E. rewrite E, sv_compare_refl in R.
    discriminate.
Qed.

(** With strictly increasing keys the subscript finds every entry. *)
Lemma index_key_In (c : list KeyValue) (key : string_view) (x : Value) :
  strictly_sorted c -> In (key, x) c -> index_key (V_object c) key = x.
Proof.
  intros Hs Hin.
  destruct (In_nth_index c (key, x) default_KeyValue Hin) as (j & Hj & E).
  rewrite (index_key_found c key j); auto.
  - now rewrite E.
  - now apply strictly_sorted_weaken.
  - unfold key_at. now rewrite E.
  - intros i Hi Hk.
    assert (i = j); [|lia].
    apply (strictly_sorted_key_inj c); auto; try lia.
    unfold key_at at 2. rewrite E. exact Hk.
Qed.

Lemma has_key_In (c : list KeyValue) (key : string_view) :
  existsb (fun kv => sv_eqb (kv_key kv) key) c = true <-> In key (map kv_key c).
Proof.
  rewrite existsb_exists, in_map_iff. split.
  - intros (kv & Hin & E). apply sv_eqb_eq in E. eauto.
  - intros (kv & E & Hin). exists kv. split; auto. now apply sv_eqb_eq.
Qed.

Lemma index_key_absent (c : list KeyValue) (key : string_view) :
  ~ In key (map kv_key c) -> index_key (V_object c) key = undefined.
Proof.
  intros H. apply index_key_missing. unfold has_key, entries. simpl.
  destruct (existsb _ c) eqn:E; auto. apply has_key_In in E. contradiction.
Qed.

(** ** Building containers (value.h 926-992, 1237-1254) *)

Lemma insert_sorted_perm (x : KeyValue) (l : list KeyValue) :
  Permutation (insert_sorted x l) (x :: l).
Proof.
  induction l as [|y r IH]; simpl; auto.
  destruct (sv_ltb (kv_key y) (kv_key x)); auto.
  rewrite IH. apply perm_swap.
Qed.

Lemma sort_object_perm (c : list KeyValue) : Permutation (sort_object c) c.
Proof.
  induction c as [|x c IH]; simpl; auto.
  rewrite insert_sorted_perm. now constructor.
Qed.

Lemma insert_sorted_sorted (x : KeyValue) (l : list KeyValue) :
  sorted_by_key l -> sorted_by_key (insert_sorted x l).
Proof.
  unfold sorted_by_key. induction 1 as [|y r Hs IH Hf]; simpl.
  - repeat constructor.
  - destruct (sv_ltb (kv_key y) (kv_key x)) eqn:E.
    + constructor; auto.
      rewrite Forall_forall. intros z Hz.
      apply (Permutation_in _ (insert_sorted_perm x r)) in Hz.
      destruct Hz as [<-|Hz].
      * apply sv_lt_le. now apply sv_ltb_lt.
      * rewrite Forall_forall in Hf. now apply Hf.
    + apply sv_ltb_false_le in E. constructor; [constructor; auto|].
      constructor; auto.
      eapply Forall_impl; [|exact Hf]. intros z Hz. unfold key_le in *.
      eapply sv_le_trans; eauto.
Qed.

Lemma sort_object_sorted (c : list KeyValue) : sorted_by_key (sort_object c).
Proof.
  induction c as [|x c IH]; simpl.
  - constructor.
  - now apply insert_sorted_sorted.
Qed.

Lemma sorted_NoDup_strict (l : list KeyValue) :
  sorted_by_key l -> NoDup (map kv_key l) -> strictly_sorted l.
Proof.
  unfold sorted_by_key, strictly_sorted.
  induction 1 as [|a l Hs IH Hf]; intros Hnd; constructor.
  - apply IH. now inversion Hnd.
  - inversion Hnd as [|? ? Hnin Hnd']; subst.
    rewrite Forall_forall in *. intros b Hb. specialize (Hf b Hb).
    unfold key_le, key_lt, sv_le in *.
    destruct (sv_compare (kv_key a) (kv_key b)) eqn:E; auto; [|congruence].
    apply sv_compare_eq in E. exfalso. apply Hnin. rewrite E.
    now apply in_map.
Qed.

Lemma sort_object_strict (c : list KeyValue) :
  NoDup (map kv_key c) -> strictly_sorted (sort_object c).
Proof.
  intros H. apply sorted_NoDup_strict; [apply sort_object_sorted|].
  eapply Permutation_NoDup; [|exact H].
  apply Permutation_map. symmetry. apply sort_object_perm.
Qed.

Lemma keys_Value_of_KeyValues (obj : list KeyValue) :
  keys (Value_of_KeyValues obj) = sort_object obj.
Proof. destruct obj; reflexivity. Qed.

(** ** merge_keys (value.h 1355-1398) *)

Lemma merge_loop_nil_r (l1 : list KeyValue) : merge_loop l1 [] = l1.
Proof. destruct l1; reflexivity. Qed.

Lemma merge_loop_nil_l (l2 : list KeyValue) :
  merge_loop [] l2 = filter (fun kv => defined (kv_value kv)) l2.
Proof. destruct l2; reflexivity. Qed.

Lemma merge_loop_keys_subset (l1 l2 : list KeyValue) (kv : KeyValue) :
  In kv (merge_loop l1 l2) -> In kv l1 \/ (In kv l2 /\ defined (kv_value kv) = true).
Proof.
  revert l2. induction l1 as [|a r1 IH1]; intros l2.
  - rewrite merge_loop_nil_l. intros H. apply filter_In in H. tauto.
  - induction l2 as [|b r2 IH2].
    + rewrite merge_loop_nil_r. tauto.
    + simpl. destruct (sv_compare (kv_key a) (kv_key b)).
      * destruct (defined (kv_value b)) eqn:Eb.
        -- intros [<-|H]; [simpl; tauto|]. apply IH1 in H. simpl. tauto.
        -- intros H. apply IH1 in H. simpl. tauto.
      * intros [<-|H]; [simpl; tauto|]. apply IH1 in H. simpl in *. tauto.
      * destruct (defined (kv_value b)) eqn:Eb.
        -- intros [<-|H]; [simpl; tauto|]. apply IH2 in H. simpl in *. tauto.
        -- intros H. apply IH2 in H. simpl in *. tauto.
Qed.

Lemma strictly_sorted_head_notin (a : KeyValue) (l : list KeyValue) :
  strictly_sorted (a :: l) -> ~ In (kv_key a) (map kv_key l).
Proof.
  intros H Hin. inversion H as [|? ? Hs Hf]; subst.
  apply in_map_iff in Hin. destruct Hin as (b & E & Hb).
  rewrite Forall_forall in Hf. specialize (Hf b Hb). unfold key_lt in Hf.
  rewrite E, sv_compare_refl in Hf. discriminate.
Qed.

Lemma strictly_sorted_tail (a : KeyValue) (l : list KeyValue) :
  strictly_sorted (a :: l) -> strictly_sorted l.
Proof. intros H. now inversion H. Qed.

Lemma strictly_sorted_lt_notin (k : Key) (a : KeyValue) (l : list KeyValue) :
  strictly_sorted (a :: l) -> sv_compare k (kv_key a) = Lt ->
  ~ In k (map kv_key (a :: l)).
Proof.
  intros Hs Hlt Hin. inversion Hs as [|? ? Hs' Hf]; subst.
  apply in_map_iff in Hin. destruct Hin as (b & E & [<-|Hb]).
  - rewrite E, sv_compare_refl in Hlt. discriminate.
  - rewrite Forall_forall in Hf. specialize (Hf b Hb). unfold key_lt in Hf.
    pose proof (sv_compare_lt_trans _ _ _ Hlt Hf) as H.
    rewrite E, sv_compare_refl in H. discriminate.
Qed.

(** What a merge of two strictly ordered sequences holds. *)
Lemma merge_loop_In (l1 l2 : list KeyValue) :
  strictly_sorted l1 -> strictly_sorted l2 ->
  forall kv,
    In kv (merge_loop l1 l2) <->
    (In kv l2 /\ defined (kv_value kv) = true) \/
    (In kv l1 /\ ~ In (kv_key kv) (map kv_key l2)).
Proof.
  revert l2. induction l1 as [|a r1 IH1]; intros l2 Hs1 Hs2 kv.
  - rewrite merge_loop_nil_l, filter_In. simpl. tauto.
  - induction l2 as [|b r2 IH2].
    + rewrite merge_loop_nil_r. simpl. tauto.
    + pose proof (strictly_sorted_tail _ _ Hs1) as Hs1'.
      pose proof (strictly_sorted_tail _ _ Hs2) as Hs2'.
      simpl. destruct (sv_compare (kv_key a) (kv_key b)) eqn:Ec.
      * (* equal keys *)
        apply sv_compare_eq in Ec.
        pose proof (strictly_sorted_head_notin _ _ Hs1) as Ha.
        pose proof (strictly_sorted_head_notin _ _ Hs2) as Hb.
        assert (Hrest : In kv (merge_loop r1 r2) <->
                        (In kv r2 /\ defined (kv_value kv) = true) \/
                        (In kv r1 /\ ~ In (kv_key kv) (map kv_key r2)))
          by (apply IH1; auto).
        destruct (defined (kv_value b)) eqn:Eb; simpl; rewrite Hrest; split.
        -- intros [<-|[[H1 H2]|[H1 H2]]]; auto.
           right. split; auto. intros [E|E]; [|contradiction].
           apply Ha. rewrite Ec, E. now apply in_map.
        -- intros [[[<-|H1] H2]|[[<-|H1] H2]]; auto.
           ++ exfalso. apply H2. left. auto.
           ++ right. right. split; auto.
        -- intros [[H1 H2]|[H1 H2]]; auto.
           right. split; auto. intros [E|E]; [|contradiction].
           apply Ha. rewrite Ec, E. now apply in_map.
        -- intros [[[<-|H1] H2]|[[<-|H1] H2]]; auto.
           ++ congruence.
           ++ exfalso. apply H2. left. auto.
           ++ right. split; auto.
      * (* the receiver's key is smaller *)
        assert (Hrest : In kv (merge_loop r1 (b :: r2)) <->
                        (In kv (b :: r2) /\ defined (kv_value kv) = true) \/
                        (In kv r1 /\ ~ In (kv_key kv) (map kv_key (b :: r2))))
          by (apply IH1; auto).
        simpl. rewrite Hrest. simpl. split.
        -- intros [<-|[H|H]]; auto.
           right. split; auto.
           apply (strictly_sorted_lt_notin (kv_key a) b r2 Hs2 Ec).
           tauto.
        -- intros [H|[[<-|H1] H2]]; auto.
      * (* the key of the changes is smaller *)
        apply sv_compare_gt_lt in Ec.
        pose proof (strictly_sorted_lt_notin (kv_key b) a r1 Hs1 Ec) as Hb.
        specialize (IH2 Hs2').
        destruct (defined (kv_value b)) eqn:Eb; simpl; rewrite IH2; simpl; split.
        -- intros [<-|[[H1 H2]|[H1 H2]]]; auto.
           right. split; auto. intros [E|E]; [|contradiction].
           apply Hb. rewrite E. apply (in_map kv_key (a :: r1) kv H1).
        -- intros [[[<-|H1] H2]|[H1 H2]]; auto.
           right. right. split; auto.
        -- intros [[H1 H2]|[H1 H2]]; auto.
           right. split; auto. intros [E|E]; [|contradiction].
           apply Hb. rewrite E. apply (in_map kv_key (a :: r1) kv H1).
        -- intros [[[<-|H1] H2]|[H1 H2]]; auto.
           ++ congruence.
           ++ right. split; auto.
Qed.

Lemma merge_loop_Forall (P : KeyValue -> Prop) (l1 l2 : list KeyValue) :
  Forall P l1 -> Forall P l2 -> Forall P (merge_loop l1 l2).
Proof.
  rewrite !Forall_forall. intros H1 H2 kv Hin.
  apply merge_loop_keys_subset in Hin. destruct Hin as [H|[H _]]; auto.
Qed.

Lemma strictly_sorted_filter (f : KeyValue -> bool) (l : list KeyValue) :
  strictly_sorted l -> strictly_sorted (filter f l).
Proof.
  unfold strictly_sorted. induction 1 as [|a l Hs IH Hf]; simpl; [constructor|].
  destruct (f a); auto. constructor; auto.
  rewrite Forall_forall in *. intros b Hb. apply filter_In in Hb. apply Hf, Hb.
Qed.

Lemma merge_loop_sorted (l1 l2 : list KeyValue) :
  strictly_sorted l1 -> strictly_sorted l2 -> strictly_sorted (merge_loop l1 l2).
Proof.
  revert l2. induction l1 as [|a r1 IH1]; intros l2 Hs1 Hs2.
  - rewrite merge_loop_nil_l. now apply strictly_sorted_filter.
  - induction l2 as [|b r2 IH2].
    + now rewrite merge_loop_nil_r.
    + pose proof (strictly_sorted_tail _ _ Hs1) as Hs1'.
      pose proof (strictly_sorted_tail _ _ Hs2) as Hs2'.
      inversion Hs1 as [|? ? _ Hf1]; inversion Hs2 as [|? ? _ Hf2]; subst.
      simpl. destruct (sv_compare (kv_key a) (kv_key b)) eqn:Ec.
      * apply sv_compare_eq in Ec.
        destruct (defined (kv_value b)); [|now apply IH1].
        constructor; [now apply IH1|].
        apply merge_loop_Forall; auto.
        eapply Forall_impl; [|exact Hf1]. unfold key_lt. intros c Hc. now rewrite <- Ec.
      * constructor; [now apply IH1|].
        apply merge_loop_Forall; auto. constructor; [exact Ec|].
        eapply Forall_impl; [|exact Hf2]. unfold key_lt. intros c Hc.
        eapply sv_compare_lt_trans; eauto.
      * apply sv_compare_gt_lt in Ec. specialize (IH2 Hs2').
        destruct (defined (kv_value b)); [|exact IH2].
        constructor; [exact IH2|].
        apply (merge_loop_Forall (key_lt b) (a :: r1) r2); auto.
        constructor; [exact Ec|].
        eapply Forall_impl; [|exact Hf1]. unfold key_lt. intros c Hc.
        eapply sv_compare_lt_trans; eauto.
Qed.

Lemma strictly_sorted_In_value (l : list KeyValue) (k : Key) (x y : Value) :
  strictly_sorted l -> In (k, x) l -> In (k, y) l -> x = y.
Proof.
  intros Hs Hx Hy.
  destruct (In_nth_index l (k, x) default_KeyValue Hx) as (i & Hi & Ei).
  destruct (In_nth_index l (k, y) default_KeyValue Hy) as (j & Hj & Ej).
  assert (i = j).
  { apply (strictly_sorted_key_inj l); auto. unfold key_at. now rewrite Ei, Ej. }
  subst j. congruence.
Qed.

Lemma merge_loop_keeps_left (l1 l2 : list KeyValue) (kv : KeyValue) :
  In kv l1 -> ~ In (kv_key kv) (map kv_key l2) -> In kv (merge_loop l1 l2).
Proof.
  revert l2. induction l1 as [|a r1 IH1]; intros l2; [contradiction|].
  induction l2 as [|b r2 IH2]; [now rewrite merge_loop_nil_r|].
  intros Hin Hk. cbn [map In] in Hk.
  assert (Hb : kv_key b <> kv_key kv) by tauto.
  assert (Hr : ~ In (kv_key kv) (map kv_key r2)) by tauto.
  simpl. destruct (sv_compare (kv_key a) (kv_key b)) eqn:Ec.
  - apply sv_compare_eq in Ec.
    assert (Hrest : In kv (merge_loop r1 r2)).
    { apply IH1; [|exact Hr]. destruct Hin as [->|Hin]; [congruence|exact Hin]. }
    destruct (defined (kv_value b)); [now right|exact Hrest].
  - destruct Hin as [->|Hin]; [now left|]. right. apply IH1; [exact Hin|].
    cbn [map In]. tauto.
  - destruct (defined (kv_value b)); [right|]; now apply IH2.
Qed.

Lemma merge_loop_keeps_right (l1 l2 : list KeyValue) (kv : KeyValue) :
  In kv l2 -> defined (kv_value kv) = true -> In kv (merge_loop l1 l2).
Proof.
  revert l2. induction l1 as [|a r1 IH1]; intros l2.
  - rewrite merge_loop_nil_l. intros Hin Hd. apply filter_In. now split.
  - induction l2 as [|b r2 IH2]; [contradiction|].
    intros Hin Hd. simpl. destruct (sv_compare (kv_key a) (kv_key b)).
    + destruct Hin as [->|Hin]; [rewrite Hd; now left|].
      destruct (defined (kv_value b)); [right|]; now apply IH1.
    + right. now apply IH1.
    + destruct Hin as [->|Hin]; [rewrite Hd; now left|].
      destruct (defined (kv_value b)); [right|]; now apply IH2.
Qed.

Lemma merge_loop_ascending (l1 l2 : list KeyValue) :
  sorted_by_key l1 -> sorted_by_key l2 -> sorted_by_key (merge_loop l1 l2).
Proof.
  unfold sorted_by_key.
  revert l2. induction l1 as [|a r1 IH1]; intros l2 Hs1 Hs2.
  - rewrite merge_loop_nil_l. induction Hs2 as [|b r2 Hs IH Hf]; cbn [filter].
    + constructor.
    + destruct (defined (kv_value b)); [|exact IH]. constructor; [exact IH|].
      rewrite Forall_forall in *. intros c Hc. apply filter_In in Hc. apply Hf, Hc.
  - induction l2 as [|b r2 IH2]; [now rewrite merge_loop_nil_r|].
    inversion Hs1 as [|? ? Hs1' Hf1]; inversion Hs2 as [|? ? Hs2' Hf2]; subst.
    simpl. destruct (sv_compare (kv_key a) (kv_key b)) eqn:Ec.
    + apply sv_compare_eq in Ec.
      destruct (defined (kv_value b)); [|now apply IH1].
      constructor; [now apply IH1|].
      apply merge_loop_Forall; auto.
      eapply Forall_impl; [|exact Hf1]. unfold key_le. intros c Hc. now rewrite <- Ec.
    + constructor; [now apply IH1|].
      apply merge_loop_Forall; auto. constructor; [now apply sv_lt_le|].
      eapply Forall_impl; [|exact Hf2]. unfold key_le. intros c Hc.
      eapply sv_le_trans; [apply sv_lt_le; exact Ec|exact Hc].
    + apply sv_compare_gt_lt in Ec. specialize (IH2 Hs2').
      destruct (defined (kv_value b)); [|exact IH2].
      constructor; [exact IH2|].
      apply (merge_loop_Forall (key_le b) (a :: r1) r2); auto.
      constructor; [now apply sv_lt_le|].
      eapply Forall_impl; [|exact Hf1]. unfold key_le. intros c Hc.
      eapply sv_le_trans; [apply sv_lt_le; exact Ec|exact Hc].
Qed.

(** Where [find] stops. *)
Lemma find_first_index (key : string_view) (c : list KeyValue) (kv : KeyValue) :
  find (fun e => sv_eqb (kv_key e) key) c = Some kv ->
  exists j, (j < length c)%nat /\ nth j c default_KeyValue = kv /\ kv_key kv = key /\
            forall i, (i < j)%nat -> key_at c i <> key.
Proof.
  induction c as [|a c IH]; [discriminate|]. cbn [find].
  destruct (sv_eqb (kv_key a) key) eqn:Ea.
  - intros [= <-]. exists 0%nat. cbn [length nth]. apply sv_eqb_eq in Ea.
    repeat split; [lia|exact Ea|]. intros i Hi. lia.
  - intros H. destruct (IH H) as (j & Hj & En & Ek & Hlow).
    exists (S j). cbn [length nth]. repeat split; [lia|exact En|exact Ek|].
    intros [|i] Hi; unfold key_at; cbn [nth].
    + intros E. apply sv_eqb_eq in E. congruence.
    + apply Hlow. lia.
Qed.

(** On ascending keys the subscript answers as a search from the front. *)
Lemma index_key_find (c : list KeyValue) (key : string_view) :
  sorted_by_key c ->
  index_key (V_object c) key
  = match find (fun e => sv_eqb (kv_key e) key) c with
    | Some kv => kv_value kv
    | None => undefined
    end.
Proof.
  intros Hs. destruct (find (fun e => sv_eqb (kv_key e) key) c) as [kv|] eqn:Ef.
  - destruct (find_first_index key c kv Ef) as (j & Hj & En & Ek & Hlow).
    rewrite (index_key_found c key j Hs Hj); [now rewrite En| |exact Hlow].
    unfold key_at. now rewrite En.
  - apply index_key_absent. intros Hin. apply in_map_iff in Hin.
    destruct Hin as (e & Ee & He). pose proof (find_none _ _ Ef e He) as Hn.
    cbn beta in Hn. rewrite Ee, sv_eqb_refl in Hn. discriminate.
Qed.

(** The first entry of the merged sequence with a key that [l2] holds
    once, with a defined value, is the entry of [l2]. *)
Lemma merge_loop_find (l1 l2 : list KeyValue) (k : Key) (x : Value) :
  strictly_sorted l2 -> In (k, x) l2 -> defined x = true ->
  find (fun e => sv_eqb (kv_key e) k) (merge_loop l1 l2) = Some (k, x).
Proof.
  revert l2. induction l1 as [|a r1 IH1]; intros l2 Hs Hin Hd.
  - rewrite merge_loop_nil_l. induction l2 as [|b r2 IH2]; [contradiction|].
    pose proof (strictly_sorted_head_notin _ _ Hs) as Hb.
    pose proof (strictly_sorted_tail _ _ Hs) as Hs'. cbn [filter].
    destruct Hin as [->|Hin].
    + cbn [kv_value snd]. rewrite Hd. cbn [find kv_key fst]. now rewrite sv_eqb_refl.
    + assert (Hne : sv_eqb (kv_key b) k = false).
      { destruct (sv_eqb (kv_key b) k) eqn:E; [|reflexivity]. apply sv_eqb_eq in E.
        exfalso. apply Hb. rewrite E. apply (in_map kv_key _ _ Hin). }
      destruct (defined (kv_value b)); [cbn [find]; rewrite Hne|]; now apply IH2.
  - induction l2 as [|b r2 IH2]; [contradiction|].
    pose proof (strictly_sorted_head_notin _ _ Hs) as Hb.
    pose proof (strictly_sorted_tail _ _ Hs) as Hs'.
    assert (Hrest : In (k, x) r2 -> sv_eqb (kv_key b) k = false).
    { intros Hr. destruct (sv_eqb (kv_key b) k) eqn:E; [|reflexivity].
      apply sv_eqb_eq in E. exfalso. apply Hb. rewrite E.
      apply (in_map kv_key _ _ Hr). }
    simpl. destruct (sv_compare (kv_key a) (kv_key b)) eqn:Ec.
    + destruct Hin as [->|Hin].
      * cbn [kv_value snd]. rewrite Hd. cbn [find kv_key fst]. now rewrite sv_eqb_refl.
      * destruct (defined (kv_value b)); [cbn [find]; rewrite (Hrest Hin)|];
          now apply IH1.
    + assert (Ha : sv_eqb (kv_key a) k = false).
      { destruct (sv_eqb (kv_key a) k) eqn:E; [|reflexivity]. apply sv_eqb_eq in E.
        exfalso. apply (strictly_sorted_lt_notin (kv_key a) b r2 Hs Ec).
        rewrite E. apply (in_map kv_key _ _ Hin). }
      cbn [find]. rewrite Ha. now apply IH1.
    + destruct Hin as [->|Hin].
      * cbn [kv_value snd]. rewrite Hd. cbn [find kv_key fst]. now rewrite sv_eqb_refl.
      * destruct (defined (kv_value b)); [cbn [find]; rewrite (Hrest Hin)|];
          now apply IH2.
Qed.

(** C4 (amended).  For any two values: the keys of [a.merge_keys(b)] come
    from [a] or [b]; an entry of [a] whose key [b] does not hold is kept;
    an entry of [b] with a defined value is kept; and the keys of the
    result are ascending when those of [a] and [b] are.  When the keys of
    [a] are ascending and those of [b] strictly increasing (no duplicate
    key), a key that [b] holds with a defined value reads as [b[k]] in the
    result.  When the keys of both are strictly increasing, moreover, a
    key that [b] holds with an undefined value is absent from the result,
    and the result is again strictly increasing. *)
Theorem C4_merge_keys_clauses (a b : Value) :
  ((forall k, In k (map kv_key (keys (merge_keys a b))) ->
              In k (map kv_key (keys a)) \/ In k (map kv_key (keys b))) /\
   (forall k x, In (k, x) (keys a) -> ~ In k (map kv_key (keys b)) ->
                In (k, x) (keys (merge_keys a b))) /\
   (forall k x, In (k, x) (keys b) -> defined x = true ->
                In (k, x) (keys (merge_keys a b)))) /\
  (nondecreasing (map kv_key (keys a)) = true ->
   nondecreasing (map kv_key (keys b)) = true ->
   nondecreasing (map kv_key (keys (merge_keys a b))) = true) /\
  (nondecreasing (map kv_key (keys a)) = true ->
   strictly_increasing (map kv_key (keys b)) = true ->
   forall k x, In (k, x) (keys b) -> defined x = true ->
               index_key (merge_keys a b) k = index_key b k) /\
  (strictly_increasing (map kv_key (keys a)) = true ->
   strictly_increasing (map kv_key (keys b)) = true ->
   merge_keys_claim a b /\
   strictly_increasing (map kv_key (keys (merge_keys a b))) = true).
Proof.
  assert (Hall :
    (forall k, In k (map kv_key (keys (merge_keys a b))) ->
               In k (map kv_key (keys a)) \/ In k (map kv_key (keys b))) /\
    (forall k x, In (k, x) (keys a) -> ~ In k (map kv_key (keys b)) ->
                 In (k, x) (keys (merge_keys a b))) /\
    (forall k x, In (k, x) (keys b) -> defined x = true ->
                 In (k, x) (keys (merge_keys a b)))).
  { cbn [merge_keys keys]. split; [|split].
    - intros k Hk. apply in_map_iff in Hk. destruct Hk as (kv & <- & Hkv).
      apply merge_loop_keys_subset in Hkv.
      destruct Hkv as [H|[H _]]; [left|right]; now apply in_map.
    - intros k x Hx Hk. now apply merge_loop_keeps_left.
    - intros k x Hx Hd. now apply merge_loop_keeps_right. }
  assert (Hlook :
    nondecreasing (map kv_key (keys a)) = true ->
    strictly_increasing (map kv_key (keys b)) = true ->
    forall k x, In (k, x) (keys b) -> defined x = true ->
                index_key (merge_keys a b) k = index_key b k).
  { intros Ha Hb k x Hx Hd.
    apply nondecreasing_sorted in Ha. apply strictly_increasing_sorted in Hb.
    assert (Hb' : index_key b k = x).
    { destruct b; simpl in Hx; try contradiction.
      apply index_key_In; [exact Hb | exact Hx]. }
    rewrite Hb'. unfold merge_keys. rewrite index_key_find.
    - now rewrite (merge_loop_find (keys a) (keys b) k x Hb Hx Hd).
    - apply merge_loop_ascending; [exact Ha|now apply strictly_sorted_weaken]. }
  split; [exact Hall|]. destruct Hall as (Hsub & Hleft & Hright).
  split; [|split; [exact Hlook|]].
  { intros Ha Hb. apply nondecreasing_sorted in Ha, Hb.
    apply nondecreasing_sorted. cbn [merge_keys keys]. now apply merge_loop_ascending. }
  intros Ha Hb.
  assert (Ha' : nondecreasing (map kv_key (keys a)) = true).
  { apply nondecreasing_sorted, strictly_sorted_weaken.
    now apply strictly_increasing_sorted. }
  specialize (Hlook Ha' Hb).
  apply strictly_increasing_sorted in Ha, Hb.
  pose proof (merge_loop_sorted _ _ Ha Hb) as Hr.
  pose proof (merge_loop_In _ _ Ha Hb) as Hin.
  split; [|now apply strictly_increasing_sorted].
  unfold merge_keys_claim. cbn zeta. split; [exact Hsub|]. split; [|split; [|split]].
  - exact Hlook.
  - intros k x Hx Hd Hk. cbn [merge_keys keys] in Hk.
    apply in_map_iff in Hk. destruct Hk as ([k' y] & E & Hkv).
    simpl in E. subst k'. apply Hin in Hkv. simpl in Hkv.
    destruct Hkv as [[H1 H2]|[H1 H2]].
    + assert (x = y) by (exact (strictly_sorted_In_value (keys b) k x y Hb Hx H1)).
      congruence.
    + apply H2. apply (in_map kv_key _ _ Hx).
  - exact Hleft.
  - intros k x Hx Hd _. now apply Hright.
Qed.

Lemma C4_merge_keys_clauses_witness :
  merge_keys_claim object_a1_c3 object_b2_c_undefined /\
  strictly_increasing
    (map kv_key (keys (merge_keys object_a1_c3 object_b2_c_undefined))) = true /\
  index_key (merge_keys dup_k_object object_b2_c_undefined) sv_b = V_int32 2.
Proof.
  pose proof (C4_merge_keys_clauses object_a1_c3 object_b2_c_undefined)
    as (_ & _ & _ & Hs).
  pose proof (C4_merge_keys_clauses dup_k_object object_b2_c_undefined)
    as (_ & _ & Hl & _).
  destruct (Hs eq_refl eq_refl) as [Hc Hi].
  split; [exact Hc|]. split; [exact Hi|].
  exact (Hl eq_refl eq_refl sv_b (V_int32 2) (or_introl eq_refl) eq_refl).
Defined.

(** C4 fails as worded for every pair of objects: the receiver built from
    [{"k":0,"k":5}] keeps an entry for "k" although the argument holds "k"
    with an undefined value. *)
Lemma C4_counterexample_duplicate_key :
  type dup_k_object = T_object /\ type delete_k_object = T_object /\
  ~ merge_keys_claim dup_k_object delete_k_object.
Proof.
  split; [reflexivity|]. split; [reflexivity|].
  intros (_ & _ & H & _).
  apply (H sv_k V_undefined); vm_compute; auto.
Qed.

(** C5 (amended): an object built by a sorting constructor (from a vector of
    key-value pairs or from an initializer list) lists its keys in ascending
    order, as a permutation of the given entries; the order is strict exactly
    when the given keys are pairwise distinct. *)
Theorem C5_keys_ascending (obj : list KeyValue) :
  nondecreasing (map kv_key (keys (Value_of_KeyValues obj))) = true /\
  Permutation (keys (Value_of_KeyValues obj)) obj /\
  (NoDup (map kv_key obj) <->
   strictly_increasing (map kv_key (keys (Value_of_KeyValues obj))) = true).
Proof.
  rewrite keys_Value_of_KeyValues. split; [|split; [|split]].
  - apply nondecreasing_sorted, sort_object_sorted.
  - apply sort_object_perm.
  - intros H. now apply strictly_increasing_sorted, sort_object_strict.
  - intros H. apply strictly_increasing_sorted in H.
    assert (Hnd : NoDup (map kv_key (sort_object obj))).
    { clear -H. induction H as [|a l Hs IH Hf]; simpl; constructor; auto.
      apply strictly_sorted_head_notin. now constructor. }
    eapply Permutation_NoDup; [|exact Hnd].
    apply Permutation_map, sort_object_perm.
Qed.

Lemma Value_of_list_object (list : list Value) :
  forallb is_key_value_pair list = true ->
  Value_of_list list =
  V_object (sort_object (map (fun v => (get_string (index v 0), index v 1)) list)).
Proof. unfold Value_of_list. now intros ->. Qed.

(** The same for the initializer-list constructor. *)
Lemma keys_Value_of_list_ascending (list : list Value) :
  nondecreasing (map kv_key (keys (Value_of_list list))) = true.
Proof.
  unfold Value_of_list. destruct (forallb is_key_value_pair list); [|reflexivity].
  apply nondecreasing_sorted, sort_object_sorted.
Qed.

Lemma C5_keys_ascending_witness :
  nondecreasing (map kv_key (keys (Value_of_KeyValues
     [(sv_b, V_int32 1); (sv_a, V_int32 2); (sv_c, V_int32 3)]))) = true /\
  Permutation (keys (Value_of_KeyValues
     [(sv_b, V_int32 1); (sv_a, V_int32 2); (sv_c, V_int32 3)]))
     [(sv_b, V_int32 1); (sv_a, V_int32 2); (sv_c, V_int32 3)] /\
  (NoDup (map kv_key [(sv_b, V_int32 1); (sv_a, V_int32 2); (sv_c, V_int32 3)]) <->
   strictly_increasing (map kv_key (keys (Value_of_KeyValues
     [(sv_b, V_int32 1); (sv_a, V_int32 2); (sv_c, V_int32 3)]))) = true).
Proof.
  exact (C5_keys_ascending [(sv_b, V_int32 1); (sv_a, V_int32 2); (sv_c, V_int32 3)]).
Defined.

(** C5 fails as worded: the object built from the list [{"k",0},{"k",5}]
    holds the key "k" twice, so its keys are not strictly increasing. *)
Lemma C5_counterexample_duplicate_key :
  ~ keys_strictly_increasing_claim dup_k_object.
Proof. intros H. specialize (H eq_refl). discriminate H. Qed.

Lemma C8_access_miss_is_undefined_witness :
  (type object_a1_c3 <> T_object \/ has_key object_a1_c3 sv_b = false ->
   index_key object_a1_c3 sv_b = undefined) /\
  ((type object_a1_c3 <> T_array /\ type object_a1_c3 <> T_object) \/
   (size object_a1_c3 <= 2)%nat ->
   index object_a1_c3 2 = undefined).
Proof.
  exact (C8_access_miss_is_undefined object_a1_c3 sv_b 2).
Defined.

(** ** Induction over values *)

Lemma Value_induction (P : Value -> Prop) :
  (forall v, is_leaf v -> P v) ->
  (forall c, Forall P c -> P (V_array c)) ->
  (forall c, Forall (fun kv : KeyValue => P (snd kv)) c -> P (V_object c)) ->
  forall v, P v.
Proof.
  intros Hleaf Harr Hobj. fix IH 1. intros v.
  destruct v; try (apply Hleaf; exact I).
  - apply Harr. revert items. fix IHc 1. intros [|x c]; constructor.
    + apply IH.
    + apply IHc.
  - apply Hobj. revert items. fix IHc 1. intros [|[k x] c]; constructor.
    + apply IH.
    + apply IHc.
Qed.

(** ** What the serializer writes, as one function of the value *)

Section OutputFacts.

Variable print_normal_double : Z -> string_view.

Lemma render_value_flush (fmt : Format) (v : Value) :
  forall stack,
    fst (render_value print_normal_double fmt v stack) ++
    flush print_normal_double fmt (snd (render_value print_normal_double fmt v stack))
    = output print_normal_double fmt v ++ flush print_normal_double fmt stack.
Proof.
  induction v as [v Hl | c IH | c IH] using Value_induction; intros stack.
  - destruct v; try contradiction; simpl; try reflexivity;
      unfold emit, close_Values, close_KeyValues; simpl;
      rewrite <- ?app_assoc; destruct fmt; reflexivity.
  - cbn [render_value output]. unfold render_item_Values, emit. cbn [fst snd].
    rewrite <- !app_assoc. f_equal.
    induction c as [|x c IHc]; cbn [scan_Values first_Values fst snd flush].
    + unfold close_Values. destruct fmt; reflexivity.
    + inversion IH as [|? ? Hx Hc]; subst.
      destruct (is_binary fmt || defined x) eqn:E.
      * rewrite Hx. cbn [flush]. now rewrite <- app_assoc.
      * now apply IHc.
  - cbn [render_value output]. unfold render_item_KeyValues, emit. cbn [fst snd].
    rewrite <- !app_assoc. f_equal.
    induction c as [|[k x] c IHc]; cbn [scan_KeyValues first_KeyValues fst snd flush].
    + unfold close_KeyValues. destruct fmt; reflexivity.
    + inversion IH as [|? ? Hx Hc]; subst. cbn [snd] in Hx.
      destruct (is_binary fmt || defined x) eqn:E.
      * unfold emit. cbn [fst snd]. rewrite <- !app_assoc. f_equal.
        unfold entry_sep. destruct fmt; cbn [app]; rewrite ?Hx; cbn [flush];
          now rewrite <- ?app_assoc.
      * now apply IHc.
Qed.

Lemma next_flush (fmt : Format) (stack : list SerState) :
  fst (next print_normal_double fmt stack) ++
  flush print_normal_double fmt (snd (next print_normal_double fmt stack))
  = flush print_normal_double fmt stack.
Proof.
  induction stack as [|[v|pos|pos] rest IH]; cbn [next flush].
  - reflexivity.
  - apply render_value_flush.
  - induction pos as [|[k x] pos IHp]; cbn [rest_KeyValues].
    + unfold emit, close_KeyValues. cbn [fst snd]. rewrite <- app_assoc.
      rewrite IH. destruct fmt; reflexivity.
    + pose proof (render_value_flush fmt x (S_StateObject pos :: rest)) as Hx.
      cbn [flush] in Hx. revert Hx IHp. clear IH.
      destruct fmt; intros Hx IHp.
      * destruct (defined x); cbn [negb]; [|exact IHp].
        unfold emit. cbn [fst snd app]. rewrite <- !app_assoc.
        cbn [app]. rewrite Hx. now rewrite <- ?app_assoc.
      * unfold emit. cbn [fst snd]. rewrite <- !app_assoc.
        rewrite Hx. now rewrite <- ?app_assoc.
  - induction pos as [|x pos IHp]; cbn [rest_Values].
    + unfold emit, close_Values. cbn [fst snd]. rewrite <- app_assoc.
      rewrite IH. destruct fmt; reflexivity.
    + pose proof (render_value_flush fmt x (S_StateArray pos :: rest)) as Hx.
      cbn [flush] in Hx. revert Hx IHp. clear IH.
      destruct fmt; intros Hx IHp.
      * destruct (defined x); cbn [negb]; [|exact IHp].
        unfold emit. cbn [fst snd app]. rewrite Hx.
        now rewrite <- ?app_assoc.
      * rewrite Hx. now rewrite <- ?app_assoc.
Qed.

End OutputFacts.

(** ** The read loop terminates and writes [output] *)

Section ReadLoop.

Variable print_normal_double : Z -> string_view.

Lemma render_value_weight (fmt : Format) (v : Value) :
  forall stack,
    (weight (snd (render_value print_normal_double fmt v stack)) + 1
     <= vsize v + weight stack)%nat.
Proof.
  induction v as [v Hl | c IH | c IH] using Value_induction; intros stack.
  - destruct v; try contradiction; simpl; lia.
  - cbn [render_value vsize]. unfold render_item_Values, emit. cbn [snd].
    induction c as [|x c IHc]; cbn [scan_Values snd fold_right].
    + lia.
    + inversion IH as [|? ? Hx Hc]; subst.
      destruct (is_binary fmt || defined x).
      * specialize (Hx (S_StateArray c :: stack)).
        cbn [weight fold_right weight_frame] in Hx. fold (weight stack) in Hx. lia.
      * specialize (IHc Hc). lia.
  - cbn [render_value vsize]. unfold render_item_KeyValues, emit. cbn [snd].
    induction c as [|[k x] c IHc]; cbn [scan_KeyValues snd fold_right].
    + lia.
    + inversion IH as [|? ? Hx Hc]; subst. cbn [snd] in Hx.
      destruct (is_binary fmt || defined x).
      * specialize (Hx (S_StateObject c :: stack)). unfold emit. cbn [snd].
        cbn [weight fold_right weight_frame] in Hx. fold (weight stack) in Hx. lia.
      * specialize (IHc Hc). lia.
Qed.

Lemma next_weight_le (fmt : Format) (stack : list SerState) :
  (weight (snd (next print_normal_double fmt stack)) <= weight stack)%nat /\
  (stack <> [] ->
   weight (snd (next print_normal_double fmt stack)) < weight stack)%nat.
Proof.
  induction stack as [|[v|pos|pos] rest [IH _]]; cbn [next].
  - split; [apply Nat.le_refl|congruence].
  - pose proof (render_value_weight fmt v rest) as Hv.
    cbn [weight fold_right weight_frame]. fold (weight rest). split; [|intros _]; lia.
  - cbn [weight fold_right weight_frame]. fold (weight rest).
    assert (weight (snd ((fix scan (pos : list KeyValue) : string_view * list SerState :=
         match pos with
         | [] => emit (match fmt with text => ["}"%char] | binary => [] end)
                      (next print_normal_double fmt rest)
         | kv :: pos' =>
             let '(k, v) := kv in
             match fmt with
             | text =>
                 if negb (defined v) then scan pos'
                 else emit (","%char :: render_key text k ++ [":"%char])
                           (render_value print_normal_double text v
                              (S_StateObject pos' :: rest))
             | binary =>
                 emit (render_key binary k)
                      (render_value print_normal_double binary v
                         (S_StateObject pos' :: rest))
             end
         end) pos)) <=
            fold_right (fun kv n => (vsize (snd kv) + n)%nat) 0%nat pos + weight rest)%nat
      as H; [|split; [|intros _]; lia].
    induction pos as [|[k x] pos IHp]; cbn [fold_right snd].
    + unfold emit. cbn [snd]. exact IH.
    + pose proof (render_value_weight fmt x (S_StateObject pos :: rest)) as Hx.
      cbn [weight fold_right weight_frame] in Hx. fold (weight rest) in Hx.
      revert Hx IHp. clear IH. destruct fmt; intros Hx IHp.
      * destruct (defined x); cbn [negb]; [unfold emit; cbn [snd]; lia | lia].
      * unfold emit; cbn [snd]; lia.
  - cbn [weight fold_right weight_frame]. fold (weight rest).
    assert (weight (snd ((fix scan (pos : list Value) : string_view * list SerState :=
         match pos with
         | [] => emit (match fmt with text => ["]"%char] | binary => [] end)
                      (next print_normal_double fmt rest)
         | v :: pos' =>
             match fmt with
             | text =>
                 if negb (defined v) then scan pos'
                 else emit [","%char]
                           (render_value print_normal_double text v
                              (S_StateArray pos' :: rest))
             | binary =>
                 render_value print_normal_double binary v (S_StateArray pos' :: rest)
             end
         end) pos)) <=
            fold_right (fun x n => (vsize x + n)%nat) 0%nat pos + weight rest)%nat
      as H; [|split; [|intros _]; lia].
    induction pos as [|x pos IHp]; cbn [fold_right snd].
    + unfold emit. cbn [snd]. exact IH.
    + pose proof (render_value_weight fmt x (S_StateArray pos :: rest)) as Hx.
      cbn [weight fold_right weight_frame] in Hx. fold (weight rest) in Hx.
      revert Hx IHp. clear IH. destruct fmt; intros Hx IHp.
      * destruct (defined x); cbn [negb]; [unfold emit; cbn [snd]; lia | lia].
      * lia.
Qed.

Lemma render_binary_type_size_cons (t n : Z) :
  exists c r, render_binary_type_size t n = c :: r.
Proof. unfold render_binary_type_size. eauto. Qed.

(** A container always writes its opening, and every value writes at least
    one byte in the binary format. *)
Lemma render_value_silent (fmt : Format) (v : Value) (stack : list SerState) :
  fst (render_value print_normal_double fmt v stack) = [] ->
  fmt = text /\ snd (render_value print_normal_double fmt v stack) = stack.
Proof.
  destruct fmt.
  - destruct v; simpl; try (intros _; split; reflexivity);
      unfold render_item_Values, render_item_KeyValues, emit; simpl; discriminate.
  - intros H. exfalso.
    destruct v; cbn [render_value render_leaf visit fst] in H;
      unfold render_item_string, render_item_integral, render_item_double,
        render_item_nullptr, render_item_Undefined, render_item_bool,
        render_item_Values, render_item_KeyValues, emit, open_Values,
        open_KeyValues, render_binary_type_size in H;
      cbn [fst app] in H;
      repeat match type of H with
             | context [if ?b then _ else _] => destruct b
             end; discriminate H.
Qed.

Lemma render_value_cursors (fmt : Format) (v : Value) :
  forall stack,
    forallb is_cursor stack = true ->
    forallb is_cursor (snd (render_value print_normal_double fmt v stack)) = true.
Proof.
  induction v as [v Hl | c IH | c IH] using Value_induction; intros stack Hs.
  - destruct v; try contradiction; simpl; auto.
  - cbn [render_value]. unfold render_item_Values, emit. cbn [snd].
    induction c as [|x c IHc]; cbn [scan_Values snd]; auto.
    inversion IH as [|? ? Hx Hc]; subst.
    destruct (is_binary fmt || defined x); auto.
  - cbn [render_value]. unfold render_item_KeyValues, emit. cbn [snd].
    induction c as [|[k x] c IHc]; cbn [scan_KeyValues snd]; auto.
    inversion IH as [|? ? Hx Hc]; subst. cbn [snd] in Hx.
    destruct (is_binary fmt || defined x); auto.
    unfold emit. cbn [snd]. auto.
Qed.

Lemma next_cursors (fmt : Format) (stack : list SerState) :
  forallb is_cursor stack = true ->
  forallb is_cursor (snd (next print_normal_double fmt stack)) = true.
Proof.
  induction stack as [|[v|pos|pos] rest IH]; cbn [next forallb is_cursor andb];
    auto; try discriminate; intros Hr.
  - induction pos as [|[k x] pos IHp].
    + unfold emit. cbn [snd]. auto.
    + destruct fmt.
      * destruct (defined x); cbn [negb]; auto. unfold emit. cbn [snd].
        apply render_value_cursors. exact Hr.
      * unfold emit. cbn [snd]. apply render_value_cursors. exact Hr.
  - induction pos as [|x pos IHp].
    + unfold emit. cbn [snd]. auto.
    + destruct fmt.
      * destruct (defined x); cbn [negb]; auto. unfold emit. cbn [snd].
        apply render_value_cursors. exact Hr.
      * apply render_value_cursors. exact Hr.
Qed.

(** An empty part is read only when the stack has run empty. *)
Lemma next_silent (fmt : Format) (stack : list SerState) :
  forallb is_cursor stack = true ->
  fst (next print_normal_double fmt stack) = [] ->
  snd (next print_normal_double fmt stack) = [].
Proof.
  induction stack as [|[v|pos|pos] rest IH]; cbn [next forallb is_cursor andb];
    auto; try discriminate; intros Hr.
  - induction pos as [|[k x] pos IHp].
    + unfold emit. cbn [fst snd]. destruct fmt; [discriminate|]. cbn [app]. auto.
    + destruct fmt.
      * destruct (defined x); cbn [negb]; auto. unfold emit. cbn [fst].
        discriminate.
      * unfold emit. cbn [fst snd]. intros H. apply app_eq_nil in H.
        destruct H as [_ H]. apply render_value_silent in H.
        destruct H; discriminate.
  - induction pos as [|x pos IHp].
    + unfold emit. cbn [fst snd]. destruct fmt; [discriminate|]. cbn [app]. auto.
    + destruct fmt.
      * destruct (defined x); cbn [negb]; auto. unfold emit. cbn [fst].
        discriminate.
      * intros H. apply render_value_silent in H. destruct H; discriminate.
Qed.

Lemma read_loop_cursors (fmt : Format) :
  forall n stack retval,
    (weight stack < n)%nat -> forallb is_cursor stack = true ->
    read_loop print_normal_double fmt n stack retval
    = Some (retval ++ flush print_normal_double fmt stack).
Proof.
  induction n as [|n IH]; intros stack retval Hw Hc; [lia|].
  cbn [read_loop]. unfold read.
  pose proof (next_flush print_normal_double fmt stack) as Hf.
  pose proof (next_weight_le fmt stack) as [_ Hn].
  pose proof (next_cursors fmt stack Hc) as Hc'.
  pose proof (next_silent fmt stack Hc) as Hs.
  destruct (next print_normal_double fmt stack) as [part stack'].
  cbn [fst snd] in *. destruct part as [|c part].
  - rewrite (Hs eq_refl) in Hf. simpl in Hf. now rewrite <- Hf, app_nil_r.
  - rewrite IH; auto.
    + now rewrite <- Hf, app_assoc.
    + assert (stack <> []) as Hne
        by (intros ->; cbn in Hf; discriminate Hf).
      specialize (Hn Hne). lia.
Qed.

(** [stringify] and [binarize] return, and what they return is [output]. *)
Theorem serialize_output (fmt : Format) (v : Value) (k : nat) :
  serialize print_normal_double fmt (S (vsize v) + k) v
  = Some (output print_normal_double fmt v).
Proof.
  unfold serialize. cbn [read_loop Nat.add]. unfold read. cbn [next].
  pose proof (render_value_flush print_normal_double fmt v []) as Hf.
  pose proof (render_value_weight fmt v []) as Hw.
  pose proof (render_value_cursors fmt v [] eq_refl) as Hc.
  pose proof (render_value_silent fmt v []) as Hs.
  destruct (render_value print_normal_double fmt v []) as [part stack'].
  cbn [fst snd flush] in *. rewrite app_nil_r in Hf.
  destruct part as [|c part].
  - destruct (Hs eq_refl) as [_ ->]. simpl in Hf. now rewrite <- Hf.
  - rewrite read_loop_cursors; auto.
    + cbn [app]. now rewrite <- Hf.
    + change (weight []) with 0%nat in Hw. lia.
Qed.

End ReadLoop.

(** ** Undefined entries in the textual form *)

Section UndefinedEntries.

Variable print_normal_double : Z -> string_view.

Lemma rest_KeyValues_text (pos : list KeyValue) :
  rest_KeyValues text (output print_normal_double text) pos
  = flat_map (fun kv => ","%char :: entry_text print_normal_double kv)
             (defined_entries pos) ++ ["}"%char].
Proof.
  induction pos as [|[k x] pos IH]; cbn [rest_KeyValues defined_entries filter].
  - reflexivity.
  - unfold kv_value at 1. cbn [snd]. destruct (defined x) eqn:E.
    + cbn [flat_map]. fold (defined_entries pos). rewrite IH.
      change (entry_text print_normal_double (k, x))
        with (DQUOTE :: encode k ++ [DQUOTE] ++
              ":"%char :: output print_normal_double text x).
      unfold render_key, render_item_string.
      cbn [Type_eqb app]. rewrite <- !app_assoc. reflexivity.
    + exact IH.
Qed.

Lemma join_comma_cons (x : string_view) (r : list string_view) :
  join_comma (x :: r) = x ++ flat_map (fun y => ","%char :: y) r.
Proof.
  revert x. induction r as [|y r IH]; intros x.
  - simpl. now rewrite app_nil_r.
  - change (join_comma (x :: y :: r)) with (x ++ ","%char :: join_comma (y :: r)).
    rewrite IH. reflexivity.
Qed.

Lemma first_KeyValues_text (pos : list KeyValue) :
  first_KeyValues text (output print_normal_double text) pos
  = join_comma (map (entry_text print_normal_double) (defined_entries pos)) ++ ["}"%char].
Proof.
  induction pos as [|[k x] pos IH]; cbn [first_KeyValues defined_entries filter].
  - reflexivity.
  - unfold kv_value at 1. cbn [snd is_binary orb]. destruct (defined x) eqn:E.
    + fold (defined_entries pos). cbn [map]. rewrite join_comma_cons.
      rewrite rest_KeyValues_text.
      rewrite (flat_map_concat_map (fun y => ","%char :: y)), map_map,
        <- flat_map_concat_map.
      change (entry_text print_normal_double (k, x))
        with (DQUOTE :: encode k ++ [DQUOTE] ++
              ":"%char :: output print_normal_double text x).
      unfold render_key, render_item_string, entry_sep.
      cbn [Type_eqb app]. rewrite <- !app_assoc. reflexivity.
    + exact IH.
Qed.

Lemma defined_entries_idem (c : list KeyValue) :
  defined_entries (defined_entries c) = defined_entries c.
Proof.
  unfold defined_entries. induction c as [|kv c IH]; simpl; auto.
  destruct (defined (kv_value kv)) eqn:E; simpl; rewrite ?E, IH; reflexivity.
Qed.

Lemma vsize_defined_entries (c : list KeyValue) :
  (vsize (V_object (defined_entries c)) <= vsize (V_object c))%nat.
Proof.
  cbn [vsize]. apply le_n_S. unfold defined_entries.
  induction c as [|kv c IH]; simpl; auto.
  destruct (defined (kv_value kv)); simpl; lia.
Qed.

(** C6: the text of an object is the brace-enclosed, comma-separated list
    of ["key":value] over the entries whose value is defined, so it is the
    same text as for the object without its undefined entries; the object
    [{"a":1,"b":undefined,"c":3}] gives exactly [{"a":1,"c":3}]; and an
    undefined value at the top level gives [null]. *)
Theorem C6_undefined_entries_omitted (c : list KeyValue) (k : nat) :
  let fuel := (S (vsize (V_object c)) + k)%nat in
  stringify print_normal_double fuel (V_object c)
  = Some ("{"%char :: join_comma (map (entry_text print_normal_double)
                                      (defined_entries c)) ++ ["}"%char]) /\
  stringify print_normal_double fuel (V_object c)
  = stringify print_normal_double fuel (V_object (defined_entries c)) /\
  stringify print_normal_double (5 + k) object_a1_b_undefined_c3 = Some text_a1_c3 /\
  stringify print_normal_double (2 + k) V_undefined = Some null_value.
Proof.
  intros fuel. unfold stringify, fuel.
  assert (H1 : serialize print_normal_double text (S (vsize (V_object c)) + k) (V_object c)
               = Some ("{"%char :: join_comma (map (entry_text print_normal_double)
                                                   (defined_entries c))
                                ++ ["}"%char])).
  { rewrite serialize_output. cbn [output open_KeyValues app].
    now rewrite first_KeyValues_text. }
  split; [exact H1|]. split; [|split].
  - rewrite H1.
    pose proof (vsize_defined_entries c) as Hle.
    replace (S (vsize (V_object c)) + k)%nat
      with (S (vsize (V_object (defined_entries c)))
            + (vsize (V_object c) - vsize (V_object (defined_entries c)) + k))%nat by lia.
    rewrite serialize_output. cbn [output open_KeyValues app].
    now rewrite first_KeyValues_text, defined_entries_idem.
  - apply (serialize_output print_normal_double text object_a1_b_undefined_c3 k).
  - apply (serialize_output print_normal_double text V_undefined (S k)).
Qed.

End UndefinedEntries.

(** ** More fuel never changes an answer *)

Lemma parse_StateNumber_mono (f f' : nat) (d pos : string_view) (s : Step) :
  parse_StateNumber f d pos = Some s -> (f <= f')%nat ->
  parse_StateNumber f' d pos = Some s.
Proof.
  revert f' d pos. induction f as [|f IH]; intros f' d pos H Hle; [discriminate|].
  destruct f' as [|f']; [lia|]. cbn [parse_StateNumber] in *.
  destruct pos as [|c rest]; auto.
  destruct (is_number_char c).
  - apply IH; [exact H|lia].
  - destruct (is_valid_json_number d); auto. apply IH; [exact H|lia].
Qed.

Lemma parse_state_mono (fmt : Format) (f f' : nat) (st : State) (pos : string_view)
      (s : Step) :
  parse_state fmt f st pos = Some s -> (f <= f')%nat ->
  parse_state fmt f' st pos = Some s.
Proof.
  destruct st; cbn [parse_state]; auto. intros H Hle.
  eapply parse_StateNumber_mono; eauto.
Qed.

Lemma do_parse_cycle_mono (fmt : Format) (f f' : nat) (p : Parser) (r : bool * Parser) :
  do_parse_cycle fmt f p = Some r -> (f <= f')%nat ->
  do_parse_cycle fmt f' p = Some r.
Proof.
  unfold do_parse_cycle. destruct (_state p) as [|st rest]; auto.
  intros H Hle. destruct (parse_state fmt f st (_pos p)) as [s|] eqn:E; [|discriminate].
  now rewrite (parse_state_mono fmt f f' st (_pos p) s E Hle).
Qed.

Lemma write_loop_mono (fmt : Format) (f f' : nat) (p : Parser) (r : bool * Parser) :
  write_loop fmt f p = Some r -> (f <= f')%nat -> write_loop fmt f' p = Some r.
Proof.
  revert f' p. induction f as [|f IH]; intros f' p H Hle.
  - destruct f'; cbn [write_loop] in *; destruct (_pos p); auto; discriminate.
  - destruct f' as [|f']; [lia|]. cbn [write_loop] in *.
    destruct (_pos p) as [|c rest]; auto.
    destruct (do_parse_cycle fmt f p) as [[[|] p']|] eqn:E; try discriminate.
    + rewrite (do_parse_cycle_mono fmt f f' p (true, p') E) by lia.
      apply IH; [exact H|lia].
    + rewrite (do_parse_cycle_mono fmt f f' p (false, p') E) by lia. exact H.
Qed.

(** ** Returning, stated without fuel *)

Lemma ParseState_det (fmt : Format) (st : State) (pos : string_view) (s s' : Step) :
  ParseState fmt st pos s -> ParseState fmt st pos s' -> s = s'.
Proof.
  intros [f H] [f' H'].
  pose proof (parse_state_mono fmt f (Nat.max f f') st pos s H (Nat.le_max_l _ _)) as H1.
  pose proof (parse_state_mono fmt f' (Nat.max f f') st pos s' H' (Nat.le_max_r _ _)) as H2.
  congruence.
Qed.

Lemma Cycle_det (fmt : Format) (p : Parser) (r r' : bool * Parser) :
  Cycle fmt p r -> Cycle fmt p r' -> r = r'.
Proof.
  intros [f H] [f' H'].
  pose proof (do_parse_cycle_mono fmt f (Nat.max f f') p r H (Nat.le_max_l _ _)) as H1.
  pose proof (do_parse_cycle_mono fmt f' (Nat.max f f') p r' H' (Nat.le_max_r _ _)) as H2.
  congruence.
Qed.

Lemma Writes_det (fmt : Format) (p : Parser) (r r' : bool * Parser) :
  Writes fmt p r -> Writes fmt p r' -> r = r'.
Proof.
  intros [f H] [f' H'].
  pose proof (write_loop_mono fmt f (Nat.max f f') p r H (Nat.le_max_l _ _)) as H1.
  pose proof (write_loop_mono fmt f' (Nat.max f f') p r' H' (Nat.le_max_r _ _)) as H2.
  congruence.
Qed.

Lemma Writes_end (fmt : Format) (p : Parser) (r : bool * Parser) :
  _pos p = [] -> (Writes fmt p r <-> r = (negb (no_frames p), p)).
Proof.
  intros Hp. unfold no_frames. split.
  - intros [f H]. destruct f; cbn [write_loop] in H; rewrite Hp in H; congruence.
  - intros ->. exists 0%nat. cbn [write_loop]. now rewrite Hp.
Qed.

Lemma Writes_done (fmt : Format) (p p' : Parser) :
  _pos p <> [] -> Cycle fmt p (false, p') -> Writes fmt p (false, p').
Proof.
  intros Hp [f H]. exists (S f). cbn [write_loop].
  destruct (_pos p); [congruence|]. now rewrite H.
Qed.

Lemma Writes_more (fmt : Format) (p p' : Parser) (r : bool * Parser) :
  _pos p <> [] -> Cycle fmt p (true, p') -> Writes fmt p' r -> Writes fmt p r.
Proof.
  intros Hp [f H] [f' H']. exists (S (Nat.max f f')). cbn [write_loop].
  destruct (_pos p); [congruence|].
  rewrite (do_parse_cycle_mono fmt f (Nat.max f f') p _ H (Nat.le_max_l _ _)).
  apply (write_loop_mono fmt f'); [exact H'|apply Nat.le_max_r].
Qed.

Lemma Writes_step (fmt : Format) (p : Parser) (r : bool * Parser) :
  _pos p <> [] -> Writes fmt p r ->
  exists r1, Cycle fmt p r1 /\
             (if fst r1 then Writes fmt (snd r1) r else r = r1).
Proof.
  intros Hp [f H]. destruct f as [|f]; cbn [write_loop] in H;
    destruct (_pos p) as [|c rest] eqn:E; try congruence.
  destruct (do_parse_cycle fmt f p) as [[[|] p']|] eqn:Ec; try discriminate.
  - exists (true, p'). split; [now exists f|]. now exists f.
  - exists (false, p'). split; [now exists f|]. cbn. congruence.
Qed.

(** Both ways: the loop over a non-empty rest does what its first turn
    and the loop after it do. *)
Lemma Writes_unfold (fmt : Format) (p : Parser) (r : bool * Parser) :
  _pos p <> [] ->
  (Writes fmt p r <->
   exists r1, Cycle fmt p r1 /\
              (if fst r1 then Writes fmt (snd r1) r else r = r1)).
Proof.
  intros Hp. split; [now apply Writes_step|].
  intros ([[|] p'] & Hc & H); cbn [fst snd] in H.
  - eapply Writes_more; eauto.
  - subst r. now apply Writes_done.
Qed.

(** ** Splitting the input of one call *)

Lemma ParseState_total (fmt : Format) (st : State) (pos : string_view) (s : Step) :
  (forall fuel, parse_state fmt fuel st pos = Some s) -> ParseState fmt st pos s.
Proof. intros H. exists 0%nat. apply H. Qed.

Lemma skip_space_app (a b : string_view) :
  skip_space (a ++ b)
  = match skip_space a with [] => skip_space b | l => l ++ b end.
Proof.
  induction a as [|c a IH]; cbn [skip_space app]; [reflexivity|].
  destruct (isspace c); [exact IH|reflexivity].
Qed.

Lemma Resumes_DetectType (fmt : Format) (a b : string_view) (s : Step) :
  ParseState fmt DetectType a s -> Resumes fmt DetectType a b s.
Proof.
  intros [f H]. cbn [parse_state] in H. injection H as <-. destruct fmt.
  - unfold parse_DetectType_text at 1.
    destruct (skip_space a) as [|c rest] eqn:E.
    + right. exists DetectType. split; [reflexivity|]. intros s'.
      unfold ParseState. cbn [parse_state]. unfold parse_DetectType_text.
      rewrite skip_space_app, E. reflexivity.
    + left. apply ParseState_total. intros fuel. cbn [parse_state]. f_equal.
      unfold parse_DetectType_text. rewrite skip_space_app, E. cbn [app].
      repeat match goal with
             | |- context [if ?c then _ else _] => destruct c; try reflexivity
             end.
  - destruct a as [|c rest].
    + right. exists DetectType. split; [reflexivity|]. intros s'. reflexivity.
    + left. apply ParseState_total. intros fuel. cbn [parse_state app]. f_equal.
      unfold parse_DetectType_binary.
      repeat match goal with
             | |- context [if ?c then _ else _] => destruct c; try reflexivity
             end.
Qed.

Lemma ParseState_StateString (fmt : Format) (e : bool) (d pos : string_view) :
  ParseState fmt (StateString e d) pos (parse_StateString e d pos).
Proof. now exists 0%nat. Qed.

Lemma ParseState_StateArray (fmt : Format) (d : list Value) (pos : string_view) :
  ParseState fmt (StateArray d) pos (parse_StateArray d pos).
Proof. now exists 0%nat. Qed.

Lemma ParseState_StateObject (fmt : Format) (r : bool) (k : Key) (d : list KeyValue)
      (pos : string_view) :
  ParseState fmt (StateObject r k d) pos (parse_StateObject r k d pos).
Proof. now exists 0%nat. Qed.

Lemma ParseState_StateCheck (fmt : Format) (w : string_view) (res : Value) (n : nat)
      (pos : string_view) :
  ParseState fmt (StateCheck w res n) pos (parse_StateCheck w res n pos).
Proof. now exists 0%nat. Qed.

Lemma ParseState_StateDoubleNumber (fmt : Format) (d pos : string_view) :
  ParseState fmt (StateDoubleNumber d) pos (parse_StateDoubleNumber d pos).
Proof. now exists 0%nat. Qed.

Lemma ParseState_StateBinString (fmt : Format) (n : bool) (sz : Z) (d pos : string_view) :
  ParseState fmt (StateBinString n sz d) pos (parse_StateBinString n sz d pos).
Proof. now exists 0%nat. Qed.

Lemma ParseState_StateBinNumber (fmt : Format) (size : Z) (neg : bool) (accum : Z)
      (pos : string_view) :
  ParseState fmt (StateBinNumber size neg accum) pos
             (parse_StateBinNumber size neg accum pos).
Proof. now exists 0%nat. Qed.

(** The loops that take one byte a turn: the induction is on the chunk. *)
Ltac resume_here st :=
  right; exists st; split; [reflexivity|]; intros s'; reflexivity.

Lemma Resumes_StateString (fmt : Format) (a b : string_view) :
  forall e d, Resumes fmt (StateString e d) a b (parse_StateString e d a).
Proof.
  induction a as [|c a IH]; intros e d.
  - resume_here (StateString e d).
  - assert (Hstep : forall x,
               parse_StateString e d (c :: x)
               = if negb e then
                   if char_eqb c DQUOTE
                   then Done (StateString e (decode_json_string d)) x
                             (Some (Value_string (decode_json_string d))) false
                   else parse_StateString (char_eqb c BACKSLASH) (d ++ [c]) x
                 else parse_StateString false (d ++ [c]) x) by reflexivity.
    unfold Resumes, ParseState. cbn [parse_state app]. rewrite !Hstep.
    destruct (negb e).
    + destruct (char_eqb c DQUOTE).
      * left. now exists 0%nat.
      * apply IH.
    + apply IH.
Qed.

Lemma Resumes_StateArray (fmt : Format) (a b : string_view) (d : list Value) :
  Resumes fmt (StateArray d) a b (parse_StateArray d a).
Proof.
  induction a as [|c a IH].
  - resume_here (StateArray d).
  - unfold Resumes, ParseState in *. cbn [parse_state app parse_StateArray] in *.
    destruct (negb (isspace c)).
    + left. exists 0%nat.
      destruct (char_eqb c ","%char); [destruct d; reflexivity|].
      destruct (char_eqb c "]"%char); [reflexivity|]. destruct d; reflexivity.
    + apply IH.
Qed.

Lemma Resumes_StateObject (fmt : Format) (a b : string_view) (r : bool) (k : Key)
      (d : list KeyValue) :
  Resumes fmt (StateObject r k d) a b (parse_StateObject r k d a).
Proof.
  induction a as [|c a IH].
  - resume_here (StateObject r k d).
  - unfold Resumes, ParseState in *. cbn [parse_state app parse_StateObject] in *.
    destruct (negb (isspace c)).
    + left. exists 0%nat.
      repeat match goal with
             | |- context [if ?c then _ else _] => destruct c; try reflexivity
             end.
    + apply IH.
Qed.

Lemma Resumes_StateCheck (fmt : Format) (a b : string_view) (w : string_view)
      (res : Value) :
  forall n, Resumes fmt (StateCheck w res n) a b (parse_StateCheck w res n a).
Proof.
  induction a as [|c a IH]; intros n.
  - resume_here (StateCheck w res n).
  - assert (Hstep : forall x,
               parse_StateCheck w res n (c :: x)
               = if char_eqb (nth n w NUL) c then
                   if (S n =? length w)%nat
                   then Done (StateCheck w res (S n)) x (Some res) false
                   else parse_StateCheck w res (S n) x
                 else Done (StateCheck w res n) (c :: x) None true) by reflexivity.
    unfold Resumes, ParseState. cbn [parse_state app]. rewrite !Hstep.
    destruct (char_eqb (nth n w NUL) c).
    + destruct (S n =? length w)%nat.
      * left. now exists 0%nat.
      * apply IH.
    + left. now exists 0%nat.
Qed.

Lemma Resumes_StateDoubleNumber (fmt : Format) (a b : string_view) :
  forall d, Resumes fmt (StateDoubleNumber d) a b (parse_StateDoubleNumber d a).
Proof.
  induction a as [|c a IH]; intros d.
  - resume_here (StateDoubleNumber d).
  - assert (Hstep : forall x,
               parse_StateDoubleNumber d (c :: x)
               = if (8 <=? length (d ++ [c]))%nat
                 then Done (StateDoubleNumber (d ++ [c])) x
                           (Some (V_dnum (le_value (d ++ [c])))) false
                 else parse_StateDoubleNumber (d ++ [c]) x) by reflexivity.
    unfold Resumes, ParseState. cbn [parse_state app]. rewrite !Hstep.
    destruct (8 <=? length (d ++ [c]))%nat.
    + left. now exists 0%nat.
    + apply IH.
Qed.

Lemma Resumes_StateBinString (fmt : Format) (a b : string_view) (n : bool) (sz : Z) :
  forall d, Resumes fmt (StateBinString n sz d) a b (parse_StateBinString n sz d a).
Proof.
  induction a as [|c a IH]; intros d.
  - resume_here (StateBinString n sz d).
  - assert (Hstep : forall x,
               parse_StateBinString n sz d (c :: x)
               = if sz <=? Z.of_nat (length (d ++ [c]))
                 then Done (StateBinString n sz (d ++ [c])) x
                           (Some (Value_of_string false (d ++ [c]) n)) false
                 else parse_StateBinString n sz (d ++ [c]) x) by reflexivity.
    unfold Resumes, ParseState. cbn [parse_state app]. rewrite !Hstep.
    destruct (sz <=? Z.of_nat (length (d ++ [c]))).
    + left. now exists 0%nat.
    + apply IH.
Qed.

Lemma read_BinNumber_app (a b : string_view) :
  forall size accum,
    read_BinNumber size accum (a ++ b)
    = let '(size', accum', pos') := read_BinNumber size accum a in
      if size' =? 0 then (size', accum', pos' ++ b)
      else read_BinNumber size' accum' b.
Proof.
  induction a as [|c a IH]; intros size accum; cbn [read_BinNumber app].
  - destruct (size =? 0) eqn:E; [|reflexivity].
    destruct b; cbn [read_BinNumber]; now rewrite ?E.
  - destruct (size =? 0) eqn:E; [now rewrite E|]. apply IH.
Qed.

Lemma read_BinNumber_rest (a : string_view) :
  forall size accum,
    let '(size', _, pos') := read_BinNumber size accum a in
    (size' =? 0) = false -> pos' = [].
Proof.
  induction a as [|c a IH]; intros size accum; cbn [read_BinNumber]; auto.
  destruct (size =? 0) eqn:E; [congruence|]. apply IH.
Qed.

Lemma Resumes_StateBinNumber (fmt : Format) (a b : string_view) (size : Z)
      (neg : bool) (accum : Z) :
  Resumes fmt (StateBinNumber size neg accum) a b
          (parse_StateBinNumber size neg accum a).
Proof.
  unfold parse_StateBinNumber at 1.
  pose proof (read_BinNumber_app a b size accum) as Happ.
  pose proof (read_BinNumber_rest a size accum) as Hrest.
  destruct (read_BinNumber size accum a) as [[size' accum'] pos'].
  destruct (size' =? 0) eqn:E; cbn [negb].
  - left. apply ParseState_total. intros fuel. cbn [parse_state]. f_equal.
    unfold parse_StateBinNumber. rewrite Happ, E. cbn [negb].
    destruct neg; reflexivity.
  - rewrite (Hrest eq_refl). right. exists (StateBinNumber size' neg accum').
    split; [reflexivity|]. intros s'. unfold ParseState. cbn [parse_state].
    unfold parse_StateBinNumber. rewrite Happ. reflexivity.
Qed.

Lemma parse_StateNumber_stuck (fuel : nat) (d : string_view) (c : char)
      (rest : string_view) :
  is_number_char c = false -> is_valid_json_number d = false ->
  parse_StateNumber fuel d (c :: rest) = None.
Proof.
  intros Hc Hv. induction fuel as [|fuel IH]; cbn [parse_StateNumber]; auto.
  now rewrite Hc, Hv.
Qed.

Lemma ParseState_Number_char (fmt : Format) (d : string_view) (c : char)
      (pos : string_view) (s : Step) :
  is_number_char c = true ->
  (ParseState fmt (StateNumber d) (c :: pos) s <->
   ParseState fmt (StateNumber (d ++ [c])) pos s).
Proof.
  intros Hc. unfold ParseState. cbn [parse_state]. split.
  - intros [[|f] H]; cbn [parse_StateNumber] in H; [discriminate|].
    rewrite Hc in H. eauto.
  - intros [f H]. exists (S f). cbn [parse_StateNumber]. now rewrite Hc.
Qed.

Lemma Resumes_StateNumber (fmt : Format) (a b : string_view) :
  forall d s, ParseState fmt (StateNumber d) a s ->
              Resumes fmt (StateNumber d) a b s.
Proof.
  induction a as [|c a IH]; intros d s H.
  - destruct H as [[|f] H]; cbn [parse_state parse_StateNumber] in H;
      [discriminate|]. injection H as <-.
    right. exists (StateNumber d). split; [reflexivity|]. intros s'. reflexivity.
  - destruct (is_number_char c) eqn:Ec.
    + apply ParseState_Number_char in H; [|exact Ec].
      destruct (IH _ _ H) as [IH'|(st' & Hs & IH')].
      * left. cbn [app]. now apply ParseState_Number_char.
      * right. exists st'. split; [exact Hs|]. intros s'. rewrite <- IH'.
        cbn [app]. now apply ParseState_Number_char.
    + destruct (is_valid_json_number d) eqn:Ev.
      * destruct H as [[|f] H]; cbn [parse_state parse_StateNumber] in H;
          [discriminate|]. rewrite Ec, Ev in H. injection H as <-.
        left. exists 1%nat. cbn [parse_state parse_StateNumber app step_app].
        now rewrite Ec, Ev.
      * destruct H as [f H]. cbn [parse_state] in H.
        rewrite parse_StateNumber_stuck in H by assumption. discriminate.
Qed.

(** Every frame resumes. *)
Lemma parse_state_resumes (fmt : Format) (st : State) (a b : string_view) (s : Step) :
  ParseState fmt st a s -> Resumes fmt st a b s.
Proof.
  destruct st; intros H.
  - now apply Resumes_DetectType.
  - rewrite (ParseState_det _ _ _ _ _ H (ParseState_StateString fmt _ _ a)).
    apply Resumes_StateString.
  - now apply Resumes_StateNumber.
  - rewrite (ParseState_det _ _ _ _ _ H (ParseState_StateDoubleNumber fmt _ a)).
    apply Resumes_StateDoubleNumber.
  - rewrite (ParseState_det _ _ _ _ _ H (ParseState_StateBinNumber fmt _ _ _ a)).
    apply Resumes_StateBinNumber.
  - rewrite (ParseState_det _ _ _ _ _ H (ParseState_StateArray fmt _ a)).
    apply Resumes_StateArray.
  - rewrite (ParseState_det _ _ _ _ _ H (ParseState_StateObject fmt _ _ _ a)).
    apply Resumes_StateObject.
  - rewrite (ParseState_det _ _ _ _ _ H (ParseState_StateCheck fmt _ _ _ a)).
    apply Resumes_StateCheck.
  - rewrite (ParseState_det _ _ _ _ _ H (ParseState_StateBinString fmt _ _ _ a)).
    apply Resumes_StateBinString.
  - destruct H as [f H]. cbn [parse_state] in H. injection H as <-.
    left. apply ParseState_total. intros fuel. reflexivity.
  - destruct H as [f H]. cbn [parse_state] in H. injection H as <-.
    left. apply ParseState_total. intros fuel. reflexivity.
Qed.

(** ** Splitting the input of two calls *)

Lemma set_pos_pos (p : Parser) : set_pos p (_pos p) = p.
Proof. now destruct p. Qed.

Lemma set_pos_nil (p : Parser) : _pos p = [] -> set_pos p [] = p.
Proof. intros <-. apply set_pos_pos. Qed.

Lemma unwind_app (b : string_view) (rest : list State) :
  forall frame pos result e,
    unwind frame rest (pos ++ b) result e = app_pos b (unwind frame rest pos result e).
Proof.
  induction rest as [|st rest IH]; intros frame pos result e; cbn [unwind].
  - destruct e; reflexivity.
  - destruct e; [reflexivity|].
    destruct (finish_state st result) as [frames|frame' r e']; [reflexivity|].
    apply IH.
Qed.

Lemma unwind_false (rest : list State) :
  forall frame pos result e p',
    unwind frame rest pos result e = (false, p') ->
    _is_error p' = false -> _state p' = [].
Proof.
  induction rest as [|st rest IH]; intros frame pos result e p'; cbn [unwind].
  - destruct e; intros [= <-]; cbn; congruence.
  - destruct e; [intros [= <-]; cbn; congruence|].
    destruct (finish_state st result) as [frames|frame' r e']; [discriminate|].
    apply IH.
Qed.

Lemma after_step_app (b : string_view) (rest : list State) (result : Value)
      (err : bool) (s : Step) :
  after_step rest result err (step_app b s) = app_pos b (after_step rest result err s).
Proof. destruct s; cbn [after_step step_app]; [reflexivity|apply unwind_app]. Qed.

Lemma Cycle_cons (fmt : Format) (p : Parser) (st : State) (rest : list State)
      (r : bool * Parser) :
  _state p = st :: rest ->
  (Cycle fmt p r <->
   exists s, ParseState fmt st (_pos p) s /\
             r = after_step rest (_result p) (_is_error p) s).
Proof.
  intros Hs. unfold Cycle, ParseState, do_parse_cycle. rewrite Hs. split.
  - intros [f H]. destruct (parse_state fmt f st (_pos p)) as [s|] eqn:E;
      [|discriminate].
    exists s. split; [now exists f|]. destruct s; cbn [after_step]; congruence.
  - intros (s & [f H] & ->). exists f. rewrite H. now destruct s.
Qed.

Lemma Cycle_no_frames (fmt : Format) (p : Parser) (r : bool * Parser) :
  _state p = [] -> (Cycle fmt p r <-> r = (false, p)).
Proof.
  intros Hs. unfold Cycle, do_parse_cycle. rewrite Hs. split.
  - intros [_ H]. congruence.
  - intros ->. now exists 0%nat.
Qed.

(** One turn on the chunk [a] and on [a ++ b]. *)
Lemma Cycle_split (fmt : Format) (p : Parser) (a b : string_view) (r : bool * Parser) :
  Cycle fmt (set_pos p a) r ->
  Cycle fmt (set_pos p (a ++ b)) (app_pos b r) \/
  exists p', r = (true, p') /\ _pos p' = [] /\ no_frames p' = false /\
             forall r', Cycle fmt (set_pos p (a ++ b)) r' <-> Cycle fmt (set_pos p' b) r'.
Proof.
  destruct (_state p) as [|st rest] eqn:Hs.
  - intros H. apply Cycle_no_frames in H; [|exact Hs]. subst r. left.
    apply Cycle_no_frames; [exact Hs|reflexivity].
  - intros H. apply (Cycle_cons fmt _ st rest) in H; [|exact Hs].
    destruct H as (s & Hp & ->). cbn [set_pos _pos _result _is_error] in *.
    destruct (parse_state_resumes fmt st a b s Hp) as [Hw|(st' & -> & Hw)].
    + left. apply (Cycle_cons fmt _ st rest); [exact Hs|].
      exists (step_app b s). split; [exact Hw|]. symmetry. apply after_step_app.
    + right. eexists. split; [reflexivity|]. split; [reflexivity|].
      split; [reflexivity|]. intros r'.
      rewrite (Cycle_cons fmt (set_pos p (a ++ b)) st rest) by exact Hs.
      rewrite (Cycle_cons fmt (set_pos _ b) st' rest) by reflexivity.
      cbn [set_pos _pos _result _is_error app].
      split; intros (s' & H1 & H2); exists s'; (split; [now apply Hw|exact H2]).
Qed.

Lemma Cycle_false (fmt : Format) (p p' : Parser) :
  Cycle fmt p (false, p') -> _is_error p' = false -> _state p' = [].
Proof.
  destruct (_state p) as [|st rest] eqn:Hs; intros H.
  - apply Cycle_no_frames in H; [|exact Hs]. now injection H as <-.
  - apply (Cycle_cons fmt _ st rest) in H; [|exact Hs]. destruct H as (s & _ & H).
    destruct s; cbn [after_step] in H; [discriminate|].
    symmetry in H. intros He. exact (unwind_false _ _ _ _ _ _ H He).
Qed.

Lemma Writes_no_frames (fmt : Format) (p : Parser) :
  _state p = [] -> Writes fmt p (false, p).
Proof.
  intros Hs. destruct (_pos p) as [|c rest] eqn:Hp.
  - apply Writes_end; [exact Hp|]. unfold no_frames. now rewrite Hs.
  - apply Writes_done; [congruence|]. now apply Cycle_no_frames.
Qed.

Lemma Writes_same_cycles (fmt : Format) (p q : Parser) (r : bool * Parser) :
  _pos p <> [] -> _pos q <> [] ->
  (forall r', Cycle fmt p r' <-> Cycle fmt q r') ->
  (Writes fmt p r <-> Writes fmt q r).
Proof.
  intros Hp Hq Hc. rewrite (Writes_unfold fmt p r Hp), (Writes_unfold fmt q r Hq).
  split; intros (r1 & H1 & H2); exists r1; (split; [now apply Hc|exact H2]).
Qed.

Lemma Writes_after_cycle (fmt : Format) (p p' : Parser) (r : bool * Parser) :
  _pos p <> [] -> Cycle fmt p (true, p') ->
  (Writes fmt p r <-> Writes fmt p' r).
Proof.
  intros Hp Hc. rewrite (Writes_unfold fmt p r Hp). split.
  - intros (r1 & H1 & H2). rewrite (Cycle_det fmt p _ _ H1 Hc) in H2. exact H2.
  - intros H. exists (true, p'). split; [exact Hc|exact H].
Qed.

Lemma write_loop_nil (fmt : Format) (f : nat) (p : Parser) :
  _pos p = [] -> write_loop fmt f p = Some (negb (no_frames p), p).
Proof. intros Hp. destruct f; cbn [write_loop]; now rewrite Hp. Qed.

(** The loop over the chunk [a], then over [b], and the loop over
    [a ++ b]. *)
Lemma Writes_split (fmt : Format) (b : string_view) :
  forall f p a more p1,
    write_loop fmt f (set_pos p a) = Some (more, p1) ->
    if more
    then forall r, Writes fmt (set_pos p (a ++ b)) r <-> Writes fmt (set_pos p1 b) r
    else Writes fmt (set_pos p (a ++ b)) (false, set_pos p1 (_pos p1 ++ b)).
Proof.
  induction f as [|f IH]; intros p a more p1 H.
  - destruct a as [|c a]; [|discriminate].
    rewrite write_loop_nil in H by reflexivity. injection H as <- <-.
    destruct (no_frames (set_pos p [])) eqn:En; cbn [negb app].
    + apply Writes_no_frames. unfold no_frames in En. cbn [set_pos _state] in *.
      now destruct (_state p).
    + intros r. reflexivity.
  - destruct a as [|c a].
    + rewrite write_loop_nil in H by reflexivity. injection H as <- <-.
      destruct (no_frames (set_pos p [])) eqn:En; cbn [negb app].
      * apply Writes_no_frames. unfold no_frames in En. cbn [set_pos _state] in *.
        now destruct (_state p).
      * intros r. reflexivity.
    + cbn [write_loop set_pos _pos] in H.
      change (mkParser (_state p) (c :: a) (_result p) (_is_error p))
        with (set_pos p (c :: a)) in H.
      destruct (do_parse_cycle fmt f (set_pos p (c :: a))) as [[[|] p']|] eqn:Ec;
        [| |discriminate].
      * assert (Hc : Cycle fmt (set_pos p (c :: a)) (true, p')) by now exists f.
        assert (Hne : _pos (set_pos p ((c :: a) ++ b)) <> []) by discriminate.
        destruct (Cycle_split fmt p (c :: a) b _ Hc)
          as [Hw|(q & [= <-] & Hq & Hn & Hw)].
        -- unfold app_pos in Hw. cbn [fst snd] in Hw.
           rewrite <- (set_pos_pos p') in H. specialize (IH _ _ _ _ H).
           destruct more.
           ++ intros r. rewrite (Writes_after_cycle fmt _ _ r Hne Hw).
              replace (set_pos p' (_pos p' ++ b))
                with (set_pos (set_pos p' (_pos p')) (_pos p' ++ b)) by reflexivity.
              apply IH.
           ++ eapply Writes_more; [exact Hne|exact Hw|]. exact IH.
        -- rewrite write_loop_nil in H by exact Hq. rewrite Hn in H.
           injection H as <- <-. intros r.
           assert (Hend : Writes fmt p' (true, p')).
           { exists 0%nat. rewrite write_loop_nil by exact Hq. now rewrite Hn. }
           destruct b as [|d b].
           ++ rewrite app_nil_r, (set_pos_nil p' Hq).
              assert (Hfirst : Writes fmt (set_pos p (c :: a)) (true, p')).
              { eapply Writes_more; [discriminate|exact Hc|exact Hend]. }
              split; intros Hr.
              ** now rewrite (Writes_det fmt _ _ _ Hr Hfirst).
              ** now rewrite (Writes_det fmt _ _ _ Hr Hend).
           ++ apply Writes_same_cycles; [discriminate|discriminate|exact Hw].
      * injection H as <- <-.
        assert (Hc : Cycle fmt (set_pos p (c :: a)) (false, p')) by now exists f.
        destruct (Cycle_split fmt p (c :: a) b _ Hc) as [Hw|(q & [=] & _)].
        apply Writes_done; [discriminate|exact Hw].
Qed.

Lemma Writes_false (fmt : Format) :
  forall f p p1, write_loop fmt f p = Some (false, p1) ->
                 _is_error p1 = false -> _state p1 = [].
Proof.
  induction f as [|f IH]; intros p p1 H.
  - destruct (_pos p) eqn:Hp; cbn [write_loop] in H; rewrite Hp in H; [|discriminate].
    injection H as Hn <-. intros _. now destruct (_state p).
  - cbn [write_loop] in H. destruct (_pos p) eqn:Hp.
    + injection H as Hn <-. intros _. now destruct (_state p).
    + destruct (do_parse_cycle fmt f p) as [[[|] p']|] eqn:Ec; [| |discriminate].
      * now apply (IH p').
      * injection H as <-. apply (Cycle_false fmt p). now exists f.
Qed.

(** ** The number loop that does not return *)

Lemma parse_StateNumber_run (c : char) (tail : string_view) :
  forall fuel n d,
    forallb is_number_char n = true -> is_number_char c = false ->
    is_valid_json_number (d ++ n) = false ->
    parse_StateNumber fuel d (n ++ c :: tail) = None.
Proof.
  induction fuel as [|fuel IH]; intros n d Hn Hc Hv; [reflexivity|].
  destruct n as [|x n]; cbn [app forallb] in *.
  - rewrite app_nil_r in Hv. now apply parse_StateNumber_stuck.
  - apply andb_true_iff in Hn. destruct Hn as [Hx Hn].
    cbn [parse_StateNumber]. rewrite Hx. apply IH; auto.
    now rewrite <- app_assoc.
Qed.

Lemma do_parse_cycle_stuck (fmt : Format) (p : Parser) (d n : string_view) (c : char)
      (tail : string_view) (rest : list State) :
  _state p = StateNumber d :: rest -> _pos p = n ++ c :: tail ->
  forallb is_number_char n = true -> is_number_char c = false ->
  is_valid_json_number (d ++ n) = false ->
  forall fuel, do_parse_cycle fmt fuel p = None.
Proof.
  intros Hs Hp Hn Hc Hv fuel. unfold do_parse_cycle. rewrite Hs, Hp.
  cbn [parse_state]. now rewrite parse_StateNumber_run.
Qed.

Lemma write_loop_stuck_cycle (fmt : Format) (p : Parser) :
  _pos p <> [] -> (forall fuel, do_parse_cycle fmt fuel p = None) ->
  forall fuel, write_loop fmt fuel p = None.
Proof.
  intros Hp Hc fuel. destruct fuel; cbn [write_loop]; destruct (_pos p);
    try congruence. now rewrite Hc.
Qed.

Lemma write_loop_stuck_more (fmt : Format) (p p' : Parser) :
  _pos p <> [] -> Cycle fmt p (true, p') ->
  (forall fuel, write_loop fmt fuel p' = None) ->
  forall fuel, write_loop fmt fuel p = None.
Proof.
  intros Hp Hc Hw fuel. destruct (write_loop fmt fuel p) as [r|] eqn:E; [|reflexivity].
  assert (Hr : Writes fmt p r) by now exists fuel.
  apply (Writes_after_cycle fmt p p' r Hp Hc) in Hr. destruct Hr as [f Hr].
  rewrite Hw in Hr. discriminate.
Qed.

(** ** Two calls and one: the theorem and its examples *)

Lemma Returns_det (fmt : Format) (p : Parser) (chunk : string_view)
      (r r' : bool * Parser) :
  Returns fmt p chunk r -> Returns fmt p chunk r' -> r = r'.
Proof. apply Writes_det. Qed.

Lemma write_after_x_never_returns (fuel : nat) :
  write text fuel parser_after_x (str "+ ") = None.
Proof.
  unfold write. revert fuel. eapply write_loop_stuck_more; [discriminate| |].
  - exists 0%nat. reflexivity.
  - apply write_loop_stuck_cycle; [discriminate|].
    apply (do_parse_cycle_stuck text _ [] (str "+") " "%char [] [DetectType]);
      reflexivity.
Qed.

(** Two calls of [write] on the parts [a] and [b] and one call on
    [a ++ b], by the answer of the first call.  When it returns [true]
    (more input is wanted) the second call on [b] returns exactly when the
    call on [a ++ b] returns, and with the same return value and the same
    parser.  When it returns [false] the call on [a ++ b] returns [false]
    too with the error flag and the result the first call left and [b]
    appended to the unread rest; and if no error was found a second call
    on [b] returns [false] and changes neither. *)
Lemma write_split_cases (fmt : Format) (p : Parser) (a b : string_view)
        (more : bool) (p1 : Parser) :
  Returns fmt p a (more, p1) ->
  if more
  then forall r, Returns fmt p (a ++ b) r <-> Returns fmt p1 b r
  else exists whole,
      Returns fmt p (a ++ b) (false, whole) /\
      is_error whole = is_error p1 /\
      get_result whole = get_result p1 /\
      get_unprocessed_data whole = get_unprocessed_data p1 ++ b /\
      (is_error p1 = false ->
       exists p2, Returns fmt p1 b (false, p2) /\
                  is_error p2 = false /\ get_result p2 = get_result p1).
Proof.
  intros [f H]. unfold write in H. pose proof (Writes_split fmt b f p a more p1 H) as Hs.
  destruct more.
  - exact Hs.
  - exists (set_pos p1 (_pos p1 ++ b)). split; [exact Hs|].
    repeat split. intros He. exists (set_pos p1 b). split.
    + apply Writes_no_frames. exact (Writes_false fmt f _ p1 H He).
    + split; [exact He|]. unfold get_result. cbn [set_pos _is_error _result].
      reflexivity.
Qed.

(** The error flag is never cleared. *)
Lemma unwind_error_kept (frame : State) (K : list State) (pos : string_view) (v : Value) :
  unwind frame K pos v true = (false, mkParser (frame :: K) pos v true).
Proof. now destruct K. Qed.

Lemma do_parse_cycle_error_kept (fmt : Format) (fuel : nat) (p : Parser)
      (r : bool * Parser) :
  _is_error p = true -> do_parse_cycle fmt fuel p = Some r -> _is_error (snd r) = true.
Proof.
  intros He. unfold do_parse_cycle. destruct (_state p) as [|st rest].
  - intros H. injection H as <-. exact He.
  - destruct (parse_state fmt fuel st (_pos p)) as [[frames pos|frame pos res e]|];
      [| |discriminate]; intros H; injection H as <-.
    + exact He.
    + rewrite He, orb_true_r, unwind_error_kept. reflexivity.
Qed.

Lemma write_loop_error_kept (fmt : Format) (fuel : nat) :
  forall p r, _is_error p = true -> write_loop fmt fuel p = Some r ->
              _is_error (snd r) = true.
Proof.
  induction fuel as [|fuel IH]; intros p r He; cbn [write_loop].
  - destruct (_pos p); [|discriminate]. intros H. injection H as <-. exact He.
  - destruct (_pos p).
    + intros H. injection H as <-. exact He.
    + destruct (do_parse_cycle fmt fuel p) as [[[|] p']|] eqn:Ec; [| |discriminate].
      * apply IH. exact (do_parse_cycle_error_kept fmt fuel p _ He Ec).
      * intros H. injection H as <-.
        exact (do_parse_cycle_error_kept fmt fuel p _ He Ec).
Qed.

(** Two calls of [write] on the parts [a] and [b] against one call on
    [a ++ b], from any parser and in both formats.  Whenever the second
    call returns, the call on the whole input returns too, with the same
    error flag and the same result.  And whenever the call on the whole
    input returns, the second call returns, unless the first call has
    ended with the error set. *)
Lemma split_write_agrees (fmt : Format) (p : Parser) (a b : string_view)
      (r1 : bool * Parser) :
  Returns fmt p a r1 ->
  (forall r2, Returns fmt (snd r1) b r2 ->
     exists whole, Returns fmt p (a ++ b) whole /\
                   is_error (snd whole) = is_error (snd r2) /\
                   get_result (snd whole) = get_result (snd r2)) /\
  (forall whole, Returns fmt p (a ++ b) whole ->
     fst r1 = true \/ is_error (snd r1) = false ->
     exists r2, Returns fmt (snd r1) b r2 /\
                is_error (snd whole) = is_error (snd r2) /\
                get_result (snd whole) = get_result (snd r2)).
Proof.
  destruct r1 as [more p1]. intros H1.
  pose proof (write_split_cases fmt p a b more p1 H1) as Hs. cbn [fst snd].
  destruct more.
  - split.
    + intros r2 H2. exists r2. split; [now apply Hs|]. now split.
    + intros whole Hw _. exists whole. split; [now apply Hs|]. now split.
  - destruct Hs as (whole & Hw & He & Hr & _ & Hnext). split.
    + intros r2 H2. exists (false, whole). split; [exact Hw|]. cbn [snd].
      destruct (is_error p1) eqn:E1.
      * destruct H2 as [f H2]. unfold write in H2.
        apply write_loop_error_kept in H2; [|exact E1].
        unfold is_error, get_result in *. rewrite H2. split; [exact He|].
        now rewrite He.
      * destruct (Hnext eq_refl) as (p2 & H2' & E2 & R2).
        rewrite (Returns_det fmt p1 b r2 (false, p2) H2 H2'). cbn [snd].
        split; congruence.
    + intros whole' Hw' [Hc|E1]; [discriminate|].
      destruct (Hnext E1) as (p2 & H2' & E2 & R2).
      exists (false, p2). split; [exact H2'|].
      rewrite (Returns_det fmt p (a ++ b) whole' (false, whole) Hw' Hw). cbn [snd].
      split; congruence.
Qed.

Example split_write_agrees_example :
  Returns text new_Parser (str "[tr") (true, parser_after_tr) /\
  Returns text parser_after_tr (str "ue]") (false, parser_after_true) /\
  exists whole,
    Returns text new_Parser (str "[true]") whole /\
    is_error (snd whole) = false /\
    get_result (snd whole) = V_array [V_bool_true].
Proof.
  assert (H1 : Returns text new_Parser (str "[tr") (true, parser_after_tr))
    by (exists 5%nat; reflexivity).
  assert (H2 : Returns text parser_after_tr (str "ue]") (false, parser_after_true))
    by (exists 5%nat; reflexivity).
  split; [exact H1|]. split; [exact H2|].
  exact (proj1 (split_write_agrees text new_Parser (str "[tr") (str "ue]")
                                   (true, parser_after_tr) H1) (false, parser_after_true) H2).
Qed.

(** The claim as worded fails on the input [x+ ] split after its first
    byte: the second call has no result to compare. *)
Lemma split_write_claim_fails : ~ split_write_claim.
Proof.
  intros H.
  destruct (H (str "x+ ") 1%nat
              (false, mkParser [DetectType] (str "x+ ") V_undefined true)
              ltac:(cbn; lia) (ex_intro _ 3%nat eq_refl))
    as (first & second & H1 & [f H2] & _).
  assert (E : first = (false, parser_after_x)).
  { apply (Returns_det text new_Parser (str "x")); [exact H1|].
    exists 3%nat. reflexivity. }
  subst first. cbn [snd skipn str] in H2.
  change (write text f parser_after_x (str "+ ") = Some second) in H2.
  rewrite write_after_x_never_returns in H2. discriminate.
Qed.

(** C3 (defect of the code): the input [x+ ] split after its first byte.
    The call on the whole input returns [false] with the error set.  The
    call on [x] returns [false] with the error set and leaves its frame on
    the stack; the call on [+ ] that follows starts a number there, and
    the number loop, which has no way out on an invalid run (C7), never
    returns, so the claim as worded fails.  This is the one way in which
    two calls differ from one: on every input and from every parser,
    whenever the second call returns it leaves the error flag and the
    result of the single call, and it returns whenever the single call
    does unless the first call ended with the error set. *)
Theorem C3_write_after_error_never_returns :
  (Returns text new_Parser (str "x+ ")
           (false, mkParser [DetectType] (str "x+ ") V_undefined true) /\
   Returns text new_Parser (str "x") (false, parser_after_x) /\
   is_error parser_after_x = true /\
   forall fuel : nat, write text fuel parser_after_x (str "+ ") = None) /\
  ~ split_write_claim /\
  forall (fmt : Format) (p : Parser) (a b : string_view) (r1 : bool * Parser),
    Returns fmt p a r1 ->
    (forall r2, Returns fmt (snd r1) b r2 ->
       exists whole, Returns fmt p (a ++ b) whole /\
                     is_error (snd whole) = is_error (snd r2) /\
                     get_result (snd whole) = get_result (snd r2)) /\
    (forall whole, Returns fmt p (a ++ b) whole ->
       fst r1 = true \/ is_error (snd r1) = false ->
       exists r2, Returns fmt (snd r1) b r2 /\
                  is_error (snd whole) = is_error (snd r2) /\
                  get_result (snd whole) = get_result (snd r2)).
Proof.
  split; [|split; [exact split_write_claim_fails|exact split_write_agrees]].
  split; [exists 3%nat; reflexivity|]. split; [exists 3%nat; reflexivity|].
  split; [reflexivity|]. exact write_after_x_never_returns.
Qed.

(** C7 (defect of the code): [write] on the input [[1.]] never returns.
    The number state has taken [1.], meets the closing bracket, finds the
    run invalid and goes round again with nothing changed: no error is
    reported, whatever the number of turns. *)
Theorem C7_invalid_number_never_returns :
  is_valid_json_number (str "1.") = false /\
  forall fuel : nat, write text fuel new_Parser (str "[1.]") = None.
Proof.
  split; [reflexivity|]. unfold write.
  eapply write_loop_stuck_more; [discriminate|exists 0%nat; reflexivity|].
  eapply write_loop_stuck_more; [discriminate|exists 0%nat; reflexivity|].
  eapply write_loop_stuck_more; [discriminate|exists 0%nat; reflexivity|].
  apply write_loop_stuck_cycle; [discriminate|].
  apply (do_parse_cycle_stuck text _ [] (str "1.") "]"%char []
                              [DetectType; StateArray []; DetectType]);
    reflexivity.
Qed.

(** C9 (defect of the code): the escape [\q] is not one of the known
    ones, and the decoder still gives it one byte of output.  The shared
    [++output] runs after the [default] branch wrote nothing, so the byte
    that the buffer held at that place stays: here the backslash itself.
    [a\qb] decodes to the three bytes [a\b], not to [ab]. *)
Theorem C9_invalid_escape_leaves_a_byte :
  decode_json_string ("a"%char :: BACKSLASH :: str "qb")
  = "a"%char :: BACKSLASH :: str "b" /\
  parse 5 (DQUOTE :: "a"%char :: BACKSLASH :: str "qb" ++ [DQUOTE])
  = Some (Ok (Value_string ("a"%char :: BACKSLASH :: str "b"))) /\
  parse 5 (DQUOTE :: str "ab" ++ [DQUOTE]) = Some (Ok (Value_string (str "ab"))).
Proof. repeat split; reflexivity. Qed.

(** ** The binary format read back: lengths and numbers *)

Lemma count_bytes_loop_zero (i : nat) (acc : Z) : count_bytes_loop i 0 acc = acc.
Proof.
  revert acc. induction i as [|i IH]; intros acc; cbn [count_bytes_loop]; [reflexivity|].
  rewrite Z.shiftr_0_l, IH. cbn. lia.
Qed.

(** The number of bytes [render_binary_type_size] counts is enough for the
    size, and at most eight. *)
Lemma count_bytes_loop_spec (i : nat) :
  forall tmp acc,
    0 <= tmp < 2 ^ (8 * Z.of_nat i) ->
    exists n, count_bytes_loop i tmp acc = acc + n /\
              0 <= n <= Z.of_nat i /\ tmp < 2 ^ (8 * n).
Proof.
  induction i as [|i IH]; intros tmp acc H.
  - exists 0. cbn [count_bytes_loop]. change (2 ^ (8 * Z.of_nat 0)) with 1 in H.
    change (2 ^ (8 * 0)) with 1. lia.
  - cbn [count_bytes_loop]. destruct (0 <? tmp) eqn:E.
    + assert (Hs : 0 <= Z.shiftr tmp 8 < 2 ^ (8 * Z.of_nat i)).
      { rewrite Z.shiftr_div_pow2 by lia. split; [apply Z.div_pos; lia|].
        apply Z.div_lt_upper_bound; [lia|]. rewrite <- Z.pow_add_r by lia.
        replace (8 + 8 * Z.of_nat i) with (8 * Z.of_nat (S i)) by lia. lia. }
      destruct (IH (Z.shiftr tmp 8) (acc + 1) Hs) as (n & En & Hn & Hlt).
      exists (1 + n). split; [lia|]. split; [lia|].
      rewrite Z.shiftr_div_pow2 in Hlt by lia.
      replace (8 * (1 + n)) with (8 + 8 * n) by lia. rewrite Z.pow_add_r by lia.
      pose proof (Z.div_mod tmp (2 ^ 8) ltac:(lia)) as Hd.
      pose proof (Z.mod_pos_bound tmp (2 ^ 8) ltac:(lia)) as Hm.
      assert (0 < 2 ^ (8 * n)) by (apply Z.pow_pos_nonneg; lia).
      nia.
    + apply Z.ltb_ge in E. assert (tmp = 0) by lia. subst tmp.
      exists 0. rewrite Z.shiftr_0_l, count_bytes_loop_zero.
      change (2 ^ (8 * 0)) with 1. lia.
Qed.

Lemma count_bytes_spec (size : Z) :
  0 <= size < 2 ^ 64 ->
  1 <= count_bytes size <= 8 /\ size < 2 ^ (8 * count_bytes size).
Proof.
  intros H. unfold count_bytes.
  destruct (count_bytes_loop_spec 8 size 0 H) as (n & -> & Hn & Hlt).
  rewrite Z.add_0_l. destruct (Z.max_spec 1 n) as [[Hm ->]|[Hm ->]].
  - split; [lia|exact Hlt].
  - split; [lia|]. assert (Hc : n = 0 \/ n = 1) by lia.
    destruct Hc; subst n; [|exact Hlt].
    change (2 ^ (8 * 0)) with 1 in Hlt. change (2 ^ (8 * 1)) with 256. lia.
Qed.

(** A number, its low byte taken off and put back. *)
Lemma lor_shift_low (y : Z) : Z.lor (Z.shiftl (Z.shiftr y 8) 8) (Z.land y 255) = y.
Proof.
  apply Z.bits_inj'. intros n Hn.
  rewrite Z.lor_spec, Z.land_spec. change 255 with (Z.ones 8).
  destruct (Z.ltb_spec n 8) as [Hl|Hg].
  - rewrite Z.shiftl_spec_low by lia. rewrite Z.ones_spec_low by lia.
    now rewrite andb_true_r.
  - rewrite Z.shiftl_spec by lia. rewrite Z.shiftr_spec by lia.
    rewrite Z.ones_spec_high by lia. rewrite andb_false_r, orb_false_r.
    f_equal. lia.
Qed.

Lemma shiftr_bound (size : Z) (n : Z) :
  0 <= n -> 0 <= size < 2 ^ 64 -> 0 <= Z.shiftr size n < 2 ^ 64.
Proof.
  intros Hn H. rewrite Z.shiftr_div_pow2 by lia.
  assert (0 < 2 ^ n) by (apply Z.pow_pos_nonneg; lia).
  split; [apply Z.div_pos; lia|].
  apply Z.le_lt_trans with size; [|lia]. apply Z.div_le_upper_bound; [lia|]. nia.
Qed.

(** [StateBinNumber]'s loop reads back what [emit_bytes] wrote. *)
Lemma read_BinNumber_emit (size : Z) (rest : string_view) :
  0 <= size < 2 ^ 64 ->
  forall c : nat,
    read_BinNumber (Z.of_nat c) (Z.shiftr size (8 * Z.of_nat c))
                   (emit_bytes c size ++ rest)
    = (0, size, rest).
Proof.
  intros H. induction c as [|c IH].
  - cbn [emit_bytes app Z.of_nat]. rewrite Z.shiftr_0_r.
    destruct rest; reflexivity.
  - cbn [emit_bytes app read_BinNumber].
    destruct (Z.of_nat (S c) =? 0) eqn:E; [apply Z.eqb_eq in E; lia|].
    replace (Z.of_nat (S c) - 1) with (Z.of_nat c) by lia.
    rewrite code_chr.
    replace (Z.of_nat c * 8) with (8 * Z.of_nat c) by lia.
    set (y := Z.shiftr size (8 * Z.of_nat c)).
    assert (Hy : Z.shiftr size (8 * Z.of_nat (S c)) = Z.shiftr y 8).
    { unfold y. rewrite Z.shiftr_shiftr by lia. f_equal. lia. }
    rewrite Hy.
    assert (Hb : 0 <= y < 2 ^ 64) by (apply shiftr_bound; lia).
    assert (Hl : 0 <= Z.land y 255 < 256).
    { change 255 with (Z.ones 8). rewrite Z.land_ones by lia.
      apply Z.mod_pos_bound. lia. }
    rewrite (Z.mod_small (Z.land y 255)) by exact Hl.
    assert (Hsl : Z.shiftl (Z.shiftr y 8) 8 mod 2 ^ 64 = Z.shiftl (Z.shiftr y 8) 8).
    { apply Z.mod_small. rewrite Z.shiftl_mul_pow2, Z.shiftr_div_pow2 by lia.
      pose proof (Z.div_mod y (2 ^ 8) ltac:(lia)) as Hd.
      pose proof (Z.mod_pos_bound y (2 ^ 8) ltac:(lia)) as Hm.
      assert (0 <= y / 2 ^ 8) by (apply Z.div_pos; lia). nia. }
    rewrite Hsl, lor_shift_low. exact IH.
Qed.

Lemma read_BinNumber_size (size : Z) (rest : string_view) :
  0 <= size < 2 ^ 64 ->
  read_BinNumber (count_bytes size) 0
                 (emit_bytes (Z.to_nat (count_bytes size)) size ++ rest)
  = (0, size, rest).
Proof.
  intros H. destruct (count_bytes_spec size H) as [Hc Hlt].
  pose proof (read_BinNumber_emit size rest H (Z.to_nat (count_bytes size))) as E.
  rewrite Z2Nat.id in E by lia.
  rewrite Z.shiftr_div_pow2, Z.div_small in E by lia. exact E.
Qed.

(** The eight bytes of a double, read back. *)
Lemma le_value_le_bytes (n : nat) :
  forall x, le_value (le_bytes n x) = x mod 2 ^ (8 * Z.of_nat n).
Proof.
  induction n as [|n IH]; intros x; cbn [le_bytes le_value].
  - change (2 ^ (8 * Z.of_nat 0)) with 1. now rewrite Z.mod_1_r.
  - rewrite IH, code_chr, Z.shiftr_div_pow2 by lia.
    replace (8 * Z.of_nat (S n)) with (8 + 8 * Z.of_nat n) by lia.
    rewrite Z.pow_add_r by lia. change (2 ^ 8) with 256.
    rewrite Z.rem_mul_r by (try apply Z.pow_pos_nonneg; lia). reflexivity.
Qed.

Lemma length_le_bytes (n : nat) (x : Z) : length (le_bytes n x) = n.
Proof. revert x. induction n; intros x; cbn [le_bytes length]; auto. Qed.

(** ** The binary parser, frame by frame *)

Lemma Writes_cycle (fmt : Format) (p : Parser) (r1 r : bool * Parser) :
  _pos p <> [] -> Cycle fmt p r1 -> (Writes fmt p r <-> After fmt r1 r).
Proof.
  intros Hp Hc. rewrite (Writes_unfold fmt p r Hp). unfold After. split.
  - intros (r2 & H2 & H). now rewrite <- (Cycle_det fmt p _ _ H2 Hc).
  - intros H. now exists r1.
Qed.

Lemma Writes_frame (fmt : Format) (st : State) (K : list State) (pos : string_view)
      (res : Value) (err : bool) (s : Step) (r : bool * Parser) :
  pos <> [] -> ParseState fmt st pos s ->
  (Writes fmt (mkParser (st :: K) pos res err) r <->
   After fmt (after_step K res err s) r).
Proof.
  intros Hp Hs. apply Writes_cycle; [exact Hp|].
  apply (Cycle_cons fmt _ st K); [reflexivity|]. now exists s.
Qed.

(** The header byte gives back its type and its count of bytes. *)
Lemma header_byte (t cb : Z) :
  In t header_types -> 1 <= cb <= 8 ->
  Z.land (code (chr (Z.lor t (cb - 1)))) BinaryType.mask = t /\
  Z.land (code (chr (Z.lor t (cb - 1)))) BinaryType.size_mask + 1 = cb.
Proof.
  intros Ht Hc.
  assert (Hall : forallb (fun t => forallb (fun n =>
              (Z.land (code (chr (Z.lor t (Z.of_nat n - 1)))) BinaryType.mask =? t) &&
              (Z.land (code (chr (Z.lor t (Z.of_nat n - 1)))) BinaryType.size_mask + 1
               =? Z.of_nat n)) (seq 1 8)) header_types = true) by reflexivity.
  rewrite forallb_forall in Hall. specialize (Hall t Ht).
  rewrite forallb_forall in Hall. specialize (Hall (Z.to_nat cb)).
  rewrite Z2Nat.id in Hall by lia.
  assert (Hin : In (Z.to_nat cb) (seq 1 8)) by (apply in_seq; lia).
  apply Hall in Hin. apply andb_true_iff in Hin. destruct Hin as [H1 H2].
  split; now apply Z.eqb_eq.
Qed.

Ltac detect_header t :=
  let H := fresh in
  let H1 := fresh in
  let H2 := fresh in
  intros H;
  destruct (header_byte t _ ltac:(unfold header_types; cbn [In]; tauto) H) as [H1 H2];
  unfold parse_DetectType_binary; cbv zeta; rewrite H1, H2; reflexivity.

Lemma DetectType_p_number (cb : Z) (rest : string_view) :
  1 <= cb <= 8 ->
  parse_DetectType_binary (chr (Z.lor BinaryType.p_number (cb - 1)) :: rest)
  = More [StateBinNumber cb false 0; DetectType] rest.
Proof. detect_header BinaryType.p_number. Qed.

Lemma DetectType_n_number (cb : Z) (rest : string_view) :
  1 <= cb <= 8 ->
  parse_DetectType_binary (chr (Z.lor BinaryType.n_number (cb - 1)) :: rest)
  = More [StateBinNumber cb true 0; DetectType] rest.
Proof. detect_header BinaryType.n_number. Qed.

Lemma DetectType_string (cb : Z) (rest : string_view) :
  1 <= cb <= 8 ->
  parse_DetectType_binary (chr (Z.lor BinaryType.string (cb - 1)) :: rest)
  = More [StateBinNumber cb false 0; StateBinString false 0 []; DetectType] rest.
Proof. detect_header BinaryType.string. Qed.

Lemma DetectType_string_number (cb : Z) (rest : string_view) :
  1 <= cb <= 8 ->
  parse_DetectType_binary (chr (Z.lor BinaryType.string_number (cb - 1)) :: rest)
  = More [StateBinNumber cb false 0; StateBinString true 0 []; DetectType] rest.
Proof. detect_header BinaryType.string_number. Qed.

Lemma DetectType_array (cb : Z) (rest : string_view) :
  1 <= cb <= 8 ->
  parse_DetectType_binary (chr (Z.lor BinaryType.array (cb - 1)) :: rest)
  = More [StateBinNumber cb false 0; StateBinArray 0 []; DetectType] rest.
Proof. detect_header BinaryType.array. Qed.

Lemma DetectType_object (cb : Z) (rest : string_view) :
  1 <= cb <= 8 ->
  parse_DetectType_binary (chr (Z.lor BinaryType.object (cb - 1)) :: rest)
  = More [StateBinNumber cb false 0; StateBinObject false default_Key [] 0; DetectType]
         rest.
Proof. detect_header BinaryType.object. Qed.

Lemma emit_bytes_nonempty (size : Z) (rest : string_view) :
  0 <= size < 2 ^ 64 ->
  emit_bytes (Z.to_nat (count_bytes size)) size ++ rest <> [].
Proof.
  intros H. destruct (count_bytes_spec size H) as [Hc _].
  destruct (Z.to_nat (count_bytes size)) eqn:E; [lia|]. discriminate.
Qed.

(** A header and its size: two turns, and the frames below the number
    frame are finished with the size. *)
Lemma parses_header (t : Z) (neg : bool) (K0 : list State) (size : Z) :
  (forall cb rest, 1 <= cb <= 8 ->
     parse_DetectType_binary (chr (Z.lor t (cb - 1)) :: rest)
     = More (StateBinNumber cb neg 0 :: K0) rest) ->
  0 <= size < 2 ^ 64 ->
  forall K rest res r,
    Writes binary (mkParser (DetectType :: K) (render_binary_type_size t size ++ rest)
                            res false) r <->
    After binary (unwind (StateBinNumber 0 neg size) (K0 ++ K) rest
                         (BinNumber_value neg size) false) r.
Proof.
  intros Hd Hs K rest res r.
  destruct (count_bytes_spec size Hs) as [Hc _].
  change (render_binary_type_size t size)
    with (chr (Z.lor t (count_bytes size - 1))
              :: emit_bytes (Z.to_nat (count_bytes size)) size).
  cbn [app].
  rewrite (Writes_frame binary DetectType K _ res false
             (More (StateBinNumber (count_bytes size) neg 0 :: K0)
                   (emit_bytes (Z.to_nat (count_bytes size)) size ++ rest)));
    [|discriminate|exists 0%nat; cbn [parse_state]; now rewrite Hd].
  unfold After at 1. cbn [after_step fst snd app].
  rewrite (Writes_frame binary (StateBinNumber (count_bytes size) neg 0) (K0 ++ K) _
             res false
             (Done (StateBinNumber 0 neg size) rest (Some (BinNumber_value neg size))
                   false));
    [reflexivity|now apply emit_bytes_nonempty|].
  exists 0%nat. cbn [parse_state]. unfold parse_StateBinNumber.
  rewrite (read_BinNumber_size size rest Hs). cbn [Z.eqb negb].
  unfold BinNumber_value. now destruct neg.
Qed.

Lemma parse_StateBinString_full (n : bool) (sz : Z) (rest : string_view) :
  forall l data,
    Z.of_nat (length data + length l) = sz -> l <> [] ->
    parse_StateBinString n sz data (l ++ rest)
    = Done (StateBinString n sz (data ++ l)) rest
           (Some (Value_of_string false (data ++ l) n)) false.
Proof.
  induction l as [|c l IH]; intros data Hlen Hne; [congruence|].
  cbn [parse_StateBinString app]. cbn [length] in Hlen.
  destruct (sz <=? Z.of_nat (length (data ++ [c]))) eqn:E.
  - apply Z.leb_le in E. rewrite length_app in E. cbn [length] in E.
    destruct l; [|cbn [length] in Hlen; lia]. reflexivity.
  - apply Z.leb_gt in E. rewrite length_app in E. cbn [length] in E.
    rewrite IH.
    + now rewrite <- app_assoc.
    + rewrite length_app. cbn [length]. lia.
    + destruct l; [cbn [length] in Hlen; lia|discriminate].
Qed.

(** ** The value a parser builds for what a serializer wrote *)

Lemma unwind_DetectType (frame : State) (K : list State) (pos : string_view)
      (v : Value) :
  unwind frame (DetectType :: K) pos v false = unwind DetectType K pos v false.
Proof. reflexivity. Qed.

Lemma parses_simple (c : char) (v' : Value) (K : list State) (rest : string_view)
      (res : Value) (r : bool * Parser) :
  parse_DetectType_binary (c :: rest) = Done DetectType rest (Some v') false ->
  (Writes binary (mkParser (DetectType :: K) (c :: rest) res false) r <->
   After binary (unwind DetectType K rest v' false) r).
Proof.
  intros H.
  rewrite (Writes_frame binary DetectType K _ res false
             (Done DetectType rest (Some v') false));
    [reflexivity|discriminate|].
  exists 0%nat. cbn [parse_state]. now rewrite H.
Qed.

Lemma parses_string (s : string_view) (ty : Type_) :
  Z.of_nat (length s) < 2 ^ 64 ->
  forall K rest res r,
    Writes binary (mkParser (DetectType :: K) (render_item_string binary s ty ++ rest)
                            res false) r <->
    After binary (unwind DetectType K rest
                         (reparsed_string s (Type_eqb ty T_number)) false) r.
Proof.
  intros Hlen K rest res r. cbn [render_item_string]. rewrite <- app_assoc.
  set (n := Type_eqb ty T_number).
  assert (Hs : 0 <= Z.of_nat (length s) < 2 ^ 64) by lia.
  rewrite (parses_header _ false [StateBinString n 0 []; DetectType]
                         (Z.of_nat (length s))); [| |exact Hs].
  2:{ intros cb rest' Hcb. unfold n. destruct (Type_eqb ty T_number).
      - now apply DetectType_string_number.
      - now apply DetectType_string. }
  cbn [app unwind finish_state BinNumber_value get_unsigned_long visit].
  rewrite (Z.mod_small _ _ Hs). unfold reparsed_string.
  destruct (Z.of_nat (length s) =? 0) eqn:E.
  - apply Z.eqb_eq in E. destruct s; [|cbn [length] in E; lia].
    cbn [assign app]. rewrite ?unwind_DetectType. reflexivity.
  - unfold After at 1. cbn [fst snd app].
    rewrite (Writes_frame binary _ (DetectType :: K) _ _ false
               (Done (StateBinString n (Z.of_nat (length s)) ([] ++ s)) rest
                     (Some (Value_of_string false ([] ++ s) n)) false)).
    + cbn [after_step assign orb app]. rewrite ?unwind_DetectType. reflexivity.
    + apply Z.eqb_neq in E. destruct s; [cbn [length] in E; lia|discriminate].
    + exists 0%nat. cbn [parse_state]. f_equal.
      apply parse_StateBinString_full; [reflexivity|].
      apply Z.eqb_neq in E. destruct s; [cbn [length] in E; lia|discriminate].
Qed.

Lemma parses_integral (bytes : nat) (is_signed : bool) (v : Z) :
  forall K rest res r,
    Writes binary (mkParser (DetectType :: K)
                            (render_item_integral binary bytes is_signed v ++ rest)
                            res false) r <->
    After binary (unwind DetectType K rest (reparsed_integral bytes is_signed v)
                         false) r.
Proof.
  intros K rest res r. unfold render_item_integral, reparsed_integral. cbv zeta.
  destruct (is_signed && (v <? 0)).
  - rewrite (parses_header _ true [DetectType]);
      [reflexivity|intros; now apply DetectType_n_number|].
    apply Z.mod_pos_bound. lia.
  - rewrite (parses_header _ false [DetectType]);
      [reflexivity|intros; now apply DetectType_p_number|].
    apply Z.mod_pos_bound. lia.
Qed.

Lemma parses_double (pd : Z -> string_view) (d : Z) :
  forall K rest res r,
    Writes binary (mkParser (DetectType :: K) (render_item_double pd binary d ++ rest)
                            res false) r <->
    After binary (unwind DetectType K rest (V_dnum (d mod 2 ^ 64)) false) r.
Proof.
  intros K rest res r. cbn [render_item_double app].
  rewrite (Writes_frame binary DetectType K _ res false
             (More [StateDoubleNumber []; DetectType] (le_bytes 8 d ++ rest)));
    [|discriminate|now exists 0%nat].
  unfold After at 1. cbn [after_step fst snd app].
  rewrite (Writes_frame binary _ (DetectType :: K) _ res false
             (Done (StateDoubleNumber ([] ++ le_bytes 8 d)) rest
                   (Some (V_dnum (le_value ([] ++ le_bytes 8 d)))) false)).
  - cbn [after_step assign orb app]. rewrite ?unwind_DetectType.
    now rewrite le_value_le_bytes.
  - discriminate.
  - exists 0%nat. reflexivity.
Qed.

Section Unbinarize.

Variable print_normal_double : Z -> string_view.

Lemma output_array (c : list Value) :
  output print_normal_double binary (V_array c)
  = open_Values binary (length c) ++
    rest_Values binary (output print_normal_double binary) c.
Proof. cbn [output]. f_equal. destruct c; reflexivity. Qed.

Lemma output_object (c : list KeyValue) :
  output print_normal_double binary (V_object c)
  = open_KeyValues binary (length c) ++
    rest_KeyValues binary (output print_normal_double binary) c.
Proof. cbn [output]. f_equal. destruct c as [|[k v] c]; reflexivity. Qed.

(** The elements of an array still to come. *)
Lemma parses_elements (n : Z) (K : list State) (rest : string_view) :
  forall todo, Forall (parses print_normal_double) todo ->
  forall data res r,
    todo <> [] -> Z.of_nat (length data + length todo) = n ->
    (Writes binary (mkParser (DetectType :: StateBinArray n data :: DetectType :: K)
                             (rest_Values binary (output print_normal_double binary)
                                          todo ++ rest) res false) r <->
     After binary (unwind DetectType K rest
                          (Value_of_Values (data ++ map reparsed todo)) false) r).
Proof.
  induction todo as [|v todo IH]; intros Hall data res r Hne Hn; [congruence|].
  pose proof (Forall_inv Hall) as Hv. pose proof (Forall_inv_tail Hall) as Htodo.
  cbn [length] in Hn.
  cbn [rest_Values map]. rewrite <- app_assoc. rewrite (Hv _ _ res r).
  cbn [unwind finish_state].
  destruct (n =? 0) eqn:E0; [apply Z.eqb_eq in E0; lia|].
  destruct (Z.of_nat (length (data ++ [reparsed v])) <? n) eqn:E;
    rewrite length_app in E; cbn [length] in E.
  - apply Z.ltb_lt in E.
    assert (Ht : todo <> []) by (destruct todo; [cbn [length] in Hn; lia|discriminate]).
    unfold After at 1. cbn [fst snd app].
    rewrite (IH Htodo (data ++ [reparsed v]) _ r Ht).
    + now rewrite <- app_assoc.
    + rewrite length_app. cbn [length]. lia.
  - apply Z.ltb_ge in E. destruct todo; [|cbn [length] in Hn; lia].
    cbn [assign rest_Values close_Values app map]. reflexivity.
Qed.

(** The entries of an object still to come. *)
Lemma parses_entries (n : Z) (K : list State) (rest : string_view) :
  forall todo,
    Forall (fun kv : KeyValue =>
              Z.of_nat (length (fst kv)) < 2 ^ 64 /\
              parses print_normal_double (snd kv))
           todo ->
  forall key data res r,
    todo <> [] -> Z.of_nat (length data + length todo) = n ->
    (Writes binary (mkParser (DetectType :: StateBinObject true key data n
                                         :: DetectType :: K)
                             (rest_KeyValues binary
                                             (output print_normal_double binary)
                                             todo ++ rest) res false) r <->
     After binary (unwind DetectType K rest
                          (Value_of_KeyValues
                             (data ++ map (fun kv => (fst kv, reparsed (snd kv))) todo))
                          false) r).
Proof.
  induction todo as [|[k v] todo IH]; intros Hall key data res r Hne Hn; [congruence|].
  destruct (Forall_inv Hall) as [Hk Hv]. pose proof (Forall_inv_tail Hall) as Htodo.
  cbn [fst snd] in Hk, Hv. cbn [length] in Hn.
  cbn [rest_KeyValues map fst snd]. unfold render_key. rewrite <- !app_assoc.
  rewrite (parses_string k T_string Hk).
  assert (E0 : (n =? 0) = false) by (apply Z.eqb_neq; lia).
  assert (Hty : Type_eqb (type (reparsed_string k (Type_eqb T_string T_number)))
                         T_string = true).
  { unfold reparsed_string, Value_string.
    destruct (Z.of_nat (length k) =? 0); now rewrite type_Value_of_string. }
  assert (Hget : get_string (reparsed_string k (Type_eqb T_string T_number)) = k).
  { unfold reparsed_string, Value_string, get_string.
    destruct (Z.of_nat (length k) =? 0) eqn:E; rewrite visit_runtime_string;
      [|reflexivity].
    apply Z.eqb_eq in E. destruct k; [reflexivity|cbn [length] in E; lia]. }
  cbn [unwind finish_state]. rewrite E0, Hty, Hget. cbn [negb].
  unfold After at 1. cbn [fst snd app].
  rewrite (Hv _ _ _ r). cbn [unwind finish_state]. rewrite E0.
  destruct (Z.of_nat (length (data ++ [(k, reparsed v)])) <? n) eqn:E;
    rewrite length_app in E; cbn [length] in E.
  - apply Z.ltb_lt in E.
    assert (Ht : todo <> []) by (destruct todo; [cbn [length] in Hn; lia|discriminate]).
    unfold After at 1. cbn [fst snd app].
    rewrite (IH Htodo k (data ++ [(k, reparsed v)]) _ r Ht).
    + now rewrite <- app_assoc.
    + rewrite length_app. cbn [length]. lia.
  - apply Z.ltb_ge in E. destruct todo; [|cbn [length] in Hn; lia].
    cbn [assign rest_KeyValues close_KeyValues app map]. reflexivity.
Qed.

Lemma sized_string (v : Value) (s : string_view) :
  is_leaf v -> sized v = true -> visit v = A_string_view s ->
  Z.of_nat (length s) < 2 ^ 64.
Proof.
  intros Hl Hs Hv. apply Z.ltb_lt.
  destruct v; try contradiction; cbn [sized] in Hs; rewrite Hv in Hs; exact Hs.
Qed.

(** The header of an array and of an object, with the count [n]. *)
Lemma parses_array_header (n : Z) :
  0 <= n < 2 ^ 64 ->
  forall K rest res r,
    Writes binary (mkParser (DetectType :: K)
                            (render_binary_type_size BinaryType.array n ++ rest)
                            res false) r <->
    After binary (if n =? 0 then unwind DetectType K rest V_empty_array false
                  else (true, mkParser (DetectType :: StateBinArray n []
                                                   :: DetectType :: K)
                                       rest (V_uint64 n) false)) r.
Proof.
  intros Hn K rest res r.
  rewrite (parses_header _ false [StateBinArray 0 []; DetectType] n);
    [|intros; now apply DetectType_array|exact Hn].
  cbn [app unwind finish_state BinNumber_value get_unsigned_long visit].
  change (0 =? 0) with true. cbv iota. rewrite (Z.mod_small _ _ Hn).
  destruct (n =? 0); reflexivity.
Qed.

Lemma parses_object_header (n : Z) :
  0 <= n < 2 ^ 64 ->
  forall K rest res r,
    Writes binary (mkParser (DetectType :: K)
                            (render_binary_type_size BinaryType.object n ++ rest)
                            res false) r <->
    After binary (if n =? 0 then unwind DetectType K rest V_empty_object false
                  else (true, mkParser (DetectType
                                          :: StateBinObject true default_Key [] n
                                          :: DetectType :: K)
                                       rest (V_uint64 n) false)) r.
Proof.
  intros Hn K rest res r.
  rewrite (parses_header _ false [StateBinObject false default_Key [] 0; DetectType] n);
    [|intros; now apply DetectType_object|exact Hn].
  cbn [app unwind finish_state BinNumber_value get_unsigned_long visit].
  change (0 =? 0) with true. cbv iota. rewrite (Z.mod_small _ _ Hn).
  destruct (n =? 0); reflexivity.
Qed.

(** Every value whose sizes fit is read back as [reparsed] says. *)
Lemma parses_value (v : Value) : sized v = true -> parses print_normal_double v.
Proof.
  induction v as [v Hl | c IH | c IH] using Value_induction; intros Hs.
  - pose proof (sized_string v) as Hstr. intros K rest res r.
    destruct v; try contradiction; cbn [output reparsed];
      unfold render_leaf;
      try (apply parses_simple; reflexivity);
      try (apply parses_integral);
      try (apply parses_double);
      try (apply parses_string; apply (Hstr _ Hl Hs); reflexivity).
    + cbn [open_Values close_Values length Z.of_nat]. rewrite app_nil_r.
      now rewrite parses_array_header by lia.
    + cbn [open_KeyValues close_KeyValues length Z.of_nat]. rewrite app_nil_r.
      now rewrite parses_object_header by lia.
  - cbn [sized] in Hs. apply andb_true_iff in Hs. destruct Hs as [Hn Hc].
    apply Z.ltb_lt in Hn. rewrite forallb_forall in Hc.
    assert (Hall : Forall (parses print_normal_double) c).
    { rewrite Forall_forall in IH. apply Forall_forall. intros x Hx.
      apply IH; [exact Hx|]. now apply Hc. }
    intros K rest res r. rewrite output_array. cbn [open_Values reparsed].
    rewrite <- app_assoc. rewrite parses_array_header by lia.
    destruct (Z.of_nat (length c) =? 0) eqn:E.
    + apply Z.eqb_eq in E. destruct c; [reflexivity|cbn [length] in E; lia].
    + apply Z.eqb_neq in E. unfold After at 1. cbn [fst snd].
      apply (parses_elements (Z.of_nat (length c)) K rest c Hall []);
        [|reflexivity].
      destruct c; [cbn [length] in E; lia|discriminate].
  - cbn [sized] in Hs. apply andb_true_iff in Hs. destruct Hs as [Hn Hc].
    apply Z.ltb_lt in Hn. rewrite forallb_forall in Hc.
    assert (Hall : Forall (fun kv : KeyValue =>
                             Z.of_nat (length (fst kv)) < 2 ^ 64 /\
                             parses print_normal_double (snd kv)) c).
    { rewrite Forall_forall in IH. apply Forall_forall. intros x Hx.
      specialize (Hc x Hx). apply andb_true_iff in Hc. destruct Hc as [Hk Hx'].
      split; [now apply Z.ltb_lt|]. now apply IH. }
    intros K rest res r. rewrite output_object. cbn [open_KeyValues reparsed].
    rewrite <- app_assoc.
    rewrite parses_object_header by (split; [apply Nat2Z.is_nonneg|exact Hn]).
    destruct (Z.of_nat (length c) =? 0) eqn:E.
    + apply Z.eqb_eq in E. destruct c; [reflexivity|cbn [length] in E; lia].
    + apply Z.eqb_neq in E. unfold After at 1. cbn [fst snd].
      apply (parses_entries (Z.of_nat (length c)) K rest c Hall default_Key []);
        [|reflexivity].
      destruct c; [cbn [length] in E; lia|discriminate].
Qed.

(** The whole input of a fresh parser: [unbinarize] on the bytes of [v]. *)
Lemma unbinarize_output (v : Value) :
  sized v = true ->
  exists fuel, forall fuel', (fuel <= fuel')%nat ->
    unbinarize fuel' (output print_normal_double binary v) = Some (Ok (reparsed v)).
Proof.
  intros Hs.
  pose proof (parses_value v Hs [] [] V_undefined
                           (false, mkParser [] [] (reparsed v) false)) as H.
  rewrite app_nil_r in H. destruct (proj2 H eq_refl) as [fuel Hw].
  exists fuel. intros fuel' Hle. unfold unbinarize, parse_with, write.
  cbn [new_Parser _state _result _is_error].
  now rewrite (write_loop_mono binary fuel fuel' _ _ Hw Hle).
Qed.

End Unbinarize.

Lemma unbinarize_det (f f' : nat) (bytes : string_view) (x y : Parsed) :
  unbinarize f bytes = Some x -> unbinarize f' bytes = Some y -> x = y.
Proof.
  unfold unbinarize, parse_with, write. intros Hx Hy.
  destruct (write_loop binary f _) as [r|] eqn:E; [|discriminate].
  destruct (write_loop binary f' _) as [r'|] eqn:E'; [|discriminate].
  assert (r = r') by exact (Writes_det binary _ r r' (ex_intro _ f E) (ex_intro _ f' E')).
  subst r'. congruence.
Qed.

(** ** Values that the binary format gives back equal *)

Lemma sort_object_sorted_id (l : list KeyValue) :
  strictly_increasing (map kv_key l) = true -> sort_object l = l.
Proof.
  induction l as [|a l IH]; [reflexivity|]. intros H.
  destruct l as [|b r]; [reflexivity|].
  change (sv_ltb (kv_key a) (kv_key b) && strictly_increasing (map kv_key (b :: r))
          = true) in H.
  apply andb_true_iff in H. destruct H as [Hab Hr].
  change (sort_object (a :: b :: r)) with (insert_sorted a (sort_object (b :: r))).
  rewrite (IH Hr). cbn [insert_sorted].
  apply sv_ltb_lt in Hab. unfold sv_ltb.
  rewrite (sv_compare_antisym (kv_key a) (kv_key b)), Hab. reflexivity.
Qed.

Lemma Value_eqb_string (s : string_view) (n : bool) (b : Value) :
  Value_eqb (Value_of_string false s n) b = leaf_eqb (A_string_view s) (visit b).
Proof.
  rewrite <- (visit_runtime_string s n). unfold Value_of_string.
  destruct (Z.of_nat (length s) <? 15); [reflexivity|]. now destruct n.
Qed.

(** Two keys made from strings are equal when the strings are, which is
    what [Value_eqb] applies to the keys of two objects. *)
Lemma Key_eqb_string (k1 k2 : string_view) :
  Key_eqb (Value_string k1) (Value_string k2) = sv_eqb k1 k2.
Proof.
  unfold Key_eqb, Value_string. rewrite Value_eqb_string, visit_runtime_string.
  reflexivity.
Qed.

(** A key made from a value that is not a string is not equal to the key
    of the same text that a parser builds, and the default key, which holds
    undefined, is equal to no key: the keys the model leaves out. *)
Lemma Key_eqb_not_string (k : Value) :
  Key_eqb V_bool_true (Value_string (get_string V_bool_true)) = false /\
  Key_eqb V_undefined k = false.
Proof. split; reflexivity. Qed.

Lemma wrap_signed_negative (x : Z) :
  - 2 ^ 63 <= x < 0 ->
  wrap_signed 64 (- wrap_signed 64 (wrap_signed 64 (- x) mod 2 ^ 64)) = x.
Proof.
  intros H. unfold wrap_signed.
  change (2 ^ (64 - 1)) with 9223372036854775808.
  change (2 ^ 64) with 18446744073709551616.
  change (2 ^ 63) with 9223372036854775808 in H.
  Z.to_euclidean_division_equations. lia.
Qed.

Lemma double_eqb_refl (d : Z) : isnan d = false -> double_eqb d d = true.
Proof. intros H. unfold double_eqb. now rewrite H, Z.eqb_refl. Qed.

Lemma reparsed_string_equal (v : Value) (s : string_view) (n : bool) :
  visit v = A_string_view s -> Value_eqb (reparsed_string s n) v = true.
Proof.
  intros Hv. unfold reparsed_string, Value_string.
  destruct (Z.of_nat (length s) =? 0) eqn:E; rewrite Value_eqb_string, Hv;
    cbn [leaf_eqb]; [|apply sv_eqb_refl].
  apply Z.eqb_eq in E. destruct s; [reflexivity|cbn [length] in E; lia].
Qed.

Lemma Value_of_KeyValues_sorted (l : list KeyValue) :
  l <> [] -> strictly_increasing (map kv_key l) = true ->
  Value_of_KeyValues l = V_object l.
Proof.
  intros Hne Hk. unfold Value_of_KeyValues. rewrite (sort_object_sorted_id l Hk).
  destruct l; [congruence|reflexivity].
Qed.

(** What the parser gives back compares equal to what was written. *)
Lemma reparsed_equal (v : Value) :
  binary_exact v = true -> Value_eqb (reparsed v) v = true.
Proof.
  induction v as [v Hl | c IH | c IH] using Value_induction; intros He.
  - destruct v; try contradiction; cbn [binary_exact visit] in He;
      try discriminate; try reflexivity; cbn [reparsed];
      try (apply reparsed_string_equal; reflexivity).
    + apply andb_true_iff in He. destruct He as [H1 H2].
      apply Z.leb_le in H1. apply Z.ltb_lt in H2.
      cbn [visit]. unfold reparsed_integral. cbn [andb].
      destruct (v <? 0) eqn:E; [|apply Z.ltb_ge in E; lia].
      cbn [BinNumber_value Value_eqb leaf_eqb visit].
      change (Z.of_nat 8 * 8) with 64.
      rewrite wrap_signed_negative by lia. apply Z.eqb_refl.
    + apply andb_true_iff in He. destruct He as [H1 H2].
      apply Z.leb_le in H1. apply Z.ltb_lt in H2.
      cbn [visit]. unfold reparsed_integral. cbn [andb].
      cbn [BinNumber_value Value_eqb leaf_eqb visit].
      rewrite Z.mod_small by lia. apply Z.eqb_refl.
    + apply andb_true_iff in He. destruct He as [He Hn].
      apply andb_true_iff in He. destruct He as [H1 H2].
      apply Z.leb_le in H1. apply Z.ltb_lt in H2. apply negb_true_iff in Hn.
      cbn [visit Value_eqb leaf_eqb]. rewrite Z.mod_small by lia.
      now apply double_eqb_refl.
  - cbn [binary_exact] in He. rewrite forallb_forall in He.
    cbn [reparsed]. destruct c as [|x c]; [reflexivity|].
    cbn [map Value_of_Values]. change (x :: c) with ([] ++ x :: c) in IH, He.
    cbn [Value_eqb visit]. set (l := x :: c) in *.
    change (reparsed x :: map reparsed c) with (map reparsed l).
    clearbody l. induction l as [|y l IHl]; [reflexivity|].
    cbn [map Container_eqb]. apply andb_true_iff. split.
    + apply (Forall_inv IH). apply He. now left.
    + apply IHl; [exact (Forall_inv_tail IH)|]. intros z Hz. apply He. now right.
  - cbn [binary_exact] in He. apply andb_true_iff in He. destruct He as [Hk He].
    rewrite forallb_forall in He. cbn [reparsed].
    destruct c as [|x c]; [reflexivity|].
    rewrite Value_of_KeyValues_sorted;
      [|discriminate|rewrite map_map; exact Hk].
    cbn [Value_eqb visit]. clear Hk. revert IH He. generalize (x :: c). clear x c.
    induction l as [|[k y] l IHl]; intros IH He; [reflexivity|].
    cbn [map Container_eqb fst snd]. rewrite sv_eqb_refl. cbn [andb].
    apply andb_true_iff. split.
    + apply (Forall_inv IH). apply (He (k, y)). now left.
    + apply IHl; [exact (Forall_inv_tail IH)|]. intros z Hz. apply He. now right.
Qed.

(** ** The binary round trip *)

(** C1 (corrected): the binary round trip for the values that the format
    keeps.  If every length fits 64 bits and the value holds no undefined,
    no NaN, no integer other than an unsigned 64-bit one or a negative
    signed 64-bit one, and only objects whose keys are strictly increasing,
    then [binarize] returns bytes, [unbinarize] returns a value for them
    with any fuel above a bound, and that value compares equal to the
    first.  The values are those of the model: the keys of their objects
    hold strings and none of them is a custom value. *)
Theorem C1_binary_roundtrip (pd : Z -> string_view) (v : Value) (k : nat) :
  sized v = true -> binary_exact v = true ->
  exists bytes fuel,
    binarize pd (S (vsize v) + k) v = Some bytes /\
    forall fuel', (fuel <= fuel')%nat ->
      exists v', unbinarize fuel' bytes = Some (Ok v') /\ Value_eqb v' v = true.
Proof.
  intros Hs He. destruct (unbinarize_output pd v Hs) as [fuel Hu].
  exists (output pd binary v), fuel. split.
  - apply serialize_output.
  - intros fuel' Hle. exists (reparsed v). split; [now apply Hu|].
    now apply reparsed_equal.
Qed.

Lemma C1_binary_roundtrip_witness :
  sized exact_example = true /\ binary_exact exact_example = true /\
  exists bytes fuel,
    binarize (fun _ => []) (S (vsize exact_example) + 0) exact_example = Some bytes /\
    forall fuel', (fuel <= fuel')%nat ->
      exists v', unbinarize fuel' bytes = Some (Ok v') /\
                 Value_eqb v' exact_example = true.
Proof.
  split; [reflexivity|]. split; [reflexivity|].
  apply (C1_binary_roundtrip (fun _ => []) exact_example 0); reflexivity.
Defined.

(** C1, counterexamples: the 32-bit integer 42 is written as the bytes
    [0x10 0x2A] and read back as an unsigned 64-bit integer, which
    [operator==] tells apart from a 32-bit one; undefined is written as
    [0x07] and read back as undefined, which equals nothing. *)
Lemma C1_counterexample_int32_undefined :
  ~ binary_roundtrip_claim (V_int32 42) /\ ~ binary_roundtrip_claim V_undefined.
Proof.
  split; intros H.
  - destruct (H (fun _ => []) 2%nat ["016"; "042"]%char eq_refl)
      as (f & v' & Hu & He).
    assert (E : Ok v' = Ok (V_uint64 42)).
    { apply (unbinarize_det f 3 ["016"; "042"]%char); [exact Hu|reflexivity]. }
    injection E as ->. discriminate He.
  - destruct (H (fun _ => []) 2%nat ["007"]%char eq_refl) as (f & v' & Hu & He).
    assert (E : Ok v' = Ok V_undefined).
    { apply (unbinarize_det f 3 ["007"]%char); [exact Hu|reflexivity]. }
    injection E as ->. discriminate He.
Qed.

(** ** The text format read back: strings *)

Lemma encoding_shape_ok (c : char) : encodable_char c = true -> encoding_shape c = true.
Proof.
  destruct c as [[] [] [] [] [] [] [] []]; intros H;
    first [reflexivity | discriminate H].
Qed.

Lemma rd_skip (pre mid l : list char) (j : nat) :
  rd (pre ++ mid ++ l) (j + (length pre + length mid)) = nth j l NUL.
Proof.
  unfold rd. rewrite app_assoc, <- length_app, Nat.add_comm. apply app_nth2_plus.
Qed.

Lemma wr_skip (pre : list char) (y x : char) (l : list char) :
  wr (pre ++ y :: l) (length pre) x = pre ++ x :: l.
Proof. induction pre as [|p pre IH]; cbn [wr app length]; [reflexivity|now rewrite IH]. Qed.

Lemma length_wr (buf : list char) (i : nat) (x : char) : length (wr buf i x) = length buf.
Proof.
  revert i. induction buf as [|b buf IH]; intros i; [reflexivity|].
  destruct i; cbn [wr length]; [reflexivity|now rewrite IH].
Qed.

(** One byte written at [out] when [enc] was consumed at [it]: the buffer
    again as decoded bytes, stale bytes and input. *)
Lemma wr_step (pre mid enc l : list char) (x : char) :
  enc <> [] ->
  wr (pre ++ mid ++ enc ++ l) (length pre) x = (pre ++ [x]) ++ tl (mid ++ enc) ++ l /\
  (length (pre ++ [x]) + length (tl (mid ++ enc))
   = length enc + (length pre + length mid))%nat.
Proof.
  intros Hne. rewrite (app_assoc mid enc l).
  destruct (mid ++ enc) as [|y m] eqn:E.
  - destruct mid; [cbn [app] in E; congruence|discriminate].
  - cbn [app tl]. rewrite wr_skip, <- app_assoc. split; [reflexivity|].
    apply (f_equal (@length char)) in E. rewrite length_app in *.
    cbn [length] in *. lia.
Qed.

Lemma not_at_end (pre mid l : list char) (j : nat) :
  (j < length l)%nat ->
  (j + (length pre + length mid) =? length (pre ++ mid ++ l))%nat = false.
Proof. intros H. apply Nat.eqb_neq. rewrite !length_app. lia. Qed.

(** After one decoded byte the loop goes on with the rest of the input. *)
Lemma decode_step_finish (s enc : list char) (c : char) :
  (forall fuel pre mid,
      (length s <= fuel)%nat ->
      exists buf',
        decode_loop fuel (pre ++ mid ++ encode s) (0 + (length pre + length mid))
                    (length pre) (length (pre ++ mid ++ encode s))
        = (buf', (length pre + length s)%nat) /\
        firstn (length pre + length s) buf' = pre ++ s) ->
  enc <> [] ->
  forall fuel pre mid,
    (length s <= fuel)%nat ->
    exists buf',
      decode_loop fuel (wr (pre ++ mid ++ enc ++ encode s) (length pre) c)
                  (length enc + (length pre + length mid)) (S (length pre))
                  (length (pre ++ mid ++ enc ++ encode s))
      = (buf', (length pre + S (length s))%nat) /\
      firstn (length pre + S (length s)) buf' = pre ++ c :: s.
Proof.
  intros IH Hne fuel pre mid Hf.
  destruct (wr_step pre mid enc (encode s) c Hne) as [Hw Hl].
  rewrite <- (length_wr (pre ++ mid ++ enc ++ encode s) (length pre) c), Hw.
  destruct (IH fuel (pre ++ [c]) (tl (mid ++ enc)) Hf) as (buf' & H1 & H2).
  exists buf'. rewrite Hl in H1. cbn [Nat.add] in H1.
  rewrite length_app in H1, H2. cbn [length] in H1, H2.
  rewrite Nat.add_1_r in H1, H2.
  replace (length pre + S (length s))%nat with (S (length pre) + length s)%nat by lia.
  rewrite <- app_assoc in H2. split; [exact H1|exact H2].
Qed.

Lemma read_hex_four (pre mid l : list char) (j : nat) (a b c d : char)
      (tail : list char) :
  skipn j l = a :: b :: c :: d :: tail ->
  read_hex 4 (pre ++ mid ++ l) (j + (length pre + length mid))
           (length (pre ++ mid ++ l)) 0
  = (hex4 a b c d, (4 + j + (length pre + length mid))%nat).
Proof.
  intros Hl.
  assert (Hlen : (j + 4 <= length l)%nat).
  { apply (f_equal (@length char)) in Hl. rewrite length_skipn in Hl.
    cbn [length] in Hl. lia. }
  assert (Hn : forall i, nth (i + j) l NUL = nth i (a :: b :: c :: d :: tail) NUL).
  { intros i. rewrite <- Hl. rewrite nth_skipn. f_equal. lia. }
  cbn [read_hex].
  rewrite (not_at_end pre mid l j) by lia. rewrite (rd_skip pre mid l j).
  change (S (j + (length pre + length mid)))
    with (S j + (length pre + length mid))%nat.
  rewrite (not_at_end pre mid l (S j)) by lia. rewrite (rd_skip pre mid l (S j)).
  change (S (S j + (length pre + length mid)))
    with (S (S j) + (length pre + length mid))%nat.
  rewrite (not_at_end pre mid l (S (S j))) by lia.
  rewrite (rd_skip pre mid l (S (S j))).
  change (S (S (S j) + (length pre + length mid)))
    with (S (S (S j)) + (length pre + length mid))%nat.
  rewrite (not_at_end pre mid l (S (S (S j)))) by lia.
  rewrite (rd_skip pre mid l (S (S (S j)))).
  pose proof (Hn 0%nat) as H0. pose proof (Hn 1%nat) as H1.
  pose proof (Hn 2%nat) as H2. pose proof (Hn 3%nat) as H3.
  cbn [Nat.add nth] in H0, H1, H2, H3. rewrite H0, H1, H2, H3. reflexivity.
Qed.

(** [decode_json_string] undoes [encode], in place. *)
Lemma decode_loop_encode (s : string_view) :
  encodable s = true ->
  forall fuel pre mid,
    (length s <= fuel)%nat ->
    exists buf',
      decode_loop fuel (pre ++ mid ++ encode s) (0 + (length pre + length mid))
                  (length pre) (length (pre ++ mid ++ encode s))
      = (buf', (length pre + length s)%nat) /\
      firstn (length pre + length s) buf' = pre ++ s.
Proof.
  induction s as [|c s IH]; intros Hs fuel pre mid Hf.
  - exists (pre ++ mid ++ encode []). cbn [encode flat_map length].
    rewrite !app_nil_r, Nat.add_0_r. split.
    + destruct fuel; cbn [decode_loop]; [reflexivity|].
      now rewrite length_app, Nat.eqb_refl.
    + rewrite firstn_app, firstn_all, Nat.sub_diag. cbn [firstn].
      now rewrite app_nil_r.
  - cbn [encodable forallb] in Hs. apply andb_true_iff in Hs. destruct Hs as [Hc Hs].
    specialize (IH Hs).
    destruct fuel as [|fuel]; [cbn [length] in Hf; lia|].
    assert (Hf' : (length s <= fuel)%nat) by (cbn [length] in Hf; lia).
    pose proof (encoding_shape_ok c Hc) as Hsh. unfold encoding_shape in Hsh.
    change (encode (c :: s)) with (encode_char c ++ encode s).
    destruct (encode_char c) as [|x [|y [|z1 [|z2 [|h1 [|h2 [|]]]]]]];
      try discriminate Hsh.
    + apply andb_true_iff in Hsh. destruct Hsh as [Hx Hp].
      apply char_eqb_eq in Hx. subst x.
      apply andb_true_iff in Hp. destruct Hp as [_ Hb]. apply negb_true_iff in Hb.
      cbn [decode_loop].
      rewrite (not_at_end pre mid ([c] ++ encode s) 0) by (cbn [length app]; lia).
      rewrite (rd_skip pre mid ([c] ++ encode s) 0). cbn [nth app]. rewrite Hb.
      exact (decode_step_finish s [c] c IH ltac:(discriminate) fuel pre mid Hf').
    + apply andb_true_iff in Hsh. destruct Hsh as [Hx Hp].
      apply char_eqb_eq in Hx. subst x.
      destruct (simple_escape y) as [c'|] eqn:Ey; [|discriminate Hp].
      apply char_eqb_eq in Hp. subst c'.
      cbn [decode_loop app].
      match goal with |- context [pre ++ mid ++ ?x] => set (l := x) end.
      rewrite (not_at_end pre mid l 0) by (cbn [length l]; lia).
      rewrite (rd_skip pre mid l 0). cbn [nth l]. fold l.
      rewrite char_eqb_refl.
      change (S (0 + (length pre + length mid)))
        with (1 + (length pre + length mid))%nat.
      rewrite (not_at_end pre mid l 1) by (cbn [length l]; lia).
      rewrite (rd_skip pre mid l 1). cbn [nth l]. fold l.
      rewrite Ey.
      exact (decode_step_finish s [BACKSLASH; y] c IH ltac:(discriminate)
                                fuel pre mid Hf').
    + repeat (apply andb_true_iff in Hsh; destruct Hsh as [Hsh ?]).
      apply char_eqb_eq in Hsh. subst x.
      match goal with H : char_eqb y _ = true |- _ => apply char_eqb_eq in H; subst y end.
      match goal with H : (hex4 _ _ _ _ =? _) = true |- _ =>
                        apply Z.eqb_eq in H; rename H into Hhex end.
      match goal with H : (code c <=? 127) = true |- _ =>
                        rename H into Hlow end.
      cbn [decode_loop app].
      match goal with |- context [pre ++ mid ++ ?x] => set (l := x) end.
      rewrite (not_at_end pre mid l 0) by (cbn [length l]; lia).
      rewrite (rd_skip pre mid l 0). cbn [nth l]. fold l.
      rewrite char_eqb_refl.
      change (S (0 + (length pre + length mid)))
        with (1 + (length pre + length mid))%nat.
      rewrite (not_at_end pre mid l 1) by (cbn [length l]; lia).
      rewrite (rd_skip pre mid l 1). cbn [nth l]. fold l.
      change (simple_escape "u"%char) with (@None char).
      change (char_eqb "u"%char "u"%char) with true. cbv iota.
      change (S (1 + (length pre + length mid)))
        with (2 + (length pre + length mid))%nat.
      rewrite (read_hex_four pre mid l 2 z1 z2 h1 h2 (encode s)) by reflexivity.
      rewrite Hhex.
      assert (Hsur : (55296 <=? code c) && (code c <=? 56319) = false).
      { apply Z.leb_le in Hlow. apply andb_false_iff. left. apply Z.leb_gt. lia. }
      rewrite Hsur. unfold write_utf8. rewrite Hlow, chr_code.
      exact (decode_step_finish s [BACKSLASH; "u"%char; z1; z2; h1; h2] c IH
                                ltac:(discriminate) fuel pre mid Hf').
Qed.

Lemma length_encode (s : string_view) : (length s <= length (encode s))%nat.
Proof.
  induction s as [|c s IH]; [reflexivity|].
  change (encode (c :: s)) with (encode_char c ++ encode s).
  rewrite length_app. cbn [length].
  assert (1 <= length (encode_char c))%nat; [|lia].
  unfold encode_char.
  repeat match goal with
         | |- context [if ?b then _ else _] => destruct b
         end; cbn [length]; lia.
Qed.

Theorem decode_json_string_encode (s : string_view) :
  encodable s = true -> decode_json_string (encode s) = s.
Proof.
  intros Hs. unfold decode_json_string.
  destruct (decode_loop_encode s Hs (length (encode s)) [] [] (length_encode s))
    as (buf' & H1 & H2).
  cbn [app length Nat.add] in H1, H2. rewrite H1. exact H2.
Qed.

Lemma parse_StateString_plain (d : string_view) (x : char) (X : string_view) :
  is_plain x = true ->
  parse_StateString false d (x :: X) = parse_StateString false (d ++ [x]) X.
Proof.
  intros H. apply andb_true_iff in H. destruct H as [Hq Hb].
  apply negb_true_iff in Hq. apply negb_true_iff in Hb.
  cbn [parse_StateString negb]. now rewrite Hq, Hb.
Qed.

Lemma parse_StateString_escape (d : string_view) (x : char) (X : string_view) :
  parse_StateString false d (BACKSLASH :: x :: X)
  = parse_StateString false ((d ++ [BACKSLASH]) ++ [x]) X.
Proof. reflexivity. Qed.

(** [StateString] takes the encoded bytes up to the closing quote. *)
Lemma parse_StateString_encode (s rest : string_view) :
  encodable s = true ->
  forall d,
    parse_StateString false d (encode s ++ DQUOTE :: rest)
    = Done (StateString false (decode_json_string (d ++ encode s))) rest
           (Some (Value_string (decode_json_string (d ++ encode s)))) false.
Proof.
  induction s as [|c s IH]; intros Hs d.
  - cbn [encode flat_map app parse_StateString negb]. rewrite char_eqb_refl.
    now rewrite app_nil_r.
  - cbn [encodable forallb] in Hs. apply andb_true_iff in Hs. destruct Hs as [Hc Hs].
    specialize (IH Hs).
    pose proof (encoding_shape_ok c Hc) as Hsh. unfold encoding_shape in Hsh.
    change (encode (c :: s)) with (encode_char c ++ encode s).
    destruct (encode_char c) as [|x [|y [|z1 [|z2 [|h1 [|h2 [|]]]]]]];
      try discriminate Hsh.
    + apply andb_true_iff in Hsh. destruct Hsh as [_ Hp].
      cbn [app]. rewrite (parse_StateString_plain d x _ Hp), IH.
      now rewrite <- app_assoc.
    + apply andb_true_iff in Hsh. destruct Hsh as [Hx _].
      apply char_eqb_eq in Hx. subst x.
      cbn [app]. rewrite parse_StateString_escape, IH. now rewrite <- !app_assoc.
    + repeat (apply andb_true_iff in Hsh; destruct Hsh as [Hsh ?]).
      apply char_eqb_eq in Hsh. subst x.
      cbn [app]. rewrite parse_StateString_escape.
      rewrite !parse_StateString_plain by assumption.
      rewrite IH. now rewrite <- !app_assoc.
Qed.

(** ** The text format read back: numbers *)

Lemma parse_StateNumber_valid (c : char) (rest : string_view) :
  is_number_char c = false ->
  forall n d,
    forallb is_number_char n = true ->
    is_valid_json_number (d ++ n) = true ->
    parse_StateNumber (S (length n)) d (n ++ c :: rest)
    = Some (Done (StateNumber (d ++ n)) (c :: rest)
                 (Some (Value_number_string (d ++ n))) false).
Proof.
  intros Hc. induction n as [|x n IH]; intros d Hn Hv.
  - cbn [app length parse_StateNumber]. rewrite app_nil_r in *. now rewrite Hc, Hv.
  - cbn [forallb] in Hn. apply andb_true_iff in Hn. destruct Hn as [Hx Hn].
    cbn [app length]. cbn [parse_StateNumber]. rewrite Hx.
    replace (d ++ x :: n) with ((d ++ [x]) ++ n) in * by now rewrite <- app_assoc.
    now apply IH.
Qed.

Lemma valid_number_start (s : string_view) :
  is_valid_json_number s = true -> forallb is_number_char s = true ->
  exists c X, s = c :: X /\ isdigit c || char_eqb c "-"%char = true.
Proof.
  destruct s as [|c X]; [discriminate|]. intros Hv Hn. exists c, X.
  split; [reflexivity|]. cbn [forallb] in Hn. apply andb_true_iff in Hn.
  destruct Hn as [Hc _]. unfold is_valid_json_number in Hv. cbv zeta in Hv.
  destruct (char_eqb c "-"%char) eqn:E; [now rewrite orb_true_r|].
  rewrite orb_false_r. cbn [equal_prefix infinity] in Hv.
  destruct (char_eqb c "226"%char) eqn:E226.
  - apply char_eqb_eq in E226. subst c. discriminate Hc.
  - cbn [andb] in Hv. destruct (char_eqb c "0"%char) eqn:E0.
    + apply char_eqb_eq in E0. now subst c.
    + now destruct (isdigit c).
Qed.

(** ** The text format read back: the first byte of a value *)

Lemma value_start_not_number_end (c : char) :
  char_eqb c ","%char || char_eqb c "]"%char || char_eqb c "}"%char = true ->
  is_number_char c = false.
Proof.
  destruct c as [[] [] [] [] [] [] [] []]; intros H;
    first [discriminate H | reflexivity].
Qed.

Lemma DetectType_number_start (c : char) (X : string_view) :
  isdigit c || char_eqb c "-"%char = true ->
  parse_DetectType_text (c :: X) = More [StateNumber []; DetectType] (c :: X).
Proof.
  destruct c as [[] [] [] [] [] [] [] []]; intros H;
    first [discriminate H | reflexivity].
Qed.

Lemma parse_StateArray_start (c : char) (X : string_view) :
  value_start c = true ->
  parse_StateArray [] (c :: X) = More [DetectType; StateArray []] (c :: X).
Proof.
  destruct c as [[] [] [] [] [] [] [] []]; intros H;
    first [discriminate H | reflexivity].
Qed.

Lemma text_exact_defined (v : Value) : text_exact v = true -> defined v = true.
Proof. destruct v; try reflexivity. discriminate. Qed.

(** ** The text parser, value by value *)

Lemma parses_text_string (s : string_view) :
  encodable s = true ->
  forall K rest res r,
    Writes text (mkParser (DetectType :: K)
                          (render_item_string text s T_string ++ rest) res false) r <->
    After text (unwind DetectType K rest (Value_string s) false) r.
Proof.
  intros Hs K rest res r. cbn [render_item_string Type_eqb app].
  rewrite <- app_assoc. cbn [app].
  rewrite (Writes_frame text DetectType K _ res false
             (More [StateString false []; DetectType] (encode s ++ DQUOTE :: rest)));
    [|discriminate|now exists 0%nat].
  unfold After at 1. cbn [after_step fst snd app].
  rewrite (Writes_frame text (StateString false []) (DetectType :: K) _ res false
             (Done (StateString false (decode_json_string ([] ++ encode s))) rest
                   (Some (Value_string (decode_json_string ([] ++ encode s)))) false)).
  - cbn [after_step assign orb app]. rewrite ?unwind_DetectType.
    now rewrite (decode_json_string_encode s Hs).
  - destruct (encode s); discriminate.
  - exists 0%nat. cbn [parse_state]. f_equal. now apply parse_StateString_encode.
Qed.

Lemma parses_text_number (s : string_view) :
  is_valid_json_number s = true -> forallb is_number_char s = true ->
  forall K rest res r,
    ends_number rest ->
    (Writes text (mkParser (DetectType :: K) (s ++ rest) res false) r <->
     After text (unwind DetectType K rest (Value_number_string s) false) r).
Proof.
  intros Hv Hn K rest res r (c & rest' & -> & Hc).
  destruct (valid_number_start s Hv Hn) as (d & X & E & Hd).
  rewrite (Writes_frame text DetectType K _ res false
             (More [StateNumber []; DetectType] (s ++ c :: rest')));
    [|subst s; discriminate
     |exists 0%nat; cbn [parse_state]; subst s; cbn [app];
      now rewrite DetectType_number_start].
  unfold After at 1. cbn [after_step fst snd app].
  rewrite (Writes_frame text (StateNumber []) (DetectType :: K) _ res false
             (Done (StateNumber ([] ++ s)) (c :: rest')
                   (Some (Value_number_string ([] ++ s))) false)).
  - cbn [after_step assign orb app]. now rewrite ?unwind_DetectType.
  - subst s. discriminate.
  - exists (S (length s)). cbn [parse_state]. now apply parse_StateNumber_valid.
Qed.

Lemma parses_text_check (what : string_view) (v' : Value) (c : char) (w : string_view) :
  what = c :: w ->
  (forall X, parse_DetectType_text (what ++ X)
             = More [StateCheck what v' 0; DetectType] (what ++ X)) ->
  (forall X, parse_StateCheck what v' 0 (what ++ X)
             = Done (StateCheck what v' (length what)) X (Some v') false) ->
  forall K rest res r,
    Writes text (mkParser (DetectType :: K) (what ++ rest) res false) r <->
    After text (unwind DetectType K rest v' false) r.
Proof.
  intros Hw Hd Hc K rest res r.
  rewrite (Writes_frame text DetectType K _ res false
             (More [StateCheck what v' 0; DetectType] (what ++ rest)));
    [|subst what; discriminate|exists 0%nat; cbn [parse_state]; now rewrite Hd].
  unfold After at 1. cbn [after_step fst snd app].
  rewrite (Writes_frame text (StateCheck what v' 0) (DetectType :: K) _ res false
             (Done (StateCheck what v' (length what)) rest (Some v') false)).
  - cbn [after_step assign orb app]. now rewrite ?unwind_DetectType.
  - subst what. discriminate.
  - exists 0%nat. cbn [parse_state]. now rewrite Hc.
Qed.

Section Parse.

Variable print_normal_double : Z -> string_view.

Lemma rest_Values_ends_number (todo : list Value) (rest : string_view) :
  ends_number (rest_Values text (output print_normal_double text) todo ++ rest).
Proof.
  induction todo as [|v todo IH]; cbn [rest_Values close_Values app].
  - eexists _, _. split; [reflexivity|reflexivity].
  - destruct (defined v); [|exact IH]. cbn [app].
    eexists _, _. split; [reflexivity|reflexivity].
Qed.

Lemma rest_KeyValues_ends_number (todo : list KeyValue) (rest : string_view) :
  ends_number (rest_KeyValues text (output print_normal_double text) todo ++ rest).
Proof.
  induction todo as [|[k v] todo IH]; cbn [rest_KeyValues close_KeyValues app].
  - eexists _, _. split; [reflexivity|reflexivity].
  - destruct (defined v); [|exact IH]. cbn [app].
    eexists _, _. split; [reflexivity|reflexivity].
Qed.

(** The first byte of the text of a value. *)
Lemma output_text_start (v : Value) :
  text_exact v = true ->
  exists c X, output print_normal_double text v = c :: X /\ value_start c = true.
Proof.
  intros He.
  destruct v; cbn [text_exact visit] in He; try discriminate He;
    cbn [output render_leaf visit render_item_nullptr render_item_bool
                open_Values open_KeyValues app];
    try (eexists _, _; split; reflexivity).
  all: unfold render_item_string;
    match goal with
    | |- context [Type_eqb ?t T_number] =>
        destruct (Type_eqb t T_number) eqn:Et
    end;
    try (eexists _, _; split; reflexivity).
  all: apply andb_true_iff in He; destruct He as [Hv Hn];
    destruct (valid_number_start _ Hv Hn) as (c & X & E & Hc);
    exists c, X; (split; [exact E|]); unfold value_start;
    apply orb_true_iff in Hc; destruct Hc as [Hc|Hc]; rewrite Hc;
    now rewrite ?orb_true_r.
Qed.

(** The elements of an array after the first. *)
Lemma parses_text_elements (K : list State) (rest : string_view) :
  forall todo,
    Forall (fun v => text_exact v = true /\ parses_text print_normal_double v) todo ->
  forall data res r,
    data <> [] ->
    (Writes text (mkParser (StateArray data :: DetectType :: K)
                           (rest_Values text (output print_normal_double text) todo
                              ++ rest) res false) r <->
     After text (unwind DetectType K rest
                        (Value_of_Values (data ++ map reparsed todo)) false) r).
Proof.
  induction todo as [|v todo IH]; intros Hall data res r Hne.
  - cbn [rest_Values close_Values app map]. rewrite app_nil_r.
    rewrite (Writes_frame text (StateArray data) (DetectType :: K) _ res false
               (Done (StateArray []) rest (Some (Value_of_Values data)) false));
      [|discriminate|now exists 0%nat].
    cbn [after_step assign orb]. now rewrite ?unwind_DetectType.
  - destruct (Forall_inv Hall) as [He Hv]. pose proof (Forall_inv_tail Hall) as Htodo.
    cbn [rest_Values map]. rewrite (text_exact_defined v He). cbn [app].
    rewrite <- app_assoc.
    rewrite (Writes_frame text (StateArray data) (DetectType :: K) _ res false
               (More [DetectType; StateArray data]
                     (output print_normal_double text v ++
                      rest_Values text (output print_normal_double text) todo ++ rest)));
      [|discriminate|exists 0%nat; destruct data; [congruence|reflexivity]].
    unfold After at 1. cbn [after_step fst snd app].
    rewrite (Hv _ _ res r (fun _ => rest_Values_ends_number todo rest)).
    cbn [unwind finish_state]. unfold After at 1. cbn [fst snd app].
    rewrite (IH Htodo (data ++ [reparsed v]) _ r).
    + now rewrite <- app_assoc.
    + destruct data; discriminate.
Qed.

(** One entry of an object, from the quote of its key on. *)
Lemma parses_text_entry (K : list State) (k : Key) (v : Value) (rest : string_view) :
  encodable k = true -> parses_text print_normal_double v -> ends_number rest ->
  forall key data res r,
    Writes text (mkParser (DetectType :: StateObject true key data :: DetectType :: K)
                          (render_key text k ++
                           ":"%char :: output print_normal_double text v ++ rest)
                          res false) r <->
    Writes text (mkParser (StateObject true k (data ++ [(k, reparsed v)])
                                       :: DetectType :: K)
                          rest (reparsed v) false) r.
Proof.
  intros Hk Hv Hrest key data res r. unfold render_key.
  rewrite (parses_text_string k Hk). cbn [unwind finish_state].
  assert (Hty : Type_eqb (type (Value_string k)) T_string = true).
  { unfold Value_string. now rewrite type_Value_of_string. }
  assert (Hget : get_string (Value_string k) = k).
  { unfold Value_string, get_string. now rewrite visit_runtime_string. }
  rewrite Hty, Hget. cbn [negb]. unfold After at 1. cbn [fst snd app].
  rewrite (Writes_frame text (StateObject false k data) (DetectType :: K) _ _ false
             (More [DetectType; StateObject false k data]
                   (output print_normal_double text v ++ rest)));
    [|discriminate|now exists 0%nat].
  unfold After at 1. cbn [after_step fst snd app].
  rewrite (Hv _ _ _ r (fun _ => Hrest)).
  cbn [unwind finish_state]. unfold After. cbn [fst snd app]. reflexivity.
Qed.

(** The entries of an object after the first. *)
Lemma parses_text_entries (K : list State) (rest : string_view) :
  forall todo,
    Forall (fun kv : KeyValue =>
              encodable (fst kv) = true /\ text_exact (snd kv) = true /\
              parses_text print_normal_double (snd kv)) todo ->
  forall key data res r,
    data <> [] ->
    (Writes text (mkParser (StateObject true key data :: DetectType :: K)
                           (rest_KeyValues text (output print_normal_double text) todo
                              ++ rest) res false) r <->
     After text (unwind DetectType K rest
                        (Value_of_KeyValues
                           (data ++ map (fun kv => (fst kv, reparsed (snd kv))) todo))
                        false) r).
Proof.
  induction todo as [|[k v] todo IH]; intros Hall key data res r Hne.
  - cbn [rest_KeyValues close_KeyValues app map]. rewrite app_nil_r.
    rewrite (Writes_frame text (StateObject true key data) (DetectType :: K) _ res false
               (Done (StateObject true key []) rest
                     (Some (Value_of_KeyValues data)) false));
      [|discriminate|now exists 0%nat].
    cbn [after_step assign orb]. now rewrite ?unwind_DetectType.
  - destruct (Forall_inv Hall) as (Hk & He & Hv).
    pose proof (Forall_inv_tail Hall) as Htodo. cbn [fst snd] in Hk, He, Hv.
    cbn [rest_KeyValues map fst snd]. rewrite (text_exact_defined v He). cbn [app].
    rewrite (Writes_frame text (StateObject true key data) (DetectType :: K) _ res false
               (More [DetectType; StateObject true key data]
                     ((render_key text k ++ [":"%char] ++
                       output print_normal_double text v ++
                       rest_KeyValues text (output print_normal_double text) todo)
                        ++ rest)));
      [|discriminate|exists 0%nat; destruct data; [congruence|reflexivity]].
    unfold After at 1. cbn [after_step fst snd app].
    rewrite <- !app_assoc. cbn [app]. rewrite <- !app_assoc.
    rewrite (parses_text_entry K k v _ Hk Hv (rest_KeyValues_ends_number todo rest)).
    rewrite (IH Htodo k (data ++ [(k, reparsed v)]) _ r).
    + now rewrite <- app_assoc.
    + destruct data; discriminate.
Qed.

Lemma parses_text_stringlike (s : string_view) (ty : Type_) :
  (if Type_eqb ty T_number
   then is_valid_json_number s && forallb is_number_char s
   else encodable s) = true ->
  forall K rest res r,
    (Type_eqb ty T_number = true -> ends_number rest) ->
    (Writes text (mkParser (DetectType :: K) (render_item_string text s ty ++ rest)
                           res false) r <->
     After text (unwind DetectType K rest
                        (reparsed_string s (Type_eqb ty T_number)) false) r).
Proof.
  intros He K rest res r Hr. unfold render_item_string, reparsed_string.
  destruct (Type_eqb ty T_number) eqn:Et.
  - apply andb_true_iff in He. destruct He as [Hv Hn].
    destruct (valid_number_start s Hv Hn) as (c & X & -> & _).
    cbn [length]. rewrite Nat2Z.inj_succ.
    destruct (Z.succ (Z.of_nat (length X)) =? 0) eqn:E;
      [apply Z.eqb_eq in E; lia|].
    now apply parses_text_number; [| |apply Hr].
  - assert (Hs : (if Z.of_nat (length s) =? 0 then Value_string []
                  else Value_of_string false s false) = Value_string s).
    { destruct (Z.of_nat (length s) =? 0) eqn:E; [|reflexivity].
      apply Z.eqb_eq in E. destruct s; [reflexivity|cbn [length] in E; lia]. }
    rewrite Hs. exact (parses_text_string s He K rest res r).
Qed.

Lemma parses_text_empty_array (K : list State) (rest : string_view) (res : Value)
      (r : bool * Parser) :
  Writes text (mkParser (DetectType :: K) ("["%char :: "]"%char :: rest) res false) r <->
  After text (unwind DetectType K rest V_empty_array false) r.
Proof.
  rewrite (Writes_frame text DetectType K _ res false
             (More [StateArray []; DetectType] ("]"%char :: rest)));
    [|discriminate|now exists 0%nat].
  unfold After at 1. cbn [after_step fst snd app].
  rewrite (Writes_frame text (StateArray []) (DetectType :: K) _ res false
             (Done (StateArray []) rest (Some (Value_of_Values [])) false));
    [|discriminate|now exists 0%nat].
  cbn [after_step assign orb Value_of_Values]. now rewrite ?unwind_DetectType.
Qed.

Lemma parses_text_empty_object (K : list State) (rest : string_view) (res : Value)
      (r : bool * Parser) :
  Writes text (mkParser (DetectType :: K) ("{"%char :: "}"%char :: rest) res false) r <->
  After text (unwind DetectType K rest V_empty_object false) r.
Proof.
  rewrite (Writes_frame text DetectType K _ res false
             (More [StateObject true default_Key []; DetectType] ("}"%char :: rest)));
    [|discriminate|now exists 0%nat].
  unfold After at 1. cbn [after_step fst snd app].
  rewrite (Writes_frame text (StateObject true default_Key []) (DetectType :: K) _
             res false
             (Done (StateObject true default_Key []) rest
                   (Some (Value_of_KeyValues [])) false));
    [|discriminate|now exists 0%nat].
  cbn [after_step assign orb Value_of_KeyValues]. now rewrite ?unwind_DetectType.
Qed.

(** Every value of the class is read back as [reparsed] says. *)
Lemma parses_text_value (v : Value) : text_exact v = true -> parses_text print_normal_double v.
Proof.
  induction v as [v Hl | c IH | c IH] using Value_induction; intros He.
  - intros K rest res r Hr.
    destruct v; try contradiction; cbn [text_exact visit] in He;
      try discriminate He; cbn [output reparsed]; unfold render_leaf;
      cbn [visit render_item_nullptr render_item_bool];
      try (apply parses_text_stringlike; assumption).
    + apply (parses_text_check null_value V_null "n"%char (str "ull"));
        [reflexivity|intros; reflexivity|intros; reflexivity].
    + apply (parses_text_check false_value V_bool_false "f"%char (str "alse"));
        [reflexivity|intros; reflexivity|intros; reflexivity].
    + apply (parses_text_check true_value V_bool_true "t"%char (str "rue"));
        [reflexivity|intros; reflexivity|intros; reflexivity].
    + apply parses_text_empty_array.
    + apply parses_text_empty_object.
  - intros K rest res r _. cbn [text_exact] in He. rewrite forallb_forall in He.
    destruct c as [|v c]; [apply parses_text_empty_array|].
    assert (Hv : text_exact v = true) by (apply He; now left).
    assert (Hall : Forall (fun v => text_exact v = true /\ parses_text print_normal_double v) c).
    { apply Forall_forall. intros x Hx.
      assert (Hx' : text_exact x = true) by (apply He; now right).
      split; [exact Hx'|].
      apply (proj1 (Forall_forall _ _) (Forall_inv_tail IH) x Hx Hx'). }
    pose proof (Forall_inv IH Hv) as Pv.
    destruct (output_text_start v Hv) as (c0 & X & E0 & Hc0).
    cbn [output open_Values first_Values is_binary orb reparsed map].
    rewrite (text_exact_defined v Hv). cbn [app]. rewrite <- app_assoc.
    rewrite (Writes_frame text DetectType K _ res false
               (More [StateArray []; DetectType]
                     (output print_normal_double text v ++
                      rest_Values text (output print_normal_double text) c ++ rest)));
      [|discriminate|now exists 0%nat].
    unfold After at 1. cbn [after_step fst snd app].
    rewrite (Writes_frame text (StateArray []) (DetectType :: K) _ res false
               (More [DetectType; StateArray []]
                     (output print_normal_double text v ++
                      rest_Values text (output print_normal_double text) c ++ rest)));
      [|rewrite E0; discriminate
       |exists 0%nat; cbn [parse_state]; rewrite E0; cbn [app];
        now rewrite parse_StateArray_start].
    unfold After at 1. cbn [after_step fst snd app].
    rewrite (Pv _ _ res r (fun _ => rest_Values_ends_number c rest)).
    cbn [unwind finish_state]. unfold After at 1. cbn [fst snd app].
    rewrite (parses_text_elements K rest c Hall [reparsed v] _ r);
      [reflexivity|discriminate].
  - intros K rest res r _. cbn [text_exact] in He.
    apply andb_true_iff in He. destruct He as [_ He]. rewrite forallb_forall in He.
    destruct c as [|[k v] c]; [apply parses_text_empty_object|].
    assert (Hkv : encodable k && text_exact v = true) by (apply (He (k, v)); now left).
    apply andb_true_iff in Hkv. destruct Hkv as [Hk Hv].
    assert (Hall : Forall (fun kv : KeyValue =>
                             encodable (fst kv) = true /\ text_exact (snd kv) = true /\
                             parses_text print_normal_double (snd kv)) c).
    { apply Forall_forall. intros x Hx.
      assert (Hx' : encodable (fst x) && text_exact (snd x) = true)
        by (apply He; now right).
      apply andb_true_iff in Hx'. destruct Hx' as [Hx1 Hx2].
      split; [exact Hx1|]. split; [exact Hx2|].
      apply (proj1 (Forall_forall _ _) (Forall_inv_tail IH) x Hx Hx2). }
    pose proof (Forall_inv IH Hv) as Pv. cbn [snd] in Pv.
    cbn [output open_KeyValues first_KeyValues is_binary orb reparsed map
                entry_sep fst snd].
    rewrite (text_exact_defined v Hv). cbn [app]. rewrite <- !app_assoc.
    cbn [app]. rewrite <- !app_assoc.
    rewrite (Writes_frame text DetectType K _ res false
               (More [StateObject true default_Key []; DetectType]
                     (render_key text k ++
                      ":"%char :: output print_normal_double text v ++
                      rest_KeyValues text (output print_normal_double text) c ++ rest)));
      [|discriminate|now exists 0%nat].
    unfold After at 1. cbn [after_step fst snd app].
    rewrite (Writes_frame text (StateObject true default_Key []) (DetectType :: K) _
               res false
               (More [DetectType; StateObject true default_Key []]
                     (render_key text k ++
                      ":"%char :: output print_normal_double text v ++
                      rest_KeyValues text (output print_normal_double text) c ++ rest)));
      [|discriminate|now exists 0%nat].
    unfold After at 1. cbn [after_step fst snd app].
    rewrite (parses_text_entry K k v _ Hk Pv (rest_KeyValues_ends_number c rest)).
    rewrite (parses_text_entries K rest c Hall k [(k, reparsed v)] _ r);
      [reflexivity|discriminate].
Qed.

End Parse.

Lemma parse_output (pd : Z -> string_view) (v : Value) :
  text_exact v = true -> Type_eqb (type v) T_number = false ->
  exists fuel, forall fuel', (fuel <= fuel')%nat ->
    parse fuel' (output pd text v) = Some (Ok (reparsed v)).
Proof.
  intros He Ht.
  pose proof (parses_text_value pd v He [] [] V_undefined
                                (false, mkParser [] [] (reparsed v) false)) as H.
  rewrite app_nil_r in H.
  destruct (proj2 (H ltac:(congruence)) eq_refl) as [fuel Hw].
  exists fuel. intros fuel' Hle. unfold parse, parse_with, write.
  cbn [new_Parser _state _result _is_error].
  now rewrite (write_loop_mono text fuel fuel' _ _ Hw Hle).
Qed.

Lemma parse_det (f f' : nat) (txt : string_view) (x y : Parsed) :
  parse f txt = Some x -> parse f' txt = Some y -> x = y.
Proof.
  unfold parse, parse_with, write. intros Hx Hy.
  destruct (write_loop text f _) as [r|] eqn:E; [|discriminate].
  destruct (write_loop text f' _) as [r'|] eqn:E'; [|discriminate].
  assert (r = r') by exact (Writes_det text _ r r' (ex_intro _ f E) (ex_intro _ f' E')).
  subst r'. congruence.
Qed.

Lemma text_exact_binary_exact (v : Value) : text_exact v = true -> binary_exact v = true.
Proof.
  induction v as [v Hl | c IH | c IH] using Value_induction; intros He.
  - destruct v; try contradiction; cbn [text_exact binary_exact visit] in *;
      try reflexivity; discriminate He.
  - cbn [text_exact binary_exact] in *. rewrite forallb_forall in *.
    intros x Hx. apply (proj1 (Forall_forall _ _) IH x Hx). now apply He.
  - cbn [text_exact binary_exact] in *. apply andb_true_iff in He.
    destruct He as [Hk He]. rewrite Hk. cbn [andb]. rewrite forallb_forall in *.
    intros x Hx. apply (proj1 (Forall_forall _ _) IH x Hx).
    specialize (He x Hx). apply andb_true_iff in He. now destruct He.
Qed.

(** ** The text round trip *)

(** C2 (corrected): the text round trip for the values that the text
    format keeps.  If the value is built of null, the booleans, strings
    and keys without the bytes 8 and 13, numbers kept as strings that hold
    a valid JSON number, arrays, and objects whose keys are strictly
    increasing, and is itself not a number, then [stringify] returns a
    text, [parse] returns a value for it with any fuel above a bound, and
    that value compares equal to the first.  The values are those of the
    model: the keys of their objects hold strings and none of them is a
    custom value. *)
Theorem C2_text_roundtrip (pd : Z -> string_view) (v : Value) (k : nat) :
  text_exact v = true -> Type_eqb (type v) T_number = false ->
  exists txt fuel,
    stringify pd (S (vsize v) + k) v = Some txt /\
    forall fuel', (fuel <= fuel')%nat ->
      exists v', parse fuel' txt = Some (Ok v') /\ Value_eqb v' v = true.
Proof.
  intros He Ht. destruct (parse_output pd v He Ht) as [fuel Hp].
  exists (output pd text v), fuel. split.
  - apply serialize_output.
  - intros fuel' Hle. exists (reparsed v). split; [now apply Hp|].
    apply reparsed_equal. now apply text_exact_binary_exact.
Qed.

Lemma C2_text_roundtrip_witness :
  text_exact text_example = true /\
  Type_eqb (type text_example) T_number = false /\
  exists txt fuel,
    stringify (fun _ => []) (S (vsize text_example) + 0) text_example = Some txt /\
    forall fuel', (fuel <= fuel')%nat ->
      exists v', parse fuel' txt = Some (Ok v') /\ Value_eqb v' text_example = true.
Proof.
  split; [reflexivity|]. split; [reflexivity|].
  apply (C2_text_roundtrip (fun _ => []) text_example 0); reflexivity.
Defined.

(** C2, counterexamples, none of them with an undefined or a NaN.  The
    array [[42]] is read back with the number as the string of its digits,
    which [operator==] tells apart from the integer; the integer 42 alone
    is written as [42] and [parse] throws, the number state still waiting
    for a byte that ends the number; the string of one carriage return is
    written as ["\f"] and read back as a form feed. *)
Lemma C2_counterexample_number_and_escape :
  ~ text_roundtrip_claim (V_array [V_int32 42]) /\
  ~ text_roundtrip_claim (V_int32 42) /\
  ~ text_roundtrip_claim (Value_string ["013"%char]).
Proof.
  split; [|split]; intros H.
  - destruct (H (fun _ => []) 3%nat (str "[42]") eq_refl) as (f & v' & Hp & He).
    assert (E : Ok v' = Ok (V_array [Value_number_string (str "42")])).
    { apply (parse_det f 10 (str "[42]")); [exact Hp|reflexivity]. }
    injection E as ->. discriminate He.
  - destruct (H (fun _ => []) 2%nat (str "42") eq_refl) as (f & v' & Hp & He).
    assert (E : Ok v' = ParseError 2).
    { apply (parse_det f 6 (str "42")); [exact Hp|reflexivity]. }
    discriminate E.
  - destruct (H (fun _ => []) 2%nat [DQUOTE; BACKSLASH; "f"%char; DQUOTE] eq_refl)
      as (f & v' & Hp & He).
    assert (E : Ok v' = Ok (Value_string ["012"%char])).
    { apply (parse_det f 6 [DQUOTE; BACKSLASH; "f"%char; DQUOTE]);
        [exact Hp|reflexivity]. }
    injection E as ->. discriminate He.
Qed.

(** ** Further properties of the serializer, the decoder and the parsers *)

(** X1: [stringify] and [binarize] return for every value, after at most
    one read more than the value has nodes, and what they return is the
    text (the bytes) that [output] gives by recursion on the value: the
    stack machine of [Serializer::next] writes a value, then its elements
    in order, and nothing else. *)
Theorem X1_serializer_returns_output (pd : Z -> string_view) (v : Value) (k : nat) :
  stringify pd (S (vsize v) + k) v = Some (output pd text v) /\
  binarize pd (S (vsize v) + k) v = Some (output pd binary v).
Proof. split; apply serialize_output. Qed.

(** X2: the in-place [decode_json_string] gives back every string that
    [encode] wrote, provided the string holds neither a backspace nor a
    carriage return (the two bytes whose escapes [encode] misspells). *)
Theorem X2_decode_undoes_encode (s : string_view) :
  encodable s = true -> decode_json_string (encode s) = s.
Proof. apply decode_json_string_encode. Qed.

Lemma X2_decode_undoes_encode_witness :
  encodable (DQUOTE :: BACKSLASH :: "001"%char :: str "a/") = true /\
  decode_json_string (encode (DQUOTE :: BACKSLASH :: "001"%char :: str "a/"))
  = DQUOTE :: BACKSLASH :: "001"%char :: str "a/".
Proof.
  split; [reflexivity|].
  apply (X2_decode_undoes_encode (DQUOTE :: BACKSLASH :: "001"%char :: str "a/")).
  reflexivity.
Defined.

(** X3: on an object whose entries are in ascending key order, duplicates
    allowed, [operator[](key)] returns the value of the first entry with
    that key: the binary search stops at the lowest index whose key is not
    smaller. *)
Theorem X3_index_finds_first_entry (c : list KeyValue) (key : string_view) (j : nat) :
  nondecreasing (map kv_key c) = true ->
  (j < length c)%nat -> key_at c j = key ->
  (forall i, (i < j)%nat -> key_at c i <> key) ->
  index_key (V_object c) key = kv_value (nth j c default_KeyValue).
Proof.
  intros Hs. apply index_key_found. now apply nondecreasing_sorted.
Qed.

Lemma X3_index_finds_first_entry_witness :
  index_key (V_object [(sv_a, V_null); (sv_k, V_int32 0); (sv_k, V_int32 5)]) sv_k
  = V_int32 0.
Proof.
  apply (X3_index_finds_first_entry
           [(sv_a, V_null); (sv_k, V_int32 0); (sv_k, V_int32 5)] sv_k 1).
  - reflexivity.
  - cbn [length]. lia.
  - reflexivity.
  - intros i Hi. assert (i = 0%nat) by lia. subst i. discriminate.
Defined.

Lemma distinct_NoDup (ks : list Key) : distinct ks = true <-> NoDup ks.
Proof.
  induction ks as [|k r IH]; cbn [distinct].
  - split; [constructor|reflexivity].
  - rewrite andb_true_iff, negb_true_iff, IH. split.
    + intros [Hn Hd]. constructor; [|exact Hd]. intros Hin.
      assert (existsb (sv_eqb k) r = true)
        by (apply existsb_exists; exists k; split; [exact Hin|apply sv_eqb_refl]).
      congruence.
    + intros H. inversion H as [|? ? Hn Hd]; subst. split; [|exact Hd].
      destruct (existsb (sv_eqb k) r) eqn:E; [|reflexivity].
      apply existsb_exists in E. destruct E as (k' & Hin & E).
      apply sv_eqb_eq in E. now subst k'.
Qed.

(** Two key-ordered sequences without a repeated key that hold the same
    entries are the same sequence. *)
Lemma strictly_sorted_unique (l1 : list KeyValue) :
  forall l2, strictly_sorted l1 -> strictly_sorted l2 -> Permutation l1 l2 -> l1 = l2.
Proof.
  unfold strictly_sorted.
  induction l1 as [|a r1 IH]; intros l2 H1 H2 Hp.
  - apply Permutation_nil in Hp. now subst.
  - destruct l2 as [|b r2]; [apply Permutation_sym, Permutation_nil in Hp; discriminate|].
    inversion H1 as [|? ? Hs1 Hf1]; subst. inversion H2 as [|? ? Hs2 Hf2]; subst.
    rewrite Forall_forall in Hf1, Hf2.
    assert (E : a = b).
    { assert (Ha : In a (b :: r2)) by (eapply Permutation_in; [exact Hp|now left]).
      assert (Hb : In b (a :: r1))
        by (eapply Permutation_in; [apply Permutation_sym; exact Hp|now left]).
      destruct Ha as [Ha|Ha]; [now subst|]. destruct Hb as [Hb|Hb]; [now subst|].
      specialize (Hf1 b Hb). specialize (Hf2 a Ha). unfold key_lt in Hf1, Hf2.
      rewrite sv_compare_antisym, Hf2 in Hf1. discriminate. }
    subst b. f_equal. apply IH; auto. now apply Permutation_cons_inv in Hp.
Qed.

(** However a sort treats entries of equal keys: on pairwise distinct keys
    every key-ordered permutation of the entries is the one [sort_object]
    gives. *)
Lemma sort_object_unique (l l' : list KeyValue) :
  NoDup (map kv_key l) -> Permutation l' l -> sorted_by_key l' -> l' = sort_object l.
Proof.
  intros Hn Hp Hs. apply strictly_sorted_unique.
  - apply sorted_NoDup_strict; [exact Hs|].
    eapply Permutation_NoDup; [|exact Hn]. apply Permutation_map. now symmetry.
  - now apply sort_object_strict.
  - etransitivity; [exact Hp|]. symmetry. apply sort_object_perm.
Qed.

Lemma forallb_Permutation {A : Type} (f : A -> bool) (l l' : list A) :
  Permutation l l' -> forallb f l = true -> forallb f l' = true.
Proof.
  intros Hp. rewrite !forallb_forall. intros H x Hx. apply H.
  eapply Permutation_in; [apply Permutation_sym; exact Hp|exact Hx].
Qed.

Lemma strict_keys_Value_of_Values (c : list Value) :
  forallb strict_keys c = true -> strict_keys (Value_of_Values c) = true.
Proof. destruct c; [reflexivity|]. intros H. exact H. Qed.

Lemma strict_keys_Value_of_KeyValues (l : list KeyValue) :
  NoDup (map kv_key l) -> forallb (fun kv => strict_keys (snd kv)) l = true ->
  strict_keys (Value_of_KeyValues l) = true.
Proof.
  intros Hn Hf. unfold Value_of_KeyValues. destruct l as [|a l]; [reflexivity|].
  cbn [strict_keys]. apply andb_true_iff. split.
  - apply strictly_increasing_sorted. now apply sort_object_strict.
  - eapply forallb_Permutation; [|exact Hf]. symmetry. apply sort_object_perm.
Qed.

Lemma strict_keys_leaf (v : Value) : is_leaf v -> strict_keys (reparsed v) = true.
Proof.
  destruct v; try contradiction; intros _; cbn [reparsed visit]; try reflexivity;
    unfold reparsed_string, reparsed_integral, BinNumber_value, Value_string,
      Value_of_string;
    repeat match goal with |- context [if ?b then _ else _] => destruct b end;
    reflexivity.
Qed.

Lemma reparsed_strict_keys (v : Value) :
  distinct_keys v = true -> strict_keys (reparsed v) = true.
Proof.
  induction v as [v Hl | c IH | c IH] using Value_induction; intros Hd.
  - now apply strict_keys_leaf.
  - cbn [reparsed]. apply strict_keys_Value_of_Values.
    cbn [distinct_keys] in Hd. rewrite forallb_forall in *.
    intros x Hx. apply in_map_iff in Hx. destruct Hx as (y & <- & Hy).
    rewrite Forall_forall in IH. apply IH; auto.
  - cbn [reparsed]. cbn [distinct_keys] in Hd. apply andb_true_iff in Hd.
    destruct Hd as [Hk Hd]. apply strict_keys_Value_of_KeyValues.
    + rewrite map_map. cbn [kv_key fst]. now apply distinct_NoDup.
    + rewrite forallb_forall in *. intros x Hx. apply in_map_iff in Hx.
      destruct Hx as (y & <- & Hy). cbn [snd].
      rewrite Forall_forall in IH. apply IH; auto.
Qed.

(** What an integer of a 4- or 8-byte type comes back as. *)
Lemma reparsed_integral_value (bytes : nat) (is_signed : bool) (x : Z) :
  (bytes = 4 \/ bytes = 8)%nat -> in_range bytes is_signed x ->
  reparsed_integral bytes is_signed x
  = if x <? 0
    then V_int64 (if (bytes =? 4)%nat && (x =? - 2 ^ 31) then 2 ^ 31 else x)
    else V_uint64 x.
Proof.
  intros Hb Hr. unfold reparsed_integral, BinNumber_value, in_range, wrap_signed in *.
  assert (H32 : 2 ^ 32 = 4294967296) by reflexivity.
  assert (H31 : 2 ^ 31 = 2147483648) by reflexivity.
  assert (H64 : 2 ^ 64 = 18446744073709551616) by reflexivity.
  assert (H63 : 2 ^ 63 = 9223372036854775808) by reflexivity.
  destruct Hb as [-> | ->]; cbn [Z.of_nat Pos.of_succ_nat Pos.succ Z.mul Pos.mul Nat.eqb andb] in *;
    change (32 - 1) with 31 in *; change (64 - 1) with 63 in *;
    rewrite ?H32, ?H31, ?H64, ?H63 in *;
    destruct is_signed; cbn [andb];
    destruct (Z.ltb_spec x 0) as [Hn|Hn]; try lia.
  - destruct (Z.eqb_spec x (- (2147483648))) as [->|Hx]; [reflexivity|]. f_equal.
    rewrite (Z.mod_small (- x + 2147483648)) by lia.
    rewrite (Z.mod_small (- x + 2147483648 - 2147483648)) by lia.
    rewrite (Z.mod_small (- x + 2147483648 - 2147483648 + 9223372036854775808)) by lia.
    replace (- (- x + 2147483648 - 2147483648 + 9223372036854775808 - 9223372036854775808)
             + 9223372036854775808) with (x + 9223372036854775808) by lia.
    rewrite Z.mod_small by lia. lia.
  - now rewrite Z.mod_small by lia.
  - now rewrite Z.mod_small by lia.
  - f_equal. destruct (Z.eq_dec x (-9223372036854775808)) as [->|Hx]; [reflexivity|].
    rewrite (Z.mod_small (- x + 9223372036854775808)) by lia.
    rewrite (Z.mod_small (- x + 9223372036854775808 - 9223372036854775808)) by lia.
    rewrite (Z.mod_small (- x + 9223372036854775808 - 9223372036854775808
                          + 9223372036854775808)) by lia.
    replace (- (- x + 9223372036854775808 - 9223372036854775808 + 9223372036854775808
                - 9223372036854775808) + 9223372036854775808)
      with (x + 9223372036854775808) by lia.
    rewrite Z.mod_small by lia. lia.
  - now rewrite Z.mod_small by lia.
  - now rewrite Z.mod_small by lia.
Qed.

(** X4: for every value whose lengths fit 64 bits and whose objects hold
    no key twice, undefined and NaN included, [unbinarize] returns on the
    bytes of [binarize] and gives the value [reparsed]: the same tree with
    every string stored afresh, every integer as a 64-bit one and every
    object sorted again, its keys strictly increasing.  An integer of a 4-
    or 8-byte type comes back unsigned with its value when it is not
    negative and signed with its value when it is, but for the least of
    the 4-byte type, which comes back as [2 ^ 31]: its negation wraps. *)
Theorem X4_unbinarize_of_binarize (pd : Z -> string_view) (v : Value) (k : nat) :
  sized v = true -> distinct_keys v = true ->
  (exists bytes fuel,
     binarize pd (S (vsize v) + k) v = Some bytes /\
     forall fuel', (fuel <= fuel')%nat ->
                   unbinarize fuel' bytes = Some (Ok (reparsed v))) /\
  strict_keys (reparsed v) = true /\
  (forall bytes is_signed x,
     (bytes = 4 \/ bytes = 8)%nat -> in_range bytes is_signed x ->
     reparsed_integral bytes is_signed x
     = if x <? 0
       then V_int64 (if (bytes =? 4)%nat && (x =? - 2 ^ 31) then 2 ^ 31 else x)
       else V_uint64 x).
Proof.
  intros Hs Hd. split; [|split].
  - destruct (unbinarize_output pd v Hs) as [fuel Hu].
    exists (output pd binary v), fuel. split; [apply serialize_output|exact Hu].
  - now apply reparsed_strict_keys.
  - apply reparsed_integral_value.
Qed.

Lemma X4_unbinarize_of_binarize_witness :
  sized (V_array [V_int32 42; V_undefined; V_int32 (-1); V_int32 (-2147483648)]) = true /\
  exists bytes fuel,
    binarize (fun _ => [])
             (S (vsize (V_array [V_int32 42; V_undefined; V_int32 (-1);
                                 V_int32 (-2147483648)])) + 0)
             (V_array [V_int32 42; V_undefined; V_int32 (-1); V_int32 (-2147483648)])
    = Some bytes /\
    forall fuel', (fuel <= fuel')%nat ->
      unbinarize fuel' bytes
      = Some (Ok (V_array [V_uint64 42; V_undefined; V_int64 (-1); V_int64 2147483648])).
Proof.
  split; [reflexivity|].
  apply (X4_unbinarize_of_binarize (fun _ => [])
           (V_array [V_int32 42; V_undefined; V_int32 (-1); V_int32 (-2147483648)]) 0);
    reflexivity.
Defined.

(** X5: the number state never returns once the bytes it accepts are
    followed by another byte and the run is not a valid JSON number,
    whatever lies below on the stack and whatever follows in the chunk. *)
Theorem X5_number_state_never_returns (d n : string_view) (c : char)
        (tail : string_view) (K : list State) (res : Value) (err : bool) :
  forallb is_number_char n = true -> is_number_char c = false ->
  is_valid_json_number (d ++ n) = false ->
  forall fuel : nat,
    write text fuel (mkParser (StateNumber d :: K) [] res err) (n ++ c :: tail) = None.
Proof.
  intros Hn Hc Hv. unfold write. cbn [_state _result _is_error].
  apply write_loop_stuck_cycle; [destruct n; discriminate|].
  now apply (do_parse_cycle_stuck text _ d n c tail K).
Qed.

Lemma X5_number_state_never_returns_witness :
  forallb is_number_char (str "2.3") = true /\
  forall fuel : nat,
    write text fuel (mkParser [StateNumber (str "1."); DetectType] [] V_undefined false)
          (str "2.3 ") = None.
Proof.
  split; [reflexivity|].
  apply (X5_number_state_never_returns (str "1.") (str "2.3") " "%char []
                                       [DetectType] V_undefined false);
    reflexivity.
Defined.

(** ** set_keys, append and the initializer list *)

Lemma map_pair_id (items : list (string_view * Value)) :
  map (fun kv : string_view * Value => (fst kv, snd kv)) items = items.
Proof. induction items as [|[k x] l IH]; cbn; [reflexivity|now rewrite IH]. Qed.

Lemma undefined_inv (x : Value) : defined x = false -> x = V_undefined.
Proof. destruct x; cbn; intros H; first [reflexivity|discriminate H]. Qed.

Lemma find_key_Some (items : list KeyValue) (key : string_view) (kv : KeyValue) :
  find (fun kv => sv_eqb (fst kv) key) items = Some kv ->
  In (key, snd kv) items.
Proof.
  intros H. destruct (find_some _ _ H) as [Hin He].
  apply sv_eqb_eq in He. destruct kv as [k x]. cbn in *. now subst.
Qed.

Lemma find_key_None (items : list KeyValue) (key : string_view) :
  find (fun kv => sv_eqb (fst kv) key) items = None ->
  ~ In key (map kv_key items).
Proof.
  intros H Hin. apply in_map_iff in Hin. destruct Hin as [kv [Hk Hin]].
  pose proof (find_none _ _ H kv Hin) as Hn.
  change (sv_eqb (fst kv) key = false) in Hn.
  unfold kv_key in Hk. rewrite Hk, sv_eqb_refl in Hn. discriminate.
Qed.

Lemma merged_lookup (l1 l2 : list KeyValue) (key : string_view) :
  strictly_sorted l1 -> strictly_sorted l2 ->
  index_key (V_object (merge_loop l1 l2)) key
  = match find (fun kv => sv_eqb (fst kv) key) l2 with
    | Some kv => snd kv
    | None => index_key (V_object l1) key
    end.
Proof.
  intros H1 H2.
  pose proof (merge_loop_sorted l1 l2 H1 H2) as Hm.
  destruct (find (fun kv => sv_eqb (fst kv) key) l2) as [kv|] eqn:Hf.
  - apply find_key_Some in Hf.
    destruct (defined (snd kv)) eqn:Hd.
    + apply index_key_In; [exact Hm|].
      apply merge_loop_In; [exact H1|exact H2|]. left. now split.
    + rewrite (undefined_inv _ Hd). apply index_key_absent.
      intros Hin. apply in_map_iff in Hin. destruct Hin as [[k y] [Hk Hin]].
      cbn in Hk. subst k.
      apply merge_loop_In in Hin; [|exact H1|exact H2].
      destruct Hin as [[Hin Hy]|[_ Hn]].
      * cbn in Hy.
        rewrite (strictly_sorted_In_value l2 key y (snd kv) H2 Hin Hf) in Hy.
        congruence.
      * apply Hn. cbn. apply in_map_iff. exists (key, snd kv). now split.
  - apply find_key_None in Hf.
    destruct (in_dec (list_eq_dec ascii_dec) key (map kv_key l1)) as [Hin|Hn].
    + apply in_map_iff in Hin. destruct Hin as [[k y] [Hk Hin]]. cbn in Hk. subst k.
      rewrite (index_key_In l1 key y H1 Hin).
      apply index_key_In; [exact Hm|].
      apply merge_loop_In; [exact H1|exact H2|]. right. now split.
    + rewrite (index_key_absent l1 key Hn). apply index_key_absent.
      intros Hin. apply in_map_iff in Hin. destruct Hin as [kv [Hk Hin]].
      apply merge_loop_keys_subset in Hin. destruct Hin as [Hin|[Hin _]].
      * apply Hn. apply in_map_iff. now exists kv.
      * apply Hf. apply in_map_iff. now exists kv.
Qed.

Lemma find_key_perm (l l' : list KeyValue) (key : string_view) :
  Permutation l l' -> NoDup (map kv_key l) ->
  find (fun kv => sv_eqb (fst kv) key) l = find (fun kv => sv_eqb (fst kv) key) l'.
Proof.
  intros Hp Hn.
  assert (Hn' : NoDup (map kv_key l')).
  { eapply Permutation_NoDup; [|exact Hn]. now apply Permutation_map. }
  assert (Huniq : forall m, NoDup (map kv_key m) -> forall a b : KeyValue,
             In a m -> In b m -> fst a = fst b -> a = b).
  { induction m as [|c m IH]; intros Hm a b Ha Hb Hk; [destruct Ha|].
    cbn in Hm. inversion Hm as [|? ? Hc Hm']; subst.
    destruct Ha as [Ha|Ha], Hb as [Hb|Hb]; subst.
    - reflexivity.
    - exfalso. apply Hc. apply in_map_iff. exists b. split; [now symmetry|exact Hb].
    - exfalso. apply Hc. apply in_map_iff. exists a. split; [exact Hk|exact Ha].
    - now apply IH. }
  destruct (find (fun kv => sv_eqb (fst kv) key) l) as [kv|] eqn:Hf;
    destruct (find (fun kv => sv_eqb (fst kv) key) l') as [kv'|] eqn:Hf'.
  - f_equal. destruct (find_some _ _ Hf) as [Hi He].
    destruct (find_some _ _ Hf') as [Hi' He'].
    cbn beta in He, He'. apply sv_eqb_eq in He. apply sv_eqb_eq in He'.
    apply (Huniq l' Hn'); [|exact Hi'|exact (eq_trans He (eq_sym He'))].
    eapply Permutation_in; [exact Hp|exact Hi].
  - exfalso. destruct (find_some _ _ Hf) as [Hi He].
    pose proof (find_none _ _ Hf' kv (Permutation_in _ Hp Hi)) as Hx.
    cbn beta in He, Hx. congruence.
  - exfalso. destruct (find_some _ _ Hf') as [Hi He].
    pose proof (find_none _ _ Hf kv' (Permutation_in _ (Permutation_sym Hp) Hi)) as Hx.
    cbn beta in He, Hx. congruence.
  - reflexivity.
Qed.

Lemma index_key_keys (v : Value) (key : string_view) :
  index_key (V_object (keys v)) key = index_key v key.
Proof. destruct v; reflexivity. Qed.

(** X6: after [set_keys], looking a key up gives the value of the item
    with that key when there is one (an undefined value: the key is gone),
    and what the receiver held otherwise; the keys stay strictly
    increasing.  The receiver's keys are strictly increasing and the items
    have distinct keys. *)
Theorem X6_set_keys_then_lookup (this : Value) (items : list (string_view * Value))
        (key : string_view) :
  strictly_increasing (map kv_key (keys this)) = true ->
  NoDup (map fst items) ->
  index_key (set_keys this items) key
  = match find (fun kv => sv_eqb (fst kv) key) items with
    | Some kv => snd kv
    | None => index_key this key
    end /\
  strictly_increasing (map kv_key (keys (set_keys this items))) = true.
Proof.
  intros Hs Hn. unfold set_keys, merge_keys. rewrite map_pair_id. cbn [keys].
  apply strictly_increasing_sorted in Hs.
  pose proof (sort_object_strict items Hn) as Hs2.
  split.
  - rewrite merged_lookup by assumption.
    rewrite (find_key_perm (sort_object items) items key (sort_object_perm items)).
    + now rewrite index_key_keys.
    + eapply Permutation_NoDup; [|exact Hn].
      apply Permutation_map, Permutation_sym, sort_object_perm.
  - apply strictly_increasing_sorted. now apply merge_loop_sorted.
Qed.

Lemma X6_set_keys_then_lookup_witness :
  index_key (set_keys object_a1_c3 [(sv_c, V_undefined); (sv_b, V_int32 2)]) sv_b
  = V_int32 2 /\
  index_key (set_keys object_a1_c3 [(sv_c, V_undefined); (sv_b, V_int32 2)]) sv_c
  = V_undefined /\
  index_key (set_keys object_a1_c3 [(sv_c, V_undefined); (sv_b, V_int32 2)]) sv_a
  = V_int32 1.
Proof.
  assert (H : forall key, _) by
    (intros key;
     refine (proj1 (X6_set_keys_then_lookup object_a1_c3
                      [(sv_c, V_undefined); (sv_b, V_int32 2)] key _ _));
     [reflexivity|
      repeat constructor; cbn; intuition discriminate]).
  repeat split; rewrite H; reflexivity.
Defined.

Lemma type_array_inv (a : Value) :
  type a = T_array -> a = V_empty_array \/ exists c, a = V_array c.
Proof.
  destruct a; cbn [type]; intros H; try discriminate H.
  - destruct (Z.land storage 240 =? 16); discriminate H.
  - now left.
  - right. now eexists.
Qed.

Lemma index_append (c d : list Value) (i : nat) :
  index (V_array (c ++ d)) i
  = if (i <? length c)%nat then index (V_array c) i else index (V_array d) (i - length c).
Proof.
  unfold index. cbn [visit].
  destruct (Nat.ltb_spec i (length c)) as [H|H].
  - now rewrite nth_error_app1.
  - now rewrite nth_error_app2.
Qed.

(** X7: appending one array to another gives the array of the sizes
    added up, whose elements are those of the receiver followed by those of
    the argument. *)
Theorem X7_append_concatenates (a b : Value) (i : nat) :
  type a = T_array -> type b = T_array ->
  type (append a b) = T_array /\
  size (append a b) = (size a + size b)%nat /\
  index (append a b) i
  = if (i <? size a)%nat then index a i else index b (i - size a).
Proof.
  intros Ha Hb. unfold append.
  destruct (type_array_inv a Ha) as [->|[c ->]];
    destruct (type_array_inv b Hb) as [->|[d ->]]; cbn [get_array app];
    (split; [reflexivity|split]).
  - reflexivity.
  - now destruct i.
  - reflexivity.
  - cbn [size visit length Nat.ltb Nat.leb]. now rewrite Nat.sub_0_r.
  - cbn [size visit]. now rewrite app_nil_r, Nat.add_0_r.
  - rewrite app_nil_r. cbn [size visit].
    destruct (Nat.ltb_spec i (length c)) as [H|H]; [reflexivity|].
    rewrite index_out_of_range by exact H. now destruct (i - length c)%nat.
  - cbn [size visit]. apply length_app.
  - apply index_append.
Qed.

Lemma X7_append_concatenates_witness :
  index (append (V_array [V_int32 1; V_int32 2]) (V_array [V_int32 3])) 2 = V_int32 3 /\
  size (append V_empty_array (V_array [V_null])) = 1%nat.
Proof.
  split.
  - destruct (X7_append_concatenates (V_array [V_int32 1; V_int32 2])
                (V_array [V_int32 3]) 2 eq_refl eq_refl) as [_ [_ H]].
    rewrite H. reflexivity.
  - destruct (X7_append_concatenates V_empty_array (V_array [V_null]) 0
                eq_refl eq_refl) as [_ [H _]].
    rewrite H. reflexivity.
Defined.

Lemma pair_items_are_pairs (items : list (string_view * Value)) :
  forallb is_key_value_pair (map pair_item items) = true.
Proof.
  induction items as [|[k x] l IH]; [reflexivity|].
  cbn [map forallb]. rewrite IH, andb_true_r.
  unfold is_key_value_pair, pair_item. cbn [type size visit length index nth_error fst snd].
  unfold Value_string. now rewrite type_Value_of_string.
Qed.

Lemma pair_items_entries (items : list (string_view * Value)) :
  map (fun v => (get_string (index v 0), index v 1)) (map pair_item items) = items.
Proof.
  induction items as [|[k x] l IH]; [reflexivity|].
  cbn [map]. rewrite IH. f_equal.
  unfold pair_item. cbn [index visit nth_error fst snd].
  unfold get_string, Value_string. now rewrite visit_runtime_string.
Qed.

(** X8: an object built from an initializer list of [{key, value}] pairs
    with distinct keys gives, for every key, the value listed with it, and
    is undefined at every other key. *)
Theorem X8_initializer_list_lookup (items : list (string_view * Value))
        (key : string_view) :
  NoDup (map fst items) ->
  type (Value_of_list (map pair_item items)) = T_object /\
  index_key (Value_of_list (map pair_item items)) key
  = match find (fun kv => sv_eqb (fst kv) key) items with
    | Some kv => snd kv
    | None => undefined
    end.
Proof.
  intros Hn. unfold Value_of_list.
  rewrite pair_items_are_pairs, pair_items_entries.
  split; [reflexivity|].
  pose proof (sort_object_strict items Hn) as Hs.
  rewrite <- (find_key_perm (sort_object items) items key (sort_object_perm items)).
  - destruct (find (fun kv => sv_eqb (fst kv) key) (sort_object items)) as [kv|] eqn:Hf.
    + apply index_key_In; [exact Hs|]. now apply find_key_Some.
    + apply index_key_absent. now apply find_key_None.
  - eapply Permutation_NoDup; [|exact Hn].
    apply Permutation_map, Permutation_sym, sort_object_perm.
Qed.

Lemma X8_initializer_list_lookup_witness :
  index_key (Value_of_list (map pair_item [(sv_c, V_int32 3); (sv_a, V_null)])) sv_a
  = V_null /\
  index_key (Value_of_list (map pair_item [(sv_c, V_int32 3); (sv_a, V_null)])) sv_b
  = undefined.
Proof.
  assert (H : forall key, _) by
    (intros key;
     refine (proj2 (X8_initializer_list_lookup [(sv_c, V_int32 3); (sv_a, V_null)] key _));
     repeat constructor; cbn; intuition discriminate).
  split; rewrite H; reflexivity.
Defined.

(** ** Equality is symmetric and transitive *)
















(** ** Integers in the textual form *)

Lemma decimal_value_snoc (ds : string_view) (c : char) :
  decimal_value (ds ++ [c]) = 10 * decimal_value ds + (code c - 48).
Proof. unfold decimal_value. now rewrite fold_left_app. Qed.

Lemma digit_chr (d : Z) :
  0 <= d < 10 -> isdigit (chr (d + 48)) = true /\ code (chr (d + 48)) - 48 = d.
Proof.
  intros H. unfold isdigit. rewrite code_chr, Z.mod_small by lia. split; lia.
Qed.

Lemma unsigned_digits_spec (buff : nat) :
  forall val acc,
    0 <= val < 10 ^ Z.of_nat buff ->
    exists ds,
      unsigned_digits buff val acc = ds ++ acc /\
      forallb isdigit ds = true /\
      decimal_value ds = val /\
      (0 < val -> exists d r, ds = d :: r /\ d <> "0"%char).
Proof.
  induction buff as [|buff IH]; intros val acc Hv.
  - exists []. cbn in *. repeat split; [lia|lia].
  - cbn [unsigned_digits]. destruct (Z.eqb_spec val 0) as [->|Hz].
    + exists []. repeat split. lia.
    + assert (Hq : 0 <= val / 10 < 10 ^ Z.of_nat buff).
      { split; [apply Z.div_pos; lia|].
        apply Z.div_lt_upper_bound; [lia|].
        rewrite Nat2Z.inj_succ, Z.pow_succ_r in Hv by lia. lia. }
      destruct (IH (val / 10) (chr (val mod 10 + 48) :: acc) Hq)
        as [ds [E [Hd [Hval Hlead]]]].
      pose proof (Z.mod_pos_bound val 10 ltac:(lia)) as Hm.
      destruct (digit_chr (val mod 10) Hm) as [Hc1 Hc2].
      exists (ds ++ [chr (val mod 10 + 48)]). repeat split.
      * rewrite E, <- app_assoc. reflexivity.
      * rewrite forallb_app, Hd. cbn. now rewrite Hc1.
      * rewrite decimal_value_snoc, Hval, Hc2.
        pose proof (Z.div_mod val 10 ltac:(lia)). lia.
      * intros _. destruct (Z.eqb_spec (val / 10) 0) as [Hq0|Hq0].
        -- destruct ds as [|d r].
           ++ exists (chr (val mod 10 + 48)), []. split; [reflexivity|].
              intros Hc. rewrite Hc in Hc2. cbn in Hc2.
              pose proof (Z.div_mod val 10 ltac:(lia)). lia.
           ++ exfalso. rewrite Hq0 in Hval.
              (* a non-empty run of digits for zero is not produced *)
              rewrite Hq0 in E.
              assert (E0 : unsigned_digits buff 0 (chr (val mod 10 + 48) :: acc)
                           = chr (val mod 10 + 48) :: acc) by now destruct buff.
              rewrite E0 in E. apply (f_equal (@length _)) in E.
              cbn [length app] in E. rewrite length_app in E. cbn [length] in E. lia.
        -- destruct (Hlead ltac:(lia)) as [d [r [-> Hd0]]].
           exists d, (r ++ [chr (val mod 10 + 48)]). split; [reflexivity|exact Hd0].
Qed.

Lemma pow_1000_256 (bytes : nat) : 2 ^ (Z.of_nat bytes * 8) <= 10 ^ Z.of_nat (bytes * 3).
Proof.
  rewrite Nat2Z.inj_mul.
  replace (Z.of_nat bytes * 8) with (8 * Z.of_nat bytes) by lia.
  replace (Z.of_nat bytes * Z.of_nat 3) with (3 * Z.of_nat bytes) by lia.
  rewrite !Z.pow_mul_r by lia.
  apply Z.pow_le_mono_l. cbn. lia.
Qed.

Lemma skip_digits_all (ds : string_view) : forallb isdigit ds = true -> skip_digits ds = [].
Proof.
  induction ds as [|d ds IH]; [reflexivity|]. cbn [forallb skip_digits]. intros H.
  apply andb_true_iff in H. destruct H as [-> H]. now apply IH.
Qed.

Lemma digit_not_infinity (d : char) (r : string_view) :
  isdigit d = true -> equal_prefix (d :: r) infinity = false.
Proof.
  intros H. unfold infinity. cbn [equal_prefix].
  destruct (char_eqb d "226"%char) eqn:E; [|reflexivity].
  apply char_eqb_eq in E. subst d. discriminate H.
Qed.

Lemma digits_valid (ds : string_view) :
  forallb isdigit ds = true ->
  (exists d r, ds = d :: r /\ (d <> "0"%char \/ r = [])) ->
  is_valid_json_number ds = true /\ is_valid_json_number ("-"%char :: ds) = true.
Proof.
  intros Hd [d [r [-> Hlead]]].
  assert (Hdd : isdigit d = true) by (cbn in Hd; now apply andb_true_iff in Hd).
  assert (Hm : char_eqb d "-"%char = false).
  { destruct (char_eqb d "-"%char) eqn:E; [|reflexivity].
    apply char_eqb_eq in E. subst d. discriminate Hdd. }
  assert (H : (if equal_prefix (d :: r) infinity then true
               else if char_eqb d "0"%char then valid_fraction r
                    else if negb (isdigit d) then false
                         else valid_fraction (skip_digits (d :: r))) = true).
  { rewrite digit_not_infinity by exact Hdd.
    destruct (char_eqb d "0"%char) eqn:E0.
    - apply char_eqb_eq in E0. destruct Hlead as [Hn| ->]; [contradiction|reflexivity].
    - rewrite Hdd. cbn [negb]. now rewrite skip_digits_all. }
  split.
  - unfold is_valid_json_number. rewrite Hm. exact H.
  - unfold is_valid_json_number. cbn [char_eqb Ascii.eqb]. exact H.
Qed.

Lemma digits_number_chars (ds : string_view) :
  forallb isdigit ds = true -> forallb is_number_char ds = true.
Proof.
  induction ds as [|d ds IH]; [reflexivity|]. cbn [forallb]. intros H.
  apply andb_true_iff in H. destruct H as [Hd H].
  unfold is_number_char at 1. rewrite Hd. cbn [orb]. now apply IH.
Qed.

Lemma render_unsigned_number_spec (bytes : nat) (val : Z) :
  0 <= val < 2 ^ (Z.of_nat bytes * 8) ->
  let ds := render_unsigned_number bytes val in
  forallb isdigit ds = true /\ decimal_value ds = val /\
  exists d r, ds = d :: r /\ (d <> "0"%char \/ r = []).
Proof.
  intros Hv. cbn zeta. unfold render_unsigned_number.
  destruct (Z.eqb_spec val 0) as [->|Hz].
  - repeat split. exists "0"%char, []. split; [reflexivity|now right].
  - destruct (unsigned_digits_spec (bytes * 3) val []) as [ds [E [Hd [Hval Hlead]]]].
    { pose proof (pow_1000_256 bytes). lia. }
    rewrite app_nil_r in E. rewrite E. repeat split; [exact Hd|exact Hval|].
    destruct (Hlead ltac:(lia)) as [d [r [-> Hd0]]]. exists d, r. split; [reflexivity|now left].
Qed.

(** X10: in the textual form an integer within the range of its type is
    written as an optional minus sign and the decimal digits of its
    magnitude, without a leading zero; the text is a valid JSON number made
    of bytes that the number state accepts. *)
Theorem X10_integer_text (bytes : nat) (is_signed : bool) (v : Z) :
  in_range bytes is_signed v ->
  exists ds,
    render_item_integral text bytes is_signed v
    = (if v <? 0 then ["-"%char] else []) ++ ds /\
    forallb isdigit ds = true /\
    decimal_value ds = Z.abs v /\
    (exists d r, ds = d :: r /\ (d <> "0"%char \/ r = [])) /\
    is_valid_json_number (render_item_integral text bytes is_signed v) = true /\
    forallb is_number_char (render_item_integral text bytes is_signed v) = true.
Proof.
  unfold in_range. cbn zeta. intros Hr. unfold render_item_integral.
  set (w := Z.of_nat bytes * 8) in *.
  assert (Hw : 2 ^ (w - 1) <= 2 ^ w) by (apply Z.pow_le_mono_r; lia).
  assert (Hmag : 0 <= Z.abs v < 2 ^ w /\
                 (if is_signed && (v <? 0) then (- v) mod 2 ^ w else v) = Z.abs v /\
                 is_signed && (v <? 0) = (v <? 0)).
  { destruct is_signed; cbn [andb].
    - destruct (Z.ltb_spec v 0) as [Hn|Hn].
      + assert (0 <= w - 1 \/ w - 1 < 0) as [Hw1|Hw1] by lia.
        * assert (Hw2 : 2 ^ w = 2 * 2 ^ (w - 1)).
          { replace w with (Z.succ (w - 1)) at 1 by lia. apply Z.pow_succ_r. lia. }
          assert (Hp : 0 < 2 ^ (w - 1)) by (apply Z.pow_pos_nonneg; lia).
          rewrite Z.mod_small by lia. lia.
        * rewrite (Z.pow_neg_r 2 (w - 1)) in Hr by lia. lia.
      + lia.
    - destruct (Z.ltb_spec v 0) as [Hn|Hn]; lia. }
  destruct Hmag as [Habs [Hmag Hneg]].
  remember (Z.abs v) as m eqn:Em. clear Em.
  destruct (render_unsigned_number_spec bytes m Habs) as [Hd [Hval Hlead]].
  exists (render_unsigned_number bytes m).
  destruct (digits_valid _ Hd Hlead) as [Hv1 Hv2].
  pose proof (digits_number_chars _ Hd) as Hnc.
  rewrite Hneg in *. destruct (v <? 0); rewrite Hmag; cbn [app];
    repeat split; try assumption.
Qed.

Lemma X10_integer_text_witness :
  in_range 4 true (- 2147483648) /\
  exists ds,
    render_item_integral text 4 true (- 2147483648) = (["-"%char] ++ ds) /\
    decimal_value ds = 2147483648.
Proof.
  assert (H : in_range 4 true (- 2147483648)) by (unfold in_range; cbn; lia).
  split; [exact H|].
  destruct (X10_integer_text 4 true (- 2147483648) H) as [ds [E [_ [Hv _]]]].
  exists ds. split; [exact E|exact Hv].
Defined.

(** ** [is_valid_json_number] and the grammar of a JSON number *)

Lemma skip_digits_split (s : string_view) :
  exists ds, s = ds ++ skip_digits s /\ forallb isdigit ds = true /\
             stops_digits (skip_digits s).
Proof.
  induction s as [|c s [ds [E [Hd Hs]]]].
  - exists []. repeat split. now left.
  - cbn [skip_digits]. destruct (isdigit c) eqn:Ec.
    + exists (c :: ds). cbn [app forallb]. rewrite Ec, Hd. repeat split; [|exact Hs].
      now rewrite <- E.
    + exists []. repeat split. right. now exists c, s.
Qed.

Lemma skip_digits_app (ds e : string_view) :
  forallb isdigit ds = true -> stops_digits e -> skip_digits (ds ++ e) = e.
Proof.
  intros Hd He. induction ds as [|d ds IH]; cbn [app].
  - destruct He as [->|[c [r [-> Hc]]]]; [reflexivity|]. cbn [skip_digits]. now rewrite Hc.
  - cbn [forallb] in Hd. apply andb_true_iff in Hd. destruct Hd as [Hd1 Hd].
    cbn [skip_digits]. rewrite Hd1. now apply IH.
Qed.

Lemma json_exp_stops (e : string_view) : json_exp e -> stops_digits e.
Proof.
  intros [->|[c [sg [ds [-> [Hc _]]]]]]; [now left|].
  right. exists c, (sg ++ ds). split; [reflexivity|]. now destruct Hc as [->| ->].
Qed.

Lemma digits_cons (s : string_view) :
  digits s <-> exists d r, s = d :: r /\ isdigit d = true /\ forallb isdigit r = true.
Proof.
  unfold digits. split.
  - intros [Hn Hd]. destruct s as [|d r]; [contradiction|].
    cbn [forallb] in Hd. apply andb_true_iff in Hd. now exists d, r.
  - intros [d [r [-> [Hd Hr]]]]. split; [discriminate|]. cbn [forallb]. now rewrite Hd, Hr.
Qed.

Lemma valid_exponent_spec (s : string_view) : valid_exponent s = true <-> json_exp s.
Proof.
  unfold valid_exponent, json_exp. split.
  - destruct s as [|c s1]; [now left|]. intros H. right.
    destruct (char_eqb c "e"%char || char_eqb c "E"%char) eqn:Ec; [|discriminate].
    assert (Hc : c = "e"%char \/ c = "E"%char).
    { apply orb_true_iff in Ec. destruct Ec as [Ec|Ec]; apply char_eqb_eq in Ec; auto. }
    assert (Hds : forall s2, match s2 with
                             | d :: _ => if isdigit d
                                         then match skip_digits s2 with [] => true | _ => false end
                                         else false
                             | [] => false
                             end = true -> digits s2).
    { intros s2 H2. destruct s2 as [|d r]; [discriminate|].
      destruct (isdigit d) eqn:Ed; [|discriminate].
      destruct (skip_digits_split (d :: r)) as [ds [E [Hd _]]].
      destruct (skip_digits (d :: r)); [|discriminate].
      rewrite app_nil_r in E. split; [discriminate|]. now rewrite E. }
    destruct s1 as [|d s2'].
    + discriminate.
    + destruct (char_eqb d "+"%char || char_eqb d "-"%char) eqn:Esg.
      * exists c, [d], s2'. repeat split; [exact Hc| |apply (proj1 (Hds s2' H))
                                                    |apply (proj2 (Hds s2' H))].
        apply orb_true_iff in Esg.
        destruct Esg as [E|E]; apply char_eqb_eq in E; subst d; [right; now left|now do 2 right].
      * exists c, [], (d :: s2'). repeat split; [exact Hc|now left
                                                 |apply (proj1 (Hds (d :: s2') H))
                                                 |apply (proj2 (Hds (d :: s2') H))].
  - intros [->|[c [sg [ds [-> [Hc [Hsg Hds]]]]]]]; [reflexivity|].
    assert (Ec : char_eqb c "e"%char || char_eqb c "E"%char = true)
      by (destruct Hc as [->| ->]; reflexivity).
    rewrite Ec.
    apply digits_cons in Hds. destruct Hds as [d [r [-> [Hd Hr]]]].
    assert (Hfin : (if isdigit d
                    then match skip_digits (d :: r) with [] => true | _ => false end
                    else false) = true).
    { rewrite Hd. rewrite skip_digits_all; [reflexivity|]. cbn [forallb]. now rewrite Hd, Hr. }
    destruct Hsg as [->|[->| ->]]; cbn [app char_eqb Ascii.eqb orb Bool.eqb]; try exact Hfin.
    assert (Esg : char_eqb d "+"%char || char_eqb d "-"%char = false).
    { apply orb_false_iff. split; apply char_eqb_neq; intros ->; discriminate Hd. }
    rewrite Esg. exact Hfin.
Qed.

Lemma valid_fraction_spec (s : string_view) :
  valid_fraction s = true <-> exists f e, s = f ++ e /\ json_frac f /\ json_exp e.
Proof.
  unfold valid_fraction. split.
  - destruct s as [|c s1].
    + intros _. exists [], []. repeat split; now left.
    + destruct (char_eqb c "."%char) eqn:Ec.
      * apply char_eqb_eq in Ec. subst c.
        destruct s1 as [|d r]; [discriminate|].
        destruct (isdigit d) eqn:Ed; [|discriminate]. intros H.
        apply valid_exponent_spec in H.
        destruct (skip_digits_split (d :: r)) as [ds [E [Hd _]]].
        exists ("."%char :: ds), (skip_digits (d :: r)).
        split; [cbn [app]; now rewrite <- E|]. split; [|exact H].
        right. exists ds. split; [reflexivity|]. split; [|exact Hd].
        intros ->. cbn [app] in E. cbn [skip_digits] in E. rewrite Ed in E.
        apply (f_equal (@length _)) in E. cbn [length] in E.
        destruct (skip_digits_split r) as [ds' [E' _]].
        apply (f_equal (@length _)) in E'. rewrite length_app in E'. lia.
      * intros H. apply valid_exponent_spec in H.
        exists [], (c :: s1). repeat split; [now left|exact H].
  - intros [f [e [-> [Hf He]]]].
    destruct Hf as [->|[ds [-> Hds]]]; cbn [app].
    + destruct e as [|c s1]; [reflexivity|].
      assert (Ec : char_eqb c "."%char = false).
      { destruct He as [He|[c' [sg [ds [E [Hc _]]]]]]; [discriminate|].
        injection E as -> _. now destruct Hc as [->| ->]. }
      rewrite Ec. now apply valid_exponent_spec.
    + cbn [char_eqb Ascii.eqb Bool.eqb andb].
      apply digits_cons in Hds. destruct Hds as [d [r [-> [Hd Hr]]]].
      cbn [app]. rewrite Hd.
      change (d :: r ++ e) with ((d :: r) ++ e).
      rewrite skip_digits_app; [now apply valid_exponent_spec| |now apply json_exp_stops].
      cbn [forallb]. now rewrite Hd, Hr.
Qed.

Lemma frac_exp_stops (f e : string_view) :
  json_frac f -> json_exp e -> stops_digits (f ++ e).
Proof.
  intros [->|[ds [-> _]]] He; cbn [app]; [now apply json_exp_stops|].
  right. now exists "."%char, (ds ++ e).
Qed.

Lemma number_char_not_infinity (c : char) (r : string_view) :
  is_number_char c = true -> equal_prefix (c :: r) infinity = false.
Proof.
  intros H. unfold infinity. cbn [equal_prefix].
  destruct (char_eqb c "226"%char) eqn:E; [|reflexivity].
  apply char_eqb_eq in E. subst c. discriminate H.
Qed.

Lemma valid_unsigned_spec (d : char) (s2 : string_view) :
  (if char_eqb d "0"%char then valid_fraction s2
   else if negb (isdigit d) then false
        else valid_fraction (skip_digits (d :: s2))) = true <->
  exists i f e, d :: s2 = i ++ f ++ e /\ json_int i /\ json_frac f /\ json_exp e.
Proof.
  split.
  - destruct (char_eqb d "0"%char) eqn:E0.
    + apply char_eqb_eq in E0. subst d. intros H.
      apply valid_fraction_spec in H. destruct H as [f [e [-> [Hf He]]]].
      exists ["0"%char], f, e. repeat split; [now left|exact Hf|exact He].
    + destruct (isdigit d) eqn:Ed; [|discriminate]. cbn [negb]. intros H.
      apply valid_fraction_spec in H. destruct H as [f [e [E [Hf He]]]].
      destruct (skip_digits_split (d :: s2)) as [ds [Es [Hd _]]].
      rewrite E in Es.
      destruct ds as [|d' r].
      * exfalso. cbn [app] in Es. rewrite <- E in Es. cbn [skip_digits] in Es.
        rewrite Ed in Es. apply (f_equal (@length _)) in Es. cbn [length] in Es.
        destruct (skip_digits_split s2) as [ds' [E' _]].
        apply (f_equal (@length _)) in E'. rewrite length_app in E'. lia.
      * exists (d' :: r), f, e. split; [exact Es|]. split; [|now split].
        right. cbn [app] in Es. injection Es as <- _.
        cbn [forallb] in Hd. apply andb_true_iff in Hd. destruct Hd as [_ Hr].
        exists d, r. repeat split; [exact Ed| |exact Hr].
        apply char_eqb_neq. exact E0.
  - intros [i [f [e [E [Hi [Hf He]]]]]].
    destruct Hi as [->|[d' [r [-> [Hd [Hn Hr]]]]]]; cbn [app] in E; injection E as -> ->.
    + cbn [char_eqb Ascii.eqb Bool.eqb andb]. apply valid_fraction_spec. now exists f, e.
    + apply char_eqb_neq in Hn. rewrite Hn, Hd. cbn [negb].
      change (d' :: r ++ f ++ e) with ((d' :: r) ++ f ++ e).
      rewrite skip_digits_app.
      * apply valid_fraction_spec. now exists f, e.
      * cbn [forallb]. now rewrite Hd, Hr.
      * now apply frac_exp_stops.
Qed.

(** X11: on a run of the bytes that the number state collects,
    [is_valid_json_number] accepts exactly the numbers of the JSON grammar:
    an optional minus sign, an integer part without a leading zero, an
    optional fraction and an optional exponent. *)
Theorem X11_valid_number_is_json_grammar (s : string_view) :
  forallb is_number_char s = true ->
  (is_valid_json_number s = true <-> json_number s).
Proof.
  intros Hnc. unfold is_valid_json_number, json_number. split.
  - destruct s as [|c s']; [discriminate|].
    cbn [forallb] in Hnc. apply andb_true_iff in Hnc. destruct Hnc as [Hc Hs'].
    destruct (char_eqb c "-"%char) eqn:Em.
    + apply char_eqb_eq in Em. subst c.
      destruct s' as [|d s2]; [discriminate|].
      cbn [forallb] in Hs'. apply andb_true_iff in Hs'. destruct Hs' as [Hd _].
      rewrite number_char_not_infinity by exact Hd. intros H.
      apply valid_unsigned_spec in H. destruct H as [i [f [e [E [Hi [Hf He]]]]]].
      exists ["-"%char], i, f, e. cbn [app]. rewrite E. repeat split; auto.
    + rewrite number_char_not_infinity by exact Hc. intros H.
      apply valid_unsigned_spec in H. destruct H as [i [f [e [E [Hi [Hf He]]]]]].
      exists [], i, f, e. cbn [app]. repeat split; auto.
  - intros [sg [i [f [e [-> [Hsg [Hi [Hf He]]]]]]]].
    assert (Hi' : exists d r, i = d :: r /\ isdigit d = true).
    { destruct Hi as [->|[d [r [-> [Hd _]]]]]; [now exists "0"%char, []|now exists d, r]. }
    destruct Hi' as [d [r [Ei Hd]]].
    assert (Hv : exists s2, i ++ f ++ e = d :: s2 /\
                 (if equal_prefix (d :: s2) infinity then true
                  else if char_eqb d "0"%char then valid_fraction s2
                       else if negb (isdigit d) then false
                            else valid_fraction (skip_digits (d :: s2))) = true).
    { exists (r ++ f ++ e). split; [now rewrite Ei|].
      rewrite digit_not_infinity by exact Hd.
      apply valid_unsigned_spec. exists i, f, e. rewrite Ei. repeat split; auto.
      now rewrite <- Ei. }
    destruct Hv as [s2 [E Hv]].
    destruct Hsg as [->| ->]; cbn [app]; rewrite E.
    + assert (Em : char_eqb d "-"%char = false).
      { apply char_eqb_neq. intros ->. discriminate Hd. }
      rewrite Em. exact Hv.
    + cbn [char_eqb Ascii.eqb Bool.eqb andb]. exact Hv.
Qed.

Lemma X11_valid_number_is_json_grammar_witness :
  forallb is_number_char (str "-12.5e+3") = true /\
  json_number (str "-12.5e+3") /\ ~ json_number (str "+1") /\ ~ json_number (str "01").
Proof.
  split; [reflexivity|]. split; [|split].
  - apply (X11_valid_number_is_json_grammar (str "-12.5e+3")); reflexivity.
  - intros H. apply (X11_valid_number_is_json_grammar (str "+1")) in H;
      [discriminate H|reflexivity].
  - intros H. apply (X11_valid_number_is_json_grammar (str "01")) in H;
      [discriminate H|reflexivity].
Defined.

(** ** What follows a value stays unread *)

(** X12: given the binary form of a value whose objects hold no key twice,
    followed by any bytes, [write] returns [false] without an error; the
    result is the value read back, the keys of its objects strictly
    increasing, and the unprocessed data are exactly the bytes that
    followed.  [unbinarize] returns that value and does not look at the
    rest. *)
Theorem X12_binary_value_then_rest (pd : Z -> string_view) (v : Value)
        (rest : string_view) :
  sized v = true -> distinct_keys v = true ->
  strict_keys (reparsed v) = true /\
  exists fuel, forall k, exists p,
    write binary (fuel + k) new_Parser (output pd binary v ++ rest) = Some (false, p) /\
    is_error p = false /\ get_result p = reparsed v /\
    get_unprocessed_data p = rest /\
    unbinarize (fuel + k) (output pd binary v ++ rest) = Some (Ok (reparsed v)).
Proof.
  intros Hs Hd. split; [now apply reparsed_strict_keys|].
  pose proof (parses_value pd v Hs [] rest V_undefined
                           (false, mkParser [] rest (reparsed v) false)) as H.
  destruct (proj2 H eq_refl) as [fuel Hw].
  exists fuel. intros k. exists (mkParser [] rest (reparsed v) false).
  assert (Hk : write binary (fuel + k) new_Parser (output pd binary v ++ rest)
               = Some (false, mkParser [] rest (reparsed v) false)).
  { unfold write. cbn [new_Parser _state _result _is_error].
    apply (write_loop_mono binary fuel (fuel + k) _ _ Hw). lia. }
  repeat split; try exact Hk.
  unfold unbinarize, parse_with. now rewrite Hk.
Qed.

Lemma X12_binary_value_then_rest_witness :
  sized (V_array [V_int32 7; Value_string (str "a")]) = true /\
  exists fuel p,
    write binary fuel new_Parser
          (output (fun _ => []) binary (V_array [V_int32 7; Value_string (str "a")])
           ++ str "tail") = Some (false, p) /\
    get_unprocessed_data p = str "tail".
Proof.
  split; [reflexivity|].
  destruct (X12_binary_value_then_rest (fun _ => [])
              (V_array [V_int32 7; Value_string (str "a")]) (str "tail") eq_refl eq_refl)
    as [_ [fuel H]].
  destruct (H 0%nat) as [p [Hw [_ [_ [Hu _]]]]].
  exists (fuel + 0)%nat, p. split; [exact Hw|exact Hu].
Defined.

(** X13: given the text of a value followed by any bytes (after a number:
    bytes that begin with one the number state does not take), [write]
    returns [false] without an error; the result is the value read back and
    the unprocessed data are exactly the bytes that followed.  [parse]
    returns that value and does not look at the rest. *)
Theorem X13_text_value_then_rest (pd : Z -> string_view) (v : Value)
        (rest : string_view) :
  text_exact v = true ->
  (Type_eqb (type v) T_number = true -> ends_number rest) ->
  exists fuel, forall k, exists p,
    write text (fuel + k) new_Parser (output pd text v ++ rest) = Some (false, p) /\
    is_error p = false /\ get_result p = reparsed v /\
    get_unprocessed_data p = rest /\
    parse (fuel + k) (output pd text v ++ rest) = Some (Ok (reparsed v)).
Proof.
  intros He Hn.
  pose proof (parses_text_value pd v He [] rest V_undefined
                                (false, mkParser [] rest (reparsed v) false) Hn) as H.
  destruct (proj2 H eq_refl) as [fuel Hw].
  exists fuel. intros k. exists (mkParser [] rest (reparsed v) false).
  assert (Hk : write text (fuel + k) new_Parser (output pd text v ++ rest)
               = Some (false, mkParser [] rest (reparsed v) false)).
  { unfold write. cbn [new_Parser _state _result _is_error].
    apply (write_loop_mono text fuel (fuel + k) _ _ Hw). lia. }
  repeat split; try exact Hk.
  unfold parse, parse_with. now rewrite Hk.
Qed.

Lemma X13_text_value_then_rest_witness :
  text_exact (V_array [Value_number_string (str "1"); V_null]) = true /\
  exists fuel,
    parse fuel (output (fun _ => []) text (V_array [Value_number_string (str "1"); V_null])
                ++ str "]]x")
    = Some (Ok (reparsed (V_array [Value_number_string (str "1"); V_null]))).
Proof.
  split; [reflexivity|].
  destruct (X13_text_value_then_rest (fun _ => [])
              (V_array [Value_number_string (str "1"); V_null]) (str "]]x")
              eq_refl ltac:(discriminate)) as [fuel H].
  destruct (H 0%nat) as [p [_ [_ [_ [_ Hp]]]]].
  exists (fuel + 0)%nat. exact Hp.
Defined.

(** ** Leading white space *)

Lemma skip_space_spaces (ws s : string_view) :
  forallb isspace ws = true -> skip_space (ws ++ s) = skip_space s.
Proof.
  induction ws as [|c ws IH]; [reflexivity|]. cbn [forallb app skip_space]. intros H.
  apply andb_true_iff in H. destruct H as [-> H]. now apply IH.
Qed.

(** X14: white space in front of a value is skipped: a text parser that
    is about to read a value returns on a chunk with leading white space
    what it returns on the chunk without it. *)
Theorem X14_leading_space_skipped (ws s : string_view) (K : list State) (res : Value)
        (err : bool) (r : bool * Parser) :
  forallb isspace ws = true ->
  (Returns text (mkParser (DetectType :: K) [] res err) (ws ++ s) r <->
   Returns text (mkParser (DetectType :: K) [] res err) s r).
Proof.
  intros Hws.
  change (Writes text (mkParser (DetectType :: K) (ws ++ s) res err) r <->
          Writes text (mkParser (DetectType :: K) s res err) r).
  destruct ws as [|w ws]; [reflexivity|].
  assert (Hl : ParseState text DetectType ((w :: ws) ++ s)
                          (parse_DetectType_text s)).
  { exists 0%nat. cbn [parse_state]. unfold parse_DetectType_text.
    now rewrite skip_space_spaces. }
  assert (Hne : (w :: ws) ++ s <> []) by discriminate.
  rewrite (Writes_frame text DetectType K _ res err _ r Hne Hl).
  destruct s as [|c s'].
  - cbn [parse_DetectType_text skip_space after_step app]. unfold After. cbn [fst snd].
    reflexivity.
  - symmetry. apply Writes_frame; [discriminate|]. now exists 0%nat.
Qed.

Lemma X14_leading_space_skipped_witness :
  forallb isspace [" "%char; "010"%char; "009"%char] = true /\
  exists fuel,
    parse fuel ([" "%char; "010"%char; "009"%char] ++ str "[null]")
    = Some (Ok (V_array [V_null])).
Proof.
  split; [reflexivity|].
  assert (H : Returns text (mkParser [DetectType] [] V_undefined false)
                      ([" "%char; "010"%char; "009"%char] ++ str "[null]")
                      (false, mkParser [] [] (V_array [V_null]) false)).
  { apply (X14_leading_space_skipped [" "%char; "010"%char; "009"%char] (str "[null]")
             [] V_undefined false); [reflexivity|].
    exists 10%nat. reflexivity. }
  destruct H as [fuel H]. exists fuel. unfold parse, parse_with.
  change (mkParser [DetectType] [] V_undefined false) with new_Parser in H.
  now rewrite H.
Defined.

(** ** filter and map *)

Lemma store_at_end {T : Type} (pre : list T) (y x : T) (tail : list T) :
  store (pre ++ y :: tail) (length pre) x = (pre ++ [x]) ++ tail.
Proof. induction pre as [|p pre IH]; cbn [store app length]; [reflexivity|now rewrite IH]. Qed.

Lemma length_selected {A B : Type} (select : A -> option B) (src : list A) :
  (length (selected select src) <= length src)%nat.
Proof.
  induction src as [|v src IH]; [apply Nat.le_refl|].
  unfold selected in *. cbn [flat_map]. rewrite length_app.
  destruct (select v); cbn [length]; lia.
Qed.

Lemma copy_selected_spec {A B : Type} (select : A -> option B) (d : B) (src : list A) :
  forall pre n,
    (length (selected select src) <= n)%nat ->
    copy_selected select src (pre ++ repeat d n) (length pre)
    = (pre ++ selected select src ++ repeat d (n - length (selected select src)),
       (length pre + length (selected select src))%nat).
Proof.
  induction src as [|v src IH]; intros pre n Hn.
  - cbn [copy_selected selected flat_map length app]. now rewrite Nat.sub_0_r, Nat.add_0_r.
  - cbn [copy_selected]. unfold selected in *. cbn [flat_map] in *.
    destruct (select v) as [w|].
    + cbn [app length] in *. destruct n as [|n]; [lia|].
      cbn [repeat]. rewrite store_at_end.
      replace (S (length pre)) with (length (pre ++ [w]))
        by (rewrite length_app; cbn [length]; lia).
      rewrite IH by lia. rewrite <- !app_assoc. cbn [app].
      rewrite length_app. cbn [length Nat.sub]. f_equal. lia.
    + cbn [app] in *. now apply IH.
Qed.

Lemma copy_selected_fresh {A B : Type} (select : A -> option B) (d : B) (src : list A)
      (n : nat) :
  (length src <= n)%nat ->
  copy_selected select src (repeat d n) 0
  = (selected select src ++ repeat d (n - length (selected select src)),
     length (selected select src)).
Proof.
  intros Hn. apply (copy_selected_spec select d src [] n).
  pose proof (length_selected select src). lia.
Qed.

Lemma selected_filter {A : Type} (fn : A -> bool) (src : list A) :
  selected (fun v => if fn v then Some v else None) src = filter fn src.
Proof.
  unfold selected. induction src as [|v src IH]; [reflexivity|].
  cbn [flat_map filter]. rewrite IH. now destruct (fn v).
Qed.

Lemma selected_map {A B : Type} (fn : A -> B) (keep : B -> bool) (src : list A) :
  selected (fun v => let w := fn v in if keep w then Some w else None) src
  = filter keep (map fn src).
Proof.
  unfold selected. induction src as [|v src IH]; [reflexivity|].
  cbn [flat_map filter map]. rewrite IH. now destruct (keep (fn v)).
Qed.

Lemma firstn_prefix {T : Type} (a b : list T) : firstn (length a) (a ++ b) = a.
Proof.
  rewrite firstn_app, Nat.sub_diag, firstn_all. cbn [firstn]. apply app_nil_r.
Qed.

Lemma length_elements (v : Value) : length (elements v) = size v.
Proof.
  destruct v; try reflexivity. cbn [elements size visit]. apply length_map.
Qed.

Lemma length_keys (v : Value) : (length (keys v) <= size v)%nat.
Proof. destruct v; cbn [keys size visit length]; lia. Qed.

(** X15: [filter] with a predicate on values gives the array of the
    visited values that satisfy it, in order; [map] gives the array of the
    images that are defined, in order, whether the function takes the
    values or the entries. *)
Theorem X15_filter_map_to_array (this : Value) :
  (forall fn, filter_Values fn this = V_array (filter fn (elements this))) /\
  (forall fn, map_Values fn this = V_array (filter defined (map fn (elements this)))) /\
  (forall fn, map_KeyValues_to_Values fn this
              = V_array (filter defined (map fn (keys this)))).
Proof.
  split; [|split]; intros fn.
  - unfold filter_Values.
    rewrite (copy_selected_fresh _ V_undefined) by (now rewrite length_elements).
    rewrite firstn_prefix. now rewrite selected_filter.
  - unfold map_Values.
    rewrite (copy_selected_fresh _ V_undefined) by (now rewrite length_elements).
    rewrite firstn_prefix. now rewrite (selected_map fn defined).
  - unfold map_KeyValues_to_Values.
    rewrite (copy_selected_fresh _ V_undefined) by apply length_keys.
    rewrite firstn_prefix. now rewrite (selected_map fn defined).
Qed.

Lemma defined_entries_default (n : nat) :
  defined_entries (repeat default_KeyValue n) = [].
Proof. induction n as [|n IH]; [reflexivity|exact IH]. Qed.

Lemma output_text_padded (pd : Z -> string_view) (c : list KeyValue) (n : nat) :
  output pd text (V_object (c ++ repeat default_KeyValue n)) = output pd text (V_object c).
Proof.
  cbn [output open_KeyValues]. rewrite !first_KeyValues_text. do 3 f_equal.
  unfold defined_entries. rewrite filter_app.
  fold (defined_entries (repeat default_KeyValue n)).
  now rewrite defined_entries_default, app_nil_r.
Qed.

(** X16: [filter] with a predicate on entries, and [map] to entries, do
    not shrink the block they fill: the result is an object of the
    receiver's size that holds the kept entries in the order they were met
    (not sorted again), followed by default entries with an undefined
    value.  The textual form shows the kept entries only. *)
Theorem X16_filter_map_to_object (pd : Z -> string_view) (this : Value)
        (fn : KeyValue -> bool) (fm : Value -> KeyValue) :
  let kept := filter fn (keys this) in
  let made := filter (fun kv => defined (kv_value kv)) (map fm (elements this)) in
  filter_KeyValues fn this
  = V_object (kept ++ repeat default_KeyValue (size this - length kept)) /\
  map_Values_to_KeyValues fm this
  = V_object (made ++ repeat default_KeyValue (size this - length made)) /\
  size (filter_KeyValues fn this) = size this /\
  size (map_Values_to_KeyValues fm this) = size this /\
  output pd text (filter_KeyValues fn this) = output pd text (V_object kept) /\
  output pd text (map_Values_to_KeyValues fm this) = output pd text (V_object made).
Proof.
  cbn zeta.
  assert (H1 : filter_KeyValues fn this
               = V_object (filter fn (keys this) ++
                           repeat default_KeyValue
                                  (size this - length (filter fn (keys this))))).
  { unfold filter_KeyValues.
    rewrite (copy_selected_fresh _ default_KeyValue) by apply length_keys.
    now rewrite selected_filter. }
  assert (H2 : map_Values_to_KeyValues fm this
               = V_object (filter (fun kv => defined (kv_value kv))
                                  (map fm (elements this)) ++
                           repeat default_KeyValue
                                  (size this -
                                   length (filter (fun kv => defined (kv_value kv))
                                                  (map fm (elements this)))))).
  { unfold map_Values_to_KeyValues.
    rewrite (copy_selected_fresh _ default_KeyValue) by (now rewrite length_elements).
    now rewrite (selected_map fm (fun kv => defined (kv_value kv))). }
  rewrite H1, H2. repeat split.
  - cbn [size visit]. rewrite length_app, repeat_length.
    pose proof (filter_length_le fn (keys this)). pose proof (length_keys this). lia.
  - cbn [size visit]. rewrite length_app, repeat_length.
    pose proof (filter_length_le (fun kv => defined (kv_value kv)) (map fm (elements this))).
    rewrite length_map, length_elements in H. lia.
  - apply output_text_padded.
  - apply output_text_padded.
Qed.

(** ** The unread rest is a tail of the chunk *)

Lemma rest_of_refl (a : string_view) : rest_of a a.
Proof. now exists []. Qed.

Lemma rest_of_nil (a : string_view) : rest_of a [].
Proof. exists a. now rewrite app_nil_r. Qed.

Lemma rest_of_cons (c : char) (a b : string_view) : rest_of a b -> rest_of (c :: a) b.
Proof. intros [r ->]. now exists (c :: r). Qed.

Lemma rest_of_trans (a b c : string_view) : rest_of a b -> rest_of b c -> rest_of a c.
Proof. intros [r ->] [r' ->]. exists (r ++ r'). now rewrite app_assoc. Qed.

Create HintDb rest_of.

#[local] Hint Resolve rest_of_refl rest_of_nil rest_of_cons : rest_of.

Lemma skip_space_rest (pos : string_view) : rest_of pos (skip_space pos).
Proof.
  induction pos as [|c pos IH]; cbn [skip_space]; [auto with rest_of|].
  destruct (isspace c); auto with rest_of.
Qed.

Lemma parse_DetectType_text_rest (pos : string_view) :
  rest_of pos (step_pos (parse_DetectType_text pos)).
Proof.
  unfold parse_DetectType_text.
  pose proof (skip_space_rest pos) as H.
  destruct (skip_space pos) as [|c rest]; [cbn; auto with rest_of|].
  assert (H' : rest_of pos rest).
  { eapply rest_of_trans; [exact H|]. auto with rest_of. }
  repeat match goal with
         | |- context [if ?b then _ else _] => destruct b
         end; cbn [step_pos]; assumption.
Qed.

Lemma parse_DetectType_binary_rest (pos : string_view) :
  rest_of pos (step_pos (parse_DetectType_binary pos)).
Proof.
  unfold parse_DetectType_binary. destruct pos as [|c rest]; [cbn; auto with rest_of|].
  repeat match goal with
         | |- context [if ?b then _ else _] => destruct b
         end; cbn [step_pos]; auto with rest_of.
Qed.

Lemma parse_StateString_rest (pos : string_view) :
  forall e d, rest_of pos (step_pos (parse_StateString e d pos)).
Proof.
  induction pos as [|c pos IH]; intros e d; cbn [parse_StateString];
    [cbn; auto with rest_of|].
  destruct (negb e); [destruct (char_eqb c DQUOTE)|]; cbn [step_pos]; auto with rest_of.
Qed.

Lemma parse_StateArray_rest (pos : string_view) :
  forall d, rest_of pos (step_pos (parse_StateArray d pos)).
Proof.
  induction pos as [|c pos IH]; intros d; cbn [parse_StateArray];
    [cbn; auto with rest_of|].
  destruct (negb (isspace c)); [|auto with rest_of].
  destruct (char_eqb c ","%char); [destruct d; cbn [step_pos]; auto with rest_of|].
  destruct (char_eqb c "]"%char); [cbn [step_pos]; auto with rest_of|].
  destruct d; cbn [step_pos]; auto with rest_of.
Qed.

Lemma parse_StateObject_rest (pos : string_view) :
  forall r k d, rest_of pos (step_pos (parse_StateObject r k d pos)).
Proof.
  induction pos as [|c pos IH]; intros r k d; cbn [parse_StateObject];
    [cbn; auto with rest_of|].
  destruct (negb (isspace c)); [|auto with rest_of].
  repeat match goal with
         | |- context [if ?b then _ else _] => destruct b
         end; cbn [step_pos]; auto with rest_of.
Qed.

Lemma parse_StateCheck_rest (pos : string_view) :
  forall w res n, rest_of pos (step_pos (parse_StateCheck w res n pos)).
Proof.
  induction pos as [|c pos IH]; intros w res n; cbn [parse_StateCheck];
    [cbn; auto with rest_of|].
  destruct (char_eqb (nth n w NUL) c); [|cbn [step_pos]; auto with rest_of].
  destruct (S n =? length w)%nat; cbn [step_pos]; auto with rest_of.
Qed.

Lemma parse_StateNumber_rest (fuel : nat) :
  forall d pos s, parse_StateNumber fuel d pos = Some s -> rest_of pos (step_pos s).
Proof.
  induction fuel as [|fuel IH]; intros d pos s; cbn [parse_StateNumber]; [discriminate|].
  destruct pos as [|c rest].
  - intros H. injection H as <-. cbn. auto with rest_of.
  - destruct (is_number_char c).
    + intros H. apply rest_of_cons. exact (IH _ _ _ H).
    + destruct (is_valid_json_number d).
      * intros H. injection H as <-. cbn. auto with rest_of.
      * apply IH.
Qed.

Lemma parse_StateDoubleNumber_rest (pos : string_view) :
  forall d, rest_of pos (step_pos (parse_StateDoubleNumber d pos)).
Proof.
  induction pos as [|c pos IH]; intros d; cbn [parse_StateDoubleNumber];
    [cbn; auto with rest_of|].
  destruct (8 <=? length (d ++ [c]))%nat; cbn [step_pos]; auto with rest_of.
Qed.

Lemma read_BinNumber_pos (pos : string_view) :
  forall size accum, rest_of pos (snd (read_BinNumber size accum pos)).
Proof.
  induction pos as [|c pos IH]; intros size accum; cbn [read_BinNumber];
    [cbn; auto with rest_of|].
  destruct (size =? 0); cbn [snd]; auto with rest_of.
Qed.

Lemma parse_StateBinNumber_rest (size : Z) (neg : bool) (accum : Z) (pos : string_view) :
  rest_of pos (step_pos (parse_StateBinNumber size neg accum pos)).
Proof.
  unfold parse_StateBinNumber. pose proof (read_BinNumber_pos pos size accum) as H.
  destruct (read_BinNumber size accum pos) as [[size' accum'] pos']. cbn [snd] in H.
  destruct (negb (size' =? 0)); [exact H|]. now destruct neg.
Qed.

Lemma parse_StateBinString_rest (pos : string_view) :
  forall n sz d, rest_of pos (step_pos (parse_StateBinString n sz d pos)).
Proof.
  induction pos as [|c pos IH]; intros n sz d; cbn [parse_StateBinString];
    [cbn; auto with rest_of|].
  destruct (sz <=? Z.of_nat (length (d ++ [c]))); cbn [step_pos]; auto with rest_of.
Qed.

Lemma parse_state_rest (fmt : Format) (fuel : nat) (st : State) (pos : string_view)
      (s : Step) :
  parse_state fmt fuel st pos = Some s -> rest_of pos (step_pos s).
Proof.
  destruct st; cbn [parse_state]; try (intros H; injection H as <-).
  - destruct fmt; [apply parse_DetectType_text_rest|apply parse_DetectType_binary_rest].
  - apply parse_StateString_rest.
  - apply parse_StateNumber_rest.
  - apply parse_StateDoubleNumber_rest.
  - apply parse_StateBinNumber_rest.
  - apply parse_StateArray_rest.
  - apply parse_StateObject_rest.
  - apply parse_StateCheck_rest.
  - apply parse_StateBinString_rest.
  - apply rest_of_refl.
  - apply rest_of_refl.
Qed.

Lemma unwind_pos (rest : list State) :
  forall frame pos result e, _pos (snd (unwind frame rest pos result e)) = pos.
Proof.
  induction rest as [|st rest IH]; intros frame pos result e; cbn [unwind].
  - now destruct e.
  - destruct e; [reflexivity|]. destruct (finish_state st result); [reflexivity|apply IH].
Qed.

Lemma do_parse_cycle_rest (fmt : Format) (fuel : nat) (p : Parser) (r : bool * Parser) :
  do_parse_cycle fmt fuel p = Some r -> rest_of (_pos p) (_pos (snd r)).
Proof.
  unfold do_parse_cycle. destruct (_state p) as [|st rest].
  - intros H. injection H as <-. apply rest_of_refl.
  - destruct (parse_state fmt fuel st (_pos p)) as [s|] eqn:E; [|discriminate].
    apply parse_state_rest in E. destruct s as [frames pos|frame pos res e];
      intros H; injection H as <-; cbn [step_pos] in E.
    + exact E.
    + now rewrite unwind_pos.
Qed.

Lemma write_loop_rest (fmt : Format) (fuel : nat) :
  forall p r, write_loop fmt fuel p = Some r -> rest_of (_pos p) (_pos (snd r)).
Proof.
  induction fuel as [|fuel IH]; intros p r; cbn [write_loop].
  - destruct (_pos p) eqn:E; [|discriminate]. intros H. injection H as <-.
    cbn [snd]. rewrite E. apply rest_of_refl.
  - destruct (_pos p) eqn:E.
    + intros H. injection H as <-. cbn [snd]. rewrite E. apply rest_of_refl.
    + rewrite <- E.
      destruct (do_parse_cycle fmt fuel p) as [[[|] p']|] eqn:Ec; [| |discriminate].
      * intros H. apply do_parse_cycle_rest in Ec. cbn [snd] in Ec.
        eapply rest_of_trans; [exact Ec|]. now apply IH.
      * intros H. injection H as <-. now apply do_parse_cycle_rest in Ec.
Qed.

Lemma write_loop_more_end (fmt : Format) (fuel : nat) :
  forall p p', write_loop fmt fuel p = Some (true, p') -> _pos p' = [].
Proof.
  induction fuel as [|fuel IH]; intros p p'; cbn [write_loop].
  - destruct (_pos p) eqn:E; [|discriminate]. intros H. injection H as _ <-. exact E.
  - destruct (_pos p) eqn:E.
    + intros H. injection H as _ <-. exact E.
    + destruct (do_parse_cycle fmt fuel p) as [[[|] q]|]; [apply IH|discriminate..].
Qed.

(** X17: whatever the state of the parser and the chunk, when [write]
    returns, the unprocessed data are a tail of the chunk it was given, and
    nothing is left unprocessed when it asks for more.  The offset that
    [parse] and [unbinarize] report with an error is the place of that tail
    in the input: the bytes of the input in front of the offset followed by
    the unprocessed data are the input. *)
Theorem X17_unprocessed_is_a_tail (fmt : Format) (fuel : nat) (p : Parser)
        (chunk : string_view) (r : bool * Parser) :
  write fmt fuel p chunk = Some r ->
  (exists read, chunk = read ++ get_unprocessed_data (snd r)) /\
  (fst r = true -> get_unprocessed_data (snd r) = []) /\
  (forall at_, parse_with fmt fuel chunk = Some (ParseError at_) ->
     exists q, write fmt fuel new_Parser chunk = Some q /\
               (fst q = true \/ is_error (snd q) = true) /\
               (at_ <= length chunk)%nat /\
               chunk = firstn at_ chunk ++ get_unprocessed_data (snd q)).
Proof.
  intros H. split; [|split].
  - unfold write in H. apply write_loop_rest in H. exact H.
  - destruct r as [[|] p']; [|discriminate]. intros _.
    unfold write in H. exact (write_loop_more_end fmt fuel _ p' H).
  - intros at_. unfold parse_with.
    destruct (write fmt fuel new_Parser chunk) as [[[|] q]|] eqn:E; [| |discriminate].
    + intros Hp. injection Hp as <-. exists (true, q). split; [reflexivity|].
      split; [now left|]. split; [lia|]. cbn [snd]. unfold get_unprocessed_data.
      unfold write in E. rewrite (write_loop_more_end fmt fuel _ q E).
      now rewrite firstn_all, app_nil_r.
    + destruct (is_error q) eqn:Eq; [|discriminate]. intros Hp. injection Hp as <-.
      exists (false, q). split; [reflexivity|]. split; [now right|].
      unfold write in E. apply write_loop_rest in E. destruct E as [read E].
      cbn [_pos snd] in E. cbn [snd]. unfold get_unprocessed_data.
      split; [lia|]. clear H. subst chunk.
      rewrite length_app, Nat.add_sub, firstn_app, firstn_all, Nat.sub_diag.
      cbn [firstn]. now rewrite app_nil_r.
Qed.

Lemma X17_unprocessed_is_a_tail_witness :
  exists r,
    write text 10 new_Parser (str "[1,x]") = Some r /\
    get_unprocessed_data (snd r) = str "x]" /\
    parse 10 (str "[1,x]") = Some (ParseError 3) /\
    exists read, str "[1,x]" = read ++ get_unprocessed_data (snd r).
Proof.
  eexists. split; [reflexivity|]. split; [reflexivity|]. split; [reflexivity|].
  apply (X17_unprocessed_is_a_tail text 10 new_Parser (str "[1,x]") _ eq_refl).
Defined.

(** ** The binary parser always returns *)

Lemma unwind_binary (K : list State) :
  forallb is_binary_frame K = true ->
  forall frame pos res e,
    is_binary_frame frame = true ->
    binary_frames (snd (unwind frame K pos res e)) = true /\
    _pos (snd (unwind frame K pos res e)) = pos /\
    (fst (unwind frame K pos res e) = true ->
     reads_a_byte (snd (unwind frame K pos res e)) = true).
Proof.
  induction K as [|st K IH]; intros HK frame pos res e Hf; cbn [unwind].
  - destruct e; cbn [fst snd binary_frames _state _pos forallb];
      [rewrite Hf|]; repeat split; discriminate.
  - cbn [forallb] in HK. apply andb_true_iff in HK. destruct HK as [Hst HK].
    destruct e.
    { cbn [fst snd binary_frames _state _pos forallb]. rewrite Hf, Hst, HK.
      repeat split. discriminate. }
    destruct st; try discriminate Hst; cbn [finish_state].
    + now apply IH.
    + now apply IH.
    + now apply IH.
    + destruct (get_unsigned_long res =? 0); [now apply IH|].
      cbn [fst snd binary_frames _state _pos forallb app is_binary_frame reads_a_byte].
      now rewrite HK.
    + destruct (sz =? 0).
      * destruct (get_unsigned_long res =? 0); [now apply IH|].
        cbn [fst snd binary_frames _state _pos forallb app is_binary_frame reads_a_byte].
        now rewrite HK.
      * destruct (Z.of_nat (length (data ++ [res])) <? sz); [|now apply IH].
        cbn [fst snd binary_frames _state _pos forallb app is_binary_frame reads_a_byte].
        now rewrite HK.
    + destruct (sz =? 0).
      * destruct (get_unsigned_long res =? 0); [now apply IH|].
        cbn [fst snd binary_frames _state _pos forallb app is_binary_frame reads_a_byte].
        now rewrite HK.
      * destruct _reading_key.
        -- destruct (negb (Type_eqb (type res) T_string)); [now apply IH|].
           cbn [fst snd binary_frames _state _pos forallb app is_binary_frame reads_a_byte].
           now rewrite HK.
        -- destruct (Z.of_nat (length (data ++ [(key, res)])) <? sz); [|now apply IH].
           cbn [fst snd binary_frames _state _pos forallb app is_binary_frame reads_a_byte].
           now rewrite HK.
Qed.

Lemma parse_DetectType_binary_step (c : char) (rest : string_view) :
  binary_step DetectType c rest (parse_DetectType_binary (c :: rest)).
Proof.
  unfold parse_DetectType_binary.
  assert (Hsz : negb (Z.land (code c) BinaryType.size_mask + 1 =? 0) = true).
  { apply negb_true_iff, Z.eqb_neq.
    pose proof (Z.land_nonneg (code c) BinaryType.size_mask) as H.
    assert (0 <= Z.land (code c) BinaryType.size_mask)
      by (apply H; right; unfold BinaryType.size_mask; lia).
    lia. }
  repeat match goal with
         | |- context [if ?b then _ else _] => destruct b
         end;
    cbn [binary_step forallb is_binary_frame reads_a_byte _state andb length];
    rewrite ?Hsz; repeat split; auto; lia.
Qed.

Lemma parse_StateDoubleNumber_step (pos : string_view) :
  forall d c, binary_step (StateDoubleNumber d) c pos (parse_StateDoubleNumber d (c :: pos)).
Proof.
  induction pos as [|c' pos IH]; intros d c; cbn [parse_StateDoubleNumber].
  - destruct (8 <=? length (d ++ [c]))%nat; cbn; repeat split; auto; lia.
  - destruct (8 <=? length (d ++ [c]))%nat.
    + cbn. repeat split; auto; lia.
    + specialize (IH (d ++ [c]) c'). cbn [parse_StateDoubleNumber] in IH.
      destruct (8 <=? length ((d ++ [c]) ++ [c']))%nat.
      * cbn in *. repeat split; auto; lia.
      * destruct (parse_StateDoubleNumber ((d ++ [c]) ++ [c']) pos);
          cbn [binary_step length] in *; intuition lia.
Qed.

Lemma parse_StateBinString_step (pos : string_view) :
  forall n sz d c,
    binary_step (StateBinString n sz d) c pos (parse_StateBinString n sz d (c :: pos)).
Proof.
  induction pos as [|c' pos IH]; intros n sz d c; cbn [parse_StateBinString].
  - destruct (sz <=? Z.of_nat (length (d ++ [c]))); cbn; repeat split; auto; lia.
  - destruct (sz <=? Z.of_nat (length (d ++ [c]))).
    + cbn. repeat split; auto; lia.
    + specialize (IH n sz (d ++ [c]) c'). cbn [parse_StateBinString] in IH.
      destruct (sz <=? Z.of_nat (length ((d ++ [c]) ++ [c']))).
      * cbn in *. repeat split; auto; lia.
      * destruct (parse_StateBinString n sz ((d ++ [c]) ++ [c']) pos);
          cbn [binary_step length] in *; intuition lia.
Qed.

Lemma read_BinNumber_reads (pos : string_view) :
  forall size accum,
    let '(size', _, pos') := read_BinNumber size accum pos in
    (length pos' <= length pos)%nat /\
    (size' <> 0 -> pos' = []) /\
    (size <> 0 -> pos <> [] -> (length pos' < length pos)%nat).
Proof.
  induction pos as [|c pos IH]; intros size accum; cbn [read_BinNumber].
  - repeat split; auto. intros _ H. now contradiction H.
  - destruct (Z.eqb_spec size 0) as [->|Hs].
    + repeat split; auto; intros H; now contradiction H.
    + specialize (IH (size - 1) (Z.lor (Z.shiftl accum 8 mod 2 ^ 64) (code c))).
      destruct (read_BinNumber (size - 1) _ pos) as [[size' accum'] pos'].
      destruct IH as [H1 [H2 _]]. cbn [length]. repeat split; auto; lia.
Qed.

Lemma parse_StateBinNumber_step (size : Z) (neg : bool) (accum : Z) (c : char)
      (rest : string_view) :
  binary_step (StateBinNumber size neg accum) c rest
              (parse_StateBinNumber size neg accum (c :: rest)).
Proof.
  unfold parse_StateBinNumber.
  pose proof (read_BinNumber_reads (c :: rest) size accum) as H.
  destruct (read_BinNumber size accum (c :: rest)) as [[size' accum'] pos'].
  destruct H as [H1 [H2 H3]]. cbn [length] in *.
  destruct (Z.eqb_spec size' 0) as [->|Hs]; cbn [negb].
  - assert (Hd : reads_a_byte (mkParser [StateBinNumber size neg accum] [] V_undefined false)
                 = true -> (length pos' < S (length rest))%nat).
    { cbn [reads_a_byte _state]. intros Hr. apply negb_true_iff, Z.eqb_neq in Hr.
      apply H3; [exact Hr|discriminate]. }
    destruct neg; cbn [binary_step is_binary_frame]; repeat split; auto.
  - cbn [binary_step forallb is_binary_frame andb]. rewrite (H2 Hs). cbn [length].
    repeat split; auto; lia.
Qed.

Lemma parse_state_binary_step (fuel : nat) (st : State) (c : char) (rest : string_view) :
  is_binary_frame st = true ->
  exists s, parse_state binary fuel st (c :: rest) = Some s /\ binary_step st c rest s.
Proof.
  intros Hst. destruct st; try discriminate Hst; cbn [parse_state]; eexists;
    (split; [reflexivity|]).
  - apply parse_DetectType_binary_step.
  - apply parse_StateDoubleNumber_step.
  - apply parse_StateBinNumber_step.
  - apply parse_StateBinString_step.
  - cbn. repeat split; auto. discriminate.
  - cbn. repeat split; auto. discriminate.
Qed.

Lemma do_parse_cycle_binary (fuel : nat) (p : Parser) (c : char) (rest : string_view) :
  binary_frames p = true -> _pos p = c :: rest ->
  exists b p',
    do_parse_cycle binary fuel p = Some (b, p') /\
    binary_frames p' = true /\
    (length (_pos p') <= length (_pos p))%nat /\
    (reads_a_byte p = true -> (length (_pos p') < length (_pos p))%nat) /\
    (b = true -> _pos p' = [] \/ reads_a_byte p' = true).
Proof.
  intros Hb Hp. destruct p as [stack pos res err]. cbn [_pos] in Hp. subst pos.
  unfold binary_frames in Hb. cbn [_state] in Hb.
  unfold do_parse_cycle. cbn [_state _pos _result _is_error].
  destruct stack as [|st K].
  - exists false, (mkParser [] (c :: rest) res err). repeat split; auto; discriminate.
  - cbn [forallb] in Hb. apply andb_true_iff in Hb. destruct Hb as [Hst HK].
    destruct (parse_state_binary_step fuel st c rest Hst) as [s [-> Hs]].
    destruct s as [frames pos|frame pos r e]; cbn [binary_step] in Hs.
    + destruct Hs as [Hf [Hl Hr]].
      exists true, (mkParser (frames ++ K) pos res err).
      split; [reflexivity|]. unfold binary_frames.
      cbn [_state _pos length]. rewrite forallb_app, Hf, HK.
      repeat split; try lia.
      intros _. destruct Hr as [->|Hr]; [now left|right].
      destruct frames as [|f frames]; [discriminate Hr|exact Hr].
    + destruct Hs as [Hf [Hl Hr]].
      destruct (unwind_binary K HK frame pos (assign r res) (e || err) Hf)
        as [H1 [H2 H3]].
      exists (fst (unwind frame K pos (assign r res) (e || err))),
             (snd (unwind frame K pos (assign r res) (e || err))).
      rewrite <- surjective_pairing. split; [reflexivity|].
      split; [exact H1|]. rewrite H2. cbn [_pos length].
      split; [exact Hl|]. split; [exact Hr|]. intros Hb. right. now apply H3.
Qed.

Lemma write_loop_binary (n : nat) :
  forall p,
    binary_frames p = true -> (turns_left p < n)%nat ->
    exists r, write_loop binary n p = Some r /\ binary_frames (snd r) = true.
Proof.
  induction n as [|n IH]; intros p Hb Hn; [lia|].
  cbn [write_loop]. destruct (_pos p) as [|c rest] eqn:Ep.
  - eexists. split; [reflexivity|exact Hb].
  - destruct (do_parse_cycle_binary n p c rest Hb Ep)
      as [b [p' [-> [Hb' [Hle [Hlt Hmore]]]]]].
    destruct b; [|eexists; split; [reflexivity|exact Hb']].
    destruct (_pos p') as [|c' rest'] eqn:Ep'.
    + exists (negb (no_frames p'), p'). split; [|exact Hb'].
      now apply write_loop_nil.
    + apply IH; [exact Hb'|].
      destruct (Hmore eq_refl) as [H|H]; [congruence|].
      unfold turns_left in *. rewrite H, Ep'. rewrite Ep in Hn, Hle, Hlt.
      cbn [length] in *.
      destruct (reads_a_byte p); [specialize (Hlt eq_refl)|]; lia.
Qed.

Lemma unwind_never_throws (reserve_throws : State -> Z -> bool) (rest : list State) :
  (forall st sz, reserve_throws st sz = false) ->
  forall result e, unwind_throws reserve_throws rest result e = false.
Proof.
  intros Hn. induction rest as [|st rest IH]; intros result e; cbn [unwind_throws].
  - now destruct e.
  - destruct e; [reflexivity|].
    assert (finish_state_throws reserve_throws st result = false) as ->.
    { unfold finish_state_throws. destruct st; try reflexivity; rewrite Hn;
        now rewrite ?andb_false_r. }
    cbn [orb]. destruct (finish_state st result); [reflexivity|apply IH].
Qed.

Lemma write_loop_reserving_spec (reserve_throws : State -> Z -> bool) (fmt : Format)
      (fuel : nat) :
  forall p r,
    write_loop fmt fuel p = Some r ->
    write_loop_reserving reserve_throws fmt fuel p = Some (Returned r) \/
    write_loop_reserving reserve_throws fmt fuel p = Some Thrown.
Proof.
  induction fuel as [|fuel IH]; intros p r; cbn [write_loop write_loop_reserving].
  - destruct (_pos p); [|discriminate]. intros H. injection H as <-. now left.
  - destruct (_pos p).
    + intros H. injection H as <-. now left.
    + destruct (do_parse_cycle_throws reserve_throws fmt fuel p); [now right|].
      destruct (do_parse_cycle fmt fuel p) as [[[|] p']|]; [apply IH| |discriminate].
      intros H. injection H as <-. now left.
Qed.

Lemma write_loop_reserving_returned (reserve_throws : State -> Z -> bool) (fmt : Format)
      (fuel : nat) :
  forall p r,
    write_loop_reserving reserve_throws fmt fuel p = Some (Returned r) ->
    write_loop fmt fuel p = Some r.
Proof.
  induction fuel as [|fuel IH]; intros p r; cbn [write_loop write_loop_reserving].
  - destruct (_pos p); [|discriminate]. intros H. now injection H as <-.
  - destruct (_pos p).
    + intros H. now injection H as <-.
    + destruct (do_parse_cycle_throws reserve_throws fmt fuel p); [discriminate|].
      destruct (do_parse_cycle fmt fuel p) as [[[|] p']|]; [apply IH| |discriminate].
      intros H. now injection H as <-.
Qed.

Lemma write_loop_never_throws (reserve_throws : State -> Z -> bool) (fmt : Format)
      (fuel : nat) :
  (forall st sz, reserve_throws st sz = false) ->
  forall p r,
    write_loop fmt fuel p = Some r ->
    write_loop_reserving reserve_throws fmt fuel p = Some (Returned r).
Proof.
  intros Hn. induction fuel as [|fuel IH]; intros p r;
    cbn [write_loop write_loop_reserving].
  - destruct (_pos p); [|discriminate]. intros H. now injection H as <-.
  - destruct (_pos p).
    + intros H. now injection H as <-.
    + assert (do_parse_cycle_throws reserve_throws fmt fuel p = false) as ->.
      { unfold do_parse_cycle_throws. destruct (_state p) as [|st rest]; [reflexivity|].
        destruct (parse_state fmt fuel st (_pos p)) as [[|]|]; try reflexivity.
        now apply unwind_never_throws. }
      destruct (do_parse_cycle fmt fuel p) as [[[|] p']|]; [apply IH| |discriminate].
      intros H. now injection H as <-.
Qed.

(** X18: a binary parser comes to an end on every chunk, whatever it has
    read before and whatever the host answers to [reserve]: after at most
    two turns of its loop for each byte of the chunk, [write] has returned,
    leaving a binary parser again, or [reserve] has thrown for a size read
    from the wire; so has [unbinarize] on every input.  Where [reserve]
    never throws, [write] returns.  A header that announces a string of
    [2 ^ 64 - 1] bytes makes [reserve] throw on a host that has no room for
    it, before any byte of the string is read. *)
Theorem X18_binary_parser_returns (reserve_throws : State -> Z -> bool) (p : Parser)
        (chunk : string_view) (k : nat) :
  binary_frames p = true ->
  (exists o,
     write_reserving reserve_throws binary (2 * length chunk + 2 + k) p chunk = Some o /\
     forall r, o = Returned r ->
               write binary (2 * length chunk + 2 + k) p chunk = Some r /\
               binary_frames (snd r) = true) /\
  (exists e,
     parse_with_reserving reserve_throws binary (2 * length chunk + 2 + k) chunk = Some e /\
     forall x, e = Gave x -> unbinarize (2 * length chunk + 2 + k) chunk = Some x) /\
  ((forall st sz, reserve_throws st sz = false) ->
   exists r,
     write_reserving reserve_throws binary (2 * length chunk + 2 + k) p chunk
     = Some (Returned r)) /\
  parse_with_reserving reserve_above_limit binary (2 * length huge_string_header + 2 + k)
                       huge_string_header = Some Reserve_threw.
Proof.
  intros Hb.
  assert (H : forall q, binary_frames q = true ->
                        exists r, write binary (2 * length chunk + 2 + k) q chunk = Some r /\
                                  binary_frames (snd r) = true).
  { intros q Hq. unfold write. apply write_loop_binary; [exact Hq|].
    unfold turns_left. cbn [_pos]. destruct (reads_a_byte _); lia. }
  split; [|split; [|split]].
  - destruct (H p Hb) as [r [Hw Hr]]. unfold write in Hw.
    destruct (write_loop_reserving_spec reserve_throws binary _ _ r Hw) as [E|E].
    + exists (Returned r). split; [exact E|]. intros r' Hr'. injection Hr' as <-.
      split; [exact Hw|exact Hr].
    + exists Thrown. split; [exact E|]. discriminate.
  - destruct (H new_Parser eq_refl) as [r [Hw _]]. unfold parse_with_reserving.
    pose proof Hw as Hw'. unfold write in Hw'.
    destruct (write_loop_reserving_spec reserve_throws binary _ _ r Hw') as [E|E];
      unfold write_reserving; rewrite E; [|eexists; split; [reflexivity|discriminate]].
    unfold unbinarize, parse_with. rewrite Hw. destruct r as [[|] q].
    + eexists. split; [reflexivity|]. now intros x [= <-].
    + destruct (is_error q); eexists; (split; [reflexivity|]); now intros x [= <-].
  - intros Hn. destruct (H p Hb) as [r [Hw _]]. exists r.
    unfold write in Hw. now apply write_loop_never_throws.
  - replace (2 * length huge_string_header + 2 + k)%nat with (S (S (S (17 + k))))
      by (cbn [length huge_string_header]; lia).
    reflexivity.
Qed.

Lemma X18_binary_parser_returns_witness :
  binary_frames new_Parser = true /\
  exists e,
    parse_with_reserving reserve_above_limit binary (2 * length (str "9xyz") + 2 + 0)
                         (str "9xyz") = Some e.
Proof.
  split; [reflexivity|].
  destruct (proj1 (proj2 (X18_binary_parser_returns reserve_above_limit new_Parser
                                                     (str "9xyz") 0 eq_refl)))
    as [e [He _]].
  exists e. exact He.
Defined.

(** ** What the text parser builds from the text of any value *)

Lemma in_rangeb_spec (bytes : nat) (is_signed : bool) (v : Z) :
  in_rangeb bytes is_signed v = true -> in_range bytes is_signed v.
Proof.
  unfold in_rangeb, in_range. cbn zeta. destruct is_signed; intros H;
    apply andb_true_iff in H; destruct H as [H1 H2]; lia.
Qed.

Lemma integral_number_text (bytes : nat) (is_signed : bool) (v : Z) :
  in_rangeb bytes is_signed v = true ->
  number_text (render_item_integral text bytes is_signed v) = true.
Proof.
  intros H. apply in_rangeb_spec in H. unfold in_range in H. cbn zeta in H.
  unfold number_text, render_item_integral.
  set (w := Z.of_nat bytes * 8) in *.
  assert (Hu : forall m, 0 <= m < 2 ^ w ->
                         number_text (render_unsigned_number bytes m) = true /\
                         number_text ("-"%char :: render_unsigned_number bytes m) = true).
  { intros m Hm. destruct (render_unsigned_number_spec bytes m Hm) as [Hd [_ Hlead]].
    destruct (digits_valid _ Hd Hlead) as [Hv1 Hv2].
    pose proof (digits_number_chars _ Hd) as Hnc.
    unfold number_text. rewrite Hv1, Hv2. cbn [forallb]. now rewrite Hnc. }
  unfold number_text in Hu.
  destruct is_signed; cbn [andb].
  - destruct (Z.ltb_spec v 0) as [Hn|Hn].
    + assert (Hw1 : 0 <= w - 1).
      { destruct (Z.le_gt_cases 0 (w - 1)) as [Hw|Hw]; [exact Hw|].
        rewrite (Z.pow_neg_r 2 (w - 1)) in H by lia. lia. }
      assert (Hw2 : 2 ^ w = 2 * 2 ^ (w - 1)).
      { replace w with (Z.succ (w - 1)) at 1 by lia. apply Z.pow_succ_r. lia. }
      assert (Hp : 0 < 2 ^ (w - 1)) by (apply Z.pow_pos_nonneg; lia).
      rewrite Z.mod_small by lia. apply Hu. lia.
    + assert (Hw : 2 ^ (w - 1) <= 2 ^ w) by (apply Z.pow_le_mono_r; lia).
      apply Hu. lia.
  - apply Hu. exact H.
Qed.

Lemma number_text_start (s : string_view) :
  number_text s = true -> exists c X, s = c :: X /\ value_start c = true.
Proof.
  intros H. apply andb_true_iff in H. destruct H as [Hv Hn].
  destruct (valid_number_start s Hv Hn) as (c & X & E & Hc).
  exists c, X. split; [exact E|]. unfold value_start.
  apply orb_true_iff in Hc. destruct Hc as [Hc|Hc]; rewrite Hc; now rewrite ?orb_true_r.
Qed.

Lemma reads_number_text (s : string_view) :
  number_text s = true ->
  forall K rest res r,
    ends_number rest ->
    (Writes text (mkParser (DetectType :: K) (s ++ rest) res false) r <->
     After text (unwind DetectType K rest (Value_number_string s) false) r).
Proof.
  intros H. apply andb_true_iff in H. destruct H as [Hv Hn].
  now apply parses_text_number.
Qed.

Lemma reads_null (K : list State) (rest : string_view) (res : Value) (r : bool * Parser) :
  Writes text (mkParser (DetectType :: K) (null_value ++ rest) res false) r <->
  After text (unwind DetectType K rest V_null false) r.
Proof.
  apply (parses_text_check null_value V_null "n"%char (str "ull"));
    [reflexivity|intros; reflexivity|intros; reflexivity].
Qed.

Lemma Writes_leading_space (ws s : string_view) (K : list State) (res : Value)
      (err : bool) (r : bool * Parser) :
  forallb isspace ws = true -> s <> [] ->
  (Writes text (mkParser (DetectType :: K) (ws ++ s) res err) r <->
   Writes text (mkParser (DetectType :: K) s res err) r).
Proof.
  intros Hws Hs. destruct ws as [|w ws]; [reflexivity|].
  assert (Hl : ParseState text DetectType ((w :: ws) ++ s) (parse_DetectType_text s)).
  { exists 0%nat. cbn [parse_state]. unfold parse_DetectType_text.
    now rewrite skip_space_spaces. }
  assert (Hne : (w :: ws) ++ s <> []) by discriminate.
  rewrite (Writes_frame text DetectType K _ res err _ r Hne Hl).
  symmetry. apply Writes_frame; [exact Hs|]. now exists 0%nat.
Qed.

Lemma parse_StateArray_space (ws X : string_view) (d : list Value) :
  forallb isspace ws = true -> parse_StateArray d (ws ++ X) = parse_StateArray d X.
Proof.
  induction ws as [|w ws IH]; [reflexivity|]. cbn [forallb app parse_StateArray].
  intros H. apply andb_true_iff in H. destruct H as [-> H]. cbn [negb]. now apply IH.
Qed.

Lemma parse_StateObject_space (ws X : string_view) (r : bool) (k : Key)
      (d : list KeyValue) :
  forallb isspace ws = true ->
  parse_StateObject r k d (ws ++ X) = parse_StateObject r k d X.
Proof.
  induction ws as [|w ws IH]; [reflexivity|]. cbn [forallb app parse_StateObject].
  intros H. apply andb_true_iff in H. destruct H as [-> H]. cbn [negb]. now apply IH.
Qed.

(** White space, then a comma or a closing bracket, ends a number. *)
Lemma space_ends_number (ws : string_view) (c : char) (X : string_view) :
  forallb isspace ws = true ->
  char_eqb c ","%char || char_eqb c "]"%char || char_eqb c "}"%char = true ->
  ends_number (ws ++ c :: X).
Proof.
  intros Hws Hc. destruct ws as [|w ws].
  - exists c, X. split; [reflexivity|]. now apply value_start_not_number_end.
  - exists w, (ws ++ c :: X). split; [reflexivity|].
    cbn [forallb] in Hws. apply andb_true_iff in Hws. destruct Hws as [Hw _].
    revert Hw. destruct w as [[] [] [] [] [] [] [] []]; intros Hw;
      first [discriminate Hw | reflexivity].
Qed.

Section TextReadBack.

Variable print_normal_double : Z -> string_view.

Variable ws : string_view.

Hypothesis ws_spaces : forallb isspace ws = true.

Lemma text_reparsed_array (c : list Value) :
  text_reparsed print_normal_double (V_array c)
  = Value_of_Values (map (text_reparsed print_normal_double) (filter defined c)).
Proof.
  cbn [text_reparsed]. f_equal.
  induction c as [|x c IH]; [reflexivity|]. cbn [filter].
  destruct (defined x); cbn [map]; now rewrite IH.
Qed.

Lemma text_reparsed_object (c : list KeyValue) :
  text_reparsed print_normal_double (V_object c)
  = Value_of_KeyValues
      (map (fun kv => (fst kv, text_reparsed print_normal_double (snd kv)))
           (defined_entries c)).
Proof.
  cbn [text_reparsed]. f_equal. unfold defined_entries.
  induction c as [|kv c IH]; [reflexivity|]. cbn [filter]. unfold kv_value at 1.
  destruct (defined (snd kv)); cbn [map]; now rewrite IH.
Qed.

(** The first byte of the text of a value. *)
Lemma spaced_body_start (v : Value) :
  text_readable print_normal_double v = true ->
  exists c X, spaced_body print_normal_double ws v = c :: X /\ value_start c = true.
Proof.
  intros He.
  destruct v; cbn [text_readable visit] in He;
    cbn [spaced_body render_leaf visit render_item_nullptr render_item_Undefined
                     render_item_bool app];
    try (eexists _, _; split; reflexivity);
    try (apply number_text_start; now apply integral_number_text);
    try (unfold render_item_string;
         match goal with
         | |- context [Type_eqb ?t T_number] => destruct (Type_eqb t T_number)
         end;
         [now apply number_text_start|eexists _, _; split; reflexivity]).
  - unfold render_item_double at 1.
    destruct (isnan bits) eqn:En; [eexists _, _; split; reflexivity|].
    destruct (isfinite bits) eqn:Ef; cbn [negb orb] in *;
      [|eexists _, _; split; reflexivity].
    apply number_text_start in He. unfold render_item_double in He.
    rewrite En, Ef in He. cbn [negb] in He. exact He.
Qed.

Lemma spaced_body_not_nil (v : Value) (X : string_view) :
  text_readable print_normal_double v = true ->
  spaced_body print_normal_double ws v ++ X <> [].
Proof.
  intros He. destruct (spaced_body_start v He) as (c & Y & -> & _). discriminate.
Qed.

Lemma rest_Values_spaced_ends (todo : list Value) (rest : string_view) :
  ends_number (rest_Values_spaced ws (spaced_body print_normal_double ws) todo ++ rest).
Proof.
  induction todo as [|v todo IH]; cbn [rest_Values_spaced].
  - rewrite <- app_assoc. now apply space_ends_number.
  - destruct (defined v); [|exact IH]. rewrite <- app_assoc. cbn [app].
    now apply space_ends_number.
Qed.

Lemma rest_KeyValues_spaced_ends (todo : list KeyValue) (rest : string_view) :
  ends_number (rest_KeyValues_spaced ws (spaced_body print_normal_double ws) todo ++ rest).
Proof.
  induction todo as [|[k v] todo IH]; cbn [rest_KeyValues_spaced].
  - rewrite <- app_assoc. now apply space_ends_number.
  - destruct (defined v); [|exact IH]. rewrite <- app_assoc. cbn [app].
    now apply space_ends_number.
Qed.

(** The elements of an array after the first. *)
Lemma reads_spaced_elements (K : list State) (rest : string_view) :
  forall todo,
    Forall (fun v => text_readable print_normal_double v = true /\
                     reads_spaced print_normal_double ws v) todo ->
  forall data res r,
    data <> [] ->
    (Writes text (mkParser (StateArray data :: DetectType :: K)
                           (rest_Values_spaced ws (spaced_body print_normal_double ws) todo
                              ++ rest) res false) r <->
     After text (unwind DetectType K rest
                        (Value_of_Values
                           (data ++ map (text_reparsed print_normal_double)
                                        (filter defined todo))) false) r).
Proof.
  induction todo as [|v todo IH]; intros Hall data res r Hne.
  - cbn [rest_Values_spaced app map filter]. rewrite app_nil_r, <- app_assoc.
    rewrite (Writes_frame text (StateArray data) (DetectType :: K) _ res false
               (Done (StateArray []) rest (Some (Value_of_Values data)) false));
      [|destruct ws; discriminate
       |exists 0%nat; cbn [parse_state]; now rewrite parse_StateArray_space].
    cbn [after_step assign orb]. now rewrite ?unwind_DetectType.
  - destruct (Forall_inv Hall) as [He Hv]. pose proof (Forall_inv_tail Hall) as Htodo.
    cbn [rest_Values_spaced filter]. destruct (defined v); [|now apply IH].
    cbn [map]. repeat (progress (rewrite <- ?app_assoc; cbn [app])).
    rewrite (Writes_frame text (StateArray data) (DetectType :: K) _ res false
               (More [DetectType; StateArray data]
                     (ws ++ spaced_body print_normal_double ws v ++
                      rest_Values_spaced ws (spaced_body print_normal_double ws) todo
                      ++ rest)));
      [|destruct ws; discriminate
       |exists 0%nat; cbn [parse_state]; rewrite parse_StateArray_space by exact ws_spaces;
        destruct data; [congruence|reflexivity]].
    unfold After at 1. cbn [after_step fst snd app].
    rewrite Writes_leading_space by (try exact ws_spaces; now apply spaced_body_not_nil).
    rewrite (Hv _ _ res r (fun _ => rest_Values_spaced_ends todo rest)).
    cbn [unwind finish_state]. unfold After at 1. cbn [fst snd app].
    rewrite (IH Htodo (data ++ [text_reparsed print_normal_double v]) _ r).
    + now rewrite <- app_assoc.
    + destruct data; discriminate.
Qed.

(** An array after its opening bracket. *)
Lemma reads_spaced_array (K : list State) (rest : string_view) :
  forall c,
    Forall (fun v => text_readable print_normal_double v = true /\
                     reads_spaced print_normal_double ws v) c ->
  forall res r,
    (Writes text (mkParser (StateArray [] :: DetectType :: K)
                           (first_Values_spaced ws (spaced_body print_normal_double ws) c
                              ++ rest) res false) r <->
     After text (unwind DetectType K rest
                        (Value_of_Values (map (text_reparsed print_normal_double)
                                              (filter defined c))) false) r).
Proof.
  induction c as [|v c IH]; intros Hall res r.
  - cbn [first_Values_spaced filter map]. rewrite <- app_assoc.
    rewrite (Writes_frame text (StateArray []) (DetectType :: K) _ res false
               (Done (StateArray []) rest (Some (Value_of_Values [])) false));
      [|destruct ws; discriminate
       |exists 0%nat; cbn [parse_state]; now rewrite parse_StateArray_space].
    cbn [after_step assign orb]. now rewrite ?unwind_DetectType.
  - destruct (Forall_inv Hall) as [He Pv]. pose proof (Forall_inv_tail Hall) as Hc.
    cbn [first_Values_spaced filter].
    destruct (defined v); [|now apply IH].
    destruct (spaced_body_start v He) as (c0 & X & E0 & Hc0).
    cbn [map]. rewrite <- !app_assoc.
    rewrite (Writes_frame text (StateArray []) (DetectType :: K) _ res false
               (More [DetectType; StateArray []]
                     (spaced_body print_normal_double ws v ++
                      rest_Values_spaced ws (spaced_body print_normal_double ws) c
                      ++ rest)));
      [|destruct ws; [rewrite E0|]; discriminate
       |exists 0%nat; cbn [parse_state]; rewrite parse_StateArray_space by exact ws_spaces;
        rewrite E0; cbn [app]; now rewrite parse_StateArray_start].
    unfold After at 1. cbn [after_step fst snd app].
    rewrite (Pv _ _ res r (fun _ => rest_Values_spaced_ends c rest)).
    cbn [unwind finish_state]. unfold After at 1. cbn [fst snd app].
    rewrite (reads_spaced_elements K rest c Hc
                                   [text_reparsed print_normal_double v] _ r);
      [reflexivity|discriminate].
Qed.

(** One entry of an object, from the quote of its key on. *)
Lemma reads_spaced_entry (K : list State) (k : Key) (v : Value) (rest : string_view) :
  encodable k = true ->
  text_readable print_normal_double v = true ->
  reads_spaced print_normal_double ws v -> ends_number rest ->
  forall key data res r,
    Writes text (mkParser (DetectType :: StateObject true key data :: DetectType :: K)
                          (render_key text k ++ ws ++
                           ":"%char :: ws ++ spaced_body print_normal_double ws v ++ rest)
                          res false) r <->
    Writes text (mkParser (StateObject true k
                                       (data ++ [(k, text_reparsed print_normal_double v)])
                                       :: DetectType :: K)
                          rest (text_reparsed print_normal_double v) false) r.
Proof.
  intros Hk He Hv Hrest key data res r. unfold render_key.
  rewrite (parses_text_string k Hk). cbn [unwind finish_state].
  assert (Hty : Type_eqb (type (Value_string k)) T_string = true).
  { unfold Value_string. now rewrite type_Value_of_string. }
  assert (Hget : get_string (Value_string k) = k).
  { unfold Value_string, get_string. now rewrite visit_runtime_string. }
  rewrite Hty, Hget. cbn [negb]. unfold After at 1. cbn [fst snd app].
  rewrite (Writes_frame text (StateObject false k data) (DetectType :: K) _ _ false
             (More [DetectType; StateObject false k data]
                   (ws ++ spaced_body print_normal_double ws v ++ rest)));
    [|destruct ws; discriminate
     |exists 0%nat; cbn [parse_state]; now rewrite parse_StateObject_space].
  unfold After at 1. cbn [after_step fst snd app].
  rewrite Writes_leading_space by (try exact ws_spaces; now apply spaced_body_not_nil).
  rewrite (Hv _ _ _ r (fun _ => Hrest)).
  cbn [unwind finish_state]. unfold After. cbn [fst snd app]. reflexivity.
Qed.

(** The entries of an object after the first. *)
Lemma reads_spaced_entries (K : list State) (rest : string_view) :
  forall todo,
    Forall (fun kv : KeyValue =>
              (defined (snd kv) = true -> encodable (fst kv) = true) /\
              text_readable print_normal_double (snd kv) = true /\
              reads_spaced print_normal_double ws (snd kv)) todo ->
  forall key data res r,
    data <> [] ->
    (Writes text (mkParser (StateObject true key data :: DetectType :: K)
                           (rest_KeyValues_spaced ws (spaced_body print_normal_double ws)
                                                  todo ++ rest) res false) r <->
     After text (unwind DetectType K rest
                        (Value_of_KeyValues
                           (data ++ map (fun kv => (fst kv,
                                                    text_reparsed print_normal_double (snd kv)))
                                        (defined_entries todo)))
                        false) r).
Proof.
  induction todo as [|[k v] todo IH]; intros Hall key data res r Hne.
  - cbn [rest_KeyValues_spaced app map defined_entries filter].
    rewrite app_nil_r, <- app_assoc.
    rewrite (Writes_frame text (StateObject true key data) (DetectType :: K) _ res false
               (Done (StateObject true key []) rest
                     (Some (Value_of_KeyValues data)) false));
      [|destruct ws; discriminate
       |exists 0%nat; cbn [parse_state]; now rewrite parse_StateObject_space].
    cbn [after_step assign orb]. now rewrite ?unwind_DetectType.
  - destruct (Forall_inv Hall) as (Hk & He & Hv).
    pose proof (Forall_inv_tail Hall) as Htodo. cbn [fst snd] in Hk, He, Hv.
    cbn [rest_KeyValues_spaced defined_entries filter]. unfold kv_value at 1. cbn [snd].
    fold (defined_entries todo).
    destruct (defined v); [|now apply IH].
    cbn [map fst snd]. unfold entry_spaced.
    repeat (progress (rewrite <- ?app_assoc; cbn [app])).
    rewrite (Writes_frame text (StateObject true key data) (DetectType :: K) _ res false
               (More [DetectType; StateObject true key data]
                     (ws ++ render_key text k ++ ws ++
                      ":"%char :: ws ++ spaced_body print_normal_double ws v ++
                      rest_KeyValues_spaced ws (spaced_body print_normal_double ws) todo
                      ++ rest)));
      [|destruct ws; discriminate
       |exists 0%nat; cbn [parse_state]; rewrite parse_StateObject_space by exact ws_spaces;
        destruct data; [congruence|reflexivity]].
    unfold After at 1. cbn [after_step fst snd app].
    rewrite Writes_leading_space by (try exact ws_spaces; discriminate).
    rewrite (reads_spaced_entry K k v _ (Hk eq_refl) He Hv
               (rest_KeyValues_spaced_ends todo rest)).
    rewrite (IH Htodo k (data ++ [(k, text_reparsed print_normal_double v)]) _ r).
    + now rewrite <- app_assoc.
    + destruct data; discriminate.
Qed.

(** An object after its opening brace. *)
Lemma reads_spaced_object (K : list State) (rest : string_view) :
  forall c,
    Forall (fun kv : KeyValue =>
              (defined (snd kv) = true -> encodable (fst kv) = true) /\
              text_readable print_normal_double (snd kv) = true /\
              reads_spaced print_normal_double ws (snd kv)) c ->
  forall res r,
    (Writes text (mkParser (StateObject true default_Key [] :: DetectType :: K)
                           (first_KeyValues_spaced ws (spaced_body print_normal_double ws)
                                                   c ++ rest) res false) r <->
     After text (unwind DetectType K rest
                        (Value_of_KeyValues
                           (map (fun kv => (fst kv,
                                            text_reparsed print_normal_double (snd kv)))
                                (defined_entries c))) false) r).
Proof.
  induction c as [|[k v] c IH]; intros Hall res r.
  - cbn [first_KeyValues_spaced defined_entries filter map]. rewrite <- app_assoc.
    rewrite (Writes_frame text (StateObject true default_Key []) (DetectType :: K) _
               res false
               (Done (StateObject true default_Key []) rest
                     (Some (Value_of_KeyValues [])) false));
      [|destruct ws; discriminate
       |exists 0%nat; cbn [parse_state]; now rewrite parse_StateObject_space].
    cbn [after_step assign orb]. now rewrite ?unwind_DetectType.
  - destruct (Forall_inv Hall) as (Hk & He & Pv).
    pose proof (Forall_inv_tail Hall) as Hc. cbn [fst snd] in Hk, He, Pv.
    cbn [first_KeyValues_spaced defined_entries filter]. unfold kv_value at 1.
    cbn [snd]. fold (defined_entries c).
    destruct (defined v); [|now apply IH].
    cbn [map fst snd]. unfold entry_spaced.
    repeat (progress (rewrite <- ?app_assoc; cbn [app])).
    rewrite (Writes_frame text (StateObject true default_Key []) (DetectType :: K) _
               res false
               (More [DetectType; StateObject true default_Key []]
                     (render_key text k ++ ws ++
                      ":"%char :: ws ++ spaced_body print_normal_double ws v ++
                      rest_KeyValues_spaced ws (spaced_body print_normal_double ws) c
                      ++ rest)));
      [|destruct ws; discriminate
       |exists 0%nat; cbn [parse_state]; rewrite parse_StateObject_space by exact ws_spaces;
        reflexivity].
    unfold After at 1. cbn [after_step fst snd app].
    rewrite (reads_spaced_entry K k v _ (Hk eq_refl) He Pv
               (rest_KeyValues_spaced_ends c rest)).
    rewrite (reads_spaced_entries K rest c Hc k
               [(k, text_reparsed print_normal_double v)] _ r);
      [reflexivity|discriminate].
Qed.

Lemma reads_text_stringlike (s : string_view) (ty : Type_) :
  (if Type_eqb ty T_number then number_text s else encodable s) = true ->
  forall K rest res r,
    (Type_eqb ty T_number = true -> ends_number rest) ->
    (Writes text (mkParser (DetectType :: K) (render_item_string text s ty ++ rest)
                           res false) r <->
     After text (unwind DetectType K rest
                        (if Type_eqb ty T_number then Value_number_string s
                         else Value_string s) false) r).
Proof.
  intros He K rest res r Hr. unfold render_item_string.
  destruct (Type_eqb ty T_number).
  - apply reads_number_text; [exact He|now apply Hr].
  - exact (parses_text_string s He K rest res r).
Qed.

Lemma reads_text_double (d : Z) :
  isnan d || negb (isfinite d) ||
  number_text (render_item_double print_normal_double text d) = true ->
  forall K rest res r,
    ends_number rest ->
    (Writes text (mkParser (DetectType :: K)
                           (render_item_double print_normal_double text d ++ rest)
                           res false) r <->
     After text (unwind DetectType K rest
                        (if isnan d then V_null
                         else if negb (isfinite d)
                              then Value_string (if double_negative d then neg_infinity
                                                 else infinity)
                              else Value_number_string
                                     (render_item_double print_normal_double text d))
                        false) r).
Proof.
  intros He K rest res r Hr.
  destruct (isnan d) eqn:En.
  - unfold render_item_double. rewrite En. apply reads_null.
  - destruct (isfinite d) eqn:Ef; cbn [negb orb] in *.
    + now apply reads_number_text.
    + unfold render_item_double. rewrite En, Ef. cbn [negb].
      destruct (double_negative d).
      * exact (parses_text_string neg_infinity eq_refl K rest res r).
      * exact (parses_text_string infinity eq_refl K rest res r).
Qed.

Lemma reads_spaced_empty_array (K : list State) (rest : string_view) (res : Value)
      (r : bool * Parser) :
  Writes text (mkParser (DetectType :: K) ("["%char :: ws ++ "]"%char :: rest) res false) r
  <-> After text (unwind DetectType K rest V_empty_array false) r.
Proof.
  rewrite (Writes_frame text DetectType K _ res false
             (More [StateArray []; DetectType] (ws ++ "]"%char :: rest)));
    [|discriminate|now exists 0%nat].
  unfold After at 1. cbn [after_step fst snd app].
  rewrite (Writes_frame text (StateArray []) (DetectType :: K) _ res false
             (Done (StateArray []) rest (Some (Value_of_Values [])) false));
    [|destruct ws; discriminate
     |exists 0%nat; cbn [parse_state]; now rewrite parse_StateArray_space].
  cbn [after_step assign orb Value_of_Values]. now rewrite ?unwind_DetectType.
Qed.

Lemma reads_spaced_empty_object (K : list State) (rest : string_view) (res : Value)
      (r : bool * Parser) :
  Writes text (mkParser (DetectType :: K) ("{"%char :: ws ++ "}"%char :: rest) res false) r
  <-> After text (unwind DetectType K rest V_empty_object false) r.
Proof.
  rewrite (Writes_frame text DetectType K _ res false
             (More [StateObject true default_Key []; DetectType]
                   (ws ++ "}"%char :: rest)));
    [|discriminate|now exists 0%nat].
  unfold After at 1. cbn [after_step fst snd app].
  rewrite (Writes_frame text (StateObject true default_Key []) (DetectType :: K) _
             res false
             (Done (StateObject true default_Key []) rest
                   (Some (Value_of_KeyValues [])) false));
    [|destruct ws; discriminate
     |exists 0%nat; cbn [parse_state]; now rewrite parse_StateObject_space].
  cbn [after_step assign orb Value_of_KeyValues]. now rewrite ?unwind_DetectType.
Qed.

(** Every value of the class is read back as [text_reparsed] says. *)
Lemma reads_spaced_value (v : Value) :
  text_readable print_normal_double v = true -> reads_spaced print_normal_double ws v.
Proof.
  induction v as [v Hl | c IH | c IH] using Value_induction; intros He.
  - intros K rest res r Hr.
    destruct v; try contradiction; cbn [text_readable visit] in He;
      cbn [spaced_body text_reparsed]; unfold render_leaf;
      cbn [visit render_item_nullptr render_item_Undefined render_item_bool];
      try (apply reads_text_stringlike; assumption);
      try (apply reads_number_text;
           [now apply integral_number_text|now apply Hr]).
    + apply reads_null.
    + apply reads_null.
    + apply (parses_text_check false_value V_bool_false "f"%char (str "alse"));
        [reflexivity|intros; reflexivity|intros; reflexivity].
    + apply (parses_text_check true_value V_bool_true "t"%char (str "rue"));
        [reflexivity|intros; reflexivity|intros; reflexivity].
    + apply reads_text_double; [exact He|now apply Hr].
    + cbn [app]. rewrite <- app_assoc. apply reads_spaced_empty_array.
    + cbn [app]. rewrite <- app_assoc. apply reads_spaced_empty_object.
  - intros K rest res r _. rewrite text_reparsed_array.
    cbn [text_readable] in He. rewrite forallb_forall in He.
    cbn [spaced_body app].
    rewrite (Writes_frame text DetectType K _ res false
               (More [StateArray []; DetectType]
                     (first_Values_spaced ws (spaced_body print_normal_double ws) c
                        ++ rest)));
      [|discriminate|now exists 0%nat].
    unfold After at 1. cbn [after_step fst snd app].
    apply reads_spaced_array. apply Forall_forall. intros x Hx.
    split; [now apply He|].
    apply (proj1 (Forall_forall _ _) IH x Hx). now apply He.
  - intros K rest res r _. rewrite text_reparsed_object.
    cbn [text_readable] in He. rewrite forallb_forall in He.
    cbn [spaced_body app].
    rewrite (Writes_frame text DetectType K _ res false
               (More [StateObject true default_Key []; DetectType]
                     (first_KeyValues_spaced ws (spaced_body print_normal_double ws) c
                        ++ rest)));
      [|discriminate|now exists 0%nat].
    unfold After at 1. cbn [after_step fst snd app].
    apply reads_spaced_object. apply Forall_forall. intros x Hx.
    pose proof (He x Hx) as Hx'. apply andb_true_iff in Hx'. destruct Hx' as [Hk Hv].
    split; [|split; [exact Hv|]].
    + destruct x as [k y]. cbn [fst snd] in *. intros Hd. now rewrite Hd in Hk.
    + exact (proj1 (Forall_forall _ _) IH x Hx Hv).
Qed.

End TextReadBack.

(** Without white space the text is the one the serializer writes. *)
Lemma spaced_body_nil (pd : Z -> string_view) (v : Value) :
  spaced_body pd [] v = output pd text v.
Proof.
  induction v as [v Hl | c IH | c IH] using Value_induction.
  - destruct v; try contradiction; reflexivity.
  - cbn [spaced_body output open_Values app]. f_equal.
    assert (Hrest : forall l, Forall (fun v => spaced_body pd [] v = output pd text v) l ->
                              rest_Values_spaced [] (spaced_body pd []) l
                              = rest_Values text (output pd text) l).
    { induction 1 as [|x l Hx _ IHl]; cbn [rest_Values_spaced rest_Values close_Values app];
        [reflexivity|]. destruct (defined x); [|exact IHl]. now rewrite Hx, IHl. }
    induction IH as [|x l Hx Hl IHl];
      cbn [first_Values_spaced first_Values close_Values is_binary orb app];
      [reflexivity|].
    destruct (defined x); [|exact IHl]. now rewrite Hx, (Hrest l Hl).
  - cbn [spaced_body output open_KeyValues app]. f_equal.
    assert (Hrest : forall l,
               Forall (fun kv : KeyValue => spaced_body pd [] (snd kv)
                                            = output pd text (snd kv)) l ->
               rest_KeyValues_spaced [] (spaced_body pd []) l
               = rest_KeyValues text (output pd text) l).
    { induction 1 as [|[k x] l Hx _ IHl];
        cbn [rest_KeyValues_spaced rest_KeyValues close_KeyValues app];
        [reflexivity|]. cbn [snd] in Hx. destruct (defined x); [|exact IHl].
      unfold entry_spaced. cbn [app]. now rewrite Hx, IHl, <- !app_assoc. }
    induction IH as [|[k x] l Hx Hl IHl];
      cbn [first_KeyValues_spaced first_KeyValues close_KeyValues is_binary orb app];
      [reflexivity|]. cbn [snd] in Hx.
    destruct (defined x); [|exact IHl].
    unfold entry_spaced, entry_sep. cbn [app].
    now rewrite Hx, (Hrest l Hl), <- !app_assoc.
Qed.

(** Leaving the undefined entries out repeats no key. *)
Lemma defined_entries_distinct (c : list KeyValue) :
  NoDup (map kv_key c) -> NoDup (map kv_key (defined_entries c)).
Proof.
  unfold defined_entries. induction c as [|kv c IH]; intros Hc; [exact Hc|].
  apply NoDup_cons_iff in Hc. destruct Hc as [Hk Hc]. cbn [filter].
  destruct (defined (kv_value kv)); [|exact (IH Hc)].
  cbn [map]. apply NoDup_cons; [|exact (IH Hc)].
  contradict Hk. apply in_map_iff in Hk. destruct Hk as (e & Ee & He).
  apply filter_In in He. rewrite <- Ee. apply in_map, He.
Qed.

Lemma text_reparsed_strict_keys (pd : Z -> string_view) (v : Value) :
  distinct_keys v = true -> strict_keys (text_reparsed pd v) = true.
Proof.
  induction v as [v Hl | c IH | c IH] using Value_induction; intros Hd.
  - destruct v; try contradiction; cbn [text_reparsed visit]; try reflexivity;
      unfold Value_number_string, Value_string, Value_of_string;
      repeat match goal with |- context [if ?b then _ else _] => destruct b end;
      reflexivity.
  - rewrite text_reparsed_array. apply strict_keys_Value_of_Values.
    cbn [distinct_keys] in Hd. rewrite forallb_forall in *.
    intros x Hx. apply in_map_iff in Hx. destruct Hx as (y & <- & Hy).
    apply filter_In in Hy. rewrite Forall_forall in IH. apply IH; [tauto|]. apply Hd. tauto.
  - rewrite text_reparsed_object. cbn [distinct_keys] in Hd. apply andb_true_iff in Hd.
    destruct Hd as [Hk Hd]. apply strict_keys_Value_of_KeyValues.
    + rewrite map_map. cbn [kv_key fst].
      apply (defined_entries_distinct c). now apply distinct_NoDup.
    + rewrite forallb_forall in *. intros x Hx. apply in_map_iff in Hx.
      destruct Hx as (y & <- & Hy). cbn [snd]. unfold defined_entries in Hy.
      apply filter_In in Hy. rewrite Forall_forall in IH. apply IH; [tauto|].
      apply Hd. tauto.
Qed.

(** X19: for every value of the class [text_readable] that is not written
    as a bare number and whose objects hold no key twice, [parse] returns
    on [stringify]'s text, and what it returns is [text_reparsed]:
    integers and finite doubles come back as the strings of their digits,
    a NaN and an undefined value at the top as [null], an infinity as a
    string, and arrays and objects without their undefined members, the
    keys of every object strictly increasing. *)
Theorem X19_parse_of_stringify (pd : Z -> string_view) (v : Value) (k : nat) :
  text_readable pd v = true -> Type_eqb (type v) T_number = false ->
  distinct_keys v = true ->
  strict_keys (text_reparsed pd v) = true /\
  exists txt fuel,
    stringify pd (S (vsize v) + k) v = Some txt /\
    parse (fuel + k) txt = Some (Ok (text_reparsed pd v)).
Proof.
  intros He Ht Hd. split; [now apply text_reparsed_strict_keys|].
  exists (output pd text v).
  pose proof (reads_spaced_value pd [] eq_refl v He [] [] V_undefined
                                 (false, mkParser [] [] (text_reparsed pd v) false)) as H.
  rewrite app_nil_r, spaced_body_nil in H.
  destruct (proj2 (H ltac:(congruence)) eq_refl) as [fuel Hw].
  exists fuel. split.
  - apply serialize_output.
  - unfold parse, parse_with, write. cbn [new_Parser _state _result _is_error].
    rewrite (write_loop_mono text fuel (fuel + k) _ _ Hw) by lia. reflexivity.
Qed.

Lemma X19_parse_of_stringify_witness :
  text_readable (fun _ => []) readable_example = true /\
  text_reparsed (fun _ => []) readable_example
  = V_array [Value_number_string (str "1"); Value_number_string (str "-2");
             Value_string (str "x");
             V_object [(sv_a, V_null); (sv_c, Value_string infinity)]] /\
  exists txt fuel,
    stringify (fun _ => []) (S (vsize readable_example) + 0) readable_example = Some txt /\
    parse (fuel + 0) txt = Some (Ok (text_reparsed (fun _ => []) readable_example)).
Proof.
  split; [reflexivity|]. split; [reflexivity|].
  exact (proj2 (X19_parse_of_stringify (fun _ => []) readable_example 0
                                       eq_refl eq_refl eq_refl)).
Defined.

(** X21: white space between the tokens does not change what is read:
    the text of a value of the class [text_readable] whose objects hold no
    key twice, with any run of white space in front of every token (and
    after the last one), is parsed to the value that the text without
    white space gives, which for no white space at all is the text
    [stringify] writes. *)
Theorem X21_white_space_between_tokens (pd : Z -> string_view) (ws : string_view)
        (v : Value) (k : nat) :
  forallb isspace ws = true ->
  text_readable pd v = true -> Type_eqb (type v) T_number = false ->
  distinct_keys v = true ->
  spaced pd [] v = output pd text v /\
  strict_keys (text_reparsed pd v) = true /\
  exists fuel,
    parse (fuel + k) (spaced pd ws v ++ ws) = Some (Ok (text_reparsed pd v)).
Proof.
  intros Hws He Ht Hd. split; [apply spaced_body_nil|].
  split; [now apply text_reparsed_strict_keys|].
  pose proof (reads_spaced_value pd ws Hws v He [] ws V_undefined
                                 (false, mkParser [] ws (text_reparsed pd v) false)) as H.
  destruct (proj2 (H ltac:(congruence)) eq_refl) as [fuel Hw].
  assert (Hne : spaced_body pd ws v ++ ws <> []) by now apply spaced_body_not_nil.
  destruct (proj2 (Writes_leading_space ws _ [] V_undefined false _ Hws Hne)
                  (ex_intro _ fuel Hw)) as [fuel' Hw'].
  exists fuel'. unfold parse, parse_with, write, spaced.
  cbn [new_Parser _state _result _is_error]. rewrite <- app_assoc.
  rewrite (write_loop_mono text fuel' (fuel' + k) _ _ Hw') by lia. reflexivity.
Qed.

Lemma X21_white_space_between_tokens_witness :
  forallb isspace [" "%char; "010"%char] = true /\
  spaced (fun _ => []) [" "%char; "010"%char]
         (V_array [V_int32 1; V_object [(sv_a, V_null)]])
  = [" "; "010"; "["; " "; "010"; "1"; " "; "010"; ","; " "; "010"; "{"; " "; "010";
     DQUOTE; "a"; DQUOTE; " "; "010"; ":"; " "; "010"; "n"; "u"; "l"; "l"; " "; "010";
     "}"; " "; "010"; "]"]%char /\
  exists fuel,
    parse (fuel + 0)
          (spaced (fun _ => []) [" "%char; "010"%char]
                  (V_array [V_int32 1; V_object [(sv_a, V_null)]]) ++ [" "%char; "010"%char])
    = Some (Ok (V_array [Value_number_string (str "1"); V_object [(sv_a, V_null)]])).
Proof.
  split; [reflexivity|]. split; [reflexivity|].
  exact (proj2 (proj2 (X21_white_space_between_tokens
                  (fun _ => []) [" "%char; "010"%char]
                  (V_array [V_int32 1; V_object [(sv_a, V_null)]]) 0
                  eq_refl eq_refl eq_refl eq_refl))).
Defined.

(** ** Escape sequences in strings *)

Lemma lor_shiftl_add (x y n : Z) :
  0 <= n -> 0 <= y < 2 ^ n -> Z.lor (Z.shiftl x n) y = x * 2 ^ n + y.
Proof.
  intros Hn Hy.
  assert (Hland : Z.land (Z.shiftl x n) y = 0).
  { apply Z.bits_inj'. intros m Hm. rewrite Z.land_spec, Z.bits_0.
    destruct (Z.ltb_spec m n) as [Hlt|Hge].
    - now rewrite Z.shiftl_spec_low by lia.
    - rewrite <- (Z.mod_small y (2 ^ n)) by lia.
      rewrite Z.mod_pow2_bits_high by lia. apply andb_false_r. }
  rewrite <- (Z.lxor_lor _ _ Hland), <- (Z.add_nocarry_lxor _ _ Hland).
  now rewrite Z.shiftl_mul_pow2 by lia.
Qed.

Lemma hex_to_int_range (c : char) : 0 <= hex_to_int c < 16.
Proof.
  unfold hex_to_int. cbv zeta.
  repeat match goal with
         | |- context [if ?b then _ else _] => destruct b eqn:?
         end;
    repeat match goal with
           | H : _ && _ = true |- _ => apply andb_true_iff in H; destruct H
           end; lia.
Qed.

Lemma hex4_value (a b c d : char) :
  hex4 a b c d
  = 4096 * hex_to_int a + 256 * hex_to_int b + 16 * hex_to_int c + hex_to_int d.
Proof.
  unfold hex4.
  pose proof (hex_to_int_range a) as Ha. pose proof (hex_to_int_range b) as Hb.
  pose proof (hex_to_int_range c) as Hc. pose proof (hex_to_int_range d) as Hd.
  change (Z.shiftl 0 4) with 0. rewrite Z.lor_0_l.
  rewrite !lor_shiftl_add by (change (2 ^ 4) with 16; lia).
  change (2 ^ 4) with 16. lia.
Qed.

Lemma hex4_range (a b c d : char) : 0 <= hex4 a b c d < 65536.
Proof.
  rewrite hex4_value.
  pose proof (hex_to_int_range a). pose proof (hex_to_int_range b).
  pose proof (hex_to_int_range c). pose proof (hex_to_int_range d). lia.
Qed.

(** The bytes that [write_utf8] computes with shifts and masks are those
    of [utf8]. *)
Lemma utf8_lead (tag bits shift cp : Z) :
  0 <= shift -> 0 <= bits -> 0 <= cp < 2 ^ (shift + bits) ->
  Z.lor (Z.shiftl tag bits) (Z.land (Z.shiftr cp shift) (Z.ones bits))
  = tag * 2 ^ bits + cp / 2 ^ shift.
Proof.
  intros Hs Hb Hcp.
  rewrite Z.land_ones, Z.shiftr_div_pow2 by lia.
  assert (Hp : 0 < 2 ^ shift) by (apply Z.pow_pos_nonneg; lia).
  assert (Hq : 0 <= cp / 2 ^ shift < 2 ^ bits).
  { split; [apply Z.div_pos; lia|].
    apply Z.div_lt_upper_bound; [lia|]. now rewrite <- Z.pow_add_r by lia. }
  rewrite Z.mod_small by exact Hq. now apply lor_shiftl_add.
Qed.

Lemma utf8_cont (shift cp : Z) :
  0 <= shift -> 0 <= cp ->
  Z.lor 128 (Z.land (Z.shiftr cp shift) 63) = 128 + (cp / 2 ^ shift) mod 64.
Proof.
  intros Hs Hcp. change 63 with (Z.ones 6). change 128 with (Z.shiftl 2 6).
  rewrite Z.land_ones, Z.shiftr_div_pow2 by lia. change (2 ^ 6) with 64.
  rewrite lor_shiftl_add; [reflexivity|lia|].
  change (2 ^ 6) with 64. apply Z.mod_pos_bound. lia.
Qed.

Lemma write_utf8_bytes (buf : list char) (out : nat) (cp : Z) :
  0 <= cp <= 1114111 ->
  write_utf8 buf out cp = (wr_all buf out (utf8 cp), (out + length (utf8 cp) - 1)%nat) /\
  (1 <= length (utf8 cp) <= 4)%nat.
Proof.
  intros Hcp. unfold write_utf8, utf8.
  pose proof (utf8_cont 0 cp ltac:(lia) ltac:(lia)) as H0.
  rewrite Z.shiftr_0_r, Z.pow_0_r, Z.div_1_r in H0.
  pose proof (utf8_cont 6 cp ltac:(lia) ltac:(lia)) as H6. change (2 ^ 6) with 64 in H6.
  pose proof (utf8_cont 12 cp ltac:(lia) ltac:(lia)) as H12.
  change (2 ^ 12) with 4096 in H12.
  assert (Hmod : cp mod 64 = cp mod 64) by reflexivity.
  destruct (Z.leb_spec cp 127) as [H1|H1]; destruct (Z.ltb_spec cp 128) as [H1'|H1'];
    try lia; [cbn [wr_all length]; split; [do 2 f_equal|]; lia|].
  destruct (Z.leb_spec cp 2047) as [H2|H2]; destruct (Z.ltb_spec cp 2048) as [H2'|H2'];
    try lia.
  { assert (Hl' : Z.lor 192 (Z.land (Z.shiftr cp 6) 31) = 192 + cp / 64).
    { change 31 with (Z.ones 5). change 192 with (Z.shiftl 6 5).
      rewrite (utf8_lead 6 5 6 cp) by (cbn; lia). reflexivity. }
    rewrite Hl', H0. cbn [wr_all length]. split; [do 2 f_equal|]; lia. }
  destruct (Z.leb_spec cp 65535) as [H3|H3]; destruct (Z.ltb_spec cp 65536) as [H3'|H3'];
    try lia.
  { assert (Hl' : Z.lor 224 (Z.land (Z.shiftr cp 12) 15) = 224 + cp / 4096).
    { change 15 with (Z.ones 4). change 224 with (Z.shiftl 14 4).
      rewrite (utf8_lead 14 4 12 cp) by (cbn; lia). reflexivity. }
    rewrite Hl', H6, H0. cbn [wr_all length]. split; [do 2 f_equal|]; lia. }
  destruct (Z.leb_spec cp 1114111) as [H4|H4]; [|lia].
  assert (Hl' : Z.lor 240 (Z.land (Z.shiftr cp 18) 7) = 240 + cp / 262144).
  { change 7 with (Z.ones 3). change 240 with (Z.shiftl 30 3).
    rewrite (utf8_lead 30 3 18 cp) by (cbn; lia). reflexivity. }
  rewrite Hl', H12, H6, H0. cbn [wr_all length]. split; [do 2 f_equal|]; lia.
Qed.

Lemma wr_all_over (val : list char) :
  forall pre m l,
    (length val <= length m)%nat ->
    wr_all (pre ++ m ++ l) (length pre) val = (pre ++ val) ++ skipn (length val) m ++ l.
Proof.
  induction val as [|x val IH]; intros pre m l Hm.
  - cbn [wr_all length skipn]. now rewrite app_nil_r.
  - destruct m as [|y m]; [cbn [length] in Hm; lia|].
    cbn [wr_all length skipn app]. rewrite wr_skip.
    change (pre ++ x :: m ++ l) with (pre ++ [x] ++ m ++ l).
    rewrite app_assoc.
    replace (S (length pre)) with (length (pre ++ [x]))
      by (rewrite length_app; cbn [length]; lia).
    rewrite IH by (cbn [length] in Hm; lia).
    now rewrite <- !app_assoc.
Qed.

(** After the bytes [val] were written for the input [enc], the loop goes
    on with the rest of the input. *)
Lemma decode_written (T V enc val : list char) (n : nat) :
  (forall fuel pre mid,
      (n <= fuel)%nat ->
      exists buf',
        decode_loop fuel (pre ++ mid ++ T) (0 + (length pre + length mid))
                    (length pre) (length (pre ++ mid ++ T))
        = (buf', (length pre + length V)%nat) /\
        firstn (length pre + length V) buf' = pre ++ V) ->
  (length val <= length enc)%nat ->
  forall fuel pre mid,
    (n <= fuel)%nat ->
    exists buf',
      decode_loop fuel (wr_all (pre ++ mid ++ enc ++ T) (length pre) val)
                  (length enc + (length pre + length mid)) (length pre + length val)
                  (length (pre ++ mid ++ enc ++ T))
      = (buf', (length pre + length (val ++ V))%nat) /\
      firstn (length pre + length (val ++ V)) buf' = pre ++ val ++ V.
Proof.
  intros IH Hlen fuel pre mid Hf.
  rewrite (app_assoc mid enc T).
  rewrite wr_all_over by (rewrite length_app; lia).
  destruct (IH fuel (pre ++ val) (skipn (length val) (mid ++ enc)) Hf) as (buf' & H1 & H2).
  exists buf'.
  assert (Hl : (length (pre ++ val) + length (skipn (length val) (mid ++ enc))
                = length enc + (length pre + length mid))%nat).
  { rewrite length_skipn, !length_app. lia. }
  cbn [Nat.add] in H1. rewrite Hl in H1.
  assert (He : length ((pre ++ val) ++ skipn (length val) (mid ++ enc) ++ T)
               = length (pre ++ (mid ++ enc) ++ T)).
  { rewrite !length_app, length_skipn, !length_app. lia. }
  rewrite He in H1. rewrite length_app in H1, H2. rewrite <- app_assoc in H2.
  replace (length pre + length (val ++ V))%nat
    with (length pre + length val + length V)%nat by (rewrite length_app; lia).
  split; [exact H1|exact H2].
Qed.

Lemma surrogate_pair_range (hi lo : Z) :
  high_surrogate hi = true -> low_surrogate lo = true ->
  65536 + Z.shiftl (hi - 55296) 10 + (lo - 56320) = surrogate_pair hi lo /\
  65536 <= surrogate_pair hi lo <= 1114111.
Proof.
  unfold high_surrogate, low_surrogate, surrogate_pair. intros Hh Hl.
  apply andb_true_iff in Hh, Hl. destruct Hh as [H1 H2], Hl as [H3 H4].
  rewrite Z.shiftl_mul_pow2 by lia. change (2 ^ 10) with 1024. lia.
Qed.

Lemma length_string_body (items : list Escape) :
  (length items <= length (string_body items))%nat.
Proof.
  induction items as [|i items IH]; [apply Nat.le_refl|].
  unfold string_body in *. cbn [flat_map]. rewrite length_app.
  destruct i; cbn [escape_text length]; lia.
Qed.

(** The in-place decoder, one escape sequence after the other. *)
Lemma decode_loop_escapes (items : list Escape) :
  forallb well_formed items = true ->
  forall fuel pre mid,
    (length items <= fuel)%nat ->
    exists buf',
      decode_loop fuel (pre ++ mid ++ string_body items) (0 + (length pre + length mid))
                  (length pre) (length (pre ++ mid ++ string_body items))
      = (buf', (length pre + length (string_bytes items))%nat) /\
      firstn (length pre + length (string_bytes items)) buf' = pre ++ string_bytes items.
Proof.
  induction items as [|i items IH]; intros Hw fuel pre mid Hf.
  - exists (pre ++ mid ++ []). cbn [string_body string_bytes flat_map length].
    rewrite !app_nil_r, Nat.add_0_r. split.
    + destruct fuel; cbn [decode_loop]; [reflexivity|].
      now rewrite length_app, Nat.eqb_refl.
    + rewrite firstn_app, firstn_all, Nat.sub_diag. cbn [firstn].
      now rewrite app_nil_r.
  - cbn [forallb] in Hw. apply andb_true_iff in Hw. destruct Hw as [Hi Hw].
    specialize (IH Hw).
    destruct fuel as [|fuel]; [cbn [length] in Hf; lia|].
    assert (Hf' : (length items <= fuel)%nat) by (cbn [length] in Hf; lia).
    change (string_body (i :: items)) with (escape_text i ++ string_body items).
    change (string_bytes (i :: items)) with (escape_value i ++ string_bytes items).
    pose proof (decode_written (string_body items) (string_bytes items)
                               (escape_text i) (escape_value i) (length items) IH) as Hstep.
    destruct i as [c|x|a b c d|a b c d e f g h]; cbn [well_formed] in Hi.
    + apply andb_true_iff in Hi. destruct Hi as [_ Hb]. apply negb_true_iff in Hb.
      cbn [escape_text escape_value] in *. cbn [decode_loop].
      rewrite (not_at_end pre mid ([c] ++ string_body items) 0) by (cbn [length app]; lia).
      rewrite (rd_skip pre mid ([c] ++ string_body items) 0). cbn [nth app]. rewrite Hb.
      specialize (Hstep ltac:(cbn [length]; lia) fuel pre mid Hf').
      cbn [wr_all length app] in Hstep. rewrite Nat.add_1_r in Hstep. exact Hstep.
    + destruct (simple_escape x) as [y|] eqn:Ey; [|discriminate Hi].
      cbn [escape_text escape_value] in *. rewrite Ey in *.
      cbn [decode_loop app].
      match goal with |- context [pre ++ mid ++ ?t] => set (l := t) end.
      rewrite (not_at_end pre mid l 0) by (cbn [length l]; lia).
      rewrite (rd_skip pre mid l 0). cbn [nth l]. fold l.
      rewrite char_eqb_refl.
      change (S (0 + (length pre + length mid)))
        with (1 + (length pre + length mid))%nat.
      rewrite (not_at_end pre mid l 1) by (cbn [length l]; lia).
      rewrite (rd_skip pre mid l 1). cbn [nth l]. fold l.
      rewrite Ey.
      specialize (Hstep ltac:(cbn [length]; lia) fuel pre mid Hf').
      cbn [wr_all length app] in Hstep. rewrite Nat.add_1_r in Hstep. exact Hstep.
    + repeat (apply andb_true_iff in Hi; destruct Hi as [Hi ?]).
      match goal with H : negb (high_surrogate _) = true |- _ =>
                        apply negb_true_iff in H; rename H into Hsur end.
      cbn [escape_text escape_value] in *.
      cbn [decode_loop app].
      match goal with |- context [pre ++ mid ++ ?t] => set (l := t) end.
      rewrite (not_at_end pre mid l 0) by (cbn [length l]; lia).
      rewrite (rd_skip pre mid l 0). cbn [nth l]. fold l.
      rewrite char_eqb_refl.
      change (S (0 + (length pre + length mid)))
        with (1 + (length pre + length mid))%nat.
      rewrite (not_at_end pre mid l 1) by (cbn [length l]; lia).
      rewrite (rd_skip pre mid l 1). cbn [nth l]. fold l.
      change (simple_escape "u"%char) with (@None char).
      change (char_eqb "u"%char "u"%char) with true. cbv iota.
      change (S (1 + (length pre + length mid)))
        with (2 + (length pre + length mid))%nat.
      rewrite (read_hex_four pre mid l 2 a b c d (string_body items)) by reflexivity.
      cbv iota beta.
      change ((55296 <=? hex4 a b c d) && (hex4 a b c d <=? 56319))
        with (high_surrogate (hex4 a b c d)).
      rewrite Hsur.
      pose proof (hex4_range a b c d) as Hr.
      destruct (write_utf8_bytes (pre ++ mid ++ l) (length pre) (hex4 a b c d)
                                 ltac:(lia)) as [Hwrite Hlen].
      rewrite Hwrite.
      specialize (Hstep ltac:(cbn [length]; lia) fuel pre mid Hf').
      replace (S (length pre + length (utf8 (hex4 a b c d)) - 1))
        with (length pre + length (utf8 (hex4 a b c d)))%nat by lia.
      exact Hstep.
    + repeat (apply andb_true_iff in Hi; destruct Hi as [Hi ?]).
      match goal with H : high_surrogate _ = true |- _ => rename H into Hhi end.
      match goal with H : low_surrogate _ = true |- _ => rename H into Hlo end.
      cbn [escape_text escape_value] in *.
      cbn [decode_loop app].
      match goal with |- context [pre ++ mid ++ ?t] => set (l := t) end.
      rewrite (not_at_end pre mid l 0) by (cbn [length l]; lia).
      rewrite (rd_skip pre mid l 0). cbn [nth l]. fold l.
      rewrite char_eqb_refl.
      change (S (0 + (length pre + length mid)))
        with (1 + (length pre + length mid))%nat.
      rewrite (not_at_end pre mid l 1) by (cbn [length l]; lia).
      rewrite (rd_skip pre mid l 1). cbn [nth l]. fold l.
      change (simple_escape "u"%char) with (@None char).
      change (char_eqb "u"%char "u"%char) with true. cbv iota.
      change (S (1 + (length pre + length mid)))
        with (2 + (length pre + length mid))%nat.
      rewrite (read_hex_four pre mid l 2 a b c d
                             (BACKSLASH :: "u"%char :: e :: f :: g :: h
                                        :: string_body items)) by reflexivity.
      cbv iota beta.
      change ((55296 <=? hex4 a b c d) && (hex4 a b c d <=? 56319))
        with (high_surrogate (hex4 a b c d)).
      rewrite Hhi.
      change (4 + 2 + (length pre + length mid))%nat
        with (6 + (length pre + length mid))%nat.
      rewrite (not_at_end pre mid l 6) by (cbn [length l]; lia).
      rewrite (rd_skip pre mid l 6). cbn [nth l]. fold l.
      rewrite char_eqb_refl. cbn [negb orb].
      change (S (6 + (length pre + length mid)))
        with (7 + (length pre + length mid))%nat.
      rewrite (not_at_end pre mid l 7) by (cbn [length l]; lia).
      rewrite (rd_skip pre mid l 7). cbn [nth l]. fold l.
      change (char_eqb "u"%char "u"%char) with true. cbn [negb orb].
      change (S (7 + (length pre + length mid)))
        with (8 + (length pre + length mid))%nat.
      rewrite (read_hex_four pre mid l 8 e f g h (string_body items)) by reflexivity.
      cbv iota beta zeta.
      destruct (surrogate_pair_range _ _ Hhi Hlo) as [Hcp Hr].
      rewrite Hcp.
      destruct (write_utf8_bytes (pre ++ mid ++ l) (length pre)
                                 (surrogate_pair (hex4 a b c d) (hex4 e f g h))
                                 ltac:(lia)) as [Hwrite Hlen].
      rewrite Hwrite.
      specialize (Hstep ltac:(cbn [length]; lia) fuel pre mid Hf').
      replace (S (length pre + length (utf8 (surrogate_pair (hex4 a b c d) (hex4 e f g h)))
                  - 1))
        with (length pre + length (utf8 (surrogate_pair (hex4 a b c d) (hex4 e f g h))))%nat
        by lia.
      exact Hstep.
Qed.

Lemma decode_json_string_escapes (items : list Escape) :
  forallb well_formed items = true ->
  decode_json_string (string_body items) = string_bytes items.
Proof.
  intros Hw. unfold decode_json_string.
  destruct (decode_loop_escapes items Hw (length (string_body items)) [] []
                                (length_string_body items))
    as (buf' & H1 & H2).
  cbn [app length Nat.add] in H1, H2. now rewrite H1.
Qed.

Lemma hex_digit_plain (c : char) : is_hex_digit c = true -> is_plain c = true.
Proof.
  destruct c as [[] [] [] [] [] [] [] []]; intros H;
    first [discriminate H | reflexivity].
Qed.

(** [StateString] takes the escape sequences up to the closing quote. *)
Lemma parse_StateString_escapes (items : list Escape) (rest : string_view) :
  forallb well_formed items = true ->
  forall d,
    parse_StateString false d (string_body items ++ DQUOTE :: rest)
    = Done (StateString false (decode_json_string (d ++ string_body items))) rest
           (Some (Value_string (decode_json_string (d ++ string_body items)))) false.
Proof.
  induction items as [|i items IH]; intros Hw d.
  - cbn [string_body flat_map app parse_StateString negb]. rewrite char_eqb_refl.
    now rewrite app_nil_r.
  - cbn [forallb] in Hw. apply andb_true_iff in Hw. destruct Hw as [Hi Hw].
    specialize (IH Hw).
    change (string_body (i :: items)) with (escape_text i ++ string_body items).
    destruct i as [c|x|a b c e|a b c e f g h j]; cbn [well_formed] in Hi;
      cbn [escape_text app].
    + rewrite (parse_StateString_plain d c _ Hi), IH. now rewrite <- app_assoc.
    + rewrite parse_StateString_escape, IH. now rewrite <- !app_assoc.
    + repeat (apply andb_true_iff in Hi; destruct Hi as [Hi ?]).
      rewrite parse_StateString_escape.
      rewrite !parse_StateString_plain by (apply hex_digit_plain; assumption).
      rewrite IH. now rewrite <- !app_assoc.
    + repeat (apply andb_true_iff in Hi; destruct Hi as [Hi ?]).
      rewrite parse_StateString_escape.
      rewrite !parse_StateString_plain by (apply hex_digit_plain; assumption).
      rewrite parse_StateString_escape.
      rewrite !parse_StateString_plain by (apply hex_digit_plain; assumption).
      rewrite IH. now rewrite <- !app_assoc.
Qed.

Lemma reads_text_quoted (items : list Escape) :
  forallb well_formed items = true ->
  forall K rest res r,
    Writes text (mkParser (DetectType :: K)
                          (DQUOTE :: string_body items ++ DQUOTE :: rest) res false) r <->
    After text (unwind DetectType K rest (Value_string (string_bytes items)) false) r.
Proof.
  intros Hw K rest res r.
  rewrite (Writes_frame text DetectType K _ res false
             (More [StateString false []; DetectType]
                   (string_body items ++ DQUOTE :: rest)));
    [|discriminate|now exists 0%nat].
  unfold After at 1. cbn [after_step fst snd app].
  rewrite (Writes_frame text (StateString false []) (DetectType :: K) _ res false
             (Done (StateString false (decode_json_string ([] ++ string_body items))) rest
                   (Some (Value_string (decode_json_string ([] ++ string_body items))))
                   false)).
  - cbn [after_step assign orb app]. rewrite ?unwind_DetectType.
    now rewrite (decode_json_string_escapes items Hw).
  - destruct (string_body items); discriminate.
  - exists 0%nat. cbn [parse_state]. f_equal. now apply parse_StateString_escapes.
Qed.

(** X20: for every sequence of well-formed escape sequences (plain bytes,
    two-byte escapes, [\uXXXX] and surrogate pairs), the in-place decoder
    gives the bytes they stand for, with every code point in UTF-8; and
    [parse] reads the quoted text as the string of these bytes. *)
Theorem X20_escapes_decoded (items : list Escape) (k : nat) :
  forallb well_formed items = true ->
  decode_json_string (string_body items) = string_bytes items /\
  exists fuel,
    parse (fuel + k) (DQUOTE :: string_body items ++ [DQUOTE])
    = Some (Ok (Value_string (string_bytes items))).
Proof.
  intros Hw. split; [now apply decode_json_string_escapes|].
  pose proof (reads_text_quoted items Hw [] [] V_undefined
                                (false, mkParser [] [] (Value_string (string_bytes items))
                                                 false)) as H.
  destruct (proj2 H eq_refl) as [fuel Hf].
  exists fuel. unfold parse, parse_with, write.
  cbn [new_Parser _state _result _is_error].
  rewrite (write_loop_mono text fuel (fuel + k) _ _ Hf) by lia. reflexivity.
Qed.

Lemma X20_escapes_decoded_witness :
  forallb well_formed escapes_example = true /\
  decode_json_string (string_body escapes_example)
  = ["a"; "A"; "195"; "169"; "226"; "130"; "172"; "240"; "159"; "152"; "128"; "010"]%char.
Proof.
  split; [reflexivity|].
  rewrite (proj1 (X20_escapes_decoded escapes_example 0 eq_refl)). reflexivity.
Defined.

(** ** The layout of the binary format *)

Lemma count_bytes_loop_least (i : nat) :
  forall tmp acc,
    0 <= tmp ->
    exists n, count_bytes_loop i tmp acc = acc + n /\
              (tmp = 0 -> n = 0) /\
              (0 < tmp -> (0 < i)%nat -> 1 <= n /\ 2 ^ (8 * (n - 1)) <= tmp).
Proof.
  induction i as [|i IH]; intros tmp acc H.
  - exists 0. cbn [count_bytes_loop]. repeat split; lia.
  - cbn [count_bytes_loop]. destruct (Z.ltb_spec 0 tmp) as [Hp|Hz].
    + assert (Hs : 0 <= Z.shiftr tmp 8) by (apply Z.shiftr_nonneg; lia).
      destruct (IH (Z.shiftr tmp 8) (acc + 1) Hs) as (n & En & Hzero & Hpos).
      exists (1 + n). split; [lia|]. split; [lia|]. intros _ _.
      rewrite Z.shiftr_div_pow2 in Hzero, Hpos by lia. change (2 ^ 8) with 256 in *.
      pose proof (Z.div_mod tmp 256 ltac:(lia)) as Hd.
      pose proof (Z.mod_pos_bound tmp 256 ltac:(lia)) as Hm.
      destruct (Z.eq_dec (tmp / 256) 0) as [Hq|Hq].
      * rewrite (Hzero Hq). change (2 ^ (8 * (1 + 0 - 1))) with 1. lia.
      * assert (Hq' : 0 < tmp / 256) by (pose proof (Z.div_pos tmp 256); lia).
        destruct i as [|i].
        -- cbn [count_bytes_loop] in En. assert (n = 0) by lia. subst n.
           change (2 ^ (8 * (1 + 0 - 1))) with 1. lia.
        -- destruct (Hpos Hq' ltac:(lia)) as [Hn Hle].
           split; [lia|].
           replace (8 * (1 + n - 1)) with (8 + 8 * (n - 1)) by lia.
           rewrite Z.pow_add_r by lia. change (2 ^ 8) with 256. lia.
    + assert (tmp = 0) by lia. subst tmp.
      exists 0. rewrite Z.shiftr_0_l, count_bytes_loop_zero. repeat split; lia.
Qed.

Lemma be_value_emit (size : Z) :
  0 <= size ->
  forall (c : nat) acc,
    fold_left (fun acc c => 256 * acc + code c) (emit_bytes c size) acc
    = acc * 256 ^ Z.of_nat c + size mod 256 ^ Z.of_nat c.
Proof.
  intros Hs. induction c as [|c IH]; intros acc.
  - cbn [emit_bytes fold_left Z.of_nat]. rewrite Z.pow_0_r, Z.mod_1_r. lia.
  - cbn [emit_bytes fold_left]. rewrite IH, code_chr.
    change 255 with (Z.ones 8). rewrite Z.land_ones, Z.shiftr_div_pow2 by lia.
    change (2 ^ 8) with 256.
    rewrite (Z.mod_small (_ mod 256) 256) by (apply Z.mod_pos_bound; lia).
    replace (2 ^ (Z.of_nat c * 8)) with (256 ^ Z.of_nat c)
      by (rewrite Z.mul_comm, Z.pow_mul_r by lia; reflexivity).
    rewrite Nat2Z.inj_succ, Z.pow_succ_r by lia.
    assert (Hp : 0 < 256 ^ Z.of_nat c) by (apply Z.pow_pos_nonneg; lia).
    rewrite (Z.mul_comm 256 (256 ^ Z.of_nat c)).
    rewrite (Z.rem_mul_r size (256 ^ Z.of_nat c) 256) by lia. lia.
Qed.

Lemma length_emit_bytes (c : nat) (size : Z) : length (emit_bytes c size) = c.
Proof. induction c as [|c IH]; cbn [emit_bytes length]; [reflexivity|now rewrite IH]. Qed.

Lemma header_tag (t : Z) (n : nat) :
  In t header_types -> (1 <= n <= 8)%nat ->
  Z.lor t (Z.of_nat n - 1) = t + (Z.of_nat n - 1).
Proof.
  intros Ht Hn.
  assert (Hall : forallb (fun t => forallb (fun n =>
              Z.lor t (Z.of_nat n - 1) =? t + (Z.of_nat n - 1)) (seq 1 8))
                         header_types = true) by reflexivity.
  rewrite forallb_forall in Hall. specialize (Hall t Ht).
  rewrite forallb_forall in Hall. apply Z.eqb_eq, Hall, in_seq. lia.
Qed.

(** X22: a length or the magnitude of an integer is written in the binary
    format as the tag plus the count of bytes less one, followed by that
    many bytes, most significant first, which denote the number; the count
    is the least that holds the number, and at least one. *)
Theorem X22_binary_header_is_minimal (type size : Z) :
  In type header_types -> 0 <= size < 2 ^ 64 ->
  exists n : nat,
    (1 <= n <= 8)%nat /\
    render_binary_type_size type size
    = chr (type + (Z.of_nat n - 1)) :: emit_bytes n size /\
    length (emit_bytes n size) = n /\
    be_value (emit_bytes n size) = size /\
    (n = 1%nat \/ 256 ^ (Z.of_nat n - 1) <= size).
Proof.
  intros Ht Hs. unfold render_binary_type_size. fold (count_bytes size).
  destruct (count_bytes_spec size Hs) as [Hn Hlt].
  exists (Z.to_nat (count_bytes size)).
  assert (Hid : Z.of_nat (Z.to_nat (count_bytes size)) = count_bytes size)
    by (apply Z2Nat.id; lia).
  split; [lia|]. split.
  - rewrite Hid. f_equal. f_equal.
    rewrite <- Hid at 1. rewrite header_tag by (try exact Ht; lia). now rewrite Hid.
  - split; [apply length_emit_bytes|]. split.
    + unfold be_value. rewrite be_value_emit by lia. rewrite Hid.
      replace (256 ^ count_bytes size) with (2 ^ (8 * count_bytes size))
        by (rewrite Z.pow_mul_r by lia; reflexivity).
      rewrite Z.mod_small by lia. lia.
    + rewrite Hid. unfold count_bytes in *.
      destruct (count_bytes_loop_least 8 size 0 ltac:(lia)) as (n & En & Hzero & Hpos).
      rewrite En in *. cbn [Z.add] in *.
      destruct (Z.eq_dec size 0) as [->|Hnz].
      * rewrite (Hzero eq_refl). now left.
      * destruct (Hpos ltac:(lia) ltac:(lia)) as [H1 Hle].
        right. rewrite Z.max_r by lia.
        replace (256 ^ (n - 1)) with (2 ^ (8 * (n - 1)))
          by (rewrite Z.pow_mul_r by lia; reflexivity).
        exact Hle.
Qed.

Lemma X22_binary_header_is_minimal_witness :
  In BinaryType.array header_types /\
  render_binary_type_size BinaryType.array 4660 = ["049"; "018"; "052"]%char /\
  exists n : nat,
    render_binary_type_size BinaryType.array 4660
    = chr (BinaryType.array + (Z.of_nat n - 1)) :: emit_bytes n 4660 /\
    be_value (emit_bytes n 4660) = 4660.
Proof.
  assert (Ht : In BinaryType.array header_types) by (cbn; tauto).
  split; [exact Ht|]. split; [reflexivity|].
  destruct (X22_binary_header_is_minimal BinaryType.array 4660 Ht ltac:(lia))
    as (n & _ & E & _ & Hv & _).
  exists n. split; [exact E|exact Hv].
Defined.

(** ** Values made from a type *)

(** X23: a value made from a type has that type and holds nothing: its
    [size] is zero, [empty] holds, and it reads as a string as the empty
    string (as [(undefined)], [null] and [false] for these three types).
    It is not counted as a container even for the types array and object;
    it has a value unless the type is undefined or null. *)
Theorem X23_value_of_type (t : Type_) :
  type (Value_of_Type t) = t /\
  size (Value_of_Type t) = 0%nat /\ empty (Value_of_Type t) = true /\
  is_container (Value_of_Type t) = false /\ get_bool (Value_of_Type t) = false /\
  has_value (Value_of_Type t) = negb (Type_eqb t T_undefined || Type_eqb t T_null) /\
  defined (Value_of_Type t) = negb (Type_eqb t T_undefined) /\
  get_string (Value_of_Type t)
  = match t with
    | T_undefined => undefined_value
    | T_null => null_value
    | T_boolean => false_value
    | _ => []
    end.
Proof. destruct t; repeat split. Qed.

(** ** Bytes that start no value *)

Lemma DetectType_text_no_value (c : char) (rest : string_view) :
  isspace c = false -> starts_value c = false ->
  parse_DetectType_text (c :: rest) = Done DetectType (c :: rest) None true.
Proof.
  unfold parse_DetectType_text. cbn [skip_space]. intros ->.
  destruct c as [[] [] [] [] [] [] [] []]; intros H;
    first [discriminate H | reflexivity].
Qed.

Lemma DetectType_binary_unknown (c : char) (rest : string_view) :
  unknown_tag c = true ->
  parse_DetectType_binary (c :: rest) = Done DetectType rest None true.
Proof.
  unfold parse_DetectType_binary.
  destruct c as [[] [] [] [] [] [] [] []]; intros H;
    first [discriminate H | reflexivity].
Qed.

Lemma write_text_no_value (ws rest : string_view) (c : char) (k : nat) (p : Parser)
      (K : list State) :
  forallb isspace ws = true -> isspace c = false -> starts_value c = false ->
  _state p = DetectType :: K ->
  write text (S k) p (ws ++ c :: rest)
  = Some (false, mkParser (DetectType :: K) (c :: rest) (_result p) true).
Proof.
  intros Hws Hc Hv Hst. unfold write. rewrite Hst.
  assert (Hd : parse_DetectType_text (ws ++ c :: rest)
               = Done DetectType (c :: rest) None true).
  { rewrite <- (DetectType_text_no_value c rest Hc Hv).
    unfold parse_DetectType_text. now rewrite skip_space_spaces. }
  destruct (ws ++ c :: rest) as [|a l] eqn:E; [now destruct ws|].
  cbn [write_loop _pos]. unfold do_parse_cycle.
  cbn [_state _pos _result _is_error parse_state]. rewrite Hd.
  cbn [assign orb]. now rewrite unwind_error_kept.
Qed.

Lemma write_binary_unknown (rest : string_view) (c : char) (k : nat) (p : Parser)
      (K : list State) :
  unknown_tag c = true -> _state p = DetectType :: K ->
  write binary (S k) p (c :: rest)
  = Some (false, mkParser (DetectType :: K) rest (_result p) true).
Proof.
  intros Hc Hst. unfold write. rewrite Hst.
  cbn [write_loop _pos]. unfold do_parse_cycle.
  cbn [_state _pos _result _is_error parse_state].
  rewrite (DetectType_binary_unknown c rest Hc).
  cbn [assign orb]. now rewrite unwind_error_kept.
Qed.

(** X24: where a value is expected, at whatever depth of nesting, a byte
    that starts no value stops the parser with the error flag set.  The
    text parser skips the white space in front and leaves the byte itself
    unread; the binary parser has read the unknown tag.  So [parse] reports
    the offset of the byte and [unbinarize] the offset after it; and text
    that is empty or only white space is reported as incomplete, with the
    offset of its end. *)
Theorem X24_no_value_error_offset (ws rest : string_view) (c : char) (k : nat)
        (p : Parser) (K : list State) :
  forallb isspace ws = true -> _state p = DetectType :: K ->
  (isspace c = false -> starts_value c = false ->
   (exists p', write text (S k) p (ws ++ c :: rest) = Some (false, p') /\
               is_error p' = true /\ get_unprocessed_data p' = c :: rest /\
               get_result p' = V_undefined) /\
   parse (S k) (ws ++ c :: rest) = Some (ParseError (length ws))) /\
  (unknown_tag c = true ->
   (exists p', write binary (S k) p (c :: rest) = Some (false, p') /\
               is_error p' = true /\ get_unprocessed_data p' = rest /\
               get_result p' = V_undefined) /\
   unbinarize (S k) (c :: rest) = Some (ParseError 1)) /\
  parse (S k) ws = Some (ParseError (length ws)) /\
  unbinarize k [] = Some (ParseError 0).
Proof.
  intros Hws Hst. repeat split.
  - eexists. split; [apply (write_text_no_value ws rest c k p K); assumption|].
    repeat split.
  - unfold parse, parse_with.
    rewrite (write_text_no_value ws rest c k new_Parser []) by (assumption || reflexivity).
    cbn [is_error _is_error get_unprocessed_data _pos]. do 2 f_equal.
    rewrite length_app. cbn [length]. lia.
  - eexists. split; [apply (write_binary_unknown rest c k p K); assumption|].
    repeat split.
  - unfold unbinarize, parse_with.
    rewrite (write_binary_unknown rest c k new_Parser []) by (assumption || reflexivity).
    cbn [is_error _is_error get_unprocessed_data _pos]. do 2 f_equal.
    cbn [length]. lia.
  - unfold parse, parse_with, write. cbn [new_Parser _state _result _is_error].
    destruct ws as [|a l] eqn:E; [reflexivity|]. rewrite <- E in *.
    assert (Hd : parse_DetectType_text ws = More [DetectType] []).
    { unfold parse_DetectType_text.
      rewrite <- (app_nil_r ws), skip_space_spaces by exact Hws. reflexivity. }
    rewrite E at 1. cbn [write_loop _pos]. unfold do_parse_cycle.
    cbn [_state _pos _result _is_error parse_state]. rewrite <- E, Hd.
    cbn [app]. destruct k; reflexivity.
  - unfold unbinarize, parse_with, write. destruct k; reflexivity.
Qed.

Lemma X24_no_value_error_offset_witness :
  parse 1 (str "  ?") = Some (ParseError 2) /\
  unbinarize 1 ["200"%char] = Some (ParseError 1) /\
  parse 1 (str "  ") = Some (ParseError 2).
Proof.
  pose proof (X24_no_value_error_offset (str "  ") [] "?"%char 0 new_Parser []
                eq_refl eq_refl) as (Ht & _ & Hs & _).
  pose proof (X24_no_value_error_offset [] [] "200"%char 0 new_Parser []
                eq_refl eq_refl) as (_ & Hb & _).
  split; [exact (proj2 (Ht eq_refl eq_refl))|].
  split; [exact (proj2 (Hb eq_refl))|exact Hs].
Defined.
